(** * Aided: reactive core, ownership scopes and LIS-based keyed reconciliation

    A shallow embedding of the TypeScript sources
    - [internal/lis.ts]        (modules [Lis], [Patience]),
    - [components/For.ts]      (modules [Reconciler], [Keyed]),
    - [internal/scheduler.ts], [primitives/signal.ts], [primitives/effect.ts]
                               (module [Reactive]),
    - [primitives/memo.ts]     (module [Memo]),
    - [primitives/effect.ts] with [lifecycle/lifecycle.ts]
                               (module [Owned]),
    - [lifecycle/lifecycle.ts], [lifecycle/context.ts]
                               (modules [Lifecycle], [Context]),
    - [components/virtualizer.ts], [components/Show.ts]
                               (modules [Virtualizer], [ShowComponent]),
    together with the properties the design document states about them and
    further properties read off the code.

    A JavaScript number is [NaN], an infinity or a finite number, and the
    finite numbers are the integers [Z] (fractions are outside the model);
    indices and lengths are integers. A value that may be [undefined] is an
    [option]. *)

From stdpp Require Import base tactics option list numbers strings sets gmap.
From Stdlib Require Import ZArith Lia.

(** ** JavaScript values used by the sources *)

Module Js.

Local Open Scope Z_scope.

(** A number, or [undefined] ([None]). *)
Abbreviation value := (option Z).

(** [arr[i]] on an array-like: [undefined] outside the bounds. *)
Definition get {A} (arr : list A) (i : Z) : option A :=
  if i <? 0 then None else arr !! Z.to_nat i.

(** [arr[idx]] where the index itself may be [undefined]. *)
Definition get_at {A} (arr : list A) (idx : value) : option A :=
  idx ≫= get arr.

(** [arr[i]] on a plain array of numbers: a hole reads as [undefined]. *)
Definition array_get (arr : list value) (i : Z) : value := mjoin (get arr i).

(** [new Array(n)]: [n] holes. *)
Definition new_Array (n : nat) : list value := replicate n None.

(** [arr[i] = v] on a plain array: in range it overwrites, past the end the
    array grows (holes in between); negative indices are not elements. *)
Definition array_set (arr : list value) (i : Z) (v : Z) : list value :=
  if i <? 0 then arr
  else if i <? Z.of_nat (length arr) then <[Z.to_nat i := Some v]> arr
  else arr ++ replicate (Z.to_nat i - length arr) None ++ [Some v].

(** [a === b] on numbers-or-undefined. *)
Definition strict_eq (a b : value) : bool := bool_decide (a = b).

(** [a ?? b] *)
Definition nullish (a : value) (b : Z) : Z := default b a.

(** [ToUint32] on integers, and on [undefined] (which converts to 0). *)
Definition to_uint32 (x : Z) : Z := x mod 2 ^ 32.
Definition to_uint32_value (x : value) : Z := to_uint32 (default 0 x).

(** [x >>> 1] *)
Definition ushr1 (x : Z) : Z := Z.shiftr (to_uint32 x) 1.

(** [new Uint32Array(n)]: zero-filled. *)
Definition new_Uint32Array (n : nat) : list Z := replicate n 0.

(** A [subarray(off, off + size)] view onto a typed-array buffer. The view
    shares the buffer: reads and writes go to the underlying cells. *)
Record view := View { v_off : nat; v_size : nat }.

Definition view_get (buf : list Z) (v : view) (i : Z) : value :=
  if (0 <=? i) && (i <? Z.of_nat (v_size v)) then buf !! (v_off v + Z.to_nat i)%nat
  else None.

(** Typed-array store: converts with [ToUint32]; out of range it is ignored. *)
Definition view_set (buf : list Z) (v : view) (i : Z) (x : value) : list Z :=
  if (0 <=? i) && (i <? Z.of_nat (v_size v))
  then <[(v_off v + Z.to_nat i)%nat := to_uint32_value x]> buf
  else buf.

(** JavaScript numbers: the elements of an input sequence, a [length]
    property, a threshold. *)
Inductive number := NaN | PosInfinity | NegInfinity | Finite (z : Z).

#[global] Instance number_eq_dec : EqDecision number.
Proof. solve_decision. Defined.

Definition number_isFinite (x : number) : bool :=
  match x with Finite _ => true | _ => false end.

(** [x < y] on numbers: false as soon as one side is [NaN]. *)
Definition number_lt (x y : number) : bool :=
  match x, y with
  | NaN, _ | _, NaN => false
  | Finite a, Finite b => a <? b
  | Finite _, PosInfinity => true
  | NegInfinity, Finite _ => true
  | NegInfinity, PosInfinity => true
  | _, _ => false
  end.

(** An element read from an array-like of numbers: [undefined] outside the
    bounds. *)
Abbreviation elem := (option number).

(** [a < b] on elements: [undefined] converts to [NaN]. *)
Definition elem_lt (a b : elem) : bool :=
  match a, b with
  | Some x, Some y => number_lt x y
  | _, _ => false
  end.

(** [a === b] on elements: [NaN] is equal to nothing, itself included. *)
Definition elem_strict_eq (a b : elem) : bool :=
  match a, b with
  | Some NaN, _ | _, Some NaN => false
  | _, _ => bool_decide (a = b)
  end.

(** An array of integers, as an array of numbers. *)
Definition ints (xs : list Z) : list number := Finite <$> xs.

(** [n < t] for an integer [n] and a number [t]. *)
Definition lt_number (n : Z) (t : number) : bool :=
  match t with
  | Finite z => n <? z
  | PosInfinity => true
  | _ => false
  end.

End Js.

(** ** internal/lis.ts *)

Module Lis.

Import Js.
Local Open Scope Z_scope.

(** The binary search of both implementations (the loop is textually the
    same in [lis_small] and [lis_large]); [tail_value mid] stands for
    [seq[tails[mid]]]. The [while] loop is run with fuel: [None] means the
    fuel ran out. *)
Fixpoint bsearch (fuel : nat) (tail_value : Z → elem) (num : elem)
    (lo hi : Z) : option Z :=
  if lo <? hi then
    match fuel with
    | O => None
    | S fuel' =>
        let mid := ushr1 (lo + hi) in
        if elem_lt (tail_value mid) num
        then bsearch fuel' tail_value num (mid + 1) hi
        else bsearch fuel' tail_value num lo mid
    end
  else Some lo.

(** A [for (let i = 0; i < n; i++)] loop whose body may run out of fuel. *)
Fixpoint for_each {St} (body : St → Z → option St) (indices : list Z) (st : St)
    : option St :=
  match indices with
  | [] => Some st
  | i :: rest => st' ← body st i; for_each body rest st'
  end.

(** *** lis_small *)

Record small_state := SmallState {
  s_predecessors : list value;
  s_tails : list value;
  s_len : Z
}.

Definition small_body (fuel : nat) (seq : list number) (st : small_state) (i : Z)
    : option small_state :=
  let num := get seq i in
  if elem_strict_eq num (Some (Finite (-1))) then
    Some (SmallState (array_set (s_predecessors st) i (-1)) (s_tails st) (s_len st))
  else
    lo ← bsearch fuel (λ mid, get_at seq (array_get (s_tails st) mid)) num 0 (s_len st);
    let preds1 :=
      array_set (s_predecessors st) i
        (nullish (array_get (s_tails st) (lo - 1)) (-1)) in
    let preds2 := if lo =? 0 then array_set preds1 i (-1) else preds1 in
    let tails' := array_set (s_tails st) lo i in
    Some (SmallState preds2 tails' (if lo =? s_len st then s_len st + 1 else s_len st)).

(** The reconstruction loop fills [lis[len-1]], ..., [lis[0]] in this order,
    so each [k] is put in front of what is already there. *)
Fixpoint small_reconstruct (predecessors : list value) (count : nat)
    (k : value) (lis : list value) : list value :=
  match count with
  | O => lis
  | S count' =>
      small_reconstruct predecessors count' (k ≫= array_get predecessors) (k :: lis)
  end.

Definition lis_small (fuel : nat) (seq : list number) : option (list value) :=
  let n := length seq in
  if (n =? 0)%nat then Some []
  else if (n =? 1)%nat then
    Some (if elem_strict_eq (get seq 0) (Some (Finite (-1))) then [] else [Some 0])
  else
    st ← for_each (small_body fuel seq) (seqZ 0 (Z.of_nat n))
            (SmallState (new_Array n) (new_Array n) 0);
    if s_len st =? 0 then Some []
    else
      Some (small_reconstruct (s_predecessors st) (Z.to_nat (s_len st))
              (array_get (s_tails st) (s_len st - 1)) []).

(** *** lis_large *)

Definition SENTINEL : Z := 0xFFFFFFFF.

Record large_state := LargeState {
  l_buffer : list Z;
  l_len : Z
}.

Section large.
(** [predecessors = buffer.subarray(0, n)], [tails = buffer.subarray(n, 2 * n)] *)
Context (n : nat).
Let predecessors := View 0 n.
Let tails := View n n.

Definition large_body (fuel : nat) (seq : list number) (st : large_state) (i : Z)
    : option large_state :=
  let buf := l_buffer st in
  let num := get seq i in
  if elem_strict_eq num (Some (Finite (-1))) then
    Some (LargeState (view_set buf predecessors i (Some SENTINEL)) (l_len st))
  else
    lo ← bsearch fuel (λ mid, get_at seq (view_get buf tails mid)) num 0 (l_len st);
    let buf1 :=
      if 0 <? lo then view_set buf predecessors i (view_get buf tails (lo - 1))
      else view_set buf predecessors i (Some SENTINEL) in
    let buf2 := view_set buf1 tails lo (Some i) in
    Some (LargeState buf2 (if lo =? l_len st then l_len st + 1 else l_len st)).

Fixpoint large_reconstruct (buf : list Z) (count : nat) (k : value)
    (lis : list value) : list value :=
  match count with
  | O => lis
  | S count' =>
      let pred := k ≫= view_get buf predecessors in
      let k' := if negb (strict_eq pred (Some SENTINEL)) then pred else Some (-1) in
      large_reconstruct buf count' k' (k :: lis)
  end.
End large.

Definition lis_large (fuel : nat) (seq : list number) (workBuffer : option (list Z))
    : option (list value) :=
  let n := length seq in
  if (n =? 0)%nat then Some []
  else if (n =? 1)%nat then
    Some (if elem_strict_eq (get seq 0) (Some (Finite (-1))) then [] else [Some 0])
  else
    let needsSize := (2 * n)%nat in
    let buffer :=
      match workBuffer with
      | Some wb => if (needsSize <=? length wb)%nat then wb else new_Uint32Array needsSize
      | None => new_Uint32Array needsSize
      end in
    st ← for_each (large_body n fuel seq) (seqZ 0 (Z.of_nat n)) (LargeState buffer 0);
    if l_len st =? 0 then Some []
    else
      Some (large_reconstruct n (l_buffer st) (Z.to_nat (l_len st))
              (view_get (l_buffer st) (View n n) (l_len st - 1)) []).

(** *** longestIncreasingSubsequence *)

(** The non-finite numbers. *)
Inductive nonfinite := LenNaN | LenPosInfinity | LenNegInfinity.

Definition nonfinite_number (x : nonfinite) : number :=
  match x with
  | LenNaN => NaN
  | LenPosInfinity => PosInfinity
  | LenNegInfinity => NegInfinity
  end.

(** What a caller may pass as [seq]. *)
Inductive input :=
  | InNull
  | InUndefined
  | InNoLength                        (* an object whose [length] is not a number *)
  | InNonFiniteLength (len : nonfinite) (* an object whose [length] is that number *)
  | InArrayLike (elems : list number). (* a well-formed array-like of numbers *)

Definition truthy (seq : input) : bool :=
  match seq with InNull | InUndefined => false | _ => true end.

(** [seq.length], when it is a number. *)
Definition length_prop (seq : input) : option number :=
  match seq with
  | InNonFiniteLength len => Some (nonfinite_number len)
  | InArrayLike elems => Some (Finite (Z.of_nat (length elems)))
  | _ => None
  end.

Definition typeof_is_number (x : option number) : bool :=
  match x with Some _ => true | None => false end.

Definition isFinite (x : option number) : bool :=
  match x with Some y => number_isFinite y | None => false end.

Definition elements (seq : input) : list number :=
  match seq with InArrayLike elems => elems | _ => [] end.

Record LISConfig := { smallArrayThreshold : number }.

Definition default_config : LISConfig := {| smallArrayThreshold := Finite 64 |}.

Definition longestIncreasingSubsequence (config : LISConfig) (fuel : nat)
    (seq : input) (workBuffer : option (list Z)) : option (list value) :=
  if negb (truthy seq) || negb (typeof_is_number (length_prop seq))
     || negb (isFinite (length_prop seq))
  then Some []
  else
    let n := length (elements seq) in
    if (n =? 0)%nat then Some []
    else if lt_number (Z.of_nat n) (smallArrayThreshold config)
    then lis_small fuel (elements seq)
    else lis_large fuel (elements seq) workBuffer.

(** Input the validation step is there for: [null]/[undefined], or a
    [length] that is missing (not a number) or not finite. *)
Definition malformed (seq : input) : Prop :=
  match seq with
  | InNull | InUndefined | InNoLength | InNonFiniteLength _ => True
  | InArrayLike _ => False
  end.

End Lis.

(** ** What the design document asks of the LIS engine *)

Module LisSpec.

(** Entry [k] of a sequence of numbers exists and is not the skip marker. *)
Definition not_skipped (seq : list Js.number) (k : nat) : Prop :=
  ∃ x, seq !! k = Some x ∧ x ≠ Js.Finite (-1).

(** [seq[a] < seq[b]] *)
Definition rising (seq : list Js.number) (a b : nat) : Prop :=
  ∃ x y, seq !! a = Some x ∧ seq !! b = Some y ∧ Js.number_lt x y = true.

(** [l] lists, in order, the indices of a strictly increasing subsequence of
    the non-skipped entries of [seq]. *)
Definition valid_subsequence (seq : list Js.number) (l : list nat) : Prop :=
  (∀ j i, l !! j = Some i → not_skipped seq i) ∧
  (∀ j a b, l !! j = Some a → l !! S j = Some b → a < b ∧ rising seq a b).

(** The same on a sequence of integers, where the values can be compared
    in [Z]. *)

(** Entry [k] of the input exists and is not the skip marker. *)
Definition live (seq : list Z) (k : nat) : Prop :=
  ∃ v, seq !! k = Some v ∧ v ≠ (-1)%Z.

Definition val (seq : list Z) (k : nat) : Z := default 0%Z (seq !! k).

(** [l] lists, in order, the indices of a strictly increasing subsequence of
    the non-skipped entries of [seq]. *)
Definition increasing_subsequence (seq : list Z) (l : list nat) : Prop :=
  (∀ j i, l !! j = Some i → live seq i) ∧
  (∀ j a b, l !! j = Some a → l !! S j = Some b →
     a < b ∧ (val seq a < val seq b)%Z).

(** The JavaScript array holding the indices [l]. *)
Definition index_array (l : list nat) : list Js.value :=
  (λ i, Some (Z.of_nat i)) <$> l.

(** The three parts of the validity property, for a returned array [r]. *)
Definition lis_result (seq : list Z) (r : list Js.value) : Prop :=
  ∃ l, r = index_array l
     ∧ increasing_subsequence seq l
     ∧ ∀ l', increasing_subsequence seq l' → length l' ≤ length l.

(** The three parts of the validity property on a sequence of numbers: the
    returned array [r] references no skipped entry, the values at
    consecutive returned indices increase strictly, and no valid
    subsequence is longer. *)
Definition valid_and_maximal (seq : list Js.number) (r : list Js.value) : Prop :=
  ∃ l, r = index_array l
     ∧ valid_subsequence seq l
     ∧ ∀ l', valid_subsequence seq l' → length l' ≤ length l.

End LisSpec.

(** ** The loop invariant of the patience-sorting pass *)

Module LisInv.

Import LisSpec.

(** A subsequence read backwards: it ends at [k] and continues (towards the
    front) with [rl]. *)
Fixpoint rvalid (seq : list Z) (k : nat) (rl : list nat) : Prop :=
  match rl with
  | [] => live seq k
  | p :: rest => live seq k ∧ p < k ∧ (val seq p < val seq k)%Z ∧ rvalid seq p rest
  end.

(** Following the recorded predecessors from [k] visits exactly [rl]. *)
Fixpoint rchain (preds : list (option nat)) (k : nat) (rl : list nat) : Prop :=
  match rl with
  | [] => preds !! k = Some None
  | p :: rest => preds !! k = Some (Some p) ∧ rchain preds p rest
  end.

(** The state after [i] entries: [preds] holds the predecessor of every
    entry seen so far, [ts] the indices [tails[0..len)]. *)
Record Inv (seq : list Z) (i : nat) (preds : list (option nat)) (ts : list nat)
    : Prop := {
  inv_preds : length preds = i;
  inv_bound : i ≤ length seq;
  inv_chain : ∀ j t, ts !! j = Some t →
      ∃ rl, rchain preds t rl ∧ length rl = j ∧ rvalid seq t rl;
  inv_sorted : ∀ j a b, ts !! j = Some a → ts !! S j = Some b →
      (val seq a < val seq b)%Z;
  inv_opt : ∀ k rl, k < i → rvalid seq k rl →
      ∃ t, ts !! length rl = Some t ∧ (val seq t ≤ val seq k)%Z
}.

(** Writing index [i] at position [lo] of the tails. *)
Definition place (lo i : nat) (ts : list nat) : list nat :=
  if decide (lo = length ts) then ts ++ [i] else <[lo := i]> ts.

Definition pred_at (lo : nat) (ts : list nat) : option nat :=
  match lo with O => None | S j => ts !! j end.

(** How [lis_small] stores the abstract state: [-1] for "no predecessor". *)
Definition enc_pred (o : option nat) : Z :=
  match o with None => (-1)%Z | Some p => Z.of_nat p end.

Record SmallRel (n : nat) (st : Lis.small_state) (preds : list (option nat))
    (ts : list nat) : Prop := {
  sr_plen : length (Lis.s_predecessors st) = n;
  sr_tlen : length (Lis.s_tails st) = n;
  sr_len : Lis.s_len st = Z.of_nat (length ts);
  sr_preds : ∀ k o, preds !! k = Some o →
      Lis.s_predecessors st !! k = Some (Some (enc_pred o));
  sr_tails : ∀ j t, ts !! j = Some t →
      Lis.s_tails st !! j = Some (Some (Z.of_nat t))
}.

(** How [lis_large] stores it in the [Uint32Array]: [SENTINEL] for "no
    predecessor", predecessors in the first half, tails in the second. *)
Definition enc_pred32 (o : option nat) : Z :=
  match o with None => Lis.SENTINEL | Some p => Z.of_nat p end.

Record LargeRel (n : nat) (st : Lis.large_state) (preds : list (option nat))
    (ts : list nat) : Prop := {
  lr_blen : 2 * n ≤ length (Lis.l_buffer st);
  lr_len : Lis.l_len st = Z.of_nat (length ts);
  lr_preds : ∀ k o, preds !! k = Some o →
      Lis.l_buffer st !! k = Some (enc_pred32 o);
  lr_tails : ∀ j t, ts !! j = Some t →
      Lis.l_buffer st !! (n + j) = Some (Z.of_nat t)
}.

End LisInv.


(** ** components/For.ts *)

Module Reconciler.

Import Js.

(** DOM nodes are named by numbers; [endMarker] is the text node the
    component appends to its container first. *)
Definition node := nat.
Definition endMarker : node := 0.

(** A node is an element, a text node or a comment, or it is a
    [DocumentFragment], which holds nodes of its own and is never a child
    itself. [fragments_map] lists the fragments there are, each with the
    nodes it holds now; any other node is of the first kind. *)
Definition fragments_map := list (node * list node).

(** What the component and the code it calls can see of the document. *)
Record document := {
  doc_children : list node;       (* the children of [endMarker.parentNode] *)
  doc_fragments : fragments_map;
  doc_fresh : node                (* the nodes made so far are those below *)
}.

(** What the cleanups registered in a root do to the document when the root
    is disposed; [None] when one of them throws. *)
Definition cleanups := document → option document.

Definition no_cleanups : cleanups := λ doc, Some doc.

(** A [MappedItem]: its node, the cleanups that the prop [children] has
    registered in the root of the item (the [disposer] runs them after the
    one the component adds itself), and the current values of the item
    signal and of the index signal ([setSignal], [setIndex]). *)
Record MappedItem := {
  mi_node : node;
  mi_cleanups : cleanups;
  mi_item : string;
  mi_index : nat
}.

(** A JavaScript [Map]: entries in insertion order; [set] on a present key
    replaces the value where it is. *)
Definition map_get {V} (m : list (string * V)) (k : string) : option V :=
  (λ r, snd (snd r)) <$> list_find (λ e, fst e = k) m.

Definition map_has {V} (m : list (string * V)) (k : string) : bool :=
  bool_decide (is_Some (map_get m k)).

Fixpoint map_set {V} (m : list (string * V)) (k : string) (v : V)
    : list (string * V) :=
  match m with
  | [] => [(k, v)]
  | e :: rest => if decide (fst e = k) then (k, v) :: rest else e :: map_set rest k v
  end.

(** The same, keyed by nodes (for [oldMap]). *)
Fixpoint node_map_set (m : list (node * nat)) (k : node) (v : nat)
    : list (node * nat) :=
  match m with
  | [] => [(k, v)]
  | e :: rest => if decide (fst e = k) then (k, v) :: rest else e :: node_map_set rest k v
  end.

Definition node_map_get (m : list (node * nat)) (k : node) : option nat :=
  (λ r, snd (snd r)) <$> list_find (λ e, fst e = k) m.

(** What the component does to the document. *)
Inductive dom_op :=
  | InsertBefore (n next : node)
  | Remove (n : node).

Definition frag_get (frags : fragments_map) (n : node) : option (list node) :=
  (λ r, snd (snd r)) <$> list_find (λ e, fst e = n) frags.

Fixpoint frag_set (frags : fragments_map) (n : node) (content : list node)
    : fragments_map :=
  match frags with
  | [] => [(n, content)]
  | e :: rest =>
      if decide (fst e = n) then (n, content) :: rest else e :: frag_set rest n content
  end.

(** A node leaves the place it had: among the children of the container,
    or in a fragment. *)
Definition remove (children : list node) (n : node) : list node :=
  filter (λ x, x ≠ n) children.

Definition remove_from_fragments (frags : fragments_map) (n : node) : fragments_map :=
  (λ e, (fst e, remove (snd e) n)) <$> frags.

(** [l] with the nodes [ns] put in front of [next]; [None] when [next] is
    not there. *)
Fixpoint insert_all_in_front (l : list node) (ns : list node) (next : node)
    : option (list node) :=
  match l with
  | [] => None
  | x :: rest =>
      if decide (x = next) then Some (ns ++ x :: rest)
      else (x ::.) <$> insert_all_in_front rest ns next
  end.

Definition insert_in_front (l : list node) (n next : node) : option (list node) :=
  insert_all_in_front l [n] next.

(** The children of the container after a node [n] that is no fragment and
    is not [next] has been put in front of the child [next]: [n] leaves its
    old place, if it had one among them. *)
Definition move_before (children : list node) (n next : node) : option (list node) :=
  insert_in_front (remove children n) n next.

(** [parent.insertBefore(n, next)], for a [next] that is not [null]. The
    DOM raises ([None]) when [next] is not a child of [parent]. Inserting a
    fragment moves the nodes it holds, in order, and leaves it empty;
    inserting a node in front of itself changes nothing. *)
Definition insertBefore (doc : document) (n next : node) : option document :=
  if decide (next ∈ doc_children doc) then
    match frag_get (doc_fragments doc) n with
    | Some content =>
        children' ← insert_all_in_front (doc_children doc) content next;
        Some {| doc_children := children';
                doc_fragments := frag_set (doc_fragments doc) n [];
                doc_fresh := doc_fresh doc |}
    | None =>
        if decide (n = next) then Some doc
        else
          children' ← move_before (doc_children doc) n next;
          Some {| doc_children := children';
                  doc_fragments := remove_from_fragments (doc_fragments doc) n;
                  doc_fresh := doc_fresh doc |}
    end
  else None.

(** The prop [children] is code of the user of the component. [render] is
    what a call [children(itemSignal, indexSignal)] does for an item and an
    index in a document: it throws ([None]), or it returns a node, leaves
    cleanups in the root of the item, and may have made nodes and fragments
    and changed the document. *)
Record renderer := {
  render : string → nat → document → option (node * cleanups * document)
}.

(** [(item) => document.createElement(...)]: one new node at each call, no
    fragment, no cleanup. *)
Definition new_element : renderer :=
  {| render := λ _ _ doc,
       Some (doc_fresh doc, no_cleanups,
             {| doc_children := doc_children doc;
                doc_fragments := doc_fragments doc;
                doc_fresh := S (doc_fresh doc) |}) |}.

(** A renderer that returns a new [DocumentFragment] holding two new
    nodes. *)
Definition new_fragment : renderer :=
  {| render := λ _ _ doc,
       let f := doc_fresh doc in
       Some (f, no_cleanups,
             {| doc_children := doc_children doc;
                doc_fragments := frag_set (doc_fragments doc) f [S f; S (S f)];
                doc_fresh := S (S (S f)) |}) |}.

(** A renderer that throws for the item "x" and makes a new node for any
    other. *)
Definition throws_on_x : renderer :=
  {| render := λ item i doc,
       if decide (item = "x") then None else render new_element item i doc |}.

Record for_state := {
  mappedItems : list (string * MappedItem);
  children : list node;        (* the children of [endMarker.parentNode] *)
  fragments : fragments_map;
  fresh : node                 (* the nodes made so far are those below *)
}.

Definition document_of (st : for_state) : document :=
  {| doc_children := children st; doc_fragments := fragments st; doc_fresh := fresh st |}.

(** [key ? key(itemData, i) : itemData] *)
Definition item_key (key : option (string → nat → string)) (itemData : string)
    (i : nat) : string :=
  match key with Some f => f itemData i | None => itemData end.

(** Pass 1: create new items and update existing ones. [None] when the
    prop [children] throws. *)
Fixpoint pass1 (childrenFn : renderer) (key : option (string → nat → string))
    (mappedItems newMappedItems : list (string * MappedItem)) (doc : document)
    (newItems : list string) (i : nat)
    : option (list (string * MappedItem) * document) :=
  match newItems with
  | [] => Some (newMappedItems, doc)
  | itemData :: rest =>
      let itemKey := item_key key itemData i in
      match map_get mappedItems itemKey with
      | None =>
          '(n, c, doc') ← render childrenFn itemData i doc;
          let mappedItem :=
            {| mi_node := n; mi_cleanups := c; mi_item := itemData; mi_index := i |} in
          pass1 childrenFn key mappedItems (map_set newMappedItems itemKey mappedItem)
            doc' rest (S i)
      | Some old =>
          let mappedItem :=
            {| mi_node := mi_node old; mi_cleanups := mi_cleanups old;
               mi_item := itemData; mi_index := i |} in
          pass1 childrenFn key mappedItems (map_set newMappedItems itemKey mappedItem)
            doc rest (S i)
      end
  end.

(** The cleanup the component registers for an item:
    [if (node instanceof Element) node.remove();
     else if (node.parentNode) node.parentNode.removeChild(node)].
    A fragment is no element and has no parent. *)
Definition remove_node (doc : document) (n : node) : document :=
  match frag_get (doc_fragments doc) n with
  | Some _ => doc
  | None =>
      {| doc_children := remove (doc_children doc) n;
         doc_fragments := remove_from_fragments (doc_fragments doc) n;
         doc_fresh := doc_fresh doc |}
  end.

(** The disposer of a root in which first the prop, then the component
    have registered cleanups: they run last registered first, the one of
    the component, then those of the prop. *)
Definition root_disposer (n : node) (c : cleanups) : cleanups :=
  λ doc, c (remove_node doc n).

(** [item.disposer()] *)
Definition disposer (item : MappedItem) (doc : document) : option document :=
  root_disposer (mi_node item) (mi_cleanups item) doc.

(** Cleanups that leave the document alone, and return. *)
Definition harmless (c : cleanups) : Prop := ∀ doc, c doc = Some doc.

(** Pass 2: remove old items. [None] when a cleanup throws. *)
Fixpoint pass2 (entries newMappedItems : list (string * MappedItem))
    (doc : document) (log : list dom_op) : option (document * list dom_op) :=
  match entries with
  | [] => Some (doc, log)
  | (itemKey, item) :: rest =>
      if negb (map_has newMappedItems itemKey)
      then
        doc' ← disposer item doc;
        pass2 rest newMappedItems doc' (log ++ [Remove (mi_node item)])
      else pass2 rest newMappedItems doc log
  end.

(** [new Map(Array.from(mappedItems.values()).map((item, i) => [item.node, i]))] *)
Definition build_oldMap (mappedItems : list (string * MappedItem))
    : list (node * nat) :=
  foldl (λ m e, node_map_set m (fst e) (snd e)) []
    (imap (λ i e, (mi_node (snd e), i)) mappedItems).

(** [newItems.map((item, i) => newMappedItems.get(key ? key(item, i) : item)!.node)];
    [None] if an entry were missing. *)
Definition build_newNodes (key : option (string → nat → string))
    (newMappedItems : list (string * MappedItem)) (newItems : list string)
    : option (list node) :=
  mapM (λ e, mi_node <$> map_get newMappedItems (item_key key (snd e) (fst e)))
    (imap (λ i item, (i, item)) newItems).

(** The backward walk of pass 3, from [i = newNodes.length - 1] down to 0;
    [entries] lists [(i, newNodes[i], seq[i])] in that order. *)
Fixpoint walk (entries : list (nat * node * option nat)) (lis : list value)
    (cur : Z) (next : node) (doc : document) (log : list dom_op)
    : option (document * list dom_op) :=
  match entries with
  | [] => Some (doc, log)
  | (i, n, s) :: rest =>
      match s with
      | None =>
          doc' ← insertBefore doc n next;
          walk rest lis cur n doc' (log ++ [InsertBefore n next])
      | Some _ =>
          if (cur <? 0)%Z || negb (strict_eq (Some (Z.of_nat i)) (array_get lis cur))
          then
            doc' ← insertBefore doc n next;
            walk rest lis cur n doc' (log ++ [InsertBefore n next])
          else walk rest lis (cur - 1)%Z n doc log
      end
  end.

Record run_result := {
  r_state : for_state;
  r_seq : list Z;          (* the array handed to the LIS engine *)
  r_lis : list value;      (* what it returned *)
  r_log : list dom_op      (* the DOM operations of this run, in order *)
}.

Definition state_of (newMappedItems : list (string * MappedItem)) (doc : document)
    : for_state :=
  {| mappedItems := newMappedItems; children := doc_children doc;
     fragments := doc_fragments doc; fresh := doc_fresh doc |}.

(** One run of the effect of [For] on the new value of [each()]; [None]
    when it raises (or the engine runs out of fuel). *)
Definition reconcile (childrenFn : renderer) (config : Lis.LISConfig) (fuel : nat)
    (key : option (string → nat → string)) (st : for_state)
    (newItems : list string) : option run_result :=
  '(newMappedItems, doc0) ←
    pass1 childrenFn key (mappedItems st) [] (document_of st) newItems 0;
  '(doc1, log1) ← pass2 (mappedItems st) newMappedItems doc0 [];
  if (0 <? length newItems)%nat then
    let oldMap := build_oldMap (mappedItems st) in
    newNodes ← build_newNodes key newMappedItems newItems;
    let seq := node_map_get oldMap <$> newNodes in
    let seq' := (λ i, match i with None => (-1)%Z | Some i => Z.of_nat i end) <$> seq in
    lis ← Lis.longestIncreasingSubsequence config fuel (Lis.InArrayLike (ints seq')) None;
    let cur := (Z.of_nat (length lis) - 1)%Z in
    let entries := reverse (imap (λ i ns, (i, fst ns, snd ns)) (zip newNodes seq)) in
    '(doc2, log2) ← walk entries lis cur endMarker doc1 log1;
    Some {| r_state := state_of newMappedItems doc2;
            r_seq := seq'; r_lis := lis; r_log := log2 |}
  else
    Some {| r_state := state_of newMappedItems doc1;
            r_seq := []; r_lis := []; r_log := log1 |}.

(** The component before its effect has run: the container holds the end
    marker only. *)
Definition initial : for_state :=
  {| mappedItems := []; children := [endMarker]; fragments := []; fresh := 1 |}.

(** The node shown for a key. *)
Definition node_of (st : for_state) (k : string) : option node :=
  mi_node <$> map_get (mappedItems st) k.

(** The nodes of the items, in document order. *)
Definition item_nodes (st : for_state) : list node :=
  filter (λ x, x ≠ endMarker) (children st).

(** A node is physically moved by a run when the run calls [insertBefore]
    on it. *)
Definition inserted_nodes (log : list dom_op) : list node :=
  omap (λ op, match op with InsertBefore m _ => Some m | Remove _ => None end) log.

Definition moved (log : list dom_op) (n : node) : bool :=
  bool_decide (n ∈ inserted_nodes log).

(** Position [i] of the new order is on the LIS. *)
Definition on_lis (lis : list value) (i : nat) : bool :=
  bool_decide (Some (Z.of_nat i) ∈ lis).

(** Rendering [first], then updating to [second]. *)
Definition render_then_update (childrenFn : renderer)
    (key : option (string → nat → string))
    (first second : list string) : option (for_state * run_result) :=
  r1 ← reconcile childrenFn Lis.default_config (length first) key initial first;
  r2 ← reconcile childrenFn Lis.default_config (length second) key (r_state r1) second;
  Some (r_state r1, r2).

End Reconciler.

(** ** internal/scheduler.ts, primitives/signal.ts, primitives/effect.ts *)

Module Reactive.

(** Values held by signals; [Object.is] is equality on them (objects are
    compared by reference). *)
Inductive jsval :=
  | VUndefined
  | VNull
  | VBool (b : bool)
  | VNum (z : Z)
  | VStr (s : string)
  | VRef (r : nat).

#[global] Instance jsval_eq_dec : EqDecision jsval.
Proof. solve_decision. Defined.

Definition Object_is (a b : jsval) : bool := bool_decide (a = b).

(** A JavaScript [Set] of objects named by numbers: the members in insertion
    order, without repetition. *)
Definition set_add (x : nat) (s : list nat) : list nat :=
  if decide (x ∈ s) then s else s ++ [x].

Definition set_delete (x : nat) (s : list nat) : list nat :=
  filter (λ y, y ≠ x) s.

(** The body [fn] of an effect, as far as the reactive core can tell: it
    reads signals, writes signals, creates signals and (nested) effects,
    calls disposers of effects (that of the effect it belongs to, perhaps),
    returns or throws. The disposer [createEffect] returns is named by its
    effect; [NewEffect] hands it to what follows, and as a value it is the
    reference [VRef e]. *)
Inductive prog :=
  | Done
  | Throw
  | Read (s : nat) (k : jsval → prog)
  | Write (s : nat) (v : jsval) (k : prog)
  | NewSignal (v : jsval) (k : nat → prog)
  | NewEffect (body : prog) (k : nat → prog)
  | Dispose (e : nat) (k : prog).

(** The closure state of [createSignal]: [value] and [subscribers]. *)
Record Signal := {
  value : jsval;
  subscribers : list nat            (* Set<Subscriber> *)
}.

(** A [Subscriber]; [execute] runs [fn] as below. A member of
    [dependencies] is the [subscribers] set of a signal, named by the
    signal. [disposable] tells whether the disposer of the effect exists:
    [createEffect] makes it once the first execution has returned. *)
Record Subscriber := {
  fn : prog;
  dependencies : list nat;          (* Set<Set<Subscriber>> *)
  disposable : bool
}.

Record world := {
  signals : list Signal;
  effects : list Subscriber;
  effectStack : list nat;
  dirtyEffects : list nat;          (* Set<Subscriber> *)
  isBatching : bool;
  microtasks : nat                  (* flush callbacks waiting in the microtask queue *)
}.

Definition with_signals (w : world) (x : list Signal) : world :=
  {| signals := x; effects := effects w; effectStack := effectStack w;
     dirtyEffects := dirtyEffects w; isBatching := isBatching w;
     microtasks := microtasks w |}.

Definition with_effects (w : world) (x : list Subscriber) : world :=
  {| signals := signals w; effects := x; effectStack := effectStack w;
     dirtyEffects := dirtyEffects w; isBatching := isBatching w;
     microtasks := microtasks w |}.

Definition with_effectStack (w : world) (x : list nat) : world :=
  {| signals := signals w; effects := effects w; effectStack := x;
     dirtyEffects := dirtyEffects w; isBatching := isBatching w;
     microtasks := microtasks w |}.

Definition with_dirtyEffects (w : world) (x : list nat) : world :=
  {| signals := signals w; effects := effects w; effectStack := effectStack w;
     dirtyEffects := x; isBatching := isBatching w;
     microtasks := microtasks w |}.

Definition with_isBatching (w : world) (x : bool) : world :=
  {| signals := signals w; effects := effects w; effectStack := effectStack w;
     dirtyEffects := dirtyEffects w; isBatching := x;
     microtasks := microtasks w |}.

Definition with_microtasks (w : world) (x : nat) : world :=
  {| signals := signals w; effects := effects w; effectStack := effectStack w;
     dirtyEffects := dirtyEffects w; isBatching := isBatching w;
     microtasks := x |}.

Definition initial : world :=
  {| signals := []; effects := []; effectStack := []; dirtyEffects := [];
     isBatching := false; microtasks := 0 |}.

Inductive outcome := Returned | Thrown | OutOfFuel.

(** *** scheduler.ts *)

(** [flushQueue]: [queueMicrotask] puts the flush callback in the queue. *)
Definition flushQueue (w : world) : world :=
  if isBatching w then w
  else with_microtasks (with_isBatching w true) (S (microtasks w)).

Definition delete_subscriber (e : nat) (sig : Signal) : Signal :=
  {| value := value sig; subscribers := set_delete e (subscribers sig) |}.

(** [cleanup(effect)] *)
Definition cleanup (e : nat) (w : world) : world :=
  match effects w !! e with
  | None => w
  | Some eff =>
      let sigs :=
        foldl (λ sigs dependency, alter (delete_subscriber e) dependency sigs)
          (signals w) (dependencies eff) in
      with_effects (with_signals w sigs)
        (<[e := {| fn := fn eff; dependencies := [];
                   disposable := disposable eff |}]> (effects w))
  end.

(** *** signal.ts *)

Definition add_subscriber (e : nat) (sig : Signal) : Signal :=
  {| value := value sig; subscribers := set_add e (subscribers sig) |}.

Definition add_dependency (s : nat) (eff : Subscriber) : Subscriber :=
  {| fn := fn eff; dependencies := set_add s (dependencies eff);
     disposable := disposable eff |}.

(** [read] of signal [s]; [None] when there is no such signal. *)
Definition read (s : nat) (w : world) : world * option jsval :=
  match signals w !! s with
  | None => (w, None)
  | Some sig =>
      match last (effectStack w) with
      | Some currentEffect =>
          (with_effects
             (with_signals w (alter (add_subscriber currentEffect) s (signals w)))
             (alter (add_dependency s) currentEffect (effects w)),
           Some (value sig))
      | None => (w, Some (value sig))
      end
  end.

(** [write] of signal [s]; nothing happens when there is no such signal. *)
Definition write (s : nat) (newValue : jsval) (w : world) : world :=
  match signals w !! s with
  | None => w
  | Some sig =>
      if Object_is (value sig) newValue then w
      else
        let w1 := with_signals w
          (<[s := {| value := newValue; subscribers := subscribers sig |}]> (signals w)) in
        let w2 := with_dirtyEffects w1
          (foldl (λ dirty sub, set_add sub dirty) (dirtyEffects w1) (subscribers sig)) in
        flushQueue w2
  end.

Definition createSignal (v : jsval) (w : world) : world * nat :=
  (with_signals w (signals w ++ [{| value := v; subscribers := [] |}]),
   length (signals w)).

(** *** effect.ts *)

Record run_result := {
  r_world : world;
  r_outcome : outcome;
  r_reads : list nat;       (* the signals read, in order *)
  r_disposed : list nat     (* the effects whose disposer was called, in order *)
}.

Definition push (e : nat) (w : world) : world :=
  with_effectStack w (effectStack w ++ [e]).

Definition pop (w : world) : world :=
  with_effectStack w (take (length (effectStack w) - 1) (effectStack w)).

(** [effect.execute()] for the effect [e], [run_fn] being what its [fn]
    does: [cleanup], [push], the body, and [pop] in the [finally]. *)
Definition execute_with (run_fn : world → run_result) (e : nat) (w : world)
    : run_result :=
  let r := run_fn (push e (cleanup e w)) in
  {| r_world := pop (r_world r); r_outcome := r_outcome r; r_reads := r_reads r;
     r_disposed := r_disposed r |}.

Definition add_effect (body : prog) (w : world) : world :=
  with_effects w
    (effects w ++ [{| fn := body; dependencies := []; disposable := false |}]).

(** [const disposer = () => { cleanup(effect) }] *)
Definition make_disposer (e : nat) (w : world) : world :=
  with_effects w
    (alter (λ eff, {| fn := fn eff; dependencies := dependencies eff;
                      disposable := true |}) e (effects w)).

(** Whether the disposer of [e] exists. *)
Definition has_disposer (w : world) (e : nat) : bool :=
  default false (disposable <$> effects w !! e).

(** Running a body. Reading or writing a signal that does not exist
    raises. [r_reads] lists the reads of this body itself, not those of the
    effects it creates; [r_disposed] lists the disposers called while the
    body runs, those called by the effects it creates included. A nested
    [createEffect] runs the new effect at once; if that throws, so does the
    body, and no disposer is made. A disposer is [cleanup] of its effect,
    whether that effect is running or not; calling one that has not been
    made (that of an effect in its first execution) raises, as calling
    [undefined] does. *)
Fixpoint run (p : prog) (w : world) : run_result :=
  match p with
  | Done => {| r_world := w; r_outcome := Returned; r_reads := []; r_disposed := [] |}
  | Throw => {| r_world := w; r_outcome := Thrown; r_reads := []; r_disposed := [] |}
  | Read s k =>
      match read s w with
      | (w', Some v) =>
          let r := run (k v) w' in
          {| r_world := r_world r; r_outcome := r_outcome r; r_reads := s :: r_reads r;
             r_disposed := r_disposed r |}
      | (w', None) =>
          {| r_world := w'; r_outcome := Thrown; r_reads := []; r_disposed := [] |}
      end
  | Write s v k =>
      match signals w !! s with
      | Some _ => run k (write s v w)
      | None => {| r_world := w; r_outcome := Thrown; r_reads := []; r_disposed := [] |}
      end
  | NewSignal v k => run (k (createSignal v w).2) (createSignal v w).1
  | NewEffect body k =>
      let e := length (effects w) in
      let r := execute_with (run body) e (add_effect body w) in
      match r_outcome r with
      | Returned =>
          let r' := run (k e) (make_disposer e (r_world r)) in
          {| r_world := r_world r'; r_outcome := r_outcome r'; r_reads := r_reads r';
             r_disposed := r_disposed r ++ r_disposed r' |}
      | o => {| r_world := r_world r; r_outcome := o; r_reads := [];
                r_disposed := r_disposed r |}
      end
  | Dispose e k =>
      if has_disposer w e then
        let r := run k (cleanup e w) in
        {| r_world := r_world r; r_outcome := r_outcome r; r_reads := r_reads r;
           r_disposed := e :: r_disposed r |}
      else {| r_world := w; r_outcome := Thrown; r_reads := []; r_disposed := [] |}
  end.

(** [effect.execute()] *)
Definition execute (e : nat) (w : world) : run_result :=
  match effects w !! e with
  | None => {| r_world := w; r_outcome := Thrown; r_reads := []; r_disposed := [] |}
  | Some eff => execute_with (run (fn eff)) e w
  end.

(** [createEffect(fn)]: the new effect runs at once, and when that has
    returned its disposer is made. The disposer is [cleanup] of the
    effect. *)
Definition createEffect (body : prog) (w : world) : run_result * nat :=
  let e := length (effects w) in
  let r := execute e (add_effect body w) in
  (match r_outcome r with
   | Returned =>
       {| r_world := make_disposer e (r_world r); r_outcome := Returned;
          r_reads := r_reads r; r_disposed := r_disposed r |}
   | _ => r
   end, e).

Definition disposer (e : nat) (w : world) : world := cleanup e w.

(** *** The flush *)

Record flush_result := {
  f_world : world;
  f_outcome : outcome;
  f_ran : list nat          (* the effects executed, in order *)
}.

(** [dirtyEffects.forEach(effect => effect.execute())]: the iteration
    visits the members in insertion order, those added meanwhile included;
    [i] is the position it has reached. *)
Fixpoint forEach (fuel : nat) (i : nat) (w : world) (ran : list nat)
    : flush_result :=
  match dirtyEffects w !! i with
  | None => {| f_world := w; f_outcome := Returned; f_ran := ran |}
  | Some e =>
      match fuel with
      | O => {| f_world := w; f_outcome := OutOfFuel; f_ran := ran |}
      | S fuel' =>
          let r := execute e w in
          match r_outcome r with
          | Returned => forEach fuel' (S i) (r_world r) (ran ++ [e])
          | o => {| f_world := r_world r; f_outcome := o; f_ran := ran ++ [e] |}
          end
      end
  end.

(** The callback given to [queueMicrotask]: [try { forEach } finally
    { dirtyEffects.clear(); isBatching = false }]. *)
Definition flush_callback (fuel : nat) (w : world) : flush_result :=
  let r := forEach fuel 0 w [] in
  {| f_world := with_isBatching (with_dirtyEffects (f_world r) []) false;
     f_outcome := f_outcome r; f_ran := f_ran r |}.

(** The microtask queue hands over to the next waiting callback. *)
Definition run_microtask (fuel : nat) (w : world) : flush_result :=
  match microtasks w with
  | O => {| f_world := w; f_outcome := Returned; f_ran := [] |}
  | S m => flush_callback fuel (with_microtasks w m)
  end.

(** *** What a program does from outside any effect *)

Inductive op :=
  | OpCreateSignal (v : jsval)
  | OpCreateEffect (body : prog)
  | OpRead (s : nat)
  | OpWrite (s : nat) (v : jsval)
  | OpDispose (e : nat)
  | OpMicrotask.

Definition step (fuel : nat) (o : op) (w : world) : world :=
  match o with
  | OpCreateSignal v => fst (createSignal v w)
  | OpCreateEffect body => r_world (fst (createEffect body w))
  | OpRead s => fst (read s w)
  | OpWrite s v => write s v w
  | OpDispose e => disposer e w
  | OpMicrotask => f_world (run_microtask fuel w)
  end.

Definition run_ops (fuel : nat) (ops : list op) (w : world) : world :=
  foldl (λ w o, step fuel o w) w ops.

(** Writes done one after the other, with no flush in between. *)
Definition apply_writes (writes : list (nat * jsval)) (w : world) : world :=
  foldl (λ w sv, write sv.1 sv.2 w) w writes.

(** A body that creates no effect. *)
Fixpoint flat (p : prog) : Prop :=
  match p with
  | Done | Throw => True
  | Read _ k => ∀ v, flat (k v)
  | Write _ _ k => flat k
  | NewSignal _ k => ∀ s, flat (k s)
  | NewEffect _ _ => False
  | Dispose _ k => flat k
  end.

Definition flat_world (w : world) : Prop :=
  ∀ e eff, effects w !! e = Some eff → flat (fn eff).

(** *** Some programs, three of them from the test suite *)

(** [const [count, setCount] = createSignal(0); createEffect(() => count())] *)
Definition counter_world : world :=
  run_ops 0 [OpCreateSignal (VNum 0); OpCreateEffect (Read 0 (λ _, Done))] initial.

(** [() => { if (condition()) { dataA() } else { dataB() } }] with
    [condition], [dataA], [dataB] the signals 0, 1, 2. *)
Definition conditional : prog :=
  Read 0 (λ c, if Object_is c (VBool true) then Read 1 (λ _, Done)
               else Read 2 (λ _, Done)).

Definition conditional_world : world :=
  run_ops 0 [OpCreateSignal (VBool true); OpCreateSignal (VNum 1);
             OpCreateSignal (VNum 10); OpCreateEffect conditional] initial.

(** [createEffect(() => { outerSignal(); createEffect(() => innerSignal()) })]
    with [outerSignal], [innerSignal] the signals 0, 1. *)
Definition nested : prog :=
  Read 0 (λ _, NewEffect (Read 1 (λ _, Done)) (λ _, Done)).

Definition nested_world : world :=
  run_ops 0 [OpCreateSignal (VNum 0); OpCreateSignal (VNum 0);
             OpCreateEffect nested] initial.

(** An effect that copies signal 0 to signal 1, and an effect that reads
    signal 1. *)
Definition relay_world : world :=
  run_ops 0 [OpCreateSignal (VNum 0); OpCreateSignal (VNum 0);
             OpCreateEffect (Read 0 (λ v, Write 1 v Done));
             OpCreateEffect (Read 1 (λ _, Done))] initial.

(** An effect that calls the disposer it finds in a signal:
    [const d = createEffect(() => { a(); const f = handle(); if (f) f(); b() });
     setHandle(d)]
    with [a], [handle], [b] the signals 0, 1, 2. After the write the effect
    is dirty; when it runs again it finds its own disposer. *)
Definition self_disposing : prog :=
  Read 0 (λ _, Read 1 (λ f,
    match f with
    | VRef d => Dispose d (Read 2 (λ _, Done))
    | _ => Read 2 (λ _, Done)
    end)).

Definition self_disposing_world : world :=
  run_ops 0 [OpCreateSignal (VNum 0); OpCreateSignal VNull; OpCreateSignal (VNum 0);
             OpCreateEffect self_disposing; OpWrite 1 (VRef 0)] initial.

(** *** The subscription relation *)

(** [e] is in the subscriber set of signal [s]. *)
Definition subscribed (w : world) (e s : nat) : Prop :=
  ∃ sig, signals w !! s = Some sig ∧ e ∈ subscribers sig.

(** The subscriber set of [s] is in the dependencies of [e]. *)
Definition depends (w : world) (e s : nat) : Prop :=
  ∃ eff, effects w !! e = Some eff ∧ s ∈ dependencies eff.

Definition symmetric (w : world) : Prop :=
  ∀ e s, subscribed w e s ↔ depends w e s.

(** The re-tracking property as the design document words it: after any
    run of the body of a computation, its dependency set is exactly the set
    of cells read during that run. *)
Definition retracks_exactly (w : world) (e : nat) : Prop :=
  ∀ s, depends (r_world (execute e w)) e s ↔ s ∈ r_reads (execute e w).


(** The worlds the operations keep to. *)
Record wf (w : world) : Prop := {
  wf_symmetric : symmetric w;
  wf_stack : ∀ e, e ∈ effectStack w → e < length (effects w);
  wf_dirty : ∀ e, e ∈ dirtyEffects w → e < length (effects w);
  wf_nodup : NoDup (dirtyEffects w);
  wf_pending : microtasks w ≤ 1 ∧ (microtasks w = 1 → isBatching w = true)
}.

(** What a body leaves alone, and what it can only extend. *)
Record frame (w w' : world) : Prop := {
  fr_stack : effectStack w' = effectStack w;
  fr_signals : length (signals w) ≤ length (signals w');
  fr_effects : length (effects w) ≤ length (effects w');
  fr_fn : ∀ e, e < length (effects w) →
      fn <$> (effects w' !! e) = fn <$> (effects w !! e);
  fr_batching : isBatching w = true →
      isBatching w' = true ∧ microtasks w' = microtasks w;
  fr_dirty : dirtyEffects w `prefix_of` dirtyEffects w'
}.

End Reactive.

(** ** lifecycle/lifecycle.ts *)

Module Lifecycle.

(** An [Owner]. Functions (disposers, cleanups) are named by numbers; the
    context map plays no part in creation and disposal and is left out. *)
Record Owner := {
  parent : option nat;
  cleanups : list nat               (* Disposer[] *)
}.

Record world := {
  owners : list Owner;              (* the Owner objects created so far *)
  currentOwner : option nat
}.

Definition initial : world := {| owners := []; currentOwner := None |}.

Definition with_currentOwner (w : world) (o : option nat) : world :=
  {| owners := owners w; currentOwner := o |}.

Definition with_cleanups (w : world) (root : nat) (cs : list nat) : world :=
  {| owners := alter (λ o, {| parent := parent o; cleanups := cs |}) root (owners w);
     currentOwner := currentOwner w |}.

(** [root.cleanups], empty for an owner that does not exist. *)
Definition cleanups_of (w : world) (root : nat) : list nat :=
  default [] (cleanups <$> owners w !! root).

Inductive result := Returned | Thrown.

(** [onCleanup(fn)] *)
Definition onCleanup (f : nat) (w : world) : world :=
  match currentOwner w with
  | Some o => with_cleanups w o (cleanups_of w o ++ [f])
  | None => w
  end.

Definition hasOwner (w : world) : bool :=
  match currentOwner w with Some _ => true | None => false end.

Section calls.

(** What calling the function named [f] does to the world, and whether it
    returns or throws. Nothing is assumed of it. *)
Context (call : nat → world → result * world).

(** The loop [for (let i = root.cleanups.length - 1; i >= 0; i--)
    root.cleanups[i]()], entered with [i + 1] iterations to go; each
    iteration reads [root.cleanups] as it is then. The functions called are
    recorded in [ran]. *)
Fixpoint run_cleanups (root : nat) (count : nat) (w : world) (ran : list nat)
    : result * world * list nat :=
  match count with
  | O => (Returned, w, ran)
  | S i =>
      match cleanups_of w root !! i with
      | None => (Thrown, w, ran)    (* calling [undefined] raises *)
      | Some f =>
          match call f w with
          | (Returned, w') => run_cleanups root i w' (ran ++ [f])
          | (Thrown, w') => (Thrown, w', ran ++ [f])
          end
      end
  end.

(** The [dispose] closure of the owner [root]. *)
Definition dispose (root : nat) (w : world) : result * world * list nat :=
  let prevOwner := currentOwner w in
  let w1 := with_currentOwner w (Some root) in
  (* try *)
  let '(res, w2, ran) := run_cleanups root (length (cleanups_of w1 root)) w1 [] in
  let w3 := match res with
            | Returned => with_cleanups w2 root []
            | Thrown => w2
            end in
  (* finally *)
  (res, with_currentOwner w3 prevOwner, ran).

(** [createRoot(fn)]; [fn] is given the disposer of the new owner, that is,
    its name. *)
Definition createRoot (fn : nat → world → result * world) (w : world)
    : result * world * nat :=
  let parentOwner := currentOwner w in
  let root := length (owners w) in
  let w1 := {| owners := owners w ++ [{| parent := parentOwner; cleanups := [] |}];
               currentOwner := Some root |} in
  (* try *)
  let '(res, w2) := fn root w1 in
  (* finally *)
  (res, with_currentOwner w2 parentOwner, root).

(** The disposal property as the design document words it: the registered
    cleanups run last-registered first, each once, the list is cleared, and
    a second call runs nothing. *)
Definition disposes_once (root : nat) (w : world) : Prop :=
  let '(res, w1, ran) := dispose root w in
  ran = reverse (cleanups_of w root)
  ∧ cleanups_of w1 root = []
  ∧ (dispose root w1).2 = [].

(** A cleanup that returns, and that leaves the cleanup list of [root] as
    it is but for registering further cleanups. *)
Definition well_behaved (root : nat) (f : nat) : Prop :=
  ∀ w, (call f w).1 = Returned
       ∧ ∃ extra, cleanups_of (call f w).2 root = cleanups_of w root ++ extra.

End calls.

(** Three cleanups registered in the order 1, 2, 3 in a new root. *)
Definition three_cleanups : world :=
  (createRoot (λ _ w, (Returned, onCleanup 3 (onCleanup 2 (onCleanup 1 w)))) initial).1.2.

(** Cleanup 2 throws; the others do nothing. *)
Definition second_throws (f : nat) (w : world) : result * world :=
  if decide (f = 2) then (Thrown, w) else (Returned, w).

(** Cleanup 3 registers cleanup 9 while the root is torn down; the others do
    nothing. *)
Definition third_registers (f : nat) (w : world) : result * world :=
  if decide (f = 3) then (Returned, onCleanup 9 w) else (Returned, w).

End Lifecycle.

(** ** The patience-sorting pass on its own

    The algorithm both implementations of [internal/lis.ts] carry out,
    written on plain lists: [tails] as a list of indices, the predecessors
    as a list of optional indices. It is what [lis_small] and [lis_large]
    are compared with. *)

Module Patience.

Import LisSpec LisInv.

(** The leftmost position of [ts] whose entry has a value not below [x]. *)
Fixpoint lower_bound (xs : list Z) (x : Z) (ts : list nat) : nat :=
  match ts with
  | [] => 0
  | t :: rest => if (val xs t <? x)%Z then S (lower_bound xs x rest) else 0
  end.

(** One round of the main loop, for entry [i]. *)
Definition step (xs : list Z) (st : list (option nat) * list nat) (i : nat)
    : list (option nat) * list nat :=
  match xs !! i with
  | None => st
  | Some x =>
      if decide (x = (-1)%Z) then (st.1 ++ [None], st.2)
      else
        let lo := lower_bound xs x st.2 in
        (st.1 ++ [pred_at lo st.2], place lo i st.2)
  end.

(** The state after the first [k] entries. *)
Definition run (xs : list Z) (k : nat) : list (option nat) * list nat :=
  foldl (step xs) ([], []) (seq 0 k).

(** Walking the predecessors back from [k], [count] entries at most. *)
Fixpoint chain (preds : list (option nat)) (count : nat) (k : nat) (acc : list nat)
    : list nat :=
  match count with
  | O => acc
  | S count' =>
      match preds !! k with
      | Some (Some p) => chain preds count' p (k :: acc)
      | _ => k :: acc
      end
  end.

Definition patience (xs : list Z) : list nat :=
  let st := run xs (length xs) in
  match last st.2 with
  | None => []
  | Some t => chain st.1 (length st.2) t []
  end.

(** No entry is the skip marker. *)
Definition no_skip (xs : list Z) : Prop := ∀ i, xs !! i ≠ Some (-1)%Z.

(** Each entry is above the one before. *)
Definition strictly_increasing (xs : list Z) : Prop :=
  ∀ i a b, xs !! i = Some a → xs !! S i = Some b → (a < b)%Z.

(** No entry is above the one before. *)
Definition non_increasing (xs : list Z) : Prop :=
  ∀ i a b, xs !! i = Some a → xs !! S i = Some b → (b ≤ a)%Z.

End Patience.
(** ** Sequences of numbers the engine cannot tell apart *)

Module LisNumbers.

Import Js.
Local Open Scope Z_scope.

(** All the engine does with the elements of its input is compare two of
    them with [<] and one of them with [-1]. Two sequences on which these
    tests give the same answers at all positions are the same to it. *)
Record same_order (seq seq' : list number) : Prop := {
  so_length : length seq = length seq';
  so_lt : ∀ a b : nat, elem_lt (seq !! a) (seq !! b) = elem_lt (seq' !! a) (seq' !! b);
  so_skip : ∀ a : nat,
    elem_strict_eq (seq !! a) (Some (Finite (-1)))
    = elem_strict_eq (seq' !! a) (Some (Finite (-1)))
}.

(** An integer above every finite entry of [seq] (and above -1), one below
    every finite entry (and below -1). *)
Definition above (seq : list number) : Z :=
  foldr (λ x m, match x with Finite z => Z.max m (z + 1) | _ => m end) 0 seq.

Definition beneath (seq : list number) : Z :=
  foldr (λ x m, match x with Finite z => Z.min m (z - 1) | _ => m end) (-2) seq.

(** The place of a number among the integers [lo < ... < hi]. *)
Definition rank (lo hi : Z) (x : number) : Z :=
  match x with
  | Finite z => z
  | PosInfinity => hi
  | NegInfinity => lo
  | NaN => 0
  end.

(** A sequence of integers in the same order as [seq], when [seq] holds no
    [NaN]. *)
Definition ranks (seq : list number) : list Z :=
  rank (beneath seq) (above seq) <$> seq.


End LisNumbers.


(** ** primitives/memo.ts *)

Module Memo.

Import Reactive.

(** The function [fn] of a memo, as far as the reactive core can tell: it
    reads signals and returns a value, or throws. *)
Inductive expr :=
  | Ret (v : jsval)
  | Fail
  | Get (s : nat) (k : jsval → expr).

(** [() => { setMemo(fn()) }], [memo] being the signal of the memo. *)
Fixpoint body (memo : nat) (f : expr) : prog :=
  match f with
  | Ret v => Write memo v Done
  | Fail => Throw
  | Get s k => Read s (λ v, body memo (k v))
  end.

(** [createMemo(fn)]: the signal, [undefined] at first, and the effect that
    sets it. What is returned is the getter of the signal, named by the
    signal. *)
Definition createMemo (f : expr) (w : world) : run_result * nat :=
  let memo := (createSignal VUndefined w).2 in
  ((createEffect (body memo f) (createSignal VUndefined w).1).1, memo).

(** What [fn] returns when the signals hold [sigs]; [None] when it throws
    (reading a signal that does not exist included). *)
Fixpoint eval (f : expr) (sigs : list Signal) : option jsval :=
  match f with
  | Ret v => Some v
  | Fail => None
  | Get s k =>
      match sigs !! s with
      | Some sig => eval (k (value sig)) sigs
      | None => None
      end
  end.

(** [a() + b()] for the signals 0 and 1, on numbers. *)
Definition sum_expr : expr :=
  Get 0 (λ a, Get 1 (λ b,
    match a, b with
    | VNum x, VNum y => Ret (VNum (x + y))
    | _, _ => Fail
    end)).

(** [const [a, setA] = createSignal(1); const [b, setB] = createSignal(2);
    const sum = createMemo(() => a() + b())] *)
Definition sum_world : world :=
  r_world (createMemo sum_expr
             (run_ops 0 [OpCreateSignal (VNum 1); OpCreateSignal (VNum 2)] initial)).1.

End Memo.

(** ** Effects that are out of the graph *)

Module Disposal.

Import Reactive.

(** The effect [e] exists, is in no subscriber set and is not dirty. *)
Definition detached (w : world) (e : nat) : Prop :=
  e < length (effects w) ∧ (∀ s, ¬ subscribed w e s) ∧ e ∉ dirtyEffects w.

(** The effects executed by the flushes that take place while a program
    performs the operations [ops], one after the other, from [w]. *)
Fixpoint flushed (fuel : nat) (ops : list op) (w : world) : list nat :=
  match ops with
  | [] => []
  | o :: rest =>
      match o with
      | OpMicrotask => f_ran (run_microtask fuel w)
      | _ => []
      end ++ flushed fuel rest (step fuel o w)
  end.

End Disposal.

(** ** lifecycle/lifecycle.ts: the context functions; lifecycle/context.ts *)

Module Context.

(** A [Context]: its [id] is a [Symbol], named by a number. *)
Record Context := {
  id : nat;
  defaultValue : Reactive.jsval
}.

(** An [Owner], with its optional [contexts] map. *)
Record Owner := {
  parent : option nat;
  cleanups : list nat;
  contexts : option (gmap nat Reactive.jsval)     (* Map<symbol, any> | undefined *)
}.

Record world := {
  owners : list Owner;
  currentOwner : option nat;
  symbols : nat                     (* the symbols created so far *)
}.

Definition initial : world := {| owners := []; currentOwner := None; symbols := 0 |}.

Definition with_currentOwner (w : world) (o : option nat) : world :=
  {| owners := owners w; currentOwner := o; symbols := symbols w |}.

(** [createContext(defaultValue)]; an absent argument is [undefined]. *)
Definition createContext (defaultValue : Reactive.jsval) (w : world) : Context * world :=
  ({| id := symbols w; defaultValue := defaultValue |},
   {| owners := owners w; currentOwner := currentOwner w; symbols := S (symbols w) |}).

Definition set_context (k : nat) (v : Reactive.jsval) (o : Owner) : Owner :=
  {| parent := parent o; cleanups := cleanups o;
     contexts := Some (<[k := v]> (default ∅ (contexts o))) |}.

(** [provide(context, value)] *)
Definition provide (context : Context) (v : Reactive.jsval) (w : world) : world :=
  match currentOwner w with
  | None => w
  | Some o =>
      {| owners := alter (set_context (id context) v) o (owners w);
         currentOwner := currentOwner w; symbols := symbols w |}
  end.

(** [owner.contexts?.has(k)] and [owner.contexts.get(k)] in one: the value
    held for [k], if any. *)
Definition held (ow : Owner) (k : nat) : option Reactive.jsval :=
  contexts ow ≫= (λ m, m !! k).

(** The loop of [inject], from [owner] upwards. [None] when the fuel runs
    out, or when [owner] names no object. *)
Fixpoint inject_loop (fuel : nat) (w : world) (context : Context) (owner : option nat)
    : option Reactive.jsval :=
  match owner with
  | None => Some (defaultValue context)
  | Some o =>
      match fuel with
      | O => None
      | S fuel' =>
          match owners w !! o with
          | None => None
          | Some ow =>
              match held ow (id context) with
              | Some v => Some v
              | None => inject_loop fuel' w context (parent ow)
              end
          end
      end
  end.

(** [inject(context)] *)
Definition inject (fuel : nat) (context : Context) (w : world) : option Reactive.jsval :=
  inject_loop fuel w context (currentOwner w).

(** The world in which [createRoot] calls [fn]: the new owner, without
    [contexts], is the current one. *)
Definition enter (w : world) : world :=
  {| owners := owners w ++ [{| parent := currentOwner w; cleanups := []; contexts := None |}];
     currentOwner := Some (length (owners w)); symbols := symbols w |}.

(** [createRoot(fn)], as in [Lifecycle] but for the richer owners. *)
Definition createRoot (fn : nat → world → Lifecycle.result * world) (w : world)
    : Lifecycle.result * world * nat :=
  let parentOwner := currentOwner w in
  let root := length (owners w) in
  (* try *)
  let '(res, w2) := fn root (enter w) in
  (* finally *)
  (res, with_currentOwner w2 parentOwner, root).

(** A body that provides the listed values, in order, and returns. *)
Definition provides (l : list (Context * Reactive.jsval)) (root : nat) (w : world)
    : Lifecycle.result * world :=
  (Lifecycle.Returned, foldl (λ w cv, provide cv.1 cv.2 w) w l).

(** The worlds the functions keep to: an owner was created after its
    parent, and the current owner exists. *)
Record wf (w : world) : Prop := {
  wf_parent : ∀ o ow p, owners w !! o = Some ow → parent ow = Some p → p < o;
  wf_current : ∀ o, currentOwner w = Some o → o < length (owners w)
}.

(** Some owner holds a value for the context. *)
Definition provided (w : world) (context : Context) (v : Reactive.jsval) : Prop :=
  ∃ o ow m, owners w !! o = Some ow ∧ contexts ow = Some m ∧ m !! id context = Some v.

End Context.

(** ** components/For.ts: what a run with distinct keys amounts to *)

Module Keyed.

Import Reconciler.

(** The keys of the new items: [key ? key(item, i) : item] for each. *)
Definition keys (key : option (string → nat → string)) (items : list string)
    : list string :=
  imap (λ i d, item_key key d i) items.

Definition map_keys (m : list (string * MappedItem)) : list string := fst <$> m.

Definition map_nodes (m : list (string * MappedItem)) : list node :=
  (λ e, mi_node (snd e)) <$> m.

(** A prop [children] of the usual kind: every call returns, with a node it
    has just made; it makes no fragment, leaves the children of the
    container alone, and the cleanups it registers are harmless. *)
Record renders_elements (childrenFn : renderer) : Prop := {
  re_returns : ∀ d i doc, ∃ n c fresh',
    render childrenFn d i doc
    = Some (n, c, {| doc_children := doc_children doc;
                     doc_fragments := doc_fragments doc;
                     doc_fresh := fresh' |})
    ∧ doc_fresh doc ≤ n < fresh'
    ∧ harmless c
}.

(** The states the component is in between two runs: one node for each
    key, the nodes in the document in the order of the map, the end marker
    after them; there is no fragment, and the cleanups of the items are
    harmless. *)
Record ok (st : for_state) : Prop := {
  ok_keys : NoDup (map_keys (mappedItems st));
  ok_nodes : NoDup (map_nodes (mappedItems st));
  ok_fresh : ∀ n, n ∈ map_nodes (mappedItems st) → 0 < n < fresh st;
  ok_fresh_pos : 0 < fresh st;
  ok_children : children st = map_nodes (mappedItems st) ++ [endMarker];
  ok_fragments : fragments st = [];
  ok_cleanups : ∀ e, e ∈ mappedItems st → harmless (mi_cleanups (snd e))
}.

(** A document in which there is no fragment. *)
Definition plain (children : list node) (fresh : node) : document :=
  {| doc_children := children; doc_fragments := []; doc_fresh := fresh |}.

(** The state of a component showing the entries [nm], in order. *)
Definition showing (nm : list (string * MappedItem)) (fresh : node) : for_state :=
  {| mappedItems := nm; children := map_nodes nm ++ [endMarker];
     fragments := []; fresh := fresh |}.

(** What pass 1 leaves in the new map [nm] and in the node counter: one
    entry for each item, in order, holding the item and its index, with the
    node of the old entry of that key if there is one, and a node that did
    not exist before otherwise. *)
Record assigned (key : option (string → nat → string)) (st : for_state)
    (items : list string) (nm : list (string * MappedItem)) (fresh' : node) : Prop := {
  as_len : length nm = length items;
  as_entries : ∀ j d, items !! j = Some d →
    ∃ n c, nm !! j = Some (item_key key d j,
                           {| mi_node := n; mi_cleanups := c;
                              mi_item := d; mi_index := j |})
         ∧ harmless c
         ∧ match map_get (mappedItems st) (item_key key d j) with
           | Some o => n = mi_node o
           | None => fresh st ≤ n < fresh'
           end;
  as_nodup : NoDup (map_nodes nm);
  as_fresh : fresh st ≤ fresh'
}.

(** The nodes of the entries whose key is not in the new map. *)
Definition dropped (newMappedItems entries : list (string * MappedItem)) : list node :=
  map_nodes (filter (λ e, map_has newMappedItems (fst e) = false) entries).

(** The calls of [insertBefore] made by the backward walk over the
    positions below [i], when the positions in [l] are the stable ones. *)
Definition walk_ops (newNodes : list node) (l : list nat) (i : nat) : list dom_op :=
  omap (λ p, if decide (p ∈ l) then None
             else n ← newNodes !! p;
                  next ← (newNodes ++ [endMarker]) !! S p;
                  Some (InsertBefore n next))
    (reverse (seq 0 i)).

(** The nodes at the positions [l]. *)
Definition nodes_at (newNodes : list node) (l : list nat) : list node :=
  omap (λ p, newNodes !! p) l.

(** The array handed to the LIS engine: for each new node its position
    among the old entries, [-1] for a node that was not there. *)
Definition positions (old : list (string * MappedItem)) (newNodes : list node) : list Z :=
  (λ i, match i with None => (-1)%Z | Some i => Z.of_nat i end)
    <$> (node_map_get (build_oldMap old) <$> newNodes).

(** The effect of [For] run once for each value [each()] takes, in turn. *)
Fixpoint updates (childrenFn : renderer) (config : Lis.LISConfig) (fuel : nat)
    (key : option (string → nat → string)) (st : for_state)
    (lists : list (list string)) : option for_state :=
  match lists with
  | [] => Some st
  | items :: rest =>
      r ← reconcile childrenFn config fuel key st items;
      updates childrenFn config fuel key (r_state r) rest
  end.

(** The component showing the items "a" and "b". *)
Definition two_items : for_state :=
  {| mappedItems := [("a", {| mi_node := 1; mi_cleanups := no_cleanups;
                                 mi_item := "a"; mi_index := 0 |});
                     ("b", {| mi_node := 2; mi_cleanups := no_cleanups;
                                 mi_item := "b"; mi_index := 1 |})];
     children := [1; 2; endMarker];
     fragments := [];
     fresh := 3 |}.

End Keyed.

(** ** components/virtualizer.ts *)

Module Virtualizer.

Local Open Scope Z_scope.

Record VisibleState := {
  startIndex : Z;
  endIndex : Z;
  scrollOffset : Z
}.

(** The numbers of the code are doubles. On integers below 2^53 in
    magnitude sums, differences and products that stay below 2^53 are
    exact, and so are [Math.floor(a / b)] and [Math.ceil(a / b)] when
    [|a| + b < 2^53]: the quotient is rounded to a double before the floor
    or ceiling is taken, and below that bound the rounding does not reach
    the next integer. Beyond it the operations below are not those of the
    code. [exact_range] is a bound under which every operation of
    [visibleState] is exact: the length is that of an array, the quotients
    are at most [|scroll| + |height|] in magnitude, the indices at most that
    plus [|overscan|], and the offset at most
    [|scroll| + |overscan| * |itemHeight|]. Inputs with a fractional part
    are outside the model. *)
Definition exact_range (listLen height itemHeight overscan scroll : Z) : Prop :=
  0 ≤ listLen < 2 ^ 32
  ∧ Z.abs scroll + Z.abs height + Z.abs itemHeight + Z.abs overscan
    + Z.abs overscan * Z.abs itemHeight < 2 ^ 53.

(** [Math.ceil(a / b)] on integers, for [b > 0]; [Math.floor(a / b)] is
    [a / b]. *)
Definition ceil_div (a b : Z) : Z := - ((- a) / b).

(** The function of the [visibleState] memo, given what [items().length],
    [containerHeight()] and [scrollTop()] return, on integers within
    [exact_range]. *)
Definition visibleState (listLen height itemHeight overscan scroll : Z) : VisibleState :=
  if (height <=? 0) || (listLen =? 0) || (itemHeight <=? 0)
  then {| startIndex := 0; endIndex := -1; scrollOffset := 0 |}
  else
    let startIndex := Z.max 0 (scroll / itemHeight - overscan) in
    let endIndex :=
      Z.min (listLen - 1) (ceil_div (scroll + height) itemHeight + overscan) in
    {| startIndex := startIndex; endIndex := endIndex;
       scrollOffset := startIndex * itemHeight |}.

Record VirtualItem := {
  index : Z;
  data : option Reactive.jsval;     (* [list[idx]] *)
  offsetTop : Z
}.

(** The variables [reused] and [lastCount] of the closure. Arrays are
    objects: [heap] holds the arrays created so far and [reused] names one
    of them. *)
Record closure := {
  heap : list (list (option VirtualItem));
  reused : nat;
  lastCount : Z
}.

(** [let reused = []; let lastCount = 0] *)
Definition initial : closure := {| heap := [[]]; reused := 0%nat; lastCount := 0 |}.

Definition reused_array (c : closure) : list (option VirtualItem) :=
  default [] (heap c !! reused c).

(** [reused = arr], for a new array [arr]. *)
Definition alloc (arr : list (option VirtualItem)) (c : closure) : closure :=
  {| heap := heap c ++ [arr]; reused := length (heap c); lastCount := lastCount c |}.

Definition with_lastCount (c : closure) (n : Z) : closure :=
  {| heap := heap c; reused := reused c; lastCount := n |}.

(** [arr[i] = x] on a plain array: past the end the array grows. *)
Definition set_item (arr : list (option VirtualItem)) (i : nat) (x : VirtualItem)
    : list (option VirtualItem) :=
  if (i <? length arr)%nat then <[i := Some x]> arr
  else arr ++ replicate (i - length arr) None ++ [Some x].

Definition item_at (lst : list Reactive.jsval) (itemHeight : Z) (vs : VisibleState)
    (i : nat) : VirtualItem :=
  let idx := startIndex vs + Z.of_nat i in
  {| index := idx; data := Js.get lst idx; offsetTop := idx * itemHeight |}.

(** [for (let i = 0; i < count; i++) reused[i] = {...}] *)
Definition fill (lst : list Reactive.jsval) (itemHeight : Z) (vs : VisibleState)
    (count : nat) (arr : list (option VirtualItem)) : list (option VirtualItem) :=
  foldl (λ arr i, set_item arr i (item_at lst itemHeight vs i)) arr (seq 0 count).

(** The function of the [visibleItems] memo: the array it returns (by
    name) and the closure afterwards. *)
Definition visibleItems (lst : list Reactive.jsval) (itemHeight : Z)
    (vs : VisibleState) (c : closure) : nat * closure :=
  if endIndex vs <? startIndex vs then
    let c1 := if negb (length (reused_array c) =? 0)%nat then alloc [] c else c in
    let c2 := with_lastCount c1 0 in
    (reused c2, c2)
  else
    let count := endIndex vs - startIndex vs + 1 in
    let c1 :=
      if negb (count =? lastCount c)
      then with_lastCount (alloc (replicate (Z.to_nat count) None) c) count
      else c in
    let arr :=
      if Z.of_nat (length lst) <? 64
      then fill lst itemHeight vs (Z.to_nat count) (reused_array c1)
      else fill lst itemHeight vs (Z.to_nat count) (reused_array c1) in
    let c2 := {| heap := <[reused c1 := arr]> (heap c1); reused := reused c1;
                 lastCount := lastCount c1 |} in
    (reused c2, c2).

(** What the closure keeps to: [reused] names an array, of length
    [lastCount]. *)
Record closure_ok (c : closure) : Prop := {
  co_reused : (reused c < length (heap c))%nat;
  co_count : Z.of_nat (length (reused_array c)) = lastCount c
}.

(** The items of a window, in order. *)
Definition window (lst : list Reactive.jsval) (itemHeight : Z) (vs : VisibleState)
    : list (option VirtualItem) :=
  (λ i, Some (item_at lst itemHeight vs i))
    <$> seq 0 (Z.to_nat (endIndex vs - startIndex vs + 1)).

(** A list of five numbers, and the closure after the window of its first
    two items has been computed. *)
Definition five : list Reactive.jsval :=
  [Reactive.VNum 10; Reactive.VNum 11; Reactive.VNum 12; Reactive.VNum 13;
   Reactive.VNum 14].

Definition after_first_window : closure :=
  (visibleItems five 20 {| startIndex := 0; endIndex := 1; scrollOffset := 0 |}
     initial).2.

End Virtualizer.

(** ** components/Show.ts *)

Module ShowComponent.

Import Reconciler.

(** The props [children] and [fallback] are code of the user of the
    component. What a call does in a document: it throws ([None]), or it
    returns a node, leaves cleanups in the root of the branch, and may have
    made nodes and fragments and changed the document. *)
Definition branch_renderer := document → option (node * cleanups * document).

Record ShowProps := {
  children : branch_renderer;
  fallback : option branch_renderer
}.

(** The document and the variable [currentDisposer] of the closure of
    [Show]. [branch] and [branchElement] record which prop the last run of
    the effect has called ([children]: [true], [fallback]: [false]) and the
    node it got. *)
Record state := {
  doc : document;
  currentDisposer : option cleanups;
  branch : option bool;
  branchElement : option node
}.

Definition initial : state :=
  {| doc := {| doc_children := [endMarker]; doc_fragments := []; doc_fresh := 1 |};
     currentDisposer := None; branch := None; branchElement := None |}.

(** One run of the effect of [Show]; [condition] is [!!when()]. The cleanup
    the component registers in the root of the branch,
    [if (branchElement && branchElement.parentNode)
       branchElement.parentNode.removeChild(branchElement)],
    is [remove_node]: a fragment has no parent. [None] when the run
    raises. *)
Definition run (props : ShowProps) (condition : bool) (s : state) : option state :=
  (* if (currentDisposer) currentDisposer() *)
  doc1 ← match currentDisposer s with
         | Some dispose => dispose (doc s)
         | None => Some (doc s)
         end;
  let renderer := if condition then Some (children props) else fallback props in
  match renderer with
  | Some f =>
      '(element, c, doc2) ← f doc1;
      doc3 ← insertBefore doc2 element endMarker;
      Some {| doc := doc3; currentDisposer := Some (root_disposer element c);
              branch := Some condition; branchElement := Some element |}
  | None =>
      Some {| doc := doc1; currentDisposer := None;
              branch := None; branchElement := None |}
  end.

(** The effect run once for each value the condition takes, in turn. *)
Fixpoint runs (props : ShowProps) (conditions : list bool) (s : state) : option state :=
  match conditions with
  | [] => Some s
  | c :: rest => s' ← run props c s; runs props rest s'
  end.

(** A prop of the usual kind: every call returns, with a node it has just
    made; it makes no fragment, leaves the children of the container alone,
    and the cleanups it registers are harmless. *)
Definition renders_element (f : branch_renderer) : Prop :=
  ∀ doc, ∃ n c fresh',
    f doc = Some (n, c, {| doc_children := doc_children doc;
                           doc_fragments := doc_fragments doc;
                           doc_fresh := fresh' |})
    ∧ doc_fresh doc ≤ n < fresh'
    ∧ harmless c.

Record usual (props : ShowProps) : Prop := {
  usual_children : renders_element (children props);
  usual_fallback : ∀ f, fallback props = Some f → renders_element f
}.

(** [() => document.createElement(...)] *)
Definition new_element : branch_renderer :=
  λ doc, Some (doc_fresh doc, no_cleanups,
               {| doc_children := doc_children doc;
                  doc_fragments := doc_fragments doc;
                  doc_fresh := S (doc_fresh doc) |}).

(** A prop that returns a new [DocumentFragment] holding two new nodes. *)
Definition new_fragment : branch_renderer :=
  λ doc, let f := doc_fresh doc in
         Some (f, no_cleanups,
               {| doc_children := doc_children doc;
                  doc_fragments := frag_set (doc_fragments doc) f [S f; S (S f)];
                  doc_fresh := S (S (S f)) |}).

(** The states of the component: the document holds the node of the
    current branch, if there is one, and the end marker; the disposer of
    the root of the branch removes that node, and that is all it does. *)
Record ok (s : state) : Prop := {
  ok_dom : doc_children (doc s) = match branchElement s with
                                  | Some n => [n; endMarker]
                                  | None => [endMarker]
                                  end;
  ok_fragments : doc_fragments (doc s) = [];
  ok_node : ∀ n, branchElement s = Some n → 1 ≤ n < doc_fresh (doc s);
  ok_fresh : 1 ≤ doc_fresh (doc s);
  ok_branch : is_Some (branch s) ↔ is_Some (branchElement s);
  ok_disposer : match currentDisposer s with
                | Some dispose =>
                    ∃ n, branchElement s = Some n
                         ∧ ∀ doc, dispose doc = Some (remove_node doc n)
                | None => branchElement s = None
                end
}.

End ShowComponent.

(** ** primitives/effect.ts with lifecycle/lifecycle.ts: effects that
    belong to an owner *)

Module Owned.

(** The reactive world and the owners side by side. *)
Record world := {
  rw : Reactive.world;
  lw : Lifecycle.world
}.

Definition to_result (o : Reactive.outcome) : Lifecycle.result :=
  match o with Reactive.Returned => Lifecycle.Returned | _ => Lifecycle.Thrown end.

(** [createEffect(fn)] in full: the effect is executed at once, and, if
    that returns, [onCleanup(disposer)] registers its disposer with the
    current owner. A disposer is named by its effect. When the first
    execution throws, [createEffect] is left before [onCleanup]. *)
Definition createEffect (body : Reactive.prog) (w : world)
    : Lifecycle.result * world * nat :=
  let '(r, e) := Reactive.createEffect body (rw w) in
  match Reactive.r_outcome r with
  | Reactive.Returned =>
      (Lifecycle.Returned,
       {| rw := Reactive.r_world r; lw := Lifecycle.onCleanup e (lw w) |}, e)
  | _ => (Lifecycle.Thrown, {| rw := Reactive.r_world r; lw := lw w |}, e)
  end.

(** A function that creates the effects [bodies] one after the other. *)
Fixpoint create_all (bodies : list Reactive.prog) (w : world) : Lifecycle.result * world :=
  match bodies with
  | [] => (Lifecycle.Returned, w)
  | body :: rest =>
      let '(res, w', _) := createEffect body w in
      match res with
      | Lifecycle.Returned => create_all rest w'
      | Lifecycle.Thrown => (Lifecycle.Thrown, w')
      end
  end.

(** [createRoot(fn)] of lifecycle.ts, for a function that acts on both
    worlds. *)
Definition createRoot (fn : nat → world → Lifecycle.result * world) (w : world)
    : Lifecycle.result * world * nat :=
  let parentOwner := Lifecycle.currentOwner (lw w) in
  let root := length (Lifecycle.owners (lw w)) in
  let w1 :=
    {| rw := rw w;
       lw := {| Lifecycle.owners :=
                  Lifecycle.owners (lw w)
                  ++ [{| Lifecycle.parent := parentOwner; Lifecycle.cleanups := [] |}];
                Lifecycle.currentOwner := Some root |} |} in
  (* try *)
  let '(res, w2) := fn root w1 in
  (* finally *)
  (res, {| rw := rw w2; lw := Lifecycle.with_currentOwner (lw w2) parentOwner |}, root).

(** The disposers of effects leave the owners alone and return. *)
Definition call (f : nat) (w : Lifecycle.world) : Lifecycle.result * Lifecycle.world :=
  (Lifecycle.Returned, w).

(** The disposer of the owner [root]: the cleanups it calls are disposers
    of effects, each of which is [cleanup] of its effect. *)
Definition dispose (root : nat) (w : world) : Lifecycle.result * world :=
  let '(res, lw', ran) := Lifecycle.dispose call root (lw w) in
  (res, {| rw := foldl (λ rw e, Reactive.disposer e rw) (rw w) ran; lw := lw' |}).

(** One signal and no owner. *)
Definition one_signal : world :=
  {| rw := (Reactive.createSignal (Reactive.VNum 0) Reactive.initial).1;
     lw := Lifecycle.initial |}.

(** [createRoot(() => { createEffect(() => { count() }) })] *)
Definition counter_root : Lifecycle.result * world * nat :=
  createRoot (λ _, create_all [Reactive.Read 0 (λ _, Reactive.Done)]) one_signal.

End Owned.

(** ** The patience-sorting pass keeps its invariant *)

Module LisInvFacts.

Import LisSpec LisInv.

Lemma rchain_lt preds k rl : rchain preds k rl → k < length preds.
Proof.
  destruct rl as [|p rest]; simpl.
  - intros H. by apply lookup_lt_Some in H.
  - intros [H _]. by apply lookup_lt_Some in H.
Qed.

Lemma rchain_app preds extra k rl :
  rchain preds k rl → rchain (preds ++ extra) k rl.
Proof.
  revert k. induction rl as [|p rest IH]; simpl; intros k.
  - intros H. by apply lookup_app_l_Some.
  - intros [H1 H2]. split; [by apply lookup_app_l_Some | by apply IH].
Qed.

Lemma rvalid_live seq k rl : rvalid seq k rl → live seq k.
Proof. destruct rl; simpl; tauto. Qed.

Lemma live_lt seq k : live seq k → k < length seq.
Proof. intros (v & H & _). by apply lookup_lt_Some in H. Qed.

Lemma live_val seq k v : seq !! k = Some v → val seq k = v.
Proof. unfold val. by intros ->. Qed.

Lemma inv_init seq : Inv seq 0 [] [].
Proof.
  split; simpl; try done; try lia.
Qed.

Lemma rvalid_length seq k rl : rvalid seq k rl → length rl ≤ k.
Proof.
  revert k. induction rl as [|p rest IH]; simpl; intros k; [lia|].
  intros (_ & Hlt & _ & Hrest). apply IH in Hrest. lia.
Qed.

Lemma inv_tail_lt seq i preds ts j t :
  Inv seq i preds ts → ts !! j = Some t → t < i ∧ j < i ∧ live seq t.
Proof.
  intros HI Ht. destruct (inv_chain _ _ _ _ HI j t Ht) as (rl & Hc & Hl & Hv).
  pose proof (rchain_lt _ _ _ Hc) as Hlt. rewrite (inv_preds _ _ _ _ HI) in Hlt.
  pose proof (rvalid_length _ _ _ Hv). pose proof (rvalid_live _ _ _ Hv). split_and!; [lia|lia|done].
Qed.

Lemma inv_len seq i preds ts : Inv seq i preds ts → length ts ≤ i.
Proof.
  intros HI. destruct (decide (length ts = 0)) as [|Hne]; [lia|].
  destruct (lookup_lt_is_Some_2 ts (length ts - 1)) as [t Ht]; [lia|].
  pose proof (inv_tail_lt _ _ _ _ _ _ HI Ht). lia.
Qed.

Lemma place_lookup_eq lo i ts : lo ≤ length ts → place lo i ts !! lo = Some i.
Proof.
  intros Hlo. unfold place. case_decide as Hd.
  - subst lo. rewrite lookup_app_r by lia. by rewrite Nat.sub_diag.
  - apply list_lookup_insert_eq. lia.
Qed.

Lemma place_lookup_ne lo i ts j : j ≠ lo → place lo i ts !! j = ts !! j.
Proof.
  intros Hne. unfold place. case_decide as Hd.
  - subst lo. destruct (decide (j < length ts)).
    + by rewrite lookup_app_l.
    + rewrite !lookup_ge_None_2; [done|lia|rewrite length_app; simpl; lia].
  - by rewrite list_lookup_insert_ne.
Qed.

Lemma place_length lo i ts :
  lo ≤ length ts →
  length (place lo i ts) = if decide (lo = length ts) then S (length ts) else length ts.
Proof.
  intros Hlo. unfold place. case_decide.
  - rewrite length_app. simpl. lia.
  - by rewrite length_insert.
Qed.

Lemma inv_skip seq i preds ts :
  Inv seq i preds ts → seq !! i = Some (-1)%Z →
  Inv seq (S i) (preds ++ [None]) ts.
Proof.
  intros HI Hs. split.
  - rewrite length_app, (inv_preds _ _ _ _ HI). simpl. lia.
  - apply lookup_lt_Some in Hs. lia.
  - intros j t Ht. destruct (inv_chain _ _ _ _ HI j t Ht) as (rl & Hc & Hl & Hv).
    exists rl. split_and!; [by apply rchain_app|done|done].
  - apply (inv_sorted _ _ _ _ HI).
  - intros k rl Hk Hv. destruct (decide (k = i)) as [->|Hne].
    + apply rvalid_live in Hv. destruct Hv as (v & Hv & Hv'). congruence.
    + apply (inv_opt _ _ _ _ HI); [lia|done].
Qed.

Lemma inv_place seq i preds ts x lo :
  Inv seq i preds ts → seq !! i = Some x → x ≠ (-1)%Z → lo ≤ length ts →
  (∀ j t, j < lo → ts !! j = Some t → (val seq t < x)%Z) →
  (∀ j t, lo ≤ j → ts !! j = Some t → (x ≤ val seq t)%Z) →
  Inv seq (S i) (preds ++ [pred_at lo ts]) (place lo i ts).
Proof.
  intros HI Hs Hx Hlo Hbelow Habove.
  pose proof (live_val _ _ _ Hs) as Hvi.
  assert (live seq i) as Hlive by (by exists x).
  assert ((preds ++ [pred_at lo ts]) !! i = Some (pred_at lo ts)) as Hpi.
  { rewrite lookup_app_r; rewrite (inv_preds _ _ _ _ HI); [|lia]. by rewrite Nat.sub_diag. }
  split.
  - rewrite length_app, (inv_preds _ _ _ _ HI). simpl. lia.
  - apply lookup_lt_Some in Hs. lia.
  - intros j t Ht. destruct (decide (j = lo)) as [->|Hne].
    + rewrite place_lookup_eq in Ht by done. injection Ht as <-.
      destruct lo as [|j']; simpl in Hpi.
      * exists []. by split_and!.
      * destruct (lookup_lt_is_Some_2 ts j') as [p Hp]; [lia|].
        destruct (inv_chain _ _ _ _ HI j' p Hp) as (rl & Hc & Hl & Hv).
        pose proof (inv_tail_lt _ _ _ _ _ _ HI Hp) as (Hpt & _ & _).
        exists (p :: rl). simpl. split_and!; try done.
        -- by rewrite Hpi, Hp.
        -- by apply rchain_app.
        -- lia.
        -- rewrite Hvi. apply (Hbelow j'); [lia|done].
    + rewrite place_lookup_ne in Ht by done.
      destruct (inv_chain _ _ _ _ HI j t Ht) as (rl & Hc & Hl & Hv).
      exists rl. split_and!; [by apply rchain_app|done|done].
  - intros j a b Ha Hb. destruct (decide (j = lo)) as [->|Hne].
    + rewrite place_lookup_eq in Ha by done. injection Ha as <-.
      rewrite place_lookup_ne in Hb by lia.
      destruct (lookup_lt_is_Some_2 ts lo) as [t0 Ht0].
      { apply lookup_lt_Some in Hb. lia. }
      pose proof (Habove lo t0 ltac:(lia) Ht0).
      pose proof (inv_sorted _ _ _ _ HI lo t0 b Ht0 Hb). lia.
    + rewrite place_lookup_ne in Ha by done.
      destruct (decide (S j = lo)) as [<-|Hne'].
      * rewrite place_lookup_eq in Hb by done. injection Hb as <-.
        rewrite Hvi. apply (Hbelow j); [lia|done].
      * rewrite place_lookup_ne in Hb by done.
        by apply (inv_sorted _ _ _ _ HI j).
  - intros k rl Hk Hv. destruct (decide (k = i)) as [->|Hne].
    + destruct rl as [|p rl']; simpl in *.
      * destruct lo as [|j'].
        -- exists i. by rewrite place_lookup_eq.
        -- destruct (lookup_lt_is_Some_2 ts 0) as [t Ht]; [lia|].
           exists t. rewrite place_lookup_ne by lia. split; [done|].
           pose proof (Hbelow 0 t ltac:(lia) Ht). lia.
      * destruct Hv as (_ & Hp & Hpv & Hrest).
        destruct (inv_opt _ _ _ _ HI p rl' Hp Hrest) as (t0 & Ht0 & Hle).
        assert (length rl' < lo) as Hlt.
        { destruct (decide (length rl' < lo)); [done|].
          pose proof (Habove (length rl') t0 ltac:(lia) Ht0). lia. }
        destruct (decide (S (length rl') = lo)) as [<-|Hne].
        -- exists i. rewrite place_lookup_eq by done. split; [done|lia].
        -- destruct (lookup_lt_is_Some_2 ts (S (length rl'))) as [t Ht]; [lia|].
           exists t. rewrite place_lookup_ne by done. split; [done|].
           pose proof (Hbelow (S (length rl')) t ltac:(lia) Ht). lia.
    + destruct (inv_opt _ _ _ _ HI k rl ltac:(lia) Hv) as (t0 & Ht0 & Hle).
      destruct (decide (length rl = lo)) as [<-|Hne'].
      * exists i. rewrite place_lookup_eq by done. split; [done|].
        pose proof (Habove (length rl) t0 ltac:(lia) Ht0). lia.
      * exists t0. by rewrite place_lookup_ne.
Qed.

Lemma inv_sorted_lt seq i preds ts a b ta tb :
  Inv seq i preds ts → a < b → ts !! a = Some ta → ts !! b = Some tb →
  (val seq ta < val seq tb)%Z.
Proof.
  intros HI Hab Ha. revert tb. induction b as [|b IH]; intros tb Hb; [lia|].
  destruct (lookup_lt_is_Some_2 ts b) as [t Ht].
  { apply lookup_lt_Some in Hb. lia. }
  pose proof (inv_sorted _ _ _ _ HI b t tb Ht Hb).
  destruct (decide (a = b)) as [->|Hne]; [by simplify_eq|].
  specialize (IH ltac:(lia) t Ht). lia.
Qed.

Lemma ushr1_half (a b : nat) :
  (Z.of_nat a + Z.of_nat b < 2 ^ 32)%Z →
  Js.ushr1 (Z.of_nat a + Z.of_nat b) = Z.of_nat ((a + b) / 2).
Proof.
  intros Hlt. unfold Js.ushr1, Js.to_uint32.
  rewrite Z.mod_small by lia. rewrite Z.shiftr_div_pow2 by lia.
  rewrite Nat2Z.inj_div, Nat2Z.inj_add. done.
Qed.

(** The binary search returns the leftmost position whose tail value is not
    below [x]. *)
Lemma bsearch_partition seq i preds ts tv x :
  Inv seq i preds ts →
  (Z.of_nat (length ts) ≤ 2 ^ 31)%Z →
  (∀ j t, ts !! j = Some t → tv (Z.of_nat j) = Some (Js.Finite (val seq t))) →
  ∀ fuel lo hi, lo ≤ hi → hi ≤ length ts → hi - lo ≤ fuel →
  (∀ j t, j < lo → ts !! j = Some t → (val seq t < x)%Z) →
  (∀ j t, hi ≤ j → ts !! j = Some t → (x ≤ val seq t)%Z) →
  ∃ r, Lis.bsearch fuel tv (Some (Js.Finite x)) (Z.of_nat lo) (Z.of_nat hi)
       = Some (Z.of_nat r)
     ∧ r ≤ length ts
     ∧ (∀ j t, j < r → ts !! j = Some t → (val seq t < x)%Z)
     ∧ (∀ j t, r ≤ j → ts !! j = Some t → (x ≤ val seq t)%Z).
Proof.
  intros HI Hsize Htv fuel.
  induction fuel as [|fuel IH]; intros lo hi Hlohi Hhi Hfuel Hbelow Habove.
  - assert (lo = hi) as -> by lia. exists hi. simpl.
    rewrite Z.ltb_irrefl. split_and!; try done.
  - simpl. destruct (Z.ltb_spec (Z.of_nat lo) (Z.of_nat hi)) as [Hlt|Hge].
    + rewrite ushr1_half by lia.
      set (mid := (lo + hi) / 2).
      assert (lo ≤ mid ∧ mid < hi) as [Hm1 Hm2].
      { subst mid. split.
        - apply Nat.div_le_lower_bound; lia.
        - apply Nat.Div0.div_lt_upper_bound; lia. }
      destruct (lookup_lt_is_Some_2 ts mid) as [tm Htm]; [lia|].
      rewrite (Htv mid tm Htm). simpl.
      destruct (Z.ltb_spec (val seq tm) x) as [Hcmp|Hcmp].
      * replace (Z.of_nat mid + 1)%Z with (Z.of_nat (S mid)) by lia.
        apply IH; try lia; [|done].
        intros j t Hj Ht. destruct (decide (j = mid)) as [->|Hne]; [by simplify_eq|].
        pose proof (inv_sorted_lt _ _ _ _ j mid t tm HI ltac:(lia) Ht Htm). lia.
      * apply IH; try lia; [done|].
        intros j t Hj Ht. destruct (decide (j = mid)) as [->|Hne]; [by simplify_eq|].
        pose proof (inv_sorted_lt _ _ _ _ mid j tm t HI ltac:(lia) Htm Ht). lia.
    + assert (lo = hi) as -> by lia. exists hi. split_and!; try done.
Qed.

Lemma bsearch_tails seq i preds ts tv x fuel :
  Inv seq i preds ts →
  (Z.of_nat (length ts) ≤ 2 ^ 31)%Z →
  length ts ≤ fuel →
  (∀ j t, ts !! j = Some t → tv (Z.of_nat j) = Some (Js.Finite (val seq t))) →
  ∃ lo, Lis.bsearch fuel tv (Some (Js.Finite x)) 0 (Z.of_nat (length ts))
        = Some (Z.of_nat lo)
     ∧ lo ≤ length ts
     ∧ (∀ j t, j < lo → ts !! j = Some t → (val seq t < x)%Z)
     ∧ (∀ j t, lo ≤ j → ts !! j = Some t → (x ≤ val seq t)%Z).
Proof.
  intros HI Hsize Hfuel Htv.
  apply (bsearch_partition seq i preds ts tv x HI Hsize Htv fuel 0 (length ts)); try lia.
  intros j t Hj Ht. apply lookup_lt_Some in Ht. lia.
Qed.

(** *** [lis_small] keeps the invariant *)

Lemma get_of_nat {A} (l : list A) (k : nat) : Js.get l (Z.of_nat k) = l !! k.
Proof.
  unfold Js.get. destruct (Z.ltb_spec (Z.of_nat k) 0); [lia|].
  by rewrite Nat2Z.id.
Qed.

Lemma ints_length (xs : list Z) : length (Js.ints xs) = length xs.
Proof. apply length_fmap. Qed.

Lemma ints_lookup (xs : list Z) (k : nat) : Js.ints xs !! k = Js.Finite <$> xs !! k.
Proof. apply list_lookup_fmap. Qed.

(** The skip test on an integer. *)
Lemma skip_test_int (x : Z) :
  Js.elem_strict_eq (Some (Js.Finite x)) (Some (Js.Finite (-1)))
  = bool_decide (x = (-1)%Z).
Proof.
  simpl. apply bool_decide_ext. split; [by intros [= ->]|by intros ->].
Qed.

Lemma array_set_in (arr : list Js.value) (k : nat) v :
  k < length arr → Js.array_set arr (Z.of_nat k) v = <[k := Some v]> arr.
Proof.
  intros Hk. unfold Js.array_set.
  destruct (Z.ltb_spec (Z.of_nat k) 0); [lia|].
  destruct (Z.ltb_spec (Z.of_nat k) (Z.of_nat (length arr))); [|lia].
  by rewrite Nat2Z.id.
Qed.

Lemma lookup_snoc_inv {A} (l : list A) (x y : A) (k : nat) :
  (l ++ [x]) !! k = Some y → (k < length l ∧ l !! k = Some y) ∨ (k = length l ∧ y = x).
Proof.
  intros H. destruct (decide (k < length l)) as [Hlt|Hge].
  - rewrite lookup_app_l in H by done. auto.
  - rewrite lookup_app_r in H by lia.
    destruct (k - length l) as [|m] eqn:E; simpl in H; [|by rewrite lookup_nil in H].
    right. split; [lia|congruence].
Qed.

Lemma small_body_ok seq fuel i st preds ts :
  Inv seq i preds ts → SmallRel (length seq) st preds ts →
  i < length seq → (Z.of_nat (length seq) ≤ 2 ^ 31)%Z → length seq ≤ fuel →
  ∃ st' preds' ts',
    Lis.small_body fuel (Js.ints seq) st (Z.of_nat i) = Some st'
    ∧ Inv seq (S i) preds' ts' ∧ SmallRel (length seq) st' preds' ts'.
Proof.
  intros HI HR Hi Hsize Hfuel.
  pose proof (inv_len _ _ _ _ HI) as Hlen.
  pose proof (inv_preds _ _ _ _ HI) as Hpl.
  destruct HR as [Rpl Rtl Rlen Rp Rt].
  destruct (lookup_lt_is_Some_2 seq i Hi) as [x Hx].
  unfold Lis.small_body. rewrite get_of_nat, ints_lookup, Hx. cbn [fmap option_fmap option_map].
  rewrite skip_test_int. case_bool_decide as Hskip.
  - subst x.
    eexists _, (preds ++ [None]), ts. split; [done|]. split; [by apply inv_skip|].
    rewrite array_set_in by lia. split; simpl; try done.
    + by rewrite length_insert.
    + intros k o Hk. apply lookup_snoc_inv in Hk as [[Hk1 Hk2]|[-> ->]].
      * rewrite list_lookup_insert_ne by lia. by apply Rp.
      * rewrite Hpl. by rewrite list_lookup_insert_eq by lia.
  - assert (x ≠ (-1)%Z) as Hx1 by congruence.
    destruct (bsearch_tails seq i preds ts
      (λ mid, Js.get_at (Js.ints seq) (Js.array_get (Lis.s_tails st) mid)) x fuel HI)
      as (lo & Hbs & Hlo & Hbelow & Habove); [lia|lia| |].
    { intros j t Ht. unfold Js.array_get. rewrite get_of_nat, (Rt j t Ht). simpl.
      rewrite get_of_nat, ints_lookup.
      destruct (inv_tail_lt _ _ _ _ _ _ HI Ht) as (_ & _ & (v & Hv & _)).
      rewrite Hv. by rewrite (live_val _ _ _ Hv). }
    rewrite Rlen, Hbs. simpl.
    eexists _, (preds ++ [pred_at lo ts]), (place lo i ts).
    split; [done|]. split; [by apply inv_place with x|].
    assert (Js.nullish (Js.array_get (Lis.s_tails st) (Z.of_nat lo - 1)) (-1)
            = enc_pred (pred_at lo ts)) as Hpred.
    { destruct lo as [|j]; simpl.
      - done.
      - replace (Z.of_nat (S j) - 1)%Z with (Z.of_nat j) by lia.
        destruct (lookup_lt_is_Some_2 ts j) as [p Hp]; [lia|].
        unfold Js.array_get. rewrite get_of_nat, (Rt j p Hp), Hp. done. }
    rewrite Hpred.
    rewrite (array_set_in (Lis.s_predecessors st) i) by lia.
    rewrite (array_set_in (Lis.s_tails st) lo) by lia.
    assert ((if (Z.of_nat lo =? 0)%Z
             then Js.array_set (<[i:=Some (enc_pred (pred_at lo ts))]> (Lis.s_predecessors st))
                    (Z.of_nat i) (-1)
             else <[i:=Some (enc_pred (pred_at lo ts))]> (Lis.s_predecessors st))
            = <[i:=Some (enc_pred (pred_at lo ts))]> (Lis.s_predecessors st)) as ->.
    { destruct (Z.eqb_spec (Z.of_nat lo) 0) as [Hz|Hz]; [|done].
      assert (lo = 0) as -> by lia. simpl.
      rewrite array_set_in by (rewrite length_insert; lia).
      by rewrite list_insert_insert_eq. }
    split; simpl.
    + by rewrite length_insert.
    + by rewrite length_insert.
    + rewrite place_length by done.
      destruct (Z.eqb_spec (Z.of_nat lo) (Z.of_nat (length ts))); case_decide; lia.
    + intros k o Hk. apply lookup_snoc_inv in Hk as [[Hk1 Hk2]|[-> ->]].
      * rewrite list_lookup_insert_ne by lia. by apply Rp.
      * rewrite Hpl. by rewrite list_lookup_insert_eq by lia.
    + intros j t Ht. destruct (decide (j = lo)) as [->|Hne].
      * rewrite place_lookup_eq in Ht by done. injection Ht as <-.
        by rewrite list_lookup_insert_eq by lia.
      * rewrite place_lookup_ne in Ht by done.
        rewrite list_lookup_insert_ne by done. by apply Rt.
Qed.

Lemma small_loop_ok seq fuel k : ∀ i st preds ts,
  i + k = length seq →
  Inv seq i preds ts → SmallRel (length seq) st preds ts →
  (Z.of_nat (length seq) ≤ 2 ^ 31)%Z → length seq ≤ fuel →
  ∃ st' preds' ts',
    Lis.for_each (Lis.small_body fuel (Js.ints seq)) (seqZ (Z.of_nat i) (Z.of_nat k)) st = Some st'
    ∧ Inv seq (length seq) preds' ts' ∧ SmallRel (length seq) st' preds' ts'.
Proof.
  induction k as [|k IH]; intros i st preds ts Hik HI HR Hsize Hfuel.
  - simpl. replace i with (length seq) in HI by lia. by eexists _, _, _.
  - rewrite seqZ_cons by lia. simpl.
    destruct (small_body_ok seq fuel i st preds ts HI HR ltac:(lia) Hsize Hfuel)
      as (st1 & preds1 & ts1 & Hb & HI1 & HR1).
    rewrite Hb. simpl.
    replace (Z.succ (Z.of_nat i)) with (Z.of_nat (S i)) by lia.
    replace (Z.pred (Z.of_nat (S k))) with (Z.of_nat k) by lia.
    apply (IH (S i) st1 preds1 ts1); [lia|done..].
Qed.

Lemma small_reconstruct_chain cp preds acc : ∀ rl t,
  (∀ k o, preds !! k = Some o → cp !! k = Some (Some (enc_pred o))) →
  rchain preds t rl →
  Lis.small_reconstruct cp (S (length rl)) (Some (Z.of_nat t)) acc
  = index_array (reverse (t :: rl)) ++ acc.
Proof.
  intros rl. revert acc. induction rl as [|p rest IH]; intros acc t Hp Hc.
  - done.
  - destruct Hc as [Hc1 Hc2].
    change (Lis.small_reconstruct cp (S (length (p :: rest))) (Some (Z.of_nat t)) acc)
      with (Lis.small_reconstruct cp (S (length rest))
              (Js.array_get cp (Z.of_nat t)) (Some (Z.of_nat t) :: acc)).
    unfold Js.array_get. rewrite get_of_nat, (Hp _ _ Hc1). simpl mjoin.
    rewrite (IH _ p Hp Hc2).
    rewrite (reverse_cons (p :: rest) t). unfold index_array.
    rewrite fmap_app. simpl. by rewrite <-app_assoc.
Qed.

(** *** Subsequences as index lists and as backward chains *)

Lemma increasing_prefix seq l1 l2 :
  increasing_subsequence seq (l1 ++ l2) → increasing_subsequence seq l1.
Proof.
  intros [H1 H2]. split.
  - intros j i Hj. apply (H1 j). by apply lookup_app_l_Some.
  - intros j a b Ha Hb. apply (H2 j); by apply lookup_app_l_Some.
Qed.

Lemma increasing_snoc_rvalid seq l : ∀ k,
  increasing_subsequence seq (l ++ [k]) → rvalid seq k (reverse l).
Proof.
  induction l as [|p l' IH] using rev_ind; intros k HI.
  - simpl. destruct HI as [H1 _]. by apply (H1 0).
  - rewrite reverse_app. simpl.
    pose proof (increasing_prefix _ _ _ HI) as Hpre.
    destruct HI as [H1 H2].
    assert (((l' ++ [p]) ++ [k]) !! length l' = Some p) as Hp.
    { rewrite <-app_assoc. rewrite lookup_app_r by lia. by rewrite Nat.sub_diag. }
    assert (((l' ++ [p]) ++ [k]) !! S (length l') = Some k) as Hk.
    { rewrite lookup_app_r; rewrite length_app; simpl; [|lia].
      by replace (S (length l') - (length l' + 1)) with 0 by lia. }
    destruct (H2 _ _ _ Hp Hk) as [Hlt Hv].
    split_and!; [by apply (H1 (S (length l')))|done|done|by apply IH].
Qed.

Lemma increasing_snoc seq l p k :
  increasing_subsequence seq (l ++ [p]) → live seq k → p < k →
  (val seq p < val seq k)%Z →
  increasing_subsequence seq ((l ++ [p]) ++ [k]).
Proof.
  intros [H1 H2] Hlive Hlt Hv. split.
  - intros j i Hj. apply lookup_snoc_inv in Hj as [[_ Hj]|[_ ->]]; [by apply (H1 j)|done].
  - intros j a b Ha Hb.
    apply lookup_snoc_inv in Hb as [[Hb1 Hb]|[Hb1 ->]].
    + rewrite lookup_app_l in Ha by lia. by apply (H2 j).
    + rewrite length_app in Hb1. simpl in Hb1.
      assert (j = length l) as -> by lia.
      rewrite <-app_assoc in Ha. rewrite lookup_app_r in Ha by lia.
      rewrite Nat.sub_diag in Ha. simpl in Ha. by simplify_eq.
Qed.

Lemma rvalid_increasing seq rl : ∀ k,
  rvalid seq k rl → increasing_subsequence seq (reverse (k :: rl)).
Proof.
  induction rl as [|p rest IH]; intros k Hv.
  - simpl in Hv. split.
    + intros [|j] i Hj; simpl in Hj; [by simplify_eq | by rewrite lookup_nil in Hj].
    + intros [|j] a b Ha Hb; simpl in Hb; by rewrite ?lookup_nil in Hb.
  - destruct Hv as (Hl & Hlt & Hval & Hrest).
    rewrite reverse_cons. specialize (IH p Hrest). rewrite reverse_cons in IH |- *.
    by apply increasing_snoc.
Qed.

Lemma increasing_nil seq : increasing_subsequence seq [].
Proof. split; intros j; intros; by rewrite lookup_nil in *. Qed.

(** What the invariant gives once every entry has been seen. *)
Lemma inv_maximal seq preds ts l' :
  Inv seq (length seq) preds ts → increasing_subsequence seq l' →
  length l' ≤ length ts.
Proof.
  intros HI Hl'. destruct l' as [|a l0] using rev_ind; [simpl; lia|].
  pose proof Hl' as [Hlive _].
  apply increasing_snoc_rvalid in Hl'.
  assert (a < length seq) as Ha.
  { apply live_lt. apply (Hlive (length l0)).
    rewrite lookup_app_r by lia. by rewrite Nat.sub_diag. }
  destruct (inv_opt _ _ _ _ HI a (reverse l0) Ha Hl') as (t & Ht & _).
  apply lookup_lt_Some in Ht. rewrite length_reverse in Ht.
  rewrite length_app. simpl. lia.
Qed.

Lemma inv_last_chain seq i preds ts :
  Inv seq i preds ts → ts ≠ [] →
  ∃ t rl, ts !! (length ts - 1) = Some t ∧ rchain preds t rl
        ∧ S (length rl) = length ts
        ∧ increasing_subsequence seq (reverse (t :: rl)).
Proof.
  intros HI Hne.
  assert (length ts ≠ 0) by (by destruct ts).
  destruct (lookup_lt_is_Some_2 ts (length ts - 1)) as [t Ht]; [lia|].
  destruct (inv_chain _ _ _ _ HI _ t Ht) as (rl & Hc & Hl & Hv).
  exists t, rl. split_and!; [done|done|lia|by apply rvalid_increasing].
Qed.

(** *** The early returns for inputs of length 0 and 1 *)

Lemma lis_result_empty (seq : list Z) : length seq = 0 → lis_result seq [].
Proof.
  intros Hn. exists []. split_and!; [done|apply increasing_nil|].
  intros l' [Hlive _]. destruct l' as [|a l0]; [done|].
  pose proof (live_lt _ _ (Hlive 0 a eq_refl)). lia.
Qed.

Lemma lis_result_single (seq : list Z) :
  length seq = 1 →
  lis_result seq (if Js.elem_strict_eq (Js.get (Js.ints seq) 0) (Some (Js.Finite (-1)))
                  then [] else [Some 0%Z]).
Proof.
  intros Hn. destruct seq as [|x [|? ?]]; simplify_eq/=.
  change (Js.get [Js.Finite x] 0) with (Some (Js.Finite x)).
  case_bool_decide as Hx.
  - injection Hx as ->. exists []. split_and!; [done|apply increasing_nil|].
    intros l' [Hlive _]. destruct l' as [|a l0]; [done|].
    destruct (Hlive 0 a eq_refl) as (v & Hv & Hv').
    destruct a; simpl in Hv; [congruence | by rewrite lookup_nil in Hv].
  - exists [0]. split_and!; [done| |].
    + split.
      * intros [|j] i Hj; simpl in Hj; [|by rewrite lookup_nil in Hj].
        injection Hj as <-. exists x. split; [done|congruence].
      * intros [|j] a b Ha Hb; simpl in Hb; by rewrite ?lookup_nil in Hb.
    + intros l' [Hlive Hpair]. destruct l' as [|a [|b l0]]; simpl; [lia|lia|].
      destruct (Hpair 0 a b eq_refl eq_refl) as [Hab _].
      pose proof (live_lt _ _ (Hlive 1 b eq_refl)). simpl in *. lia.
Qed.

Lemma lis_small_spec (seq : list Z) (fuel : nat) :
  (Z.of_nat (length seq) ≤ 2 ^ 31)%Z → length seq ≤ fuel →
  ∃ r, Lis.lis_small fuel (Js.ints seq) = Some r ∧ lis_result seq r.
Proof.
  intros Hsize Hfuel. unfold Lis.lis_small. rewrite !ints_length.
  destruct (Nat.eqb_spec (length seq) 0) as [H0|H0].
  { eexists. split; [done|]. by apply lis_result_empty. }
  destruct (Nat.eqb_spec (length seq) 1) as [H1|H1].
  { eexists. split; [done|]. by apply lis_result_single. }
  destruct (small_loop_ok seq fuel (length seq) 0
              (Lis.SmallState (Js.new_Array (length seq)) (Js.new_Array (length seq)) 0)
              [] []) as (st & preds & ts & Hloop & HI & HR); try done.
  { apply inv_init. }
  { split; simpl; try done; unfold Js.new_Array; by rewrite ?length_replicate. }
  change (Z.of_nat 0) with 0%Z in Hloop. rewrite Hloop. simpl.
  rewrite (sr_len _ _ _ _ HR).
  destruct (Z.eqb_spec (Z.of_nat (length ts)) 0) as [Hz|Hz].
  - eexists. split; [done|]. exists []. split_and!; [done|apply increasing_nil|].
    intros l' Hl'. pose proof (inv_maximal _ _ _ _ HI Hl'). simpl. lia.
  - destruct (inv_last_chain _ _ _ _ HI) as (t & rl & Ht & Hc & Hl & Hinc).
    { intros ->. simpl in Hz. lia. }
    eexists. split; [done|]. exists (reverse (t :: rl)). split_and!.
    + rewrite Nat2Z.id, <-Hl.
      replace (Z.of_nat (S (length rl)) - 1)%Z with (Z.of_nat (length ts - 1)) by lia.
      unfold Js.array_get. rewrite get_of_nat, (sr_tails _ _ _ _ HR _ _ Ht). simpl mjoin.
      rewrite (small_reconstruct_chain _ preds [] rl t (sr_preds _ _ _ _ HR) Hc).
      by rewrite app_nil_r.
    + done.
    + intros l' Hl'. pose proof (inv_maximal _ _ _ _ HI Hl').
      rewrite length_reverse. simpl. lia.
Qed.

(** *** [lis_large] keeps the invariant *)

Lemma view_get_in buf off size (k : nat) :
  k < size → Js.view_get buf (Js.View off size) (Z.of_nat k) = buf !! (off + k).
Proof.
  intros Hk. unfold Js.view_get. simpl.
  destruct (Z.leb_spec 0 (Z.of_nat k)); [|lia].
  destruct (Z.ltb_spec (Z.of_nat k) (Z.of_nat size)); [|lia].
  simpl. by rewrite Nat2Z.id.
Qed.

Lemma view_set_in buf off size (k : nat) x :
  k < size →
  Js.view_set buf (Js.View off size) (Z.of_nat k) x
  = <[off + k := Js.to_uint32_value x]> buf.
Proof.
  intros Hk. unfold Js.view_set. simpl.
  destruct (Z.leb_spec 0 (Z.of_nat k)); [|lia].
  destruct (Z.ltb_spec (Z.of_nat k) (Z.of_nat size)); [|lia].
  simpl. by rewrite Nat2Z.id.
Qed.

Lemma to_uint32_enc (o : option nat) (n : nat) :
  (Z.of_nat n ≤ 2 ^ 31)%Z → (∀ p, o = Some p → p < n) →
  Js.to_uint32_value (Some (enc_pred32 o)) = enc_pred32 o.
Proof.
  intros Hn Ho. unfold Js.to_uint32_value, Js.to_uint32. simpl.
  destruct o as [p|]; simpl.
  - specialize (Ho p eq_refl). apply Z.mod_small. lia.
  - done.
Qed.

Lemma to_uint32_index (k n : nat) :
  (Z.of_nat n ≤ 2 ^ 31)%Z → k < n →
  Js.to_uint32_value (Some (Z.of_nat k)) = Z.of_nat k.
Proof.
  intros Hn Hk. unfold Js.to_uint32_value, Js.to_uint32. simpl.
  apply Z.mod_small. lia.
Qed.

Lemma large_body_ok seq fuel i st preds ts :
  Inv seq i preds ts → LargeRel (length seq) st preds ts →
  i < length seq → (Z.of_nat (length seq) ≤ 2 ^ 31)%Z → length seq ≤ fuel →
  ∃ st' preds' ts',
    Lis.large_body (length seq) fuel (Js.ints seq) st (Z.of_nat i) = Some st'
    ∧ Inv seq (S i) preds' ts' ∧ LargeRel (length seq) st' preds' ts'.
Proof.
  intros HI HR Hi Hsize Hfuel.
  pose proof (inv_len _ _ _ _ HI) as Hlen.
  pose proof (inv_preds _ _ _ _ HI) as Hpl.
  destruct HR as [Rbl Rlen Rp Rt].
  destruct (lookup_lt_is_Some_2 seq i Hi) as [x Hx].
  unfold Lis.large_body. rewrite get_of_nat, ints_lookup, Hx.
  cbn [fmap option_fmap option_map]. rewrite skip_test_int.
  case_bool_decide as Hskip.
  - subst x.
    eexists _, (preds ++ [None]), ts. split; [done|]. split; [by apply inv_skip|].
    rewrite view_set_in by lia. simpl.
    change (Js.to_uint32_value (Some Lis.SENTINEL)) with Lis.SENTINEL.
    split; simpl; try done.
    + by rewrite length_insert.
    + intros k o Hk. apply lookup_snoc_inv in Hk as [[Hk1 Hk2]|[-> ->]].
      * rewrite list_lookup_insert_ne by lia. by apply Rp.
      * rewrite Hpl. by rewrite list_lookup_insert_eq by lia.
    + intros j t Ht. pose proof (lookup_lt_Some _ _ _ Ht).
      rewrite list_lookup_insert_ne by lia. by apply Rt.
  - assert (x ≠ (-1)%Z) as Hx1 by congruence.
    destruct (bsearch_tails seq i preds ts
      (λ mid, Js.get_at (Js.ints seq) (Js.view_get (Lis.l_buffer st)
                               (Js.View (length seq) (length seq)) mid)) x fuel HI)
      as (lo & Hbs & Hlo & Hbelow & Habove); [lia|lia| |].
    { intros j t Ht. pose proof (lookup_lt_Some _ _ _ Ht).
      rewrite view_get_in by lia. rewrite (Rt j t Ht). simpl.
      rewrite get_of_nat, ints_lookup.
      destruct (inv_tail_lt _ _ _ _ _ _ HI Ht) as (_ & _ & (v & Hv & _)).
      rewrite Hv. by rewrite (live_val _ _ _ Hv). }
    rewrite Rlen, Hbs. simpl.
    eexists _, (preds ++ [pred_at lo ts]), (place lo i ts).
    split; [done|]. split; [by apply inv_place with x|].
    assert ((if (0 <? Z.of_nat lo)%Z
             then Js.view_set (Lis.l_buffer st) (Js.View 0 (length seq)) (Z.of_nat i)
                    (Js.view_get (Lis.l_buffer st) (Js.View (length seq) (length seq))
                       (Z.of_nat lo - 1))
             else Js.view_set (Lis.l_buffer st) (Js.View 0 (length seq)) (Z.of_nat i)
                    (Some Lis.SENTINEL))
            = <[i := enc_pred32 (pred_at lo ts)]> (Lis.l_buffer st)) as ->.
    { rewrite !view_set_in by lia. simpl.
      destruct lo as [|j].
      - done.
      - destruct (Z.ltb_spec 0 (Z.of_nat (S j))); [|lia].
        replace (Z.of_nat (S j) - 1)%Z with (Z.of_nat j) by lia.
        destruct (lookup_lt_is_Some_2 ts j) as [p Hp]; [lia|].
        rewrite view_get_in by lia. rewrite (Rt j p Hp). simpl. rewrite Hp.
        pose proof (inv_tail_lt _ _ _ _ _ _ HI Hp) as (Hpi & _ & _).
        by rewrite (to_uint32_index p (length seq)) by lia. }
    rewrite view_set_in by lia.
    rewrite (to_uint32_index i (length seq)) by lia.
    split; simpl.
    + by rewrite !length_insert.
    + rewrite place_length by done.
      destruct (Z.eqb_spec (Z.of_nat lo) (Z.of_nat (length ts))); case_decide; lia.
    + intros k o Hk. rewrite list_lookup_insert_ne by
        (apply lookup_lt_Some in Hk; rewrite length_app in Hk; simpl in Hk; lia).
      apply lookup_snoc_inv in Hk as [[Hk1 Hk2]|[-> ->]].
      * rewrite list_lookup_insert_ne by lia. by apply Rp.
      * rewrite Hpl. by rewrite list_lookup_insert_eq by lia.
    + intros j t Ht. destruct (decide (j = lo)) as [->|Hne].
      * rewrite place_lookup_eq in Ht by done. injection Ht as <-.
        by rewrite list_lookup_insert_eq by (rewrite length_insert; lia).
      * rewrite place_lookup_ne in Ht by done.
        pose proof (lookup_lt_Some _ _ _ Ht).
        rewrite !list_lookup_insert_ne by lia. by apply Rt.
Qed.

Lemma large_loop_ok seq fuel k : ∀ i st preds ts,
  i + k = length seq →
  Inv seq i preds ts → LargeRel (length seq) st preds ts →
  (Z.of_nat (length seq) ≤ 2 ^ 31)%Z → length seq ≤ fuel →
  ∃ st' preds' ts',
    Lis.for_each (Lis.large_body (length seq) fuel (Js.ints seq))
      (seqZ (Z.of_nat i) (Z.of_nat k)) st = Some st'
    ∧ Inv seq (length seq) preds' ts' ∧ LargeRel (length seq) st' preds' ts'.
Proof.
  induction k as [|k IH]; intros i st preds ts Hik HI HR Hsize Hfuel.
  - simpl. replace i with (length seq) in HI by lia. by eexists _, _, _.
  - rewrite seqZ_cons by lia. simpl.
    destruct (large_body_ok seq fuel i st preds ts HI HR ltac:(lia) Hsize Hfuel)
      as (st1 & preds1 & ts1 & Hb & HI1 & HR1).
    rewrite Hb. simpl.
    replace (Z.succ (Z.of_nat i)) with (Z.of_nat (S i)) by lia.
    replace (Z.pred (Z.of_nat (S k))) with (Z.of_nat k) by lia.
    apply (IH (S i) st1 preds1 ts1); [lia|done..].
Qed.

Lemma large_reconstruct_S n buf count k acc :
  Lis.large_reconstruct n buf (S count) k acc
  = Lis.large_reconstruct n buf count
      (if negb (Js.strict_eq (k ≫= Js.view_get buf (Js.View 0 n)) (Some Lis.SENTINEL))
       then k ≫= Js.view_get buf (Js.View 0 n) else Some (-1)%Z)
      (k :: acc).
Proof. done. Qed.

Lemma large_reconstruct_chain n buf preds acc : ∀ rl t,
  (Z.of_nat n ≤ 2 ^ 31)%Z → length preds ≤ n →
  (∀ k o, preds !! k = Some o → buf !! k = Some (enc_pred32 o)) →
  rchain preds t rl →
  Lis.large_reconstruct n buf (S (length rl)) (Some (Z.of_nat t)) acc
  = index_array (reverse (t :: rl)) ++ acc.
Proof.
  intros rl. revert acc. induction rl as [|p rest IH]; intros acc t Hn Hpl Hp Hc.
  - done.
  - pose proof (rchain_lt _ _ _ Hc) as Ht. destruct Hc as [Hc1 Hc2].
    pose proof (rchain_lt _ _ _ Hc2) as Hpn.
    rewrite large_reconstruct_S. simpl mbind.
    rewrite view_get_in by lia. rewrite Nat.add_0_l, (Hp _ _ Hc1). simpl enc_pred32.
    unfold Js.strict_eq. rewrite bool_decide_eq_false_2.
    2:{ unfold Lis.SENTINEL. intros [=]. lia. }
    simpl negb. cbv iota. change (length (p :: rest)) with (S (length rest)).
    rewrite (IH (Some (Z.of_nat t) :: acc) p Hn Hpl Hp Hc2).
    rewrite (reverse_cons (p :: rest) t). unfold index_array.
    rewrite fmap_app. simpl. by rewrite <-app_assoc.
Qed.

Lemma lis_large_spec (seq : list Z) (fuel : nat) (workBuffer : option (list Z)) :
  (Z.of_nat (length seq) ≤ 2 ^ 31)%Z → length seq ≤ fuel →
  ∃ r, Lis.lis_large fuel (Js.ints seq) workBuffer = Some r ∧ lis_result seq r.
Proof.
  intros Hsize Hfuel. unfold Lis.lis_large. rewrite !ints_length.
  destruct (Nat.eqb_spec (length seq) 0) as [H0|H0].
  { eexists. split; [done|]. by apply lis_result_empty. }
  destruct (Nat.eqb_spec (length seq) 1) as [H1|H1].
  { eexists. split; [done|]. by apply lis_result_single. }
  set (buffer := match workBuffer with
                 | Some wb => if 2 * length seq <=? length wb then wb
                              else Js.new_Uint32Array (2 * length seq)
                 | None => Js.new_Uint32Array (2 * length seq)
                 end).
  assert (2 * length seq ≤ length buffer) as Hbuf.
  { subst buffer. unfold Js.new_Uint32Array. destruct workBuffer as [wb|].
    - destruct (Nat.leb_spec (2 * length seq) (length wb)); [done|].
      by rewrite length_replicate.
    - by rewrite length_replicate. }
  destruct (large_loop_ok seq fuel (length seq) 0 (Lis.LargeState buffer 0) [] [])
    as (st & preds & ts & Hloop & HI & HR); try done.
  { apply inv_init. }
  change (Z.of_nat 0) with 0%Z in Hloop. rewrite Hloop. simpl.
  rewrite (lr_len _ _ _ _ HR).
  destruct (Z.eqb_spec (Z.of_nat (length ts)) 0) as [Hz|Hz].
  - eexists. split; [done|]. exists []. split_and!; [done|apply increasing_nil|].
    intros l' Hl'. pose proof (inv_maximal _ _ _ _ HI Hl'). simpl. lia.
  - destruct (inv_last_chain _ _ _ _ HI) as (t & rl & Ht & Hc & Hl & Hinc).
    { intros ->. simpl in Hz. lia. }
    pose proof (inv_len _ _ _ _ HI) as Hlen.
    eexists. split; [done|]. exists (reverse (t :: rl)). split_and!.
    + rewrite Nat2Z.id, <-Hl.
      replace (Z.of_nat (S (length rl)) - 1)%Z with (Z.of_nat (length ts - 1)) by lia.
      rewrite view_get_in by lia. rewrite (lr_tails _ _ _ _ HR _ _ Ht).
      rewrite (large_reconstruct_chain _ _ preds [] rl t Hsize
                 ltac:(rewrite (inv_preds _ _ _ _ HI); lia) (lr_preds _ _ _ _ HR) Hc).
      by rewrite app_nil_r.
    + done.
    + intros l' Hl'. pose proof (inv_maximal _ _ _ _ HI Hl').
      rewrite length_reverse. simpl. lia.
Qed.

End LisInvFacts.

(** ** Sequences of numbers: what the engine sees of them *)

Module LisNumberFacts.

Import LisSpec LisInv LisInvFacts LisNumbers.

Lemma same_order_lt_get seq seq' (i j : Z) :
  same_order seq seq' →
  Js.elem_lt (Js.get seq i) (Js.get seq j) = Js.elem_lt (Js.get seq' i) (Js.get seq' j).
Proof.
  intros Hso. unfold Js.get. destruct (i <? 0)%Z; [done|].
  destruct (j <? 0)%Z; [|apply (so_lt _ _ Hso)].
  by destruct (seq !! Z.to_nat i), (seq' !! Z.to_nat i).
Qed.

Lemma same_order_lt_at seq seq' (a : Js.value) (i : Z) :
  same_order seq seq' →
  Js.elem_lt (Js.get_at seq a) (Js.get seq i)
  = Js.elem_lt (Js.get_at seq' a) (Js.get seq' i).
Proof.
  intros Hso. destruct a as [k|]; [|done]. by apply same_order_lt_get.
Qed.

Lemma same_order_skip_get seq seq' (i : Z) :
  same_order seq seq' →
  Js.elem_strict_eq (Js.get seq i) (Some (Js.Finite (-1)))
  = Js.elem_strict_eq (Js.get seq' i) (Some (Js.Finite (-1))).
Proof.
  intros Hso. unfold Js.get. destruct (i <? 0)%Z; [done|apply (so_skip _ _ Hso)].
Qed.

(** The binary search only looks at the outcome of its comparisons. *)
Lemma bsearch_ext fuel tv tv' num num' :
  (∀ mid, Js.elem_lt (tv mid) num = Js.elem_lt (tv' mid) num') →
  ∀ lo hi, Lis.bsearch fuel tv num lo hi = Lis.bsearch fuel tv' num' lo hi.
Proof.
  intros Hcmp. induction fuel as [|fuel IH]; intros lo hi; simpl; [done|].
  destruct (lo <? hi)%Z; [|done]. rewrite Hcmp.
  destruct (Js.elem_lt _ _); apply IH.
Qed.

Lemma for_each_ext {St} (body body' : St → Z → option St) indices :
  (∀ st i, body st i = body' st i) →
  ∀ st, Lis.for_each body indices st = Lis.for_each body' indices st.
Proof.
  intros Hb. induction indices as [|i rest IH]; intros st; simpl; [done|].
  rewrite Hb. destruct (body' st i) as [st'|]; simpl; [apply IH|done].
Qed.

Lemma small_body_same fuel seq seq' st i :
  same_order seq seq' → Lis.small_body fuel seq st i = Lis.small_body fuel seq' st i.
Proof.
  intros Hso. unfold Lis.small_body. rewrite (same_order_skip_get seq seq' i Hso).
  destruct (Js.elem_strict_eq _ _); [done|].
  rewrite (bsearch_ext fuel _
             (λ mid, Js.get_at seq' (Js.array_get (Lis.s_tails st) mid))
             _ (Js.get seq' i)); [done|].
  intros mid. by apply same_order_lt_at.
Qed.

Lemma large_body_same n fuel seq seq' st i :
  same_order seq seq' → Lis.large_body n fuel seq st i = Lis.large_body n fuel seq' st i.
Proof.
  intros Hso. unfold Lis.large_body. rewrite (same_order_skip_get seq seq' i Hso).
  destruct (Js.elem_strict_eq _ _); [done|].
  rewrite (bsearch_ext fuel _
             (λ mid, Js.get_at seq' (Js.view_get (Lis.l_buffer st) (Js.View n n) mid))
             _ (Js.get seq' i)); [done|].
  intros mid. by apply same_order_lt_at.
Qed.

Lemma lis_small_same fuel seq seq' :
  same_order seq seq' → Lis.lis_small fuel seq = Lis.lis_small fuel seq'.
Proof.
  intros Hso. unfold Lis.lis_small.
  rewrite (so_length _ _ Hso), (same_order_skip_get seq seq' 0 Hso).
  rewrite (for_each_ext _ (Lis.small_body fuel seq')); [done|].
  intros st i. by apply small_body_same.
Qed.

Lemma lis_large_same fuel seq seq' workBuffer :
  same_order seq seq' →
  Lis.lis_large fuel seq workBuffer = Lis.lis_large fuel seq' workBuffer.
Proof.
  intros Hso. unfold Lis.lis_large.
  rewrite (so_length _ _ Hso), (same_order_skip_get seq seq' 0 Hso).
  rewrite (for_each_ext _ (Lis.large_body (length seq') fuel seq')); [done|].
  intros st i. by apply large_body_same.
Qed.

Lemma dispatcher_same config fuel seq seq' workBuffer :
  same_order seq seq' →
  Lis.longestIncreasingSubsequence config fuel (Lis.InArrayLike seq) workBuffer
  = Lis.longestIncreasingSubsequence config fuel (Lis.InArrayLike seq') workBuffer.
Proof.
  intros Hso. unfold Lis.longestIncreasingSubsequence. simpl.
  rewrite (so_length _ _ Hso), (lis_small_same fuel seq seq' Hso),
    (lis_large_same fuel seq seq' workBuffer Hso). done.
Qed.

(** *** Ranking a sequence without [NaN] *)

Lemma above_spec seq :
  (0 ≤ above seq)%Z ∧ ∀ z, Js.Finite z ∈ seq → (z < above seq)%Z.
Proof.
  induction seq as [|x seq [IH0 IH]]; simpl.
  - split; [done|]. intros z Hz. by apply elem_of_nil in Hz.
  - split.
    + destruct x; lia.
    + intros z [<-|Hz]%elem_of_cons.
      * lia.
      * specialize (IH z Hz). destruct x; lia.
Qed.

Lemma beneath_spec seq :
  (beneath seq ≤ -2)%Z ∧ ∀ z, Js.Finite z ∈ seq → (beneath seq < z)%Z.
Proof.
  induction seq as [|x seq [IH0 IH]]; simpl.
  - split; [done|]. intros z Hz. by apply elem_of_nil in Hz.
  - split.
    + destruct x; lia.
    + intros z [<-|Hz]%elem_of_cons.
      * lia.
      * specialize (IH z Hz). destruct x; lia.
Qed.

Lemma rank_lt lo hi x y :
  (lo ≤ -2)%Z → (0 ≤ hi)%Z →
  x ≠ Js.NaN → y ≠ Js.NaN →
  (∀ z, x = Js.Finite z → (lo < z < hi)%Z) →
  (∀ z, y = Js.Finite z → (lo < z < hi)%Z) →
  Js.number_lt x y = (rank lo hi x <? rank lo hi y)%Z.
Proof.
  intros Hlo Hhi Hx Hy Bx By.
  destruct x as [| | |a], y as [| | |b]; simpl; try done; symmetry;
    try specialize (Bx _ eq_refl); try specialize (By _ eq_refl);
    first [apply Z.ltb_lt; lia | apply Z.ltb_ge; lia | done].
Qed.

Lemma rank_skip lo hi x :
  (lo ≤ -2)%Z → (0 ≤ hi)%Z → x ≠ Js.NaN →
  x = Js.Finite (-1) ↔ rank lo hi x = (-1)%Z.
Proof.
  intros Hlo Hhi Hx. destruct x as [| | |a]; simpl; try done.
  - split; [done|lia].
  - split; [done|lia].
  - split; [by intros [= ->]|by intros ->].
Qed.

Lemma ranks_lookup seq k :
  ranks seq !! k = rank (beneath seq) (above seq) <$> seq !! k.
Proof. apply list_lookup_fmap. Qed.

Lemma ranks_length seq : length (ranks seq) = length seq.
Proof. apply length_fmap. Qed.

Section ranked.
Context (seq : list Js.number) (Hnan : Js.NaN ∉ seq).

Lemma entry_bounds k x :
  seq !! k = Some x →
  x ≠ Js.NaN ∧ ∀ z, x = Js.Finite z → (beneath seq < z < above seq)%Z.
Proof using Hnan.
  intros Hk. apply list_elem_of_lookup_2 in Hk. split.
  - intros ->. done.
  - intros z ->. split; [by apply beneath_spec|by apply above_spec].
Qed.

Lemma entry_lt a b x y :
  seq !! a = Some x → seq !! b = Some y →
  Js.number_lt x y
  = (rank (beneath seq) (above seq) x <? rank (beneath seq) (above seq) y)%Z.
Proof using Hnan.
  intros Ha Hb.
  destruct (entry_bounds a x Ha) as [Hx Bx], (entry_bounds b y Hb) as [Hy By].
  apply rank_lt; try done; [apply beneath_spec|apply above_spec].
Qed.

Lemma entry_skip a x :
  seq !! a = Some x →
  x = Js.Finite (-1) ↔ rank (beneath seq) (above seq) x = (-1)%Z.
Proof using Hnan.
  intros Ha. destruct (entry_bounds a x Ha) as [Hx _].
  apply rank_skip; [apply beneath_spec|apply above_spec|done].
Qed.

(** The engine cannot tell [seq] from its ranks. *)
Lemma ranks_same_order : same_order seq (Js.ints (ranks seq)).
Proof using Hnan.
  split.
  - by rewrite ints_length, ranks_length.
  - intros a b. rewrite !ints_lookup, !ranks_lookup.
    destruct (seq !! a) as [x|] eqn:Ha; [|done].
    destruct (seq !! b) as [y|] eqn:Hb; [|done]. simpl.
    by apply entry_lt with a b.
  - intros a. rewrite ints_lookup, ranks_lookup.
    destruct (seq !! a) as [x|] eqn:Ha; [|done]. simpl.
    destruct (entry_bounds a x Ha) as [Hx _].
    pose proof (entry_skip a x Ha) as Hskip.
    destruct x as [| | |z]; simpl in *; try done;
      symmetry; apply bool_decide_eq_false; intros [= H]; by apply Hskip in H.
Qed.

Lemma not_skipped_ranks k : not_skipped seq k ↔ live (ranks seq) k.
Proof using Hnan.
  unfold not_skipped, live. rewrite ranks_lookup. split.
  - intros (x & Hk & Hx). rewrite Hk. eexists. split; [done|].
    intros Hr. apply Hx. by apply (entry_skip k).
  - intros (v & Hk & Hv). destruct (seq !! k) as [x|] eqn:Hx; [|done].
    injection Hk as <-. exists x. split; [done|].
    intros Hs. apply Hv. by apply (entry_skip k).
Qed.

Lemma rising_ranks a b :
  a < length seq → b < length seq →
  rising seq a b ↔ (val (ranks seq) a < val (ranks seq) b)%Z.
Proof using Hnan.
  intros Ha Hb.
  destruct (lookup_lt_is_Some_2 seq a Ha) as [x Hx].
  destruct (lookup_lt_is_Some_2 seq b Hb) as [y Hy].
  unfold rising, val. rewrite !ranks_lookup, Hx, Hy. simpl.
  rewrite <-Z.ltb_lt, <-(entry_lt a b x y Hx Hy). split.
  - intros (x' & y' & [= <-] & [= <-] & Hlt). done.
  - intros Hlt. by exists x, y.
Qed.

Lemma valid_ranks l : valid_subsequence seq l ↔ increasing_subsequence (ranks seq) l.
Proof using Hnan.
  unfold valid_subsequence, increasing_subsequence. split.
  - intros [Hlive Hinc]. split.
    + intros j i Hj. by apply not_skipped_ranks, (Hlive j).
    + intros j a b Ha Hb. destruct (Hinc j a b Ha Hb) as [Hab Hr].
      split; [done|]. apply rising_ranks; [| |done].
      * destruct (Hlive j a Ha) as (x & Hx & _). by apply lookup_lt_Some in Hx.
      * destruct (Hlive (S j) b Hb) as (x & Hx & _). by apply lookup_lt_Some in Hx.
  - intros [Hlive Hinc].
    assert (∀ j i, l !! j = Some i → not_skipped seq i) as Hns.
    { intros j i Hj. by apply not_skipped_ranks, (Hlive j). }
    split; [done|].
    intros j a b Ha Hb. destruct (Hinc j a b Ha Hb) as [Hab Hr].
    split; [done|]. apply rising_ranks; [| |done].
    + destruct (Hns j a Ha) as (x & Hx & _). by apply lookup_lt_Some in Hx.
    + destruct (Hns (S j) b Hb) as (x & Hx & _). by apply lookup_lt_Some in Hx.
Qed.

Lemma valid_and_maximal_ranks r : lis_result (ranks seq) r → valid_and_maximal seq r.
Proof using Hnan.
  intros (l & -> & Hinc & Hmax). exists l. split_and!; [done|by apply valid_ranks|].
  intros l' Hl'. by apply Hmax, valid_ranks.
Qed.

Lemma lis_small_numbers fuel :
  (Z.of_nat (length seq) ≤ 2 ^ 31)%Z → length seq ≤ fuel →
  ∃ r, Lis.lis_small fuel seq = Some r ∧ valid_and_maximal seq r.
Proof using Hnan.
  intros Hsize Hfuel. rewrite (lis_small_same fuel _ _ ranks_same_order).
  destruct (lis_small_spec (ranks seq) fuel) as (r & Hr & Hres);
    rewrite ?ranks_length; [done..|].
  exists r. split; [done|by apply valid_and_maximal_ranks].
Qed.

Lemma lis_large_numbers fuel workBuffer :
  (Z.of_nat (length seq) ≤ 2 ^ 31)%Z → length seq ≤ fuel →
  ∃ r, Lis.lis_large fuel seq workBuffer = Some r ∧ valid_and_maximal seq r.
Proof using Hnan.
  intros Hsize Hfuel. rewrite (lis_large_same fuel _ _ workBuffer ranks_same_order).
  destruct (lis_large_spec (ranks seq) fuel workBuffer) as (r & Hr & Hres);
    rewrite ?ranks_length; [done..|].
  exists r. split; [done|by apply valid_and_maximal_ranks].
Qed.

End ranked.

End LisNumberFacts.

(** ** The two implementations side by side, on any numbers *)

Module LisAgreeFacts.

Import LisSpec LisInv LisInvFacts LisNumbers.









End LisAgreeFacts.

(** ** The LIS engine: validity, agreement of the two paths, malformed input *)

Module LisCorrect.

Import LisSpec LisInv LisInvFacts LisNumbers LisNumberFacts LisAgreeFacts.

Lemma index_array_length (l : list nat) : length (index_array l) = length l.
Proof. unfold index_array. by rewrite length_fmap. Qed.

Lemma dispatcher_spec config fuel (seq : list Z) workBuffer :
  (Z.of_nat (length seq) ≤ 2 ^ 31)%Z → length seq ≤ fuel →
  ∃ r, Lis.longestIncreasingSubsequence config fuel (Lis.InArrayLike (Js.ints seq)) workBuffer = Some r
     ∧ lis_result seq r.
Proof.
  intros Hsize Hfuel. unfold Lis.longestIncreasingSubsequence. simpl.
  rewrite !ints_length.
  destruct (Nat.eqb_spec (length seq) 0) as [H0|H0].
  { eexists. split; [done|]. by apply lis_result_empty. }
  destruct (Js.lt_number _ _).
  - by apply lis_small_spec.
  - by apply lis_large_spec.
Qed.

Lemma dispatcher_numbers config fuel (seq : list Js.number) workBuffer :
  Js.NaN ∉ seq → (Z.of_nat (length seq) ≤ 2 ^ 31)%Z → length seq ≤ fuel →
  ∃ r, Lis.longestIncreasingSubsequence config fuel (Lis.InArrayLike seq) workBuffer = Some r
     ∧ valid_and_maximal seq r.
Proof.
  intros Hnan Hsize Hfuel.
  rewrite (dispatcher_same config fuel seq _ workBuffer (ranks_same_order seq Hnan)).
  destruct (dispatcher_spec config fuel (LisNumbers.ranks seq) workBuffer) as (r & Hr & Hres);
    rewrite ?ranks_length; [done..|].
  exists r. split; [done|by apply valid_and_maximal_ranks].
Qed.

(** C1, as stated, does not hold: [NaN] is a number, and every comparison
    with it is false. On [2, NaN, 3] the [NaN] takes the place of the 2 in
    the tails and the 3 then takes the place of the [NaN], so each path
    returns the one index 2, while the indices 0 and 2 (values 2 and 3) are
    a strictly increasing subsequence of non-skipped entries that is
    longer. *)
Lemma lis_not_maximal_with_NaN :
  Lis.longestIncreasingSubsequence Lis.default_config 3
    (Lis.InArrayLike [Js.Finite 2; Js.NaN; Js.Finite 3]) None = Some [Some 2%Z]
  ∧ Lis.lis_small 3 [Js.Finite 2; Js.NaN; Js.Finite 3] = Some [Some 2%Z]
  ∧ Lis.lis_large 3 [Js.Finite 2; Js.NaN; Js.Finite 3] None = Some [Some 2%Z]
  ∧ valid_subsequence [Js.Finite 2; Js.NaN; Js.Finite 3] [0; 2]
  ∧ ¬ valid_and_maximal [Js.Finite 2; Js.NaN; Js.Finite 3] [Some 2%Z].
Proof.
  assert (valid_subsequence [Js.Finite 2; Js.NaN; Js.Finite 3] [0; 2]) as Hvalid.
  { split.
    - intros [|[|j]] i Hj; simplify_eq/=.
      + by exists (Js.Finite 2).
      + by exists (Js.Finite 3).
    - intros [|j] a b Ha Hb; simplify_eq/=.
      split; [lia|]. by exists (Js.Finite 2), (Js.Finite 3). }
  split_and!; [by vm_compute..|done|].
  intros (l & Hr & _ & Hmax). specialize (Hmax _ Hvalid).
  apply (f_equal length) in Hr. rewrite index_array_length in Hr. simpl in *. lia.
Qed.

(** C1, amended. For an input sequence of numbers that holds no [NaN] (with
    -1 marking the positions to skip), of length at most 2^31, and enough
    fuel for the binary searches, [longestIncreasingSubsequence] (under any
    threshold, with or without a work buffer), [lis_small] and [lis_large]
    each return an array of indices that (a) only references entries that
    exist and are not -1, (b) is in increasing index order with strictly
    increasing values at consecutive indices, and (c) is at least as long as
    every strictly increasing subsequence of the non-skipped entries. *)
Theorem lis_valid_and_maximal (seq : list Js.number) (fuel : nat) :
  Js.NaN ∉ seq → (Z.of_nat (length seq) ≤ 2 ^ 31)%Z → length seq ≤ fuel →
  (∀ config workBuffer, ∃ r l,
      Lis.longestIncreasingSubsequence config fuel (Lis.InArrayLike seq) workBuffer = Some r
      ∧ r = index_array l
      ∧ (∀ j i, l !! j = Some i → ∃ x, seq !! i = Some x ∧ x ≠ Js.Finite (-1))
      ∧ (∀ j a b, l !! j = Some a → l !! S j = Some b →
           a < b ∧ ∃ x y, seq !! a = Some x ∧ seq !! b = Some y
                          ∧ Js.number_lt x y = true)
      ∧ (∀ l', valid_subsequence seq l' → length l' ≤ length l))
  ∧ (∃ r, Lis.lis_small fuel seq = Some r ∧ valid_and_maximal seq r)
  ∧ (∀ workBuffer, ∃ r, Lis.lis_large fuel seq workBuffer = Some r
                        ∧ valid_and_maximal seq r).
Proof.
  intros Hnan Hsize Hfuel. split_and!.
  - intros config workBuffer.
    destruct (dispatcher_numbers config fuel seq workBuffer Hnan Hsize Hfuel)
      as (r & Hr & l & -> & [Hlive Hinc] & Hmax).
    exists (index_array l), l. by split_and!.
  - by apply lis_small_numbers.
  - intros workBuffer. by apply lis_large_numbers.
Qed.

Lemma lis_valid_and_maximal_witness :
  ∃ r, Lis.lis_small 5
         [Js.Finite 10; Js.Finite (-1); Js.PosInfinity; Js.NegInfinity; Js.Finite 25]
       = Some r
     ∧ valid_and_maximal
         [Js.Finite 10; Js.Finite (-1); Js.PosInfinity; Js.NegInfinity; Js.Finite 25] r.
Proof.
  refine (proj1 (proj2 (lis_valid_and_maximal
    [Js.Finite 10; Js.Finite (-1); Js.PosInfinity; Js.NegInfinity; Js.Finite 25] 5 _ _ _))).
  - intros H. repeat (apply elem_of_cons in H as [H|H]; [discriminate H|]).
    by apply elem_of_nil in H.
  - simpl. lia.
  - simpl. lia.
Defined.



(** C9. On malformed input ([null], [undefined], a [length] that is not a
    number, or a [length] that is NaN or infinite) the dispatcher returns the
    empty array; it returns normally, whatever the threshold, the fuel and
    the work buffer. *)
Theorem lis_malformed_empty config fuel (seq : Lis.input) workBuffer :
  Lis.malformed seq →
  Lis.longestIncreasingSubsequence config fuel seq workBuffer = Some [].
Proof.
  destruct seq as [| | |len|elems]; simpl; try done.
  intros _. by destruct len.
Qed.

Lemma lis_malformed_empty_witness :
  Lis.longestIncreasingSubsequence Lis.default_config 0
    (Lis.InNonFiniteLength Lis.LenPosInfinity) None = Some [].
Proof.
  apply (lis_malformed_empty Lis.default_config 0
           (Lis.InNonFiniteLength Lis.LenPosInfinity) None).
  simpl. exact I.
Defined.

End LisCorrect.

(** ** The keyed reconciler on [a, b, c] → [c, b, a] *)

Module ReconcilerCorrect.

Import Reconciler.
Local Open Scope string_scope.

(** The end-to-end property as the design document words it: after
    rendering the keys a, b, c and updating to c, b, a, the middle item b is
    on the LIS and is not moved, while a and c are moved. (Position 1 is
    that of b in the new order; the prop [children] makes one element for
    each item, as in the tests.) *)
Definition middle_stays (key : option (string → nat → string)) : Prop :=
  ∃ st r na nb nc,
    render_then_update new_element key ["a"; "b"; "c"] ["c"; "b"; "a"] = Some (st, r)
    ∧ node_of st "a" = Some na ∧ node_of st "b" = Some nb ∧ node_of st "c" = Some nc
    ∧ on_lis (r_lis r) 1 = true
    ∧ moved (r_log r) nb = false
    ∧ moved (r_log r) na = true
    ∧ moved (r_log r) nc = true.

(** C3, as stated, does not hold: the position array is [2; 1; 0], of which
    the engine returns the last entry, so the node of b is moved. *)
Lemma middle_item_is_moved :
  ¬ middle_stays None ∧ ¬ middle_stays (Some (λ item _, item)).
Proof.
  split; intros (st & r & na & nb & nc & Hrun & Ha & Hb & Hc & Hlis & _);
    vm_compute in Hrun; injection Hrun as <- <-;
    vm_compute in Hlis; discriminate Hlis.
Qed.

(** C3, amended. After rendering the keys a, b, c and updating to c, b, a
    (with the item as key, given by a key function or not, and a prop
    [children] that makes one element for each item), the position
    array handed to the LIS engine is [2; 1; 0] and the engine returns [2]:
    the last item of the new order, a, is the one on the LIS and its node
    stays in place, while the nodes of b and c are moved with
    [insertBefore] (b in front of a, then c in front of b). The document
    then shows the same three nodes in the order c, b, a. *)
Theorem reorder_keeps_last (key : option (string → nat → string)) :
  key = None ∨ key = Some (λ item _, item) →
  ∃ st r na nb nc,
    render_then_update new_element key ["a"; "b"; "c"] ["c"; "b"; "a"] = Some (st, r)
    ∧ node_of st "a" = Some na ∧ node_of st "b" = Some nb ∧ node_of st "c" = Some nc
    ∧ item_nodes st = [na; nb; nc]
    ∧ r_seq r = [2; 1; 0]%Z
    ∧ r_lis r = [Some 2%Z]
    ∧ on_lis (r_lis r) 2 = true ∧ on_lis (r_lis r) 1 = false
    ∧ moved (r_log r) na = false
    ∧ moved (r_log r) nb = true
    ∧ moved (r_log r) nc = true
    ∧ r_log r = [InsertBefore nb na; InsertBefore nc nb]
    ∧ item_nodes (r_state r) = [nc; nb; na].
Proof.
  intros [-> | ->];
    exists
      {| mappedItems :=
           [("a", {| mi_node := 1; mi_cleanups := no_cleanups; mi_item := "a"; mi_index := 0 |});
            ("b", {| mi_node := 2; mi_cleanups := no_cleanups; mi_item := "b"; mi_index := 1 |});
            ("c", {| mi_node := 3; mi_cleanups := no_cleanups; mi_item := "c"; mi_index := 2 |})];
         children := [1; 2; 3; 0]; fragments := []; fresh := 4 |},
      {| r_state :=
           {| mappedItems :=
                [("c", {| mi_node := 3; mi_cleanups := no_cleanups; mi_item := "c"; mi_index := 0 |});
                 ("b", {| mi_node := 2; mi_cleanups := no_cleanups; mi_item := "b"; mi_index := 1 |});
                 ("a", {| mi_node := 1; mi_cleanups := no_cleanups; mi_item := "a"; mi_index := 2 |})];
              children := [3; 2; 1; 0]; fragments := []; fresh := 4 |};
         r_seq := [2; 1; 0]%Z;
         r_lis := [Some 2%Z];
         r_log := [InsertBefore 2 1; InsertBefore 3 2] |},
      1, 2, 3;
    split_and!; vm_compute; reflexivity.
Qed.

Lemma reorder_keeps_last_witness :
  ∃ st r na nb nc,
    render_then_update new_element None ["a"; "b"; "c"] ["c"; "b"; "a"] = Some (st, r)
    ∧ node_of st "a" = Some na ∧ node_of st "b" = Some nb ∧ node_of st "c" = Some nc
    ∧ item_nodes st = [na; nb; nc]
    ∧ r_seq r = [2; 1; 0]%Z
    ∧ r_lis r = [Some 2%Z]
    ∧ on_lis (r_lis r) 2 = true ∧ on_lis (r_lis r) 1 = false
    ∧ moved (r_log r) na = false
    ∧ moved (r_log r) nb = true
    ∧ moved (r_log r) nc = true
    ∧ r_log r = [InsertBefore nb na; InsertBefore nc nb]
    ∧ item_nodes (r_state r) = [nc; nb; na].
Proof.
  apply (reorder_keeps_last None). left. reflexivity.
Defined.

End ReconcilerCorrect.

(** ** The reactive core: subscriptions, re-tracking and batching *)

Module ReactiveFacts.

Import Reactive.

(** *** Sets *)

Lemma elem_of_set_add x y s : y ∈ set_add x s ↔ y = x ∨ y ∈ s.
Proof.
  unfold set_add. case_decide as Hx.
  - split; [auto|]. intros [->|]; done.
  - rewrite elem_of_app, list_elem_of_singleton. tauto.
Qed.

Lemma NoDup_set_add x s : NoDup s → NoDup (set_add x s).
Proof.
  intros Hs. unfold set_add. case_decide as Hx; [done|].
  apply NoDup_app. split_and!; [done| |apply NoDup_singleton].
  intros y Hy Hy'. apply list_elem_of_singleton in Hy'. by subst.
Qed.

Lemma set_add_prefix x s : s `prefix_of` set_add x s.
Proof. unfold set_add. case_decide; [done|]. by apply prefix_app_r. Qed.

Lemma elem_of_set_delete x y s : y ∈ set_delete x s ↔ y ≠ x ∧ y ∈ s.
Proof. unfold set_delete. by rewrite list_elem_of_filter. Qed.

Lemma set_delete_idemp x s : set_delete x (set_delete x s) = set_delete x s.
Proof.
  unfold set_delete. induction s as [|y s IH]; [done|].
  rewrite (filter_cons _ y s). case_decide as Hy; [|done].
  rewrite (filter_cons _ y (filter _ s)). rewrite decide_True by done. by rewrite IH.
Qed.

Lemma elem_of_add_all subs : ∀ dirty y,
  y ∈ foldl (λ dirty sub, set_add sub dirty) dirty subs ↔ y ∈ dirty ∨ y ∈ subs.
Proof.
  induction subs as [|x subs IH]; intros dirty y; simpl.
  - rewrite elem_of_nil. tauto.
  - rewrite IH, elem_of_set_add, elem_of_cons. tauto.
Qed.

Lemma NoDup_add_all subs : ∀ dirty,
  NoDup dirty → NoDup (foldl (λ dirty sub, set_add sub dirty) dirty subs).
Proof.
  induction subs as [|x subs IH]; intros dirty Hd; simpl; [done|].
  apply IH. by apply NoDup_set_add.
Qed.

Lemma add_all_prefix subs : ∀ dirty,
  dirty `prefix_of` foldl (λ dirty sub, set_add sub dirty) dirty subs.
Proof.
  induction subs as [|x subs IH]; intros dirty; simpl; [done|].
  etrans; [apply (set_add_prefix x)|apply IH].
Qed.

Lemma NoDup_bounded_length (l : list nat) (n : nat) :
  NoDup l → (∀ x, x ∈ l → x < n) → length l ≤ n.
Proof.
  intros Hnd Hb.
  assert (l ⊆+ seq 0 n) as Hsub.
  { apply NoDup_submseteq; [done|]. intros x Hx. apply elem_of_seq.
    specialize (Hb x Hx). lia. }
  apply submseteq_length in Hsub. by rewrite length_seq in Hsub.
Qed.

Lemma NoDup_prefix (l1 l2 : list nat) : l1 `prefix_of` l2 → NoDup l2 → NoDup l1.
Proof. intros [k ->] H. apply NoDup_app in H. tauto. Qed.

(** *** [flushQueue] and [write] *)

Lemma write_effects s v w : effects (write s v w) = effects w.
Proof.
  unfold write, flushQueue. destruct (signals w !! s); [|done].
  destruct (Object_is _ _); [done|]. simpl. by destruct (isBatching w).
Qed.

Lemma write_effectStack s v w : effectStack (write s v w) = effectStack w.
Proof.
  unfold write, flushQueue. destruct (signals w !! s); [|done].
  destruct (Object_is _ _); [done|]. simpl. by destruct (isBatching w).
Qed.

Lemma write_subscribers s v w s' :
  subscribers <$> (signals (write s v w) !! s') = subscribers <$> (signals w !! s').
Proof.
  unfold write, flushQueue. destruct (signals w !! s) as [sig|] eqn:Hs; [|done].
  destruct (Object_is _ _); [done|].
  assert (subscribers <$>
            (<[s := {| value := v; subscribers := subscribers sig |}]> (signals w) !! s')
          = subscribers <$> (signals w !! s')) as Heq.
  { destruct (decide (s = s')) as [->|Hne].
    - rewrite list_lookup_insert_eq by (by apply lookup_lt_Some in Hs). by rewrite Hs.
    - by rewrite list_lookup_insert_ne. }
  simpl. by destruct (isBatching w).
Qed.

Lemma write_subscribed s v w e s' :
  subscribed (write s v w) e s' ↔ subscribed w e s'.
Proof.
  unfold subscribed. pose proof (write_subscribers s v w s') as Heq.
  destruct (signals (write s v w) !! s') as [sig1|], (signals w !! s') as [sig2|];
    simplify_eq/=;
    split; intros (sig & Hsig & He); simplify_eq; eexists; (split; [done|]); congruence.
Qed.

Lemma write_depends s v w e s' :
  depends (write s v w) e s' ↔ depends w e s'.
Proof. unfold depends. by rewrite write_effects. Qed.

Lemma write_signals_length s v w : length (signals (write s v w)) = length (signals w).
Proof.
  unfold write, flushQueue. destruct (signals w !! s); [|done].
  destruct (Object_is _ _); [done|]. simpl.
  destruct (isBatching w); simpl; by rewrite length_insert.
Qed.

(** The dirty set after a write: what was there, and, if the value changed,
    the subscribers of the signal. *)
Lemma write_dirty s v w e :
  e ∈ dirtyEffects (write s v w) ↔
  e ∈ dirtyEffects w
  ∨ ∃ sig, signals w !! s = Some sig ∧ value sig ≠ v ∧ e ∈ subscribers sig.
Proof.
  unfold write, flushQueue, Object_is. destruct (signals w !! s) as [sig|] eqn:Hs.
  - case_bool_decide as Hv.
    + split; [auto|]. intros [?|(sig' & [= <-] & ? & _)]; done.
    + assert (e ∈ foldl (λ dirty sub, set_add sub dirty) (dirtyEffects w) (subscribers sig)
              ↔ e ∈ dirtyEffects w ∨ ∃ sig', Some sig = Some sig' ∧ value sig' ≠ v
                                              ∧ e ∈ subscribers sig') as Hiff.
      { rewrite elem_of_add_all. split; intros [?|H]; auto.
        - right. by exists sig.
        - right. by destruct H as (sig' & [= <-] & _ & ?). }
      simpl. by destruct (isBatching w).
  - split; [auto|]. intros [?|(sig' & [=] & _)]; done.
Qed.

Lemma write_dirty_prefix s v w :
  dirtyEffects w `prefix_of` dirtyEffects (write s v w).
Proof.
  unfold write, flushQueue. destruct (signals w !! s) as [sig|]; [|done].
  destruct (Object_is _ _); [done|].
  simpl. destruct (isBatching w); simpl; apply add_all_prefix.
Qed.

Lemma write_dirty_NoDup s v w :
  NoDup (dirtyEffects w) → NoDup (dirtyEffects (write s v w)).
Proof.
  intros Hnd. unfold write, flushQueue. destruct (signals w !! s) as [sig|]; [|done].
  destruct (Object_is _ _); [done|].
  simpl. destruct (isBatching w); simpl; by apply NoDup_add_all.
Qed.

(** A write while a flush is pending or in progress queues no callback. *)
Lemma write_batching s v w :
  isBatching w = true →
  isBatching (write s v w) = true ∧ microtasks (write s v w) = microtasks w.
Proof.
  intros Hb. unfold write, flushQueue. destruct (signals w !! s) as [sig|]; [|done].
  destruct (Object_is _ _); [done|]. simpl. by rewrite Hb.
Qed.

Lemma write_pending s v w :
  microtasks w ≤ 1 ∧ (microtasks w = 1 → isBatching w = true) →
  microtasks (write s v w) ≤ 1
  ∧ (microtasks (write s v w) = 1 → isBatching (write s v w) = true).
Proof.
  intros [H1 H2]. unfold write, flushQueue. destruct (signals w !! s) as [sig|]; [|done].
  destruct (Object_is _ _); [done|]. simpl.
  destruct (isBatching w) eqn:Hb; simpl; [by rewrite Hb|].
  split; [|done]. destruct (decide (microtasks w = 1)) as [H|H]; [|lia].
  specialize (H2 H). congruence.
Qed.

Lemma subscribed_lt w e s : symmetric w → subscribed w e s → e < length (effects w).
Proof.
  intros Hsym Hs. apply Hsym in Hs as (eff & He & _). by apply lookup_lt_Some in He.
Qed.

Lemma write_wf s v w : wf w → wf (write s v w).
Proof.
  intros [Hsym Hst Hd Hnd Hp]. split.
  - intros e s'. rewrite write_subscribed, write_depends. apply Hsym.
  - rewrite write_effectStack, write_effects. done.
  - intros e. rewrite write_dirty, write_effects. intros [?|(sig & Hs & _ & He)]; [auto|].
    apply (subscribed_lt w e s Hsym). by exists sig.
  - by apply write_dirty_NoDup.
  - by apply write_pending.
Qed.

(** *** [read] *)

Lemma read_subscribed s w e' s' :
  subscribed (read s w).1 e' s' ↔
  subscribed w e' s'
  ∨ (s' = s ∧ is_Some (signals w !! s) ∧ last (effectStack w) = Some e').
Proof.
  unfold read. destruct (signals w !! s) as [sig|] eqn:Hs; simpl.
  2:{ split; [auto|]. intros [?|(_ & [? [=]] & _)]; done. }
  destruct (last (effectStack w)) as [top|] eqn:Htop; simpl.
  2:{ split; [auto|]. intros [?|(_ & _ & [=])]; done. }
  unfold subscribed. simpl. rewrite list_lookup_alter. case_decide as Hd.
  - subst s'. rewrite Hs. simpl. split.
    + intros (sig' & [= <-] & He). simpl in He. apply elem_of_set_add in He as [->|He].
      * right. eauto.
      * left. eauto.
    + intros [(sig' & [= <-] & He)|(_ & _ & [= <-])].
      * eexists. split; [done|]. simpl. apply elem_of_set_add. auto.
      * eexists. split; [done|]. simpl. apply elem_of_set_add. auto.
  - split; [auto|]. intros [?|(-> & _)]; done.
Qed.

Lemma read_depends s w e' s' :
  depends (read s w).1 e' s' ↔
  depends w e' s'
  ∨ (s' = s ∧ is_Some (signals w !! s) ∧ last (effectStack w) = Some e'
     ∧ is_Some (effects w !! e')).
Proof.
  unfold read. destruct (signals w !! s) as [sig|] eqn:Hs; simpl.
  2:{ split; [auto|]. intros [?|(_ & [? [=]] & _)]; done. }
  destruct (last (effectStack w)) as [top|] eqn:Htop; simpl.
  2:{ split; [auto|]. intros [?|(_ & _ & [=] & _)]; done. }
  unfold depends. simpl. rewrite list_lookup_alter. case_decide as Hd.
  - subst e'. destruct (effects w !! top) as [eff|] eqn:He; simpl.
    + split.
      * intros (eff' & [= <-] & Hin). simpl in Hin.
        apply elem_of_set_add in Hin as [->|Hin]; [right; eauto|left; eauto].
      * intros [(eff' & [= <-] & Hin)|(-> & _)].
        -- eexists. split; [done|]. simpl. apply elem_of_set_add. auto.
        -- eexists. split; [done|]. simpl. apply elem_of_set_add. auto.
    + split.
      * intros (? & [=] & _).
      * intros [(? & [=] & _)|(_ & _ & _ & [? [=]])].
  - split; [auto|]. intros [?|(_ & _ & [= ->] & _)]; done.
Qed.

Lemma read_frame s w :
  effectStack (read s w).1 = effectStack w
  ∧ dirtyEffects (read s w).1 = dirtyEffects w
  ∧ isBatching (read s w).1 = isBatching w
  ∧ microtasks (read s w).1 = microtasks w
  ∧ length (effects (read s w).1) = length (effects w)
  ∧ length (signals (read s w).1) = length (signals w).
Proof.
  unfold read. destruct (signals w !! s); [|done].
  destruct (last (effectStack w)); [|done]. simpl.
  by rewrite !length_alter.
Qed.

Lemma read_fn s w e :
  fn <$> (effects (read s w).1 !! e) = fn <$> (effects w !! e).
Proof.
  unfold read. destruct (signals w !! s); [|done].
  destruct (last (effectStack w)) as [top|]; [|done]. simpl.
  rewrite list_lookup_alter. case_decide; [|done]. subst.
  by destruct (effects w !! e).
Qed.

Lemma last_elem_of (l : list nat) x : last l = Some x → x ∈ l.
Proof. intros (l' & ->)%last_Some. apply elem_of_app. right. by left. Qed.

Lemma read_wf s w : wf w → wf (read s w).1.
Proof.
  intros [Hsym Hst Hd Hnd Hp].
  destruct (read_frame s w) as (F1 & F2 & F3 & F4 & F5 & F6).
  split.
  - intros e' s'. rewrite read_subscribed, read_depends, (Hsym e' s').
    split; (intros [?|H]; [by left|right]).
    + destruct H as (? & ? & Hl). split_and!; try done.
      apply lookup_lt_is_Some_2. apply Hst. by apply last_elem_of.
    + tauto.
  - rewrite F1, F5. done.
  - rewrite F2, F5. done.
  - by rewrite F2.
  - by rewrite F3, F4.
Qed.

(** *** [cleanup] *)

Lemma delete_subscriber_idemp e sig :
  delete_subscriber e (delete_subscriber e sig) = delete_subscriber e sig.
Proof. unfold delete_subscriber. simpl. by rewrite set_delete_idemp. Qed.

Lemma lookup_delete_all e (deps : list nat) : ∀ (sigs : list Signal) (s : nat),
  foldl (λ sigs dependency, alter (delete_subscriber e) dependency sigs) sigs deps !! s
  = (if decide (s ∈ deps) then delete_subscriber e else id) <$> sigs !! s.
Proof.
  induction deps as [|d deps IH]; intros sigs s; cbn [foldl].
  - destruct (decide (s ∈ [])) as [H|_]; [by apply elem_of_nil in H|].
    by destruct (sigs !! s).
  - rewrite IH, list_lookup_alter.
    destruct (decide (d = s)) as [Heq|Hne].
    + subst d. rewrite (decide_True (P := s ∈ s :: deps)) by left.
      destruct (sigs !! s) as [sig|]; simpl; [|by destruct (decide (s ∈ deps))].
      destruct (decide (s ∈ deps)); simpl; by rewrite ?delete_subscriber_idemp.
    + destruct (decide (s ∈ deps)) as [Hin|Hnin].
      * by rewrite (decide_True (P := s ∈ d :: deps)) by (by right).
      * rewrite (decide_False (P := s ∈ d :: deps)); [done|].
        rewrite elem_of_cons. intros [?|?]; [congruence|done].
Qed.

Lemma cleanup_subscribed e w e' s' :
  subscribed (cleanup e w) e' s' ↔
  subscribed w e' s' ∧ ¬ (e' = e ∧ depends w e s').
Proof.
  unfold cleanup. destruct (effects w !! e) as [eff|] eqn:He.
  2:{ split; [|tauto]. intros H. split; [done|]. intros (_ & ? & Heq & _). congruence. }
  unfold subscribed, depends. simpl. rewrite lookup_delete_all, He.
  destruct (signals w !! s') as [sig|]; simpl.
  2:{ split; [intros (? & [=] & _)|intros [(? & [=] & _) _]]. }
  case_decide as Hin.
  - split.
    + intros (sig' & [= <-] & Hsub). simpl in Hsub.
      apply elem_of_set_delete in Hsub as [Hne Hsub].
      split; [eauto|]. intros [-> _]. done.
    + intros [(sig' & [= <-] & Hsub) Hn]. eexists. split; [done|]. simpl.
      apply elem_of_set_delete. split; [|done]. intros ->. apply Hn. eauto.
  - split.
    + intros (sig' & [= <-] & Hsub). split; [eauto|].
      intros (_ & eff' & [= <-] & Hin'). done.
    + intros [(sig' & [= <-] & Hsub) _]. eauto.
Qed.

Lemma cleanup_depends e w e' s' :
  depends (cleanup e w) e' s' ↔ depends w e' s' ∧ e' ≠ e.
Proof.
  unfold cleanup. destruct (effects w !! e) as [eff|] eqn:He.
  2:{ split; [|tauto]. intros (eff & H1 & H2). split; [by exists eff|]. congruence. }
  unfold depends. simpl. rewrite list_lookup_insert. case_decide as Hd.
  - destruct Hd as [-> _]. split.
    + intros (eff' & [= <-] & Hin). simpl in Hin. by apply elem_of_nil in Hin.
    + intros [_ ?]. done.
  - split.
    + intros (eff' & H1 & H2). split; [eauto|]. intros ->. apply Hd.
      split; [done|]. by apply lookup_lt_Some in He.
    + intros [? _]. done.
Qed.

Lemma cleanup_frame e w :
  effectStack (cleanup e w) = effectStack w
  ∧ dirtyEffects (cleanup e w) = dirtyEffects w
  ∧ isBatching (cleanup e w) = isBatching w
  ∧ microtasks (cleanup e w) = microtasks w
  ∧ length (effects (cleanup e w)) = length (effects w).
Proof.
  unfold cleanup. destruct (effects w !! e); [|done]. simpl.
  by rewrite length_insert.
Qed.

Lemma cleanup_fn e w e' :
  fn <$> (effects (cleanup e w) !! e') = fn <$> (effects w !! e').
Proof.
  unfold cleanup. destruct (effects w !! e) as [eff|] eqn:He; [|done]. simpl.
  rewrite list_lookup_insert. case_decide as Hd; [|done].
  destruct Hd as [-> _]. by rewrite He.
Qed.

Lemma cleanup_wf e w : wf w → wf (cleanup e w).
Proof.
  intros [Hsym Hst Hd Hnd Hp].
  destruct (cleanup_frame e w) as (F1 & F2 & F3 & F4 & F5).
  split.
  - intros e' s'. rewrite cleanup_subscribed, cleanup_depends, (Hsym e' s').
    split.
    + intros [H1 H2]. split; [done|]. intros ->. apply H2. done.
    + intros [H1 H2]. split; [done|]. intros [? _]. done.
  - rewrite F1, F5. done.
  - rewrite F2, F5. done.
  - by rewrite F2.
  - by rewrite F3, F4.
Qed.

(** *** Creating signals and effects *)

Lemma createSignal_subscribed v w e s :
  subscribed (createSignal v w).1 e s ↔ subscribed w e s.
Proof.
  unfold subscribed. simpl. split.
  - intros (sig & Hs & He). apply lookup_snoc_Some in Hs as [[_ Hs]|[_ <-]].
    + eauto.
    + by apply elem_of_nil in He.
  - intros (sig & Hs & He). exists sig. split; [|done]. by apply lookup_app_l_Some.
Qed.

Lemma createSignal_wf v w : wf w → wf (createSignal v w).1.
Proof.
  intros [Hsym Hst Hd Hnd Hp]. split; try done.
  intros e s. rewrite createSignal_subscribed. apply Hsym.
Qed.

Lemma add_effect_depends body w e s :
  depends (add_effect body w) e s ↔ depends w e s.
Proof.
  unfold depends. simpl. split.
  - intros (eff & He & Hs). apply lookup_snoc_Some in He as [[_ He]|[_ <-]].
    + eauto.
    + by apply elem_of_nil in Hs.
  - intros (eff & He & Hs). exists eff. split; [|done]. by apply lookup_app_l_Some.
Qed.

Lemma add_effect_wf body w : wf w → wf (add_effect body w).
Proof.
  intros [Hsym Hst Hd Hnd Hp]. split; try done; simpl.
  - intros e s. rewrite add_effect_depends. apply Hsym.
  - intros e He. rewrite length_app. specialize (Hst e He). lia.
  - intros e He. rewrite length_app. specialize (Hd e He). lia.
Qed.

Lemma make_disposer_depends e w e' s :
  depends (make_disposer e w) e' s ↔ depends w e' s.
Proof.
  unfold depends. simpl. rewrite list_lookup_alter. case_decide as Hd; [|done].
  subst e'. destruct (effects w !! e) as [eff|]; simpl.
  - split; intros (eff' & [= <-] & Hin); eauto.
  - split; intros (? & [=] & _).
Qed.

Lemma make_disposer_fn e w e' :
  fn <$> (effects (make_disposer e w) !! e') = fn <$> (effects w !! e').
Proof.
  simpl. rewrite list_lookup_alter. case_decide; [|done]. subst.
  by destruct (effects w !! e').
Qed.

Lemma make_disposer_wf e w : wf w → wf (make_disposer e w).
Proof.
  intros [Hsym Hst Hd Hnd Hp]. split; try done; simpl.
  - intros e' s. rewrite make_disposer_depends. apply Hsym.
  - intros e' He'. rewrite length_alter. by apply Hst.
  - intros e' He'. rewrite length_alter. by apply Hd.
Qed.

Lemma has_disposer_lt w e : has_disposer w e = true → e < length (effects w).
Proof.
  unfold has_disposer. destruct (effects w !! e) as [eff|] eqn:He; [|done].
  intros _. by apply lookup_lt_Some in He.
Qed.

Lemma push_wf e w : wf w → e < length (effects w) → wf (push e w).
Proof.
  intros [Hsym Hst Hd Hnd Hp] He. split; try done.
  simpl. intros e' [?| ->%list_elem_of_singleton]%elem_of_app; auto.
Qed.

Lemma pop_wf w : wf w → wf (pop w).
Proof.
  intros [Hsym Hst Hd Hnd Hp]. split; try done.
  simpl. intros e' (i & Hi & _)%elem_of_take. apply Hst.
  by apply list_elem_of_lookup_2 in Hi.
Qed.

(** *** Running a body *)

Lemma execute_with_wf run_fn e w :
  (∀ w', wf w' → wf (r_world (run_fn w'))) →
  wf w → e < length (effects w) → wf (r_world (execute_with run_fn e w)).
Proof.
  intros Hrun Hw He. unfold execute_with. simpl.
  apply pop_wf, Hrun, push_wf; [by apply cleanup_wf|].
  by destruct (cleanup_frame e w) as (_ & _ & _ & _ & ->).
Qed.

Lemma run_wf p : ∀ w, wf w → wf (r_world (run p w)).
Proof.
  induction p as [| |s k IH|s v k IH|v k IH|body IHb k IH|e' k IH]; intros w Hw; cbn [run];
    try done.
  - pose proof (read_wf s w Hw) as Hw'.
    destruct (read s w) as [w' [x|]]; simpl in *; [by apply IH|done].
  - destruct (signals w !! s); [|done]. apply IH. by apply write_wf.
  - apply IH. by apply (createSignal_wf v w).
  - assert (wf (r_world (execute_with (run body) (length (effects w)) (add_effect body w))))
      as Hw'.
    { apply execute_with_wf; [done|by apply add_effect_wf|].
      simpl. rewrite length_app. simpl. lia. }
    destruct (r_outcome (execute_with (run body) (length (effects w))
                           (add_effect body w))); simpl; [|done|done].
    by apply IH, make_disposer_wf.
  - destruct (has_disposer w e'); [|done]. cbn [r_world]. apply IH. by apply cleanup_wf.
Qed.

Lemma frame_refl w : frame w w.
Proof. by split. Qed.

Lemma frame_trans w1 w2 w3 : frame w1 w2 → frame w2 w3 → frame w1 w3.
Proof.
  intros [A1 A0 A2 A3 A4 A5] [B1 B0 B2 B3 B4 B5]. split.
  - by rewrite B1.
  - lia.
  - lia.
  - intros e He. rewrite B3 by lia. by apply A3.
  - intros Hb. destruct (A4 Hb) as [Hb' Hm]. destruct (B4 Hb') as [? ?].
    split; [done|lia].
  - by etrans.
Qed.

Lemma read_is_frame s w : frame w (read s w).1.
Proof.
  destruct (read_frame s w) as (F1 & F2 & F3 & F4 & F5 & F6). split; try done.
  - lia.
  - lia.
  - intros e _. apply read_fn.
  - intros Hb. by rewrite F3, F4.
  - by rewrite F2.
Qed.

Lemma write_is_frame s v w : frame w (write s v w).
Proof.
  split.
  - apply write_effectStack.
  - by rewrite write_signals_length.
  - by rewrite write_effects.
  - intros e _. by rewrite write_effects.
  - apply write_batching.
  - apply write_dirty_prefix.
Qed.

Lemma cleanup_signals_length e w : length (signals (cleanup e w)) = length (signals w).
Proof.
  unfold cleanup. destruct (effects w !! e) as [eff|]; [|done]. simpl.
  generalize (signals w). induction (dependencies eff) as [|d ds IH]; intros sigs; [done|].
  simpl. by rewrite IH, length_alter.
Qed.

Lemma cleanup_is_frame e w : frame w (cleanup e w).
Proof.
  destruct (cleanup_frame e w) as (F1 & F2 & F3 & F4 & F5). split; try done.
  - by rewrite cleanup_signals_length.
  - lia.
  - intros e' _. apply cleanup_fn.
  - intros Hb. by rewrite F3, F4.
  - by rewrite F2.
Qed.

Lemma createSignal_is_frame v w : frame w (createSignal v w).1.
Proof.
  split; simpl; try done.
  rewrite length_app. lia.
Qed.

Lemma add_effect_is_frame body w : frame w (add_effect body w).
Proof.
  split; simpl; try done.
  - rewrite length_app. lia.
  - intros e He. by rewrite lookup_app_l.
Qed.

Lemma make_disposer_is_frame e w : frame w (make_disposer e w).
Proof.
  split; simpl; try done.
  - by rewrite length_alter.
  - intros e' _. apply make_disposer_fn.
Qed.

Lemma execute_with_is_frame run_fn e w :
  (∀ w', frame w' (r_world (run_fn w'))) →
  frame w (r_world (execute_with run_fn e w)).
Proof.
  intros Hrun. unfold execute_with. simpl.
  pose proof (cleanup_is_frame e w) as [A1 A0 A2 A3 A4 A5].
  pose proof (Hrun (push e (cleanup e w))) as [B1 B0 B2 B3 B4 B5].
  simpl in *. split; simpl.
  - rewrite B1, length_app. simpl.
    replace (length (effectStack (cleanup e w)) + 1 - 1) with
      (length (effectStack (cleanup e w))) by lia.
    by rewrite take_app_length.
  - lia.
  - lia.
  - intros e' He'. rewrite B3 by lia. by apply A3.
  - intros Hb. destruct (A4 Hb) as [Hb' Hm]. destruct (B4 Hb') as [? ?].
    split; [done|lia].
  - by etrans.
Qed.

Lemma run_is_frame p : ∀ w, frame w (r_world (run p w)).
Proof.
  induction p as [| |s k IH|s v k IH|v k IH|body IHb k IH|e' k IH]; intros w; cbn [run];
    try apply frame_refl.
  - pose proof (read_is_frame s w) as Hf.
    destruct (read s w) as [w' [x|]]; simpl in *; [|done].
    by eapply frame_trans.
  - destruct (signals w !! s); [|apply frame_refl].
    eapply frame_trans; [apply write_is_frame|apply IH].
  - eapply frame_trans; [apply (createSignal_is_frame v w)|apply IH].
  - assert (frame w (r_world (execute_with (run body) (length (effects w))
                                (add_effect body w)))) as Hf.
    { eapply frame_trans; [apply (add_effect_is_frame body w)|].
      by apply execute_with_is_frame. }
    destruct (r_outcome (execute_with (run body) (length (effects w))
                           (add_effect body w))); simpl; [|done|done].
    eapply frame_trans; [done|].
    eapply frame_trans; [apply make_disposer_is_frame|apply IH].
  - destruct (has_disposer w e'); [|apply frame_refl]. cbn [r_world].
    eapply frame_trans; [apply cleanup_is_frame|apply IH].
Qed.

(** Creating and running a new effect leaves the edges of the effects
    there were alone, if running its body leaves those of the effects that
    are not on top of the stack and are not disposed alone. *)
Lemma nested_execute_other run_fn body w e s :
  (∀ w0 e0, e0 < length (effects w0) → last (effectStack w0) ≠ Some e0 →
     e0 ∉ r_disposed (run_fn w0) →
     ∀ s0, (depends (r_world (run_fn w0)) e0 s0 ↔ depends w0 e0 s0)
           ∧ (subscribed (r_world (run_fn w0)) e0 s0 ↔ subscribed w0 e0 s0)) →
  e < length (effects w) →
  e ∉ r_disposed (execute_with run_fn (length (effects w)) (add_effect body w)) →
  (depends (r_world (execute_with run_fn (length (effects w)) (add_effect body w))) e s
   ↔ depends w e s)
  ∧ (subscribed (r_world (execute_with run_fn (length (effects w)) (add_effect body w))) e s
     ↔ subscribed w e s).
Proof.
  intros Hrun He Hnd. unfold execute_with in *. simpl in *.
  destruct (Hrun (push (length (effects w)) (cleanup (length (effects w)) (add_effect body w))) e)
    with (s0 := s) as [I1 I2].
  { simpl. destruct (cleanup_frame (length (effects w)) (add_effect body w))
      as (_ & _ & _ & _ & ->). simpl. rewrite length_app. lia. }
  { simpl. rewrite last_snoc. intros [= ?]. lia. }
  { done. }
  change (depends (pop ?x) e s) with (depends x e s).
  change (subscribed (pop ?x) e s) with (subscribed x e s).
  rewrite I1, I2.
  change (depends (push ?y ?x) e s) with (depends x e s).
  change (subscribed (push ?y ?x) e s) with (subscribed x e s).
  rewrite cleanup_depends, cleanup_subscribed, add_effect_depends.
  change (subscribed (add_effect body w) e s) with (subscribed w e s).
  split.
  - split; [tauto|]. intros ?. split; [done|lia].
  - split; [tauto|]. intros ?. split; [done|]. intros [? _]. lia.
Qed.

(** A body leaves the edges of the effects that are not running alone,
    but for those whose disposer it calls. *)
Lemma run_other p : ∀ w e,
  e < length (effects w) → last (effectStack w) ≠ Some e →
  e ∉ r_disposed (run p w) →
  ∀ s, (depends (r_world (run p w)) e s ↔ depends w e s)
       ∧ (subscribed (r_world (run p w)) e s ↔ subscribed w e s).
Proof.
  induction p as [| |s k IH|s v k IH|v k IH|body IHb k IH|e' k IH];
    intros w e He Htop Hnd s'; cbn [run] in *; try done.
  - pose proof (read_depends s w e s') as Hd. pose proof (read_subscribed s w e s') as Hsb.
    pose proof (read_frame s w) as (F1 & _ & _ & _ & F5 & _).
    destruct (read s w) as [w' [x|]] eqn:Hr; simpl in *.
    + destruct (IH x w' e ltac:(lia) ltac:(by rewrite F1) Hnd s') as [IH1 IH2].
      rewrite IH1, IH2, Hd, Hsb. tauto.
    + rewrite Hd, Hsb. tauto.
  - destruct (signals w !! s); [|done].
    destruct (IH (write s v w) e) with (s := s') as [IH1 IH2].
    { by rewrite write_effects. }
    { by rewrite write_effectStack. }
    { done. }
    by rewrite IH1, IH2, write_depends, write_subscribed.
  - destruct (IH (length (signals w)) (createSignal v w).1 e He Htop Hnd s') as [IH1 IH2].
    rewrite IH1, IH2. split; [done|apply createSignal_subscribed].
  - pose proof (execute_with_is_frame (run body) (length (effects w)) (add_effect body w)
                  (run_is_frame body)) as Hf.
    assert (e ∉ r_disposed (execute_with (run body) (length (effects w))
                              (add_effect body w))) as Hnd1.
    { intros Hin. apply Hnd.
      destruct (r_outcome (execute_with _ _ _)); cbn [r_disposed]; [|done|done].
      apply elem_of_app. by left. }
    destruct (nested_execute_other (run body) body w e s' IHb He Hnd1) as [Hd Hsb].
    destruct (r_outcome (execute_with (run body) (length (effects w))
                           (add_effect body w))); cbn [r_world r_disposed] in *;
      [|done|done].
    destruct (IH (length (effects w))
                (make_disposer (length (effects w))
                   (r_world (execute_with (run body) (length (effects w))
                               (add_effect body w)))) e) with (s := s') as [I1 I2].
    { cbn [make_disposer with_effects effects]. rewrite length_alter.
      eapply Nat.lt_le_trans; [|apply (fr_effects _ _ Hf)].
      simpl. rewrite length_app. simpl. lia. }
    { cbn [make_disposer with_effects effectStack]. rewrite (fr_stack _ _ Hf). done. }
    { intros Hin. apply Hnd, elem_of_app. by right. }
    rewrite I1, I2, make_disposer_depends.
    change (subscribed (make_disposer ?y ?x) e s') with (subscribed x e s'). done.
  - destruct (has_disposer w e'); [|done]. cbn [r_world r_disposed] in *.
    apply not_elem_of_cons in Hnd as [Hne Hnd].
    destruct (cleanup_frame e' w) as (F1 & _ & _ & _ & F5).
    destruct (IH (cleanup e' w) e) with (s := s') as [I1 I2].
    { by rewrite F5. }
    { by rewrite F1. }
    { done. }
    rewrite I1, I2, cleanup_depends, cleanup_subscribed. split; [tauto|].
    split; [tauto|]. intros ?. split; [done|]. intros [? _]. done.
Qed.

(** The edges of the running effect after a body that does not call its
    disposer: those it had, and one for each signal read. *)
Lemma run_reads p : ∀ w e,
  last (effectStack w) = Some e → e < length (effects w) →
  e ∉ r_disposed (run p w) →
  (∀ s, depends (r_world (run p w)) e s ↔ depends w e s ∨ s ∈ r_reads (run p w))
  ∧ (∀ s, subscribed (r_world (run p w)) e s ↔ subscribed w e s ∨ s ∈ r_reads (run p w)).
Proof.
  induction p as [| |s k IH|s v k IH|v k IH|body IHb k IH|e' k IH];
    intros w e Htop He Hnd; cbn [run] in *.
  - split; intros s'; simpl; rewrite elem_of_nil; tauto.
  - split; intros s'; simpl; rewrite elem_of_nil; tauto.
  - pose proof (read_depends s w e) as Hd. pose proof (read_subscribed s w e) as Hsb.
    pose proof (read_frame s w) as (F1 & _ & _ & _ & F5 & _).
    assert (signals w !! s = None → (read s w).1 = w) as Hnone.
    { intros Hn. unfold read. by rewrite Hn. }
    assert ((read s w).2 = None ↔ signals w !! s = None) as Hres.
    { unfold read. destruct (signals w !! s); [|done].
      by destruct (last (effectStack w)). }
    assert (is_Some (effects w !! e)) as Hex by (by apply lookup_lt_is_Some).
    destruct (read s w) as [w' [x|]] eqn:Hr; simpl in *.
    + assert (is_Some (signals w !! s)) as Hsome.
      { destruct (signals w !! s); [done|]. destruct Hres as [_ Hres].
        by specialize (Hres eq_refl). }
      destruct (IH x w' e) as [IH1 IH2].
      { by rewrite F1. }
      { lia. }
      { done. }
      split; intros s'.
      * rewrite IH1, Hd, elem_of_cons. tauto.
      * rewrite IH2, Hsb, elem_of_cons. tauto.
    + rewrite (Hnone (proj1 Hres eq_refl)).
      split; intros s'; rewrite elem_of_nil; tauto.
  - destruct (signals w !! s).
    + destruct (IH (write s v w) e) as [IH1 IH2].
      { by rewrite write_effectStack. }
      { by rewrite write_effects. }
      { done. }
      split; intros s'.
      * by rewrite IH1, write_depends.
      * by rewrite IH2, write_subscribed.
    + split; intros s'; rewrite elem_of_nil; tauto.
  - destruct (IH (length (signals w)) (createSignal v w).1 e Htop He Hnd) as [IH1 IH2].
    split; intros s'.
    + by rewrite IH1.
    + by rewrite IH2, createSignal_subscribed.
  - pose proof (execute_with_is_frame (run body) (length (effects w)) (add_effect body w)
                  (run_is_frame body)) as Hf.
    assert (e ∉ r_disposed (execute_with (run body) (length (effects w))
                              (add_effect body w))) as Hnd1.
    { intros Hin. apply Hnd.
      destruct (r_outcome (execute_with _ _ _)); cbn [r_disposed]; [|done|done].
      apply elem_of_app. by left. }
    assert (∀ s',
      (depends (r_world (execute_with (run body) (length (effects w))
                           (add_effect body w))) e s' ↔ depends w e s')
      ∧ (subscribed (r_world (execute_with (run body) (length (effects w))
                                (add_effect body w))) e s' ↔ subscribed w e s'))
      as Hsame.
    { intros s'. apply (nested_execute_other (run body) body w e s' (run_other body) He Hnd1). }
    destruct (r_outcome (execute_with (run body) (length (effects w))
                           (add_effect body w))); cbn [r_world r_disposed r_reads] in *.
    + destruct (IH (length (effects w))
                  (make_disposer (length (effects w))
                     (r_world (execute_with (run body) (length (effects w))
                                 (add_effect body w)))) e) as [I1 I2].
      { cbn [make_disposer with_effects effectStack]. rewrite (fr_stack _ _ Hf). done. }
      { cbn [make_disposer with_effects effects]. rewrite length_alter.
        eapply Nat.lt_le_trans; [|apply (fr_effects _ _ Hf)].
        simpl. rewrite length_app. simpl. lia. }
      { intros Hin. apply Hnd, elem_of_app. by right. }
      split; intros s'.
      * rewrite I1, make_disposer_depends. by rewrite (proj1 (Hsame s')).
      * rewrite I2. change (subscribed (make_disposer ?y ?x) e s') with (subscribed x e s').
        by rewrite (proj2 (Hsame s')).
    + split; intros s'; rewrite elem_of_nil; destruct (Hsame s'); tauto.
    + split; intros s'; rewrite elem_of_nil; destruct (Hsame s'); tauto.
  - destruct (has_disposer w e'); cbn [r_world r_disposed r_reads] in *.
    2:{ split; intros s'; rewrite elem_of_nil; tauto. }
    apply not_elem_of_cons in Hnd as [Hne Hnd].
    destruct (cleanup_frame e' w) as (F1 & _ & _ & _ & F5).
    destruct (IH (cleanup e' w) e) as [I1 I2].
    { by rewrite F1. }
    { by rewrite F5. }
    { done. }
    split; intros s'.
    + rewrite I1, cleanup_depends. tauto.
    + rewrite I2, cleanup_subscribed. split; [tauto|].
      intros [?|?]; [left; split; [done|]; intros [? _]; congruence|by right].
Qed.

(** Whatever a body does, disposers included, it adds no edge to an effect
    that is not running. *)
Lemma nested_execute_sub run_fn body w e s :
  (∀ w0 e0, e0 < length (effects w0) → last (effectStack w0) ≠ Some e0 →
     ∀ s0, (depends (r_world (run_fn w0)) e0 s0 → depends w0 e0 s0)
           ∧ (subscribed (r_world (run_fn w0)) e0 s0 → subscribed w0 e0 s0)) →
  e < length (effects w) →
  (depends (r_world (execute_with run_fn (length (effects w)) (add_effect body w))) e s
   → depends w e s)
  ∧ (subscribed (r_world (execute_with run_fn (length (effects w)) (add_effect body w))) e s
     → subscribed w e s).
Proof.
  intros Hrun He. unfold execute_with. simpl.
  destruct (Hrun (push (length (effects w)) (cleanup (length (effects w)) (add_effect body w))) e)
    with (s0 := s) as [I1 I2].
  { simpl. destruct (cleanup_frame (length (effects w)) (add_effect body w))
      as (_ & _ & _ & _ & ->). simpl. rewrite length_app. lia. }
  { simpl. rewrite last_snoc. intros [= ?]. lia. }
  change (depends (pop ?x) e s) with (depends x e s).
  change (subscribed (pop ?x) e s) with (subscribed x e s).
  split.
  - intros H%I1. change (depends (push ?y ?x) e s) with (depends x e s) in H.
    apply cleanup_depends in H as [H _]. by apply add_effect_depends in H.
  - intros H%I2. change (subscribed (push ?y ?x) e s) with (subscribed x e s) in H.
    by apply cleanup_subscribed in H as [H _].
Qed.

Lemma run_other_sub p : ∀ w e,
  e < length (effects w) → last (effectStack w) ≠ Some e →
  ∀ s, (depends (r_world (run p w)) e s → depends w e s)
       ∧ (subscribed (r_world (run p w)) e s → subscribed w e s).
Proof.
  induction p as [| |s k IH|s v k IH|v k IH|body IHb k IH|e' k IH];
    intros w e He Htop s'; cbn [run]; try done.
  - pose proof (read_depends s w e s') as Hd. pose proof (read_subscribed s w e s') as Hsb.
    pose proof (read_frame s w) as (F1 & _ & _ & _ & F5 & _).
    destruct (read s w) as [w' [x|]] eqn:Hr; simpl in *.
    + destruct (IH x w' e ltac:(lia) ltac:(by rewrite F1) s') as [IH1 IH2].
      split; [intros H%IH1|intros H%IH2]; tauto.
    + tauto.
  - destruct (signals w !! s); [|done].
    destruct (IH (write s v w) e) with (s := s') as [IH1 IH2].
    { by rewrite write_effects. }
    { by rewrite write_effectStack. }
    split; [intros H%IH1; by apply write_depends in H
           |intros H%IH2; by apply write_subscribed in H].
  - destruct (IH (length (signals w)) (createSignal v w).1 e He Htop s') as [IH1 IH2].
    split; [done|]. intros H%IH2. by apply createSignal_subscribed in H.
  - pose proof (execute_with_is_frame (run body) (length (effects w)) (add_effect body w)
                  (run_is_frame body)) as Hf.
    destruct (nested_execute_sub (run body) body w e s' IHb He) as [Hd Hsb].
    destruct (r_outcome (execute_with (run body) (length (effects w))
                           (add_effect body w))); cbn [r_world]; [|done|done].
    destruct (IH (length (effects w))
                (make_disposer (length (effects w))
                   (r_world (execute_with (run body) (length (effects w))
                               (add_effect body w)))) e) with (s := s') as [I1 I2].
    { cbn [make_disposer with_effects effects]. rewrite length_alter.
      eapply Nat.lt_le_trans; [|apply (fr_effects _ _ Hf)].
      simpl. rewrite length_app. simpl. lia. }
    { cbn [make_disposer with_effects effectStack]. rewrite (fr_stack _ _ Hf). done. }
    split; [intros H%I1%make_disposer_depends|intros H%I2]; auto.
  - destruct (has_disposer w e'); [|done].
    cbn [r_world]. destruct (cleanup_frame e' w) as (F1 & _ & _ & _ & F5).
    destruct (IH (cleanup e' w) e) with (s := s') as [I1 I2].
    { by rewrite F5. }
    { by rewrite F1. }
    split.
    + intros H%I1. by apply cleanup_depends in H as [H _].
    + intros H%I2. by apply cleanup_subscribed in H as [H _].
Qed.

(** The edges of the running effect after a body, whatever it does: edges
    it had, or edges to signals it has read. *)
Lemma run_reads_sub p : ∀ w e,
  last (effectStack w) = Some e → e < length (effects w) →
  ∀ s, (depends (r_world (run p w)) e s → depends w e s ∨ s ∈ r_reads (run p w))
       ∧ (subscribed (r_world (run p w)) e s → subscribed w e s ∨ s ∈ r_reads (run p w)).
Proof.
  induction p as [| |s k IH|s v k IH|v k IH|body IHb k IH|e' k IH];
    intros w e Htop He s'; cbn [run].
  - simpl. tauto.
  - simpl. tauto.
  - pose proof (read_depends s w e s') as Hd. pose proof (read_subscribed s w e s') as Hsb.
    pose proof (read_frame s w) as (F1 & _ & _ & _ & F5 & _).
    destruct (read s w) as [w' [x|]] eqn:Hr; simpl in *.
    + destruct (IH x w' e ltac:(by rewrite F1) ltac:(lia) s') as [IH1 IH2].
      rewrite elem_of_cons. split; [intros H%IH1|intros H%IH2]; tauto.
    + assert (signals w !! s = None) as Hn.
      { unfold read in Hr. destruct (signals w !! s); [|done].
        by destruct (last (effectStack w)). }
      rewrite Hn in Hd, Hsb. split.
      * intros [?|(_ & [? [=]] & _)]%Hd. by left.
      * intros [?|(_ & [? [=]] & _)]%Hsb. by left.
  - destruct (signals w !! s); [|simpl; tauto].
    destruct (IH (write s v w) e) with (s := s') as [IH1 IH2].
    { by rewrite write_effectStack. }
    { by rewrite write_effects. }
    split.
    + intros [H|H]%IH1; [left; by apply write_depends in H|by right].
    + intros [H|H]%IH2; [left; by apply write_subscribed in H|by right].
  - destruct (IH (length (signals w)) (createSignal v w).1 e Htop He s') as [IH1 IH2].
    split; [done|]. intros [H|H]%IH2; [left; by apply createSignal_subscribed in H|by right].
  - pose proof (execute_with_is_frame (run body) (length (effects w)) (add_effect body w)
                  (run_is_frame body)) as Hf.
    destruct (nested_execute_sub (run body) body w e s' (run_other_sub body) He) as [Hd Hsb].
    destruct (r_outcome (execute_with (run body) (length (effects w))
                           (add_effect body w))); cbn [r_world r_reads];
      [|tauto|tauto].
    destruct (IH (length (effects w))
                (make_disposer (length (effects w))
                   (r_world (execute_with (run body) (length (effects w))
                               (add_effect body w)))) e) with (s := s') as [I1 I2].
    { cbn [make_disposer with_effects effectStack]. rewrite (fr_stack _ _ Hf). done. }
    { cbn [make_disposer with_effects effects]. rewrite length_alter.
      eapply Nat.lt_le_trans; [|apply (fr_effects _ _ Hf)].
      simpl. rewrite length_app. simpl. lia. }
    split; [intros [H%make_disposer_depends|H]%I1|intros [H|H]%I2]; auto.
  - destruct (has_disposer w e'); [|simpl; tauto].
    cbn [r_world r_reads]. destruct (cleanup_frame e' w) as (F1 & _ & _ & _ & F5).
    destruct (IH (cleanup e' w) e) with (s := s') as [I1 I2].
    { by rewrite F1. }
    { by rewrite F5. }
    split.
    + intros [H|H]%I1; [left; by apply cleanup_depends in H as [H _]|by right].
    + intros [H|H]%I2; [left; by apply cleanup_subscribed in H as [H _]|by right].
Qed.

(** *** Disposers that do not exist yet *)








(** *** [execute] *)

Lemma execute_wf e w : wf w → wf (r_world (execute e w)).
Proof.
  intros Hw. unfold execute. destruct (effects w !! e) as [eff|] eqn:He; [|done].
  apply execute_with_wf; [apply run_wf|done|]. by apply lookup_lt_Some in He.
Qed.

Lemma execute_is_frame e w : frame w (r_world (execute e w)).
Proof.
  unfold execute. destruct (effects w !! e) as [eff|] eqn:He; [|apply frame_refl].
  apply execute_with_is_frame, run_is_frame.
Qed.

Lemma run_outcome p : ∀ w, r_outcome (run p w) ≠ OutOfFuel.
Proof.
  induction p as [| |s k IH|s v k IH|v k IH|body IHb k IH|e' k IH]; intros w; cbn [run];
    try done.
  - destruct (read s w) as [w' [x|]]; simpl; [apply IH|done].
  - destruct (signals w !! s); [apply IH|done].
  - unfold execute_with. simpl.
    destruct (r_outcome (run body _)) eqn:Hout; simpl; [apply IH|done|].
    by apply IHb in Hout.
  - destruct (has_disposer w e'); [apply IH|done].
Qed.

Lemma execute_outcome e w : r_outcome (execute e w) ≠ OutOfFuel.
Proof.
  unfold execute. destruct (effects w !! e); [|done]. simpl. apply run_outcome.
Qed.

(** Bodies that create no effect leave the list of effects as long as it
    was. *)
Lemma run_flat p : ∀ w, flat p → length (effects (r_world (run p w))) = length (effects w).
Proof.
  induction p as [| |s k IH|s v k IH|v k IH|body IHb k IH|e' k IH]; intros w Hp;
    cbn [run flat] in *; try done.
  - pose proof (read_frame s w) as (_ & _ & _ & _ & F5 & _).
    destruct (read s w) as [w' [x|]]; simpl in *; [|done]. by rewrite IH.
  - destruct (signals w !! s); [|done]. by rewrite IH, write_effects.
  - by rewrite IH.
  - destruct (has_disposer w e'); [|done]. cbn [r_world]. rewrite IH by done.
    by destruct (cleanup_frame e' w) as (_ & _ & _ & _ & ->).
Qed.

Lemma execute_flat e w :
  flat_world w →
  length (effects (r_world (execute e w))) = length (effects w)
  ∧ flat_world (r_world (execute e w)).
Proof.
  intros Hflat.
  assert (length (effects (r_world (execute e w))) = length (effects w)) as Hlen.
  { unfold execute. destruct (effects w !! e) as [eff|] eqn:He; [|done].
    unfold execute_with. simpl. rewrite run_flat by by apply (Hflat e).
    simpl. by destruct (cleanup_frame e w) as (_ & _ & _ & _ & ->). }
  split; [done|].
  intros e' eff' He'. pose proof (execute_is_frame e w) as Hf.
  pose proof (fr_fn _ _ Hf e') as Hfn. rewrite He' in Hfn.
  assert (e' < length (effects w)) as Hlt.
  { apply lookup_lt_Some in He'. lia. }
  specialize (Hfn Hlt). destruct (effects w !! e') as [eff0|] eqn:He0; [|done].
  simpl in Hfn. injection Hfn as ->. by apply (Hflat e').
Qed.

(** *** The flush *)

Lemma take_prefix_eq (l1 l2 : list nat) i :
  l1 `prefix_of` l2 → i ≤ length l1 → take i l2 = take i l1.
Proof. intros [k ->] Hi. by rewrite take_app_le. Qed.

Lemma forEach_spec fuel : ∀ i w ran,
  wf w → ran = take i (dirtyEffects w) →
  wf (f_world (forEach fuel i w ran))
  ∧ frame w (f_world (forEach fuel i w ran))
  ∧ f_ran (forEach fuel i w ran) `prefix_of` dirtyEffects (f_world (forEach fuel i w ran))
  ∧ (f_outcome (forEach fuel i w ran) = Returned →
       f_ran (forEach fuel i w ran) = dirtyEffects (f_world (forEach fuel i w ran))).
Proof.
  induction fuel as [|fuel IH]; intros i w ran Hw ->.
  - simpl. destruct (dirtyEffects w !! i) as [e|] eqn:He; simpl.
    + split_and!; [done|apply frame_refl|apply prefix_take|done].
    + split_and!; [done|apply frame_refl|apply prefix_take|].
      intros _. apply take_ge. by apply lookup_ge_None.
  - simpl. destruct (dirtyEffects w !! i) as [e|] eqn:He; simpl.
    2:{ split_and!; [done|apply frame_refl|apply prefix_take|].
        intros _. apply take_ge. by apply lookup_ge_None. }
    pose proof (execute_wf e w Hw) as Hw'.
    pose proof (execute_is_frame e w) as Hf.
    pose proof (lookup_lt_Some _ _ _ He) as Hi.
    assert (take i (dirtyEffects w) ++ [e]
            = take (S i) (dirtyEffects (r_world (execute e w)))) as Htake.
    { rewrite (take_S_r _ _ e).
      - rewrite (take_prefix_eq (dirtyEffects w) (dirtyEffects (r_world (execute e w))) i);
          [done|apply (fr_dirty _ _ Hf)|lia].
      - eapply prefix_lookup_Some; [done|apply (fr_dirty _ _ Hf)]. }
    destruct (r_outcome (execute e w)) eqn:Hout; simpl.
    + destruct (IH (S i) (r_world (execute e w)) (take i (dirtyEffects w) ++ [e]) Hw' Htake)
        as (I1 & I2 & I3 & I4).
      split_and!; try done. by eapply frame_trans.
    + split_and!; try done. rewrite Htake. apply prefix_take.
    + split_and!; try done. rewrite Htake. apply prefix_take.
Qed.

(** When no body creates effects, one unit of fuel for each effect lets the
    iteration end. *)
Lemma forEach_terminates fuel : ∀ i w ran,
  wf w → flat_world w → length (effects w) ≤ fuel + i →
  f_outcome (forEach fuel i w ran) ≠ OutOfFuel.
Proof.
  induction fuel as [|fuel IH]; intros i w ran Hw Hflat Hfuel; simpl.
  - destruct (dirtyEffects w !! i) as [e|] eqn:He; simpl; [|done].
    pose proof (lookup_lt_Some _ _ _ He).
    pose proof (NoDup_bounded_length _ _ (wf_nodup _ Hw) (wf_dirty _ Hw)). lia.
  - destruct (dirtyEffects w !! i) as [e|] eqn:He; simpl; [|done].
    pose proof (execute_outcome e w) as Ho.
    destruct (execute_flat e w Hflat) as [Hlen Hflat'].
    destruct (r_outcome (execute e w)) eqn:Hout; simpl; [|done|done].
    apply IH; [by apply execute_wf|done|lia].
Qed.

Lemma with_microtasks_wf w m :
  wf w → m ≤ 1 → (m = 1 → isBatching w = true) → wf (with_microtasks w m).
Proof. intros [Hsym Hst Hd Hnd Hp] Hm Hb. by split. Qed.

Lemma flush_callback_wf fuel w :
  wf w → isBatching w = true → microtasks w = 0 →
  wf (f_world (flush_callback fuel w)).
Proof.
  intros Hw Hb Hm. unfold flush_callback. simpl.
  destruct (forEach_spec fuel 0 w [] Hw eq_refl) as ([Hsym Hst Hd Hnd Hp] & Hf & _).
  destruct (fr_batching _ _ Hf Hb) as [_ Hm'].
  split; simpl; try done.
  - intros e He. by apply elem_of_nil in He.
  - apply NoDup_nil_2.
  - split; [lia|intros; lia].
Qed.

Lemma run_microtask_wf fuel w : wf w → wf (f_world (run_microtask fuel w)).
Proof.
  intros Hw. unfold run_microtask. destruct (microtasks w) as [|m] eqn:Hm; [done|].
  destruct (wf_pending _ Hw) as [Hle Hb].
  assert (m = 0) as -> by lia.
  apply flush_callback_wf; [|by apply Hb|done].
  apply with_microtasks_wf; [done|lia|lia].
Qed.

(** *** The worlds a program reaches *)

Lemma createEffect_wf body w : wf w → wf (r_world (createEffect body w).1).
Proof.
  intros Hw. unfold createEffect. simpl.
  pose proof (execute_wf (length (effects w)) (add_effect body w) (add_effect_wf body w Hw)).
  destruct (r_outcome (execute _ _)); [by apply make_disposer_wf|done|done].
Qed.

Lemma createEffect_is_frame body w : frame w (r_world (createEffect body w).1).
Proof.
  unfold createEffect. simpl.
  assert (frame w (r_world (execute (length (effects w)) (add_effect body w)))) as Hf.
  { eapply frame_trans; [apply add_effect_is_frame|apply execute_is_frame]. }
  destruct (r_outcome (execute _ _)); [|done|done].
  eapply frame_trans; [done|apply make_disposer_is_frame].
Qed.

Lemma initial_wf : wf initial.
Proof.
  split; simpl; try done.
  - intros e s. split.
    + intros (sig & Hs & _). simpl in Hs. by rewrite lookup_nil in Hs.
    + intros (eff & He & _). simpl in He. by rewrite lookup_nil in He.
  - intros e He. by apply elem_of_nil in He.
  - intros e He. by apply elem_of_nil in He.
  - apply NoDup_nil_2.
  - split; [lia|intros; lia].
Qed.

Lemma step_wf fuel o w : wf w → wf (step fuel o w).
Proof.
  intros Hw. destruct o; simpl.
  - by apply (createSignal_wf v w).
  - by apply createEffect_wf.
  - by apply read_wf.
  - by apply write_wf.
  - by apply cleanup_wf.
  - by apply run_microtask_wf.
Qed.

Lemma run_ops_wf fuel ops : ∀ w, wf w → wf (run_ops fuel ops w).
Proof.
  induction ops as [|o ops IH]; intros w Hw; simpl; [done|].
  apply IH. by apply step_wf.
Qed.

Lemma apply_writes_wf writes : ∀ w, wf w → wf (apply_writes writes w).
Proof.
  induction writes as [|[s v] writes IH]; intros w Hw; simpl; [done|].
  apply IH. by apply write_wf.
Qed.

Lemma apply_writes_effects writes : ∀ w, effects (apply_writes writes w) = effects w.
Proof.
  induction writes as [|[s v] writes IH]; intros w; simpl; [done|].
  by rewrite IH, write_effects.
Qed.

End ReactiveFacts.

(** ** The reactive core: batching, identity writes, re-tracking, symmetry *)

Module ReactiveCorrect.

Import Reactive ReactiveFacts.

(** C4. In a well-formed world, after any sequence of writes done without a
    flush in between, at most one flush callback is queued, and when it runs
    no effect is executed twice; it ends with an empty dirty set and nothing
    queued (it does end, given fuel for one execution per effect, when no
    body creates effects). While a flush is pending or in progress
    ([isBatching]), a write queues no callback and only appends the affected
    subscribers to the dirty set; the iteration in progress keeps
    [isBatching] set and reaches what is appended: when it returns, the
    effects it has executed are exactly the members of the dirty set, each
    once, and still no callback is queued. *)
Theorem flush_batches (w : world) :
  wf w →
  (∀ writes fuel,
      microtasks (apply_writes writes w) ≤ 1
      ∧ NoDup (f_ran (run_microtask fuel (apply_writes writes w)))
      ∧ microtasks (f_world (run_microtask fuel (apply_writes writes w))) = 0
      ∧ (microtasks (apply_writes writes w) = 1 →
           dirtyEffects (f_world (run_microtask fuel (apply_writes writes w))) = []
           ∧ isBatching (f_world (run_microtask fuel (apply_writes writes w))) = false)
      ∧ (flat_world w → length (effects w) ≤ fuel →
           f_outcome (run_microtask fuel (apply_writes writes w)) ≠ OutOfFuel))
  ∧ (isBatching w = true →
      (∀ s v,
          microtasks (write s v w) = microtasks w
          ∧ isBatching (write s v w) = true
          ∧ dirtyEffects w `prefix_of` dirtyEffects (write s v w)
          ∧ ∀ sig e, signals w !! s = Some sig → value sig ≠ v →
              e ∈ subscribers sig → e ∈ dirtyEffects (write s v w))
      ∧ (∀ fuel,
          NoDup (f_ran (forEach fuel 0 w []))
          ∧ microtasks (f_world (forEach fuel 0 w [])) = microtasks w
          ∧ isBatching (f_world (forEach fuel 0 w [])) = true
          ∧ dirtyEffects w `prefix_of` dirtyEffects (f_world (forEach fuel 0 w []))
          ∧ (f_outcome (forEach fuel 0 w []) = Returned →
               f_ran (forEach fuel 0 w []) = dirtyEffects (f_world (forEach fuel 0 w []))))).
Proof.
  intros Hw. split.
  - intros writes fuel.
    pose proof (apply_writes_wf writes w Hw) as Hw1.
    pose proof (apply_writes_effects writes w) as Heff.
    set (w1 := apply_writes writes w) in *.
    destruct (wf_pending _ Hw1) as [Hle Hb].
    unfold run_microtask. destruct (microtasks w1) as [|m] eqn:Hm; simpl.
    { split_and!; [lia|apply NoDup_nil_2|done|lia|done]. }
    assert (m = 0) as -> by lia.
    assert (wf (with_microtasks w1 0)) as Hw2.
    { apply with_microtasks_wf; [done|lia|lia]. }
    destruct (forEach_spec fuel 0 (with_microtasks w1 0) [] Hw2 eq_refl)
      as (Hw3 & Hf & Hpre & _).
    destruct (fr_batching _ _ Hf (Hb eq_refl)) as [_ Hm'].
    split_and!; [lia| |done|done|].
    + eapply NoDup_prefix; [done|apply (wf_nodup _ Hw3)].
    + intros Hflat Hfuel. apply forEach_terminates; [done| |simpl; rewrite Heff; lia].
      intros e eff. simpl. rewrite Heff. apply Hflat.
  - intros Hb. split.
    + intros s v. destruct (write_batching s v w Hb) as [? ?].
      split_and!; [done|done|apply write_dirty_prefix|].
      intros sig e Hs Hv He. apply write_dirty. right. by exists sig.
    + intros fuel.
      destruct (forEach_spec fuel 0 w [] Hw eq_refl) as (Hw3 & Hf & Hpre & Hall).
      destruct (fr_batching _ _ Hf Hb) as [Hb' Hm'].
      split_and!; [|done|done|apply (fr_dirty _ _ Hf)|done].
      eapply NoDup_prefix; [done|apply (wf_nodup _ Hw3)].
Qed.

Lemma flush_batches_witness :
  NoDup (f_ran (run_microtask 1
                  (apply_writes [(0, VNum 1); (0, VNum 2); (0, VNum 3)] counter_world)))
  ∧ microtasks (apply_writes [(0, VNum 1); (0, VNum 2); (0, VNum 3)] counter_world) ≤ 1.
Proof.
  pose proof (proj1 (flush_batches counter_world
                       (run_ops_wf 0 _ initial initial_wf))
                [(0, VNum 1); (0, VNum 2); (0, VNum 3)] 1) as H.
  split; [exact (proj1 (proj2 H))|exact (proj1 H)].
Defined.

(** The batching test: three writes, one more run of the effect. *)
Example batch_three_writes :
  f_ran (run_microtask 1
           (apply_writes [(0, VNum 1); (0, VNum 2); (0, VNum 3)] counter_world))
  = [0].
Proof. reflexivity. Qed.

(** A write made by an effect during the flush: the effect it dirties runs
    in the same flush, and no callback is left in the queue. If that effect
    has already run in this flush, it is not run again. *)
Example reentrant_write_absorbed :
  f_ran (run_microtask 2 (write 0 (VNum 5) relay_world)) = [0; 1]
  ∧ microtasks (f_world (run_microtask 2 (write 0 (VNum 5) relay_world))) = 0
  ∧ f_ran (run_microtask 2 (write 0 (VNum 5) (write 1 (VNum 1) relay_world))) = [1; 0].
Proof. by vm_compute. Qed.

(** C5. A write of a value that is [Object.is]-equal to the current one
    leaves the world as it is (nothing is marked dirty, no flush is queued,
    and what the next flush runs is unchanged). Any other write stores the
    new value, puts every current subscriber in the dirty set and asks for a
    flush: afterwards [isBatching] holds, with one more callback queued
    unless one was already pending or running. *)
Theorem write_identity_or_notify (w : world) (s : nat) (sig : Signal) (v : jsval) :
  signals w !! s = Some sig →
  (Object_is (value sig) v = true →
      write s v w = w
      ∧ ∀ fuel, f_ran (run_microtask fuel (write s v w)) = f_ran (run_microtask fuel w))
  ∧ (Object_is (value sig) v = false →
      value <$> signals (write s v w) !! s = Some v
      ∧ (∀ e, e ∈ subscribers sig → e ∈ dirtyEffects (write s v w))
      ∧ isBatching (write s v w) = true
      ∧ microtasks (write s v w)
        = (if isBatching w then microtasks w else S (microtasks w))).
Proof.
  intros Hs. split.
  - intros Heq. assert (write s v w = w) as Hw.
    { unfold write. by rewrite Hs, Heq. }
    split; [done|]. intros fuel. by rewrite Hw.
  - intros Hne. split_and!.
    + unfold write, flushQueue. rewrite Hs, Hne.
      assert (value <$>
                <[s := {| value := v; subscribers := subscribers sig |}]> (signals w) !! s
              = Some v) as Hv.
      { rewrite list_lookup_insert_eq; [done|]. by apply lookup_lt_Some in Hs. }
      simpl. by destruct (isBatching w).
    + intros e He. apply write_dirty. right. exists sig. split_and!; [done| |done].
      intros Heq. unfold Object_is in Hne. by rewrite bool_decide_eq_true_2 in Hne.
    + unfold write, flushQueue. rewrite Hs, Hne. simpl.
      by destruct (isBatching w) eqn:Hb.
    + unfold write, flushQueue. rewrite Hs, Hne. simpl.
      by destruct (isBatching w) eqn:Hb.
Qed.

Lemma write_identity_or_notify_witness :
  write 0 (VNum 0) counter_world = counter_world
  ∧ dirtyEffects (write 0 (VNum 5) counter_world) = [0].
Proof.
  pose proof (write_identity_or_notify counter_world 0
                {| value := VNum 0; subscribers := [0] |}) as H.
  split.
  - apply (H (VNum 0)); reflexivity.
  - reflexivity.
Defined.

(** C6, as stated, does not hold: the disposer of an effect is [cleanup] of
    it, also while the effect is running. The effect of
    [self_disposing_world] reads the signals 0 and 1, calls its own
    disposer, which discards the two edges, and reads the signal 2: after
    the run (the one the pending flush makes) its only dependency is the
    signal 2, though it has read the three signals; a write to the signal 0
    no longer marks it. *)
Lemma retrack_not_exact_when_self_disposed :
  wf self_disposing_world
  ∧ f_ran (run_microtask 1 self_disposing_world) = [0]
  ∧ f_world (run_microtask 1 self_disposing_world)
    = with_isBatching
        (with_dirtyEffects
           (r_world (execute 0 (with_microtasks self_disposing_world 0))) []) false
  ∧ r_reads (execute 0 self_disposing_world) = [0; 1; 2]
  ∧ r_disposed (execute 0 self_disposing_world) = [0]
  ∧ dependencies <$> effects (r_world (execute 0 self_disposing_world)) !! 0 = Some [2]
  ∧ dirtyEffects
      (write 0 (VNum 1) (f_world (run_microtask 1 self_disposing_world))) = []
  ∧ ¬ retracks_exactly self_disposing_world 0.
Proof.
  split_and!; [apply (run_ops_wf 0 _ initial initial_wf)|by vm_compute..|].
  intros H. specialize (H 0). destruct H as [_ H].
  destruct H as (eff & Heff & Hin); [vm_compute; left|].
  vm_compute in Heff. injection Heff as <-. simpl in Hin.
  apply list_elem_of_singleton in Hin. discriminate Hin.
Qed.

(** C6, amended. When an effect of a well-formed world is executed,
    [cleanup] first removes every edge it had, in both directions; after the
    run its dependencies are among the signals its body has read in that
    run (what an effect created by the body reads is tracked for that
    effect), and only those signals have it as a subscriber: a signal the
    body did not read in that run (one read only under a guard that is now
    false, say) does not mark the effect dirty when written. When the
    disposer of the effect itself is not called during the run, its
    dependencies after the run are exactly the signals read in it, and
    exactly those signals have it as a subscriber. *)
Theorem execute_retracks (w : world) (e : nat) (eff : Subscriber) :
  wf w → effects w !! e = Some eff →
  (∀ s, ¬ depends (cleanup e w) e s ∧ ¬ subscribed (cleanup e w) e s)
  ∧ (∀ s, depends (r_world (execute e w)) e s → s ∈ r_reads (execute e w))
  ∧ (∀ s, subscribed (r_world (execute e w)) e s → s ∈ r_reads (execute e w))
  ∧ (∀ s v, s ∉ r_reads (execute e w) →
       e ∉ dirtyEffects (r_world (execute e w)) →
       e ∉ dirtyEffects (write s v (r_world (execute e w))))
  ∧ (e ∉ r_disposed (execute e w) →
       (∀ s, depends (r_world (execute e w)) e s ↔ s ∈ r_reads (execute e w))
       ∧ (∀ s, subscribed (r_world (execute e w)) e s ↔ s ∈ r_reads (execute e w))).
Proof.
  intros Hw He.
  assert (∀ s, ¬ depends (cleanup e w) e s ∧ ¬ subscribed (cleanup e w) e s) as Hclean.
  { intros s. rewrite cleanup_depends, cleanup_subscribed. split.
    - intros [_ ?]. done.
    - intros [Hs Hn]. apply Hn. split; [done|]. by apply (wf_symmetric _ Hw). }
  assert (last (effectStack (push e (cleanup e w))) = Some e) as Htop.
  { simpl. apply last_snoc. }
  assert (e < length (effects (push e (cleanup e w)))) as Hlt.
  { simpl. destruct (cleanup_frame e w) as (_ & _ & _ & _ & ->).
    by apply lookup_lt_Some in He. }
  assert ((∀ s, depends (r_world (execute e w)) e s → s ∈ r_reads (execute e w))
          ∧ (∀ s, subscribed (r_world (execute e w)) e s → s ∈ r_reads (execute e w)))
    as [Hdep Hsub].
  { unfold execute. rewrite He. unfold execute_with. simpl.
    split; intros s; destruct (run_reads_sub (fn eff) _ e Htop Hlt s) as [H1 H2].
    - change (depends (pop ?x) e s) with (depends x e s). intros [H|H]%H1; [|done].
      change (depends (push e ?x) e s) with (depends x e s) in H.
      by destruct (Hclean s).
    - change (subscribed (pop ?x) e s) with (subscribed x e s). intros [H|H]%H2; [|done].
      change (subscribed (push e ?x) e s) with (subscribed x e s) in H.
      by destruct (Hclean s). }
  split_and!; try done.
  - intros s v Hs Hd [Hin|(sig & Hsig & _ & Hin)]%write_dirty; [done|].
    apply Hs, Hsub. by exists sig.
  - unfold execute. rewrite He. unfold execute_with. simpl. intros Hnd.
    destruct (run_reads (fn eff) _ e Htop Hlt Hnd) as [H1 H2].
    split; intros s.
    + change (depends (pop ?x) e s) with (depends x e s). rewrite H1.
      change (depends (push e ?x) e s) with (depends x e s).
      pose proof (Hclean s). tauto.
    + change (subscribed (pop ?x) e s) with (subscribed x e s). rewrite H2.
      change (subscribed (push e ?x) e s) with (subscribed x e s).
      pose proof (Hclean s). tauto.
Qed.

Lemma execute_retracks_witness :
  (subscribed (r_world (execute 0 conditional_world)) 0 1
   ↔ 1 ∈ r_reads (execute 0 conditional_world))
  ∧ (subscribed (r_world (execute 0 conditional_world)) 0 2
     ↔ 2 ∈ r_reads (execute 0 conditional_world)).
Proof.
  split;
    apply (execute_retracks conditional_world 0
             {| fn := conditional; dependencies := [0; 1]; disposable := true |});
    first [apply (run_ops_wf 0 _ initial initial_wf) | reflexivity
          | vm_compute; apply not_elem_of_nil].
Defined.

(** The conditional-dependency test: once the condition is false and the
    effect has re-run, writing [dataA] marks nothing dirty, writing [dataB]
    marks the effect. *)
Example conditional_after_switch :
  let w := f_world (run_microtask 1 (write 0 (VBool false) conditional_world)) in
  dependencies <$> effects w !! 0 = Some [0; 2]
  ∧ dirtyEffects (write 1 (VNum 3) w) = []
  ∧ dirtyEffects (write 2 (VNum 30) w) = [0].
Proof. by vm_compute. Qed.

(** The nested-effects test: a write to the inner signal runs the inner
    effect only; a write to the outer signal runs the outer effect, which
    creates (and runs) a new inner effect. *)
Example nested_effects :
  f_ran (run_microtask 2 (write 1 (VNum 1) nested_world)) = [1]
  ∧ f_ran (run_microtask 2 (write 0 (VNum 1) nested_world)) = [0]
  ∧ length (effects (f_world (run_microtask 2 (write 0 (VNum 1) nested_world)))) = 3.
Proof. by vm_compute. Qed.

(** C10. In every world reached from the initial one by creating signals and
    effects, reading, writing, disposing and flushing, an effect is in the
    subscriber set of a signal exactly when that set is among the effect's
    dependencies; and once the disposer of an effect has run, the effect is
    in no subscriber set (and the relation is still symmetric). *)
Theorem subscriptions_symmetric (fuel : nat) (ops : list op) :
  symmetric (run_ops fuel ops initial)
  ∧ ∀ e,
      (∀ s, ¬ subscribed (disposer e (run_ops fuel ops initial)) e s)
      ∧ symmetric (disposer e (run_ops fuel ops initial)).
Proof.
  pose proof (run_ops_wf fuel ops initial initial_wf) as Hw.
  split; [apply (wf_symmetric _ Hw)|].
  intros e. split.
  - intros s. unfold disposer. rewrite cleanup_subscribed.
    intros [Hs Hn]. apply Hn. split; [done|]. by apply (wf_symmetric _ Hw).
  - apply wf_symmetric. by apply cleanup_wf.
Qed.

End ReactiveCorrect.

(** ** Ownership scopes: disposal order and the restored owner *)

Module LifecycleFacts.

Import Lifecycle.

Lemma cleanups_of_with_currentOwner w o root :
  cleanups_of (with_currentOwner w o) root = cleanups_of w root.
Proof. done. Qed.

Lemma cleanups_of_cleared w root : cleanups_of (with_cleanups w root []) root = [].
Proof.
  unfold cleanups_of, with_cleanups. simpl. rewrite list_lookup_alter_eq.
  by destruct (owners w !! root).
Qed.

Lemma run_cleanups_nil call root w ran :
  run_cleanups call root 0 w ran = (Returned, w, ran).
Proof. done. Qed.

(** With well-behaved cleanups the loop calls the [count] first entries of
    the list it started with, last first, whatever is registered
    meanwhile. *)
Lemma run_cleanups_ok call root (cs : list nat) :
  (∀ f, f ∈ cs → well_behaved call root f) →
  ∀ count w ran,
    count ≤ length cs →
    (∃ extra, cleanups_of w root = cs ++ extra) →
    ∃ w' extra',
      run_cleanups call root count w ran = (Returned, w', ran ++ reverse (take count cs))
      ∧ cleanups_of w' root = cs ++ extra'.
Proof.
  intros Hwb. induction count as [|i IH]; intros w ran Hi [extra Hcs].
  - exists w, extra. simpl. by rewrite app_nil_r.
  - destruct (lookup_lt_is_Some_2 cs i) as [f Hf]; [lia|].
    simpl. rewrite Hcs, (lookup_app_l_Some _ _ _ _ Hf).
    destruct (Hwb f (list_elem_of_lookup_2 _ _ _ Hf) w) as (Hret & extra2 & Hcs2).
    destruct (call f w) as [res w1]; simpl in *. subst res.
    destruct (IH w1 (ran ++ [f]) ltac:(lia)) as (w' & extra' & Hrun & Hcs').
    { exists (extra ++ extra2). by rewrite Hcs2, Hcs, <-app_assoc. }
    exists w', extra'. split; [|done].
    rewrite Hrun, (take_S_r _ _ f Hf), reverse_app. simpl.
    by rewrite <-app_assoc.
Qed.

End LifecycleFacts.

(** ** Ownership scopes: what disposal and creation guarantee *)

Module LifecycleCorrect.

Import Lifecycle LifecycleFacts.

(** C7, as the design document states it, fails when a cleanup throws: of
    the cleanups 1, 2, 3 registered in this order, disposal calls 3, then 2,
    which throws; 1 is not called and the list is not cleared, so that a
    second call of the disposer calls 3 and 2 again. *)
Lemma dispose_not_once_when_cleanup_throws :
  ¬ disposes_once second_throws 0 three_cleanups
  ∧ dispose second_throws 0 three_cleanups = (Thrown, three_cleanups, [3; 2])
  ∧ dispose second_throws 0 (dispose second_throws 0 three_cleanups).1.2
    = (Thrown, three_cleanups, [3; 2]).
Proof.
  split_and!; [|reflexivity|reflexivity].
  intros H. vm_compute in H. destruct H as [H _]. discriminate H.
Qed.

(** C7, amended. If every cleanup registered with a scope returns normally
    and leaves the scope's cleanup list alone but for registering further
    cleanups, then the disposer returns normally after calling the
    registered cleanups in reverse registration order, one call for each
    registration; the list is empty afterwards (cleanups registered during
    the disposal are dropped without being called), so that a second call
    of the disposer calls nothing. *)
Theorem dispose_reverse_once (call : nat → world → result * world)
    (root : nat) (w : world) :
  (∀ f, f ∈ cleanups_of w root → well_behaved call root f) →
  (dispose call root w).1.1 = Returned
  ∧ (dispose call root w).2 = reverse (cleanups_of w root)
  ∧ cleanups_of (dispose call root w).1.2 root = []
  ∧ (dispose call root (dispose call root w).1.2).2 = []
  ∧ disposes_once call root w.
Proof.
  intros Hwb.
  destruct (run_cleanups_ok call root (cleanups_of w root) Hwb
              (length (cleanups_of w root)) (with_currentOwner w (Some root)) [])
    as (w2 & extra & Hrun & Hcs); [done|by exists []; rewrite app_nil_r|].
  rewrite firstn_all in Hrun. simpl in Hrun.
  assert (dispose call root w
          = (Returned, with_currentOwner (with_cleanups w2 root []) (currentOwner w),
             reverse (cleanups_of w root))) as Hd.
  { unfold dispose. rewrite cleanups_of_with_currentOwner, Hrun. done. }
  assert (∀ w', cleanups_of w' root = [] → (dispose call root w').2 = []) as Hagain.
  { intros w' Hw'. unfold dispose. rewrite cleanups_of_with_currentOwner, Hw'. done. }
  assert (cleanups_of (with_currentOwner (with_cleanups w2 root []) (currentOwner w)) root
          = []) as Hnil.
  { rewrite cleanups_of_with_currentOwner. apply cleanups_of_cleared. }
  unfold disposes_once. rewrite Hd. simpl. split_and!; auto.
Qed.

Lemma dispose_reverse_once_witness :
  (dispose third_registers 0 three_cleanups).2 = [3; 2; 1]
  ∧ cleanups_of (dispose third_registers 0 three_cleanups).1.2 0 = [].
Proof.
  assert (∀ f, f ∈ cleanups_of three_cleanups 0 → well_behaved third_registers 0 f) as Hwb.
  { intros f _ w. unfold third_registers. case_decide; simpl.
    - split; [done|]. unfold onCleanup. destruct (currentOwner w) as [o|].
      + unfold cleanups_of, with_cleanups. simpl. rewrite list_lookup_alter.
        case_decide as Ho.
        * subst o. destruct (owners w !! 0); simpl; [by eexists|by exists []].
        * exists []. by rewrite app_nil_r.
      + exists []. by rewrite app_nil_r.
    - split; [done|]. exists []. by rewrite app_nil_r. }
  pose proof (dispose_reverse_once third_registers 0 three_cleanups Hwb)
    as (_ & H2 & H3 & _).
  split; [exact H2|exact H3].
Defined.

(** C8. [createRoot] leaves [currentOwner] as it found it, whether the body
    returns or throws (the exception goes on to the caller), and whatever
    the body did to the owners meanwhile; the body itself runs with the new
    owner current, whose parent is the owner found. Likewise a disposer
    leaves [currentOwner] as it found it, whether the cleanups return or one
    of them throws. *)
Theorem owner_restored (call : nat → world → result * world)
    (fn : nat → world → result * world) (root : nat) (w : world) :
  let inside := {| owners := owners w ++ [{| parent := currentOwner w; cleanups := [] |}];
                   currentOwner := Some (length (owners w)) |} in
  ((fn (length (owners w)) inside).1 = Returned →
     (createRoot fn w).1.1 = Returned
     ∧ currentOwner (createRoot fn w).1.2 = currentOwner w)
  ∧ ((fn (length (owners w)) inside).1 = Thrown →
     (createRoot fn w).1.1 = Thrown
     ∧ currentOwner (createRoot fn w).1.2 = currentOwner w)
  ∧ ((dispose call root w).1.1 = Returned →
     currentOwner (dispose call root w).1.2 = currentOwner w)
  ∧ ((dispose call root w).1.1 = Thrown →
     currentOwner (dispose call root w).1.2 = currentOwner w).
Proof.
  intros inside.
  assert (currentOwner (createRoot fn w).1.2 = currentOwner w
          ∧ (createRoot fn w).1.1 = (fn (length (owners w)) inside).1) as [Hc Hr].
  { unfold createRoot. fold inside. by destruct (fn (length (owners w)) inside). }
  assert (currentOwner (dispose call root w).1.2 = currentOwner w) as Hd.
  { unfold dispose.
    by destruct (run_cleanups call root _ _ _) as [[res w2] ran]. }
  rewrite Hr. split_and!; auto.
Qed.

(** A body that registers a cleanup and then throws, in a world whose
    current owner is 0. *)
Example createRoot_body_throws :
  createRoot (λ _ w, (Thrown, onCleanup 1 w))
    {| owners := [{| parent := None; cleanups := [] |}]; currentOwner := Some 0 |}
  = (Thrown,
     {| owners := [{| parent := None; cleanups := [] |};
                   {| parent := Some 0; cleanups := [1] |}];
        currentOwner := Some 0 |},
     1).
Proof. reflexivity. Qed.

End LifecycleCorrect.

(** ** Both implementations carry out the patience-sorting pass *)

Module PatienceFacts.

Import LisSpec LisInv LisInvFacts Patience.

Lemma partition_lower_bound xs x : ∀ ts lo,
  lo ≤ length ts →
  (∀ j t, j < lo → ts !! j = Some t → (val xs t < x)%Z) →
  (∀ j t, lo ≤ j → ts !! j = Some t → (x ≤ val xs t)%Z) →
  lo = lower_bound xs x ts.
Proof.
  induction ts as [|t rest IH]; intros lo Hlo Hbelow Habove; simpl in *; [lia|].
  destruct lo as [|lo'].
  - pose proof (Habove 0 t ltac:(lia) eq_refl).
    destruct (Z.ltb_spec (val xs t) x); [lia|done].
  - pose proof (Hbelow 0 t ltac:(lia) eq_refl).
    destruct (Z.ltb_spec (val xs t) x); [|lia].
    f_equal. apply IH; [lia| |].
    + intros j t' Hj Ht'. apply (Hbelow (S j)); [lia|done].
    + intros j t' Hj Ht'. apply (Habove (S j)); [lia|done].
Qed.

Lemma step_skip xs preds ts i :
  xs !! i = Some (-1)%Z → step xs (preds, ts) i = (preds ++ [None], ts).
Proof. intros Hx. unfold step. rewrite Hx. by rewrite decide_True. Qed.

Lemma step_place xs preds ts i x :
  xs !! i = Some x → x ≠ (-1)%Z →
  step xs (preds, ts) i
  = (preds ++ [pred_at (lower_bound xs x ts) ts], place (lower_bound xs x ts) i ts).
Proof. intros Hx Hne. unfold step. rewrite Hx. by rewrite decide_False. Qed.

Lemma small_body_patience xs fuel i st preds ts :
  Inv xs i preds ts → SmallRel (length xs) st preds ts →
  i < length xs → (Z.of_nat (length xs) ≤ 2 ^ 31)%Z → length xs ≤ fuel →
  ∃ st',
    Lis.small_body fuel (Js.ints xs) st (Z.of_nat i) = Some st'
    ∧ Inv xs (S i) (step xs (preds, ts) i).1 (step xs (preds, ts) i).2
    ∧ SmallRel (length xs) st' (step xs (preds, ts) i).1 (step xs (preds, ts) i).2.
Proof.
  intros HI HR Hi Hsize Hfuel.
  pose proof (inv_len _ _ _ _ HI) as Hlen.
  pose proof (inv_preds _ _ _ _ HI) as Hpl.
  destruct HR as [Rpl Rtl Rlen Rp Rt].
  destruct (lookup_lt_is_Some_2 xs i Hi) as [x Hx].
  unfold Lis.small_body. rewrite get_of_nat, ints_lookup, Hx.
  cbn [fmap option_fmap option_map]. rewrite skip_test_int.
  case_bool_decide as Hskip.
  - subst x. rewrite step_skip by done. simpl.
    eexists. split; [done|]. split; [by apply inv_skip|].
    rewrite array_set_in by lia. split; simpl; try done.
    + by rewrite length_insert.
    + intros k o Hk. apply lookup_snoc_inv in Hk as [[Hk1 Hk2]|[-> ->]].
      * rewrite list_lookup_insert_ne by lia. by apply Rp.
      * rewrite Hpl. by rewrite list_lookup_insert_eq by lia.
  - assert (x ≠ (-1)%Z) as Hx1 by congruence.
    destruct (bsearch_tails xs i preds ts
      (λ mid, Js.get_at (Js.ints xs) (Js.array_get (Lis.s_tails st) mid)) x fuel HI)
      as (lo & Hbs & Hlo & Hbelow & Habove); [lia|lia| |].
    { intros j t Ht. unfold Js.array_get. rewrite get_of_nat, (Rt j t Ht). simpl.
      rewrite get_of_nat, ints_lookup.
      destruct (inv_tail_lt _ _ _ _ _ _ HI Ht) as (_ & _ & (v & Hv & _)).
      rewrite Hv. by rewrite (live_val _ _ _ Hv). }
    rewrite (step_place xs preds ts i x Hx Hx1).
    rewrite <-(partition_lower_bound xs x ts lo Hlo Hbelow Habove). simpl.
    rewrite Rlen, Hbs. simpl.
    eexists. split; [done|]. split; [by apply inv_place with x|].
    assert (Js.nullish (Js.array_get (Lis.s_tails st) (Z.of_nat lo - 1)) (-1)
            = enc_pred (pred_at lo ts)) as Hpred.
    { destruct lo as [|j]; simpl.
      - done.
      - replace (Z.of_nat (S j) - 1)%Z with (Z.of_nat j) by lia.
        destruct (lookup_lt_is_Some_2 ts j) as [p Hp]; [lia|].
        unfold Js.array_get. rewrite get_of_nat, (Rt j p Hp), Hp. done. }
    rewrite Hpred.
    rewrite (array_set_in (Lis.s_predecessors st) i) by lia.
    rewrite (array_set_in (Lis.s_tails st) lo) by lia.
    assert ((if (Z.of_nat lo =? 0)%Z
             then Js.array_set (<[i:=Some (enc_pred (pred_at lo ts))]> (Lis.s_predecessors st))
                    (Z.of_nat i) (-1)
             else <[i:=Some (enc_pred (pred_at lo ts))]> (Lis.s_predecessors st))
            = <[i:=Some (enc_pred (pred_at lo ts))]> (Lis.s_predecessors st)) as ->.
    { destruct (Z.eqb_spec (Z.of_nat lo) 0) as [Hz|Hz]; [|done].
      assert (lo = 0) as -> by lia. simpl.
      rewrite array_set_in by (rewrite length_insert; lia).
      by rewrite list_insert_insert_eq. }
    split; simpl.
    + by rewrite length_insert.
    + by rewrite length_insert.
    + rewrite place_length by done.
      destruct (Z.eqb_spec (Z.of_nat lo) (Z.of_nat (length ts))); case_decide; lia.
    + intros k o Hk. apply lookup_snoc_inv in Hk as [[Hk1 Hk2]|[-> ->]].
      * rewrite list_lookup_insert_ne by lia. by apply Rp.
      * rewrite Hpl. by rewrite list_lookup_insert_eq by lia.
    + intros j t Ht. destruct (decide (j = lo)) as [->|Hne].
      * rewrite place_lookup_eq in Ht by done. injection Ht as <-.
        by rewrite list_lookup_insert_eq by lia.
      * rewrite place_lookup_ne in Ht by done.
        rewrite list_lookup_insert_ne by done. by apply Rt.
Qed.

Lemma large_body_patience xs fuel i st preds ts :
  Inv xs i preds ts → LargeRel (length xs) st preds ts →
  i < length xs → (Z.of_nat (length xs) ≤ 2 ^ 31)%Z → length xs ≤ fuel →
  ∃ st',
    Lis.large_body (length xs) fuel (Js.ints xs) st (Z.of_nat i) = Some st'
    ∧ Inv xs (S i) (step xs (preds, ts) i).1 (step xs (preds, ts) i).2
    ∧ LargeRel (length xs) st' (step xs (preds, ts) i).1 (step xs (preds, ts) i).2.
Proof.
  intros HI HR Hi Hsize Hfuel.
  pose proof (inv_len _ _ _ _ HI) as Hlen.
  pose proof (inv_preds _ _ _ _ HI) as Hpl.
  destruct HR as [Rbl Rlen Rp Rt].
  destruct (lookup_lt_is_Some_2 xs i Hi) as [x Hx].
  unfold Lis.large_body. rewrite get_of_nat, ints_lookup, Hx.
  cbn [fmap option_fmap option_map]. rewrite skip_test_int.
  case_bool_decide as Hskip.
  - subst x. rewrite step_skip by done. simpl.
    eexists. split; [done|]. split; [by apply inv_skip|].
    rewrite view_set_in by lia. simpl.
    change (Js.to_uint32_value (Some Lis.SENTINEL)) with Lis.SENTINEL.
    split; simpl; try done.
    + by rewrite length_insert.
    + intros k o Hk. apply lookup_snoc_inv in Hk as [[Hk1 Hk2]|[-> ->]].
      * rewrite list_lookup_insert_ne by lia. by apply Rp.
      * rewrite Hpl. by rewrite list_lookup_insert_eq by lia.
    + intros j t Ht. pose proof (lookup_lt_Some _ _ _ Ht).
      rewrite list_lookup_insert_ne by lia. by apply Rt.
  - assert (x ≠ (-1)%Z) as Hx1 by congruence.
    destruct (bsearch_tails xs i preds ts
      (λ mid, Js.get_at (Js.ints xs) (Js.view_get (Lis.l_buffer st)
                              (Js.View (length xs) (length xs)) mid)) x fuel HI)
      as (lo & Hbs & Hlo & Hbelow & Habove); [lia|lia| |].
    { intros j t Ht. pose proof (lookup_lt_Some _ _ _ Ht).
      rewrite view_get_in by lia. rewrite (Rt j t Ht). simpl.
      rewrite get_of_nat, ints_lookup.
      destruct (inv_tail_lt _ _ _ _ _ _ HI Ht) as (_ & _ & (v & Hv & _)).
      rewrite Hv. by rewrite (live_val _ _ _ Hv). }
    rewrite (step_place xs preds ts i x Hx Hx1).
    rewrite <-(partition_lower_bound xs x ts lo Hlo Hbelow Habove). simpl.
    rewrite Rlen, Hbs. simpl.
    eexists. split; [done|]. split; [by apply inv_place with x|].
    assert ((if (0 <? Z.of_nat lo)%Z
             then Js.view_set (Lis.l_buffer st) (Js.View 0 (length xs)) (Z.of_nat i)
                    (Js.view_get (Lis.l_buffer st) (Js.View (length xs) (length xs))
                       (Z.of_nat lo - 1))
             else Js.view_set (Lis.l_buffer st) (Js.View 0 (length xs)) (Z.of_nat i)
                    (Some Lis.SENTINEL))
            = <[i := enc_pred32 (pred_at lo ts)]> (Lis.l_buffer st)) as ->.
    { rewrite !view_set_in by lia. simpl.
      destruct lo as [|j].
      - done.
      - destruct (Z.ltb_spec 0 (Z.of_nat (S j))); [|lia].
        replace (Z.of_nat (S j) - 1)%Z with (Z.of_nat j) by lia.
        destruct (lookup_lt_is_Some_2 ts j) as [p Hp]; [lia|].
        rewrite view_get_in by lia. rewrite (Rt j p Hp). simpl. rewrite Hp.
        pose proof (inv_tail_lt _ _ _ _ _ _ HI Hp) as (Hpi & _ & _).
        by rewrite (to_uint32_index p (length xs)) by lia. }
    rewrite view_set_in by lia.
    rewrite (to_uint32_index i (length xs)) by lia.
    split; simpl.
    + by rewrite !length_insert.
    + rewrite place_length by done.
      destruct (Z.eqb_spec (Z.of_nat lo) (Z.of_nat (length ts))); case_decide; lia.
    + intros k o Hk. rewrite list_lookup_insert_ne by
        (apply lookup_lt_Some in Hk; rewrite length_app in Hk; simpl in Hk; lia).
      apply lookup_snoc_inv in Hk as [[Hk1 Hk2]|[-> ->]].
      * rewrite list_lookup_insert_ne by lia. by apply Rp.
      * rewrite Hpl. by rewrite list_lookup_insert_eq by lia.
    + intros j t Ht. destruct (decide (j = lo)) as [->|Hne].
      * rewrite place_lookup_eq in Ht by done. injection Ht as <-.
        by rewrite list_lookup_insert_eq by (rewrite length_insert; lia).
      * rewrite place_lookup_ne in Ht by done.
        pose proof (lookup_lt_Some _ _ _ Ht).
        rewrite !list_lookup_insert_ne by lia. by apply Rt.
Qed.

Lemma run_S xs k : run xs (S k) = step xs (run xs k) k.
Proof. unfold run. by rewrite seq_S, foldl_app. Qed.

Lemma small_loop_patience xs fuel k : ∀ i st,
  i + k = length xs →
  Inv xs i (run xs i).1 (run xs i).2 →
  SmallRel (length xs) st (run xs i).1 (run xs i).2 →
  (Z.of_nat (length xs) ≤ 2 ^ 31)%Z → length xs ≤ fuel →
  ∃ st',
    Lis.for_each (Lis.small_body fuel (Js.ints xs)) (seqZ (Z.of_nat i) (Z.of_nat k)) st = Some st'
    ∧ Inv xs (length xs) (run xs (length xs)).1 (run xs (length xs)).2
    ∧ SmallRel (length xs) st' (run xs (length xs)).1 (run xs (length xs)).2.
Proof.
  induction k as [|k IH]; intros i st Hik HI HR Hsize Hfuel.
  - simpl. assert (i = length xs) as -> by lia. by eexists.
  - rewrite seqZ_cons by lia. simpl.
    destruct (small_body_patience xs fuel i st _ _ HI HR ltac:(lia) Hsize Hfuel)
      as (st1 & Hb & HI1 & HR1).
    rewrite Hb. simpl.
    replace (Z.succ (Z.of_nat i)) with (Z.of_nat (S i)) by lia.
    replace (Z.pred (Z.of_nat (S k))) with (Z.of_nat k) by lia.
    rewrite <-surjective_pairing, <-run_S in HI1, HR1.
    apply (IH (S i) st1); [lia|done..].
Qed.

Lemma large_loop_patience xs fuel k : ∀ i st,
  i + k = length xs →
  Inv xs i (run xs i).1 (run xs i).2 →
  LargeRel (length xs) st (run xs i).1 (run xs i).2 →
  (Z.of_nat (length xs) ≤ 2 ^ 31)%Z → length xs ≤ fuel →
  ∃ st',
    Lis.for_each (Lis.large_body (length xs) fuel (Js.ints xs))
      (seqZ (Z.of_nat i) (Z.of_nat k)) st = Some st'
    ∧ Inv xs (length xs) (run xs (length xs)).1 (run xs (length xs)).2
    ∧ LargeRel (length xs) st' (run xs (length xs)).1 (run xs (length xs)).2.
Proof.
  induction k as [|k IH]; intros i st Hik HI HR Hsize Hfuel.
  - simpl. assert (i = length xs) as -> by lia. by eexists.
  - rewrite seqZ_cons by lia. simpl.
    destruct (large_body_patience xs fuel i st _ _ HI HR ltac:(lia) Hsize Hfuel)
      as (st1 & Hb & HI1 & HR1).
    rewrite Hb. simpl.
    replace (Z.succ (Z.of_nat i)) with (Z.of_nat (S i)) by lia.
    replace (Z.pred (Z.of_nat (S k))) with (Z.of_nat k) by lia.
    rewrite <-surjective_pairing, <-run_S in HI1, HR1.
    apply (IH (S i) st1); [lia|done..].
Qed.

Lemma chain_rchain preds acc : ∀ rl t,
  rchain preds t rl → chain preds (S (length rl)) t acc = reverse (t :: rl) ++ acc.
Proof.
  intros rl. revert acc. induction rl as [|p rest IH]; intros acc t Hc.
  - simpl in *. by rewrite Hc.
  - destruct Hc as [Hc1 Hc2].
    change (chain preds (S (length (p :: rest))) t acc)
      with (match preds !! t with
            | Some (Some p') => chain preds (S (length rest)) p' (t :: acc)
            | _ => t :: acc
            end).
    rewrite Hc1, (IH (t :: acc) p Hc2).
    rewrite (reverse_cons (p :: rest) t). by rewrite <-app_assoc.
Qed.

(** The abstract result, read off a final state that satisfies the
    invariant. *)
Lemma patience_final xs :
  Inv xs (length xs) (run xs (length xs)).1 (run xs (length xs)).2 →
  ((run xs (length xs)).2 = [] ∧ patience xs = [])
  ∨ ∃ t rl, (run xs (length xs)).2 !! (length (run xs (length xs)).2 - 1) = Some t
          ∧ rchain (run xs (length xs)).1 t rl
          ∧ S (length rl) = length (run xs (length xs)).2
          ∧ patience xs = reverse (t :: rl).
Proof.
  intros HI. unfold patience.
  destruct (decide ((run xs (length xs)).2 = [])) as [Hnil|Hne].
  - left. by rewrite Hnil.
  - right. destruct (inv_last_chain _ _ _ _ HI Hne) as (t & rl & Ht & Hc & Hl & _).
    exists t, rl. split_and!; try done.
    rewrite last_lookup.
    replace (Init.Nat.pred (length (run xs (length xs)).2))
      with (length (run xs (length xs)).2 - 1) by lia.
    rewrite Ht, <-Hl, (chain_rchain _ [] rl t Hc). by rewrite app_nil_r.
Qed.

Lemma patience_nil : patience [] = [].
Proof. done. Qed.

Lemma patience_single x : patience [x] = if decide (x = (-1)%Z) then [] else [0].
Proof.
  unfold patience, run. simpl. unfold step. simpl.
  by destruct (decide (x = (-1)%Z)).
Qed.

Lemma early_return_patience xs :
  length xs = 1 →
  (if Js.elem_strict_eq (Js.get (Js.ints xs) 0) (Some (Js.Finite (-1)))
   then [] else [Some 0%Z])
  = index_array (patience xs).
Proof.
  intros Hn. destruct xs as [|x [|? ?]]; simplify_eq/=.
  rewrite patience_single. change (Js.get [Js.Finite x] 0) with (Some (Js.Finite x)).
  case_bool_decide as Hx; case_decide as Hx'; try done; congruence.
Qed.

Lemma lis_small_patience (xs : list Z) (fuel : nat) :
  (Z.of_nat (length xs) ≤ 2 ^ 31)%Z → length xs ≤ fuel →
  Lis.lis_small fuel (Js.ints xs) = Some (index_array (patience xs)).
Proof.
  intros Hsize Hfuel. unfold Lis.lis_small. rewrite !ints_length.
  destruct (Nat.eqb_spec (length xs) 0) as [H0|H0].
  { destruct xs; [done|simpl in H0; lia]. }
  destruct (Nat.eqb_spec (length xs) 1) as [H1|H1].
  { by rewrite early_return_patience. }
  destruct (small_loop_patience xs fuel (length xs) 0
              (Lis.SmallState (Js.new_Array (length xs)) (Js.new_Array (length xs)) 0))
    as (st & Hloop & HI & HR); try done.
  { apply inv_init. }
  { split; simpl; try done; unfold Js.new_Array; by rewrite ?length_replicate. }
  change (Z.of_nat 0) with 0%Z in Hloop. rewrite Hloop. simpl.
  rewrite (sr_len _ _ _ _ HR).
  destruct (patience_final xs HI) as [[Hnil ->]|(t & rl & Ht & Hc & Hl & ->)].
  - by rewrite Hnil.
  - destruct (Z.eqb_spec (Z.of_nat (length (run xs (length xs)).2)) 0) as [Hz|Hz]; [lia|].
    rewrite Nat2Z.id, <-Hl.
    replace (Z.of_nat (S (length rl)) - 1)%Z
      with (Z.of_nat (length (run xs (length xs)).2 - 1)) by lia.
    unfold Js.array_get. rewrite get_of_nat, (sr_tails _ _ _ _ HR _ _ Ht). simpl mjoin.
    rewrite (small_reconstruct_chain _ _ [] rl t (sr_preds _ _ _ _ HR) Hc).
    by rewrite app_nil_r.
Qed.

Lemma lis_large_patience (xs : list Z) (fuel : nat) (workBuffer : option (list Z)) :
  (Z.of_nat (length xs) ≤ 2 ^ 31)%Z → length xs ≤ fuel →
  Lis.lis_large fuel (Js.ints xs) workBuffer = Some (index_array (patience xs)).
Proof.
  intros Hsize Hfuel. unfold Lis.lis_large. rewrite !ints_length.
  destruct (Nat.eqb_spec (length xs) 0) as [H0|H0].
  { destruct xs; [done|simpl in H0; lia]. }
  destruct (Nat.eqb_spec (length xs) 1) as [H1|H1].
  { by rewrite early_return_patience. }
  set (buffer := match workBuffer with
                 | Some wb => if 2 * length xs <=? length wb then wb
                              else Js.new_Uint32Array (2 * length xs)
                 | None => Js.new_Uint32Array (2 * length xs)
                 end).
  assert (2 * length xs ≤ length buffer) as Hbuf.
  { subst buffer. unfold Js.new_Uint32Array. destruct workBuffer as [wb|].
    - destruct (Nat.leb_spec (2 * length xs) (length wb)); [done|].
      by rewrite length_replicate.
    - by rewrite length_replicate. }
  destruct (large_loop_patience xs fuel (length xs) 0 (Lis.LargeState buffer 0))
    as (st & Hloop & HI & HR); try done.
  { apply inv_init. }
  change (Z.of_nat 0) with 0%Z in Hloop. rewrite Hloop. simpl.
  rewrite (lr_len _ _ _ _ HR).
  pose proof (inv_len _ _ _ _ HI) as Hlen.
  destruct (patience_final xs HI) as [[Hnil ->]|(t & rl & Ht & Hc & Hl & ->)].
  - by rewrite Hnil.
  - destruct (Z.eqb_spec (Z.of_nat (length (run xs (length xs)).2)) 0) as [Hz|Hz]; [lia|].
    rewrite Nat2Z.id, <-Hl.
    replace (Z.of_nat (S (length rl)) - 1)%Z
      with (Z.of_nat (length (run xs (length xs)).2 - 1)) by lia.
    rewrite view_get_in by lia. rewrite (lr_tails _ _ _ _ HR _ _ Ht).
    rewrite (large_reconstruct_chain _ _ _ [] rl t Hsize
               ltac:(rewrite (inv_preds _ _ _ _ HI); lia) (lr_preds _ _ _ _ HR) Hc).
    by rewrite app_nil_r.
Qed.

Lemma dispatcher_patience config fuel (xs : list Z) workBuffer :
  (Z.of_nat (length xs) ≤ 2 ^ 31)%Z → length xs ≤ fuel →
  Lis.longestIncreasingSubsequence config fuel (Lis.InArrayLike (Js.ints xs)) workBuffer
  = Some (index_array (patience xs)).
Proof.
  intros Hsize Hfuel. unfold Lis.longestIncreasingSubsequence. simpl.
  rewrite !ints_length.
  destruct (Nat.eqb_spec (length xs) 0) as [H0|H0].
  { destruct xs; [done|simpl in H0; lia]. }
  destruct (Js.lt_number _ _).
  - by apply lis_small_patience.
  - by apply lis_large_patience.
Qed.

End PatienceFacts.

(** ** Further properties of internal/lis.ts *)

Module LisExtraFacts.

Import LisSpec LisInv LisInvFacts Patience PatienceFacts.

(** A strictly increasing list of [n] or more numbers, all in [s, s + n),
    is [s, s + 1, ..., s + n - 1]. *)
Lemma increasing_fills : ∀ (l : list nat) s n,
  (∀ j a b, l !! j = Some a → l !! S j = Some b → a < b) →
  (∀ a, l !! 0 = Some a → s ≤ a) →
  (∀ j a, l !! j = Some a → a < s + n) →
  n ≤ length l →
  l = seq s n.
Proof.
  induction l as [|a l' IH]; intros s n Hadj Hhead Hup Hlen.
  - simpl in Hlen. by replace n with 0 by lia.
  - pose proof (Hhead a eq_refl) as Hsa. pose proof (Hup 0 a eq_refl) as Han.
    simpl in Hlen.
    assert (l' = seq (S a) (s + n - S a)) as Hl'.
    { apply IH.
      - intros j x y Hx Hy. apply (Hadj (S j)); done.
      - intros b Hb. apply (Hadj 0 a b); done.
      - intros j x Hx. pose proof (Hup (S j) x Hx). lia.
      - lia. }
    assert (length l' = s + n - S a) as Hll by (by rewrite Hl', length_seq).
    assert (a = s) as -> by lia.
    destruct n as [|n']; [lia|]. simpl. f_equal.
    rewrite Hl'. f_equal. lia.
Qed.

Lemma all_indices_increasing (xs : list Z) :
  no_skip xs → strictly_increasing xs →
  increasing_subsequence xs (seq 0 (length xs)).
Proof.
  intros Hns Hinc. split.
  - intros j i Hj. apply lookup_seq in Hj as [-> Hj]. simpl.
    destruct (lookup_lt_is_Some_2 xs j Hj) as [v Hv].
    exists v. split; [done|]. intros ->. by apply (Hns j).
  - intros j a b Ha Hb.
    apply lookup_seq in Ha as [-> Ha]. apply lookup_seq in Hb as [-> Hb]. simpl.
    split; [lia|].
    destruct (lookup_lt_is_Some_2 xs j Ha) as [va Hva].
    destruct (lookup_lt_is_Some_2 xs (S j) Hb) as [vb Hvb].
    unfold val. rewrite Hva, Hvb. simpl. by apply (Hinc j).
Qed.

Lemma lis_result_all (xs : list Z) r :
  no_skip xs → strictly_increasing xs → lis_result xs r →
  r = index_array (seq 0 (length xs)).
Proof.
  intros Hns Hinc (l & -> & [Hlive Hadj] & Hmax). f_equal.
  apply increasing_fills.
  - intros j a b Ha Hb. by destruct (Hadj j a b Ha Hb).
  - lia.
  - intros j a Ha. simpl. apply (live_lt xs a). by apply (Hlive j).
  - pose proof (Hmax _ (all_indices_increasing xs Hns Hinc)) as Hm.
    by rewrite length_seq in Hm.
Qed.

Lemma lis_result_nil_iff (xs : list Z) r :
  lis_result xs r → (r = [] ↔ ∀ i v, xs !! i = Some v → v = (-1)%Z).
Proof.
  intros (l & -> & [Hlive Hadj] & Hmax). split.
  - intros Hnil i v Hv. destruct (decide (v = (-1)%Z)) as [|Hne]; [done|].
    assert (increasing_subsequence xs [i]) as Hi.
    { split.
      - intros [|j] k Hk; simplify_eq/=. by exists v.
      - intros [|j] a b Ha Hb; simplify_eq/=. }
    apply Hmax in Hi. destruct l; simpl in *; [lia|done].
  - intros Hall. destruct l as [|a l']; [done|].
    destruct (Hlive 0 a eq_refl) as (v & Hv & Hne). by apply Hall in Hv.
Qed.

Lemma run_0 xs : run xs 0 = ([], []).
Proof. done. Qed.

Lemma run_non_increasing (xs : list Z) :
  no_skip xs → non_increasing xs →
  ∀ k, k < length xs → (run xs (S k)).2 = [k].
Proof.
  intros Hns Hdec. induction k as [|k IH]; intros Hk.
  - rewrite run_S, run_0.
    destruct (lookup_lt_is_Some_2 xs 0 Hk) as [x Hx].
    rewrite (step_place xs [] [] 0 x Hx) by (intros ->; by apply (Hns 0)). done.
  - rewrite run_S. specialize (IH ltac:(lia)).
    destruct (run xs (S k)) as [preds ts]. simpl in IH. subst ts.
    destruct (lookup_lt_is_Some_2 xs (S k) Hk) as [x Hx].
    destruct (lookup_lt_is_Some_2 xs k ltac:(lia)) as [a Ha].
    rewrite (step_place xs preds [k] (S k) x Hx) by (intros ->; by apply (Hns (S k))).
    pose proof (Hdec k a x Ha Hx) as Hle.
    simpl. unfold val. rewrite Ha. simpl.
    destruct (Z.ltb_spec a x); [lia|]. done.
Qed.

Lemma patience_non_increasing (xs : list Z) :
  no_skip xs → non_increasing xs → xs ≠ [] →
  patience xs = [length xs - 1].
Proof.
  intros Hns Hdec Hne. unfold patience.
  assert (length xs ≠ 0) as Hn by (by destruct xs).
  pose proof (run_non_increasing xs Hns Hdec (length xs - 1) ltac:(lia)) as Hrun.
  replace (S (length xs - 1)) with (length xs) in Hrun by lia.
  rewrite Hrun. simpl.
  by destruct ((run xs (length xs)).1 !! (length xs - 1)) as [[p|]|].
Qed.

Lemma large_body_frame n fuel (xs : list Js.number) st i st' :
  Lis.large_body n fuel xs st i = Some st' →
  length (Lis.l_buffer st') = length (Lis.l_buffer st)
  ∧ ∀ k, 2 * n ≤ k → Lis.l_buffer st' !! k = Lis.l_buffer st !! k.
Proof.
  assert (∀ (buf : list Z) off i x, off + n ≤ 2 * n →
    length (Js.view_set buf (Js.View off n) i x) = length buf
    ∧ ∀ k, 2 * n ≤ k → Js.view_set buf (Js.View off n) i x !! k = buf !! k) as Hset.
  { intros buf off j x Hoff. unfold Js.view_set. simpl.
    destruct (Z.leb_spec 0 j); simpl; [|done].
    destruct (Z.ltb_spec j (Z.of_nat n)); [|done].
    split; [by rewrite length_insert|].
    intros k Hk. rewrite list_lookup_insert_ne by lia. done. }
  unfold Lis.large_body. intros Hb.
  destruct (Js.elem_strict_eq _ _).
  - injection Hb as <-. simpl. apply Hset. lia.
  - destruct (Lis.bsearch _ _ _ _ _) as [lo|]; [|done]. simpl in Hb.
    injection Hb as <-. simpl.
    destruct (Hset
      (if (0 <? lo)%Z
       then Js.view_set (Lis.l_buffer st) (Js.View 0 n) i
              (Js.view_get (Lis.l_buffer st) (Js.View n n) (lo - 1))
       else Js.view_set (Lis.l_buffer st) (Js.View 0 n) i (Some Lis.SENTINEL))
      n lo (Some i) ltac:(lia)) as [Hl2 Hk2].
    rewrite Hl2.
    destruct (0 <? lo)%Z.
    + destruct (Hset (Lis.l_buffer st) 0 i
                  (Js.view_get (Lis.l_buffer st) (Js.View n n) (lo - 1)) ltac:(lia))
        as [Hl1 Hk1].
      split; [done|]. intros k Hk. by rewrite Hk2, Hk1.
    + destruct (Hset (Lis.l_buffer st) 0 i (Some Lis.SENTINEL) ltac:(lia)) as [Hl1 Hk1].
      split; [done|]. intros k Hk. by rewrite Hk2, Hk1.
Qed.

End LisExtraFacts.

Module LisExtra.

Import LisSpec LisInv LisInvFacts Patience PatienceFacts LisExtraFacts.



(** X2. On a strictly increasing input without skip markers the result is
    every index, 0 to n - 1. *)
Theorem lis_increasing_keeps_all config fuel (xs : list Z) wb :
  no_skip xs → strictly_increasing xs →
  (Z.of_nat (length xs) ≤ 2 ^ 31)%Z → length xs ≤ fuel →
  Lis.longestIncreasingSubsequence config fuel (Lis.InArrayLike (Js.ints xs)) wb
  = Some (index_array (seq 0 (length xs))).
Proof.
  intros Hns Hinc Hsize Hfuel.
  destruct (LisCorrect.dispatcher_spec config fuel xs wb Hsize Hfuel) as (r & -> & Hr).
  f_equal. by apply lis_result_all.
Qed.

Lemma lis_increasing_keeps_all_witness :
  Lis.longestIncreasingSubsequence Lis.default_config 8
    (Lis.InArrayLike (Js.ints [1; 3; 7; 20]%Z)) None
  = Some [Some 0; Some 1; Some 2; Some 3]%Z.
Proof.
  apply (lis_increasing_keeps_all Lis.default_config 8 [1; 3; 7; 20]%Z None).
  - intros [|[|[|[|i]]]]; simpl; discriminate.
  - intros [|[|[|[|i]]]] a b Ha Hb; simplify_eq/=; lia.
  - vm_compute; discriminate.
  - simpl; lia.
Defined.

(** X3. On a non-increasing input without skip markers (ties included) the
    result is the single index n - 1: among equal or falling values the
    last one is kept. *)
Theorem lis_non_increasing_keeps_last config fuel (xs : list Z) wb :
  no_skip xs → non_increasing xs → xs ≠ [] →
  (Z.of_nat (length xs) ≤ 2 ^ 31)%Z → length xs ≤ fuel →
  Lis.longestIncreasingSubsequence config fuel (Lis.InArrayLike (Js.ints xs)) wb
  = Some [Some (Z.of_nat (length xs - 1))].
Proof.
  intros Hns Hdec Hne Hsize Hfuel.
  rewrite dispatcher_patience by done.
  by rewrite patience_non_increasing.
Qed.

Lemma lis_non_increasing_keeps_last_witness :
  Lis.longestIncreasingSubsequence Lis.default_config 8
    (Lis.InArrayLike (Js.ints [9; 5; 5; 2]%Z)) None
  = Some [Some 3%Z].
Proof.
  apply (lis_non_increasing_keeps_last Lis.default_config 8 [9; 5; 5; 2]%Z None).
  - intros [|[|[|[|i]]]]; simpl; discriminate.
  - intros [|[|[|[|i]]]] a b Ha Hb; simplify_eq/=; lia.
  - discriminate.
  - vm_compute; discriminate.
  - simpl; lia.
Defined.

(** X4. The result is empty exactly when every entry of the input is the
    skip marker -1. *)
Theorem lis_empty_iff_all_skipped config fuel (xs : list Z) wb :
  (Z.of_nat (length xs) ≤ 2 ^ 31)%Z → length xs ≤ fuel →
  Lis.longestIncreasingSubsequence config fuel (Lis.InArrayLike (Js.ints xs)) wb = Some []
  ↔ ∀ i v, xs !! i = Some v → v = (-1)%Z.
Proof.
  intros Hsize Hfuel.
  destruct (LisCorrect.dispatcher_spec config fuel xs wb Hsize Hfuel) as (r & -> & Hr).
  rewrite <-(lis_result_nil_iff xs r Hr). split; [by intros [= ->]|by intros ->].
Qed.

Lemma lis_empty_iff_all_skipped_witness :
  Lis.longestIncreasingSubsequence Lis.default_config 8
    (Lis.InArrayLike (Js.ints [-1; -1; -1]%Z)) None = Some []
  ↔ ∀ i v, [-1; -1; -1]%Z !! i = Some v → v = (-1)%Z.
Proof.
  apply (lis_empty_iff_all_skipped Lis.default_config 8 [-1; -1; -1]%Z None);
    [vm_compute; discriminate | simpl; lia].
Defined.

(** X5. The main loop of [lis_large] keeps the length of the work buffer and
    writes none of its cells from index 2n on, whatever the numbers of the
    input and the indices it is run over. *)
Theorem lis_large_buffer_frame n fuel (xs : list Js.number) (indices : list Z) st st' :
  Lis.for_each (Lis.large_body n fuel xs) indices st = Some st' →
  length (Lis.l_buffer st') = length (Lis.l_buffer st)
  ∧ ∀ k, 2 * n ≤ k → Lis.l_buffer st' !! k = Lis.l_buffer st !! k.
Proof.
  revert st. induction indices as [|i rest IH]; intros st Hloop; simpl in Hloop.
  - by injection Hloop as <-.
  - destruct (Lis.large_body n fuel xs st i) as [st1|] eqn:Hb; [|done]. simpl in Hloop.
    destruct (large_body_frame _ _ _ _ _ _ Hb) as [Hl1 Hk1].
    destruct (IH _ Hloop) as [Hl2 Hk2].
    split; [congruence|]. intros k Hk. by rewrite Hk2, Hk1.
Qed.

Lemma lis_large_buffer_frame_witness :
  length [4294967295; 0; 0; 1; 9; 9]%Z = length (replicate 6 9%Z)
  ∧ ∀ k, 2 * 2 ≤ k → [4294967295; 0; 0; 1; 9; 9]%Z !! k = replicate 6 9%Z !! k.
Proof.
  apply (lis_large_buffer_frame 2 8 (Js.ints [3; 4]%Z) (seqZ 0 2)
           (Lis.LargeState (replicate 6 9%Z) 0)
           (Lis.LargeState [4294967295; 0; 0; 1; 9; 9]%Z 2)).
  vm_compute; reflexivity.
Defined.

End LisExtra.

(** ** Further properties of the reactive core *)

Module ReactiveExtraFacts.

Import Reactive ReactiveFacts Disposal.

Lemma read_value s w : (read s w).2 = value <$> signals w !! s.
Proof.
  unfold read. destruct (signals w !! s) as [sig|]; [|done].
  by destruct (last (effectStack w)).
Qed.

Lemma read_values s w s' :
  value <$> signals (read s w).1 !! s' = value <$> signals w !! s'.
Proof.
  unfold read. destruct (signals w !! s) as [sig|] eqn:Hs; [|done].
  destruct (last (effectStack w)) as [top|]; [|done]. simpl.
  rewrite list_lookup_alter. case_decide; [|done]. subst.
  by rewrite Hs.
Qed.

Lemma write_value s v w sig :
  signals w !! s = Some sig → value <$> signals (write s v w) !! s = Some v.
Proof.
  intros Hs. unfold write, flushQueue, Object_is. rewrite Hs.
  case_bool_decide as Hv.
  - rewrite Hs. simpl. by f_equal.
  - assert (value <$>
              <[s := {| value := v; subscribers := subscribers sig |}]> (signals w) !! s
            = Some v) as Hl.
    { rewrite list_lookup_insert_eq; [done|]. by apply lookup_lt_Some in Hs. }
    simpl. by destruct (isBatching w).
Qed.

Lemma write_value_ne s v w s' :
  s' ≠ s → signals (write s v w) !! s' = signals w !! s'.
Proof.
  intros Hne. unfold write, flushQueue. destruct (signals w !! s) as [sig|]; [|done].
  destruct (Object_is _ _); [done|]. simpl.
  destruct (isBatching w); simpl; by rewrite list_lookup_insert_ne.
Qed.

Lemma set_add_idemp x s : set_add x (set_add x s) = set_add x s.
Proof.
  unfold set_add at 1. rewrite decide_True; [done|].
  apply elem_of_set_add. by left.
Qed.

(** ** Detached effects stay detached *)

Lemma write_detached s v w e : detached w e → detached (write s v w) e.
Proof.
  intros (He & Hs & Hd). split_and!.
  - by rewrite write_effects.
  - intros s'. rewrite write_subscribed. apply Hs.
  - rewrite write_dirty. intros [?|(sig & Hsig & _ & Hin)]; [done|].
    apply (Hs s). by exists sig.
Qed.

Lemma read_detached s w e :
  detached w e → last (effectStack w) ≠ Some e → detached (read s w).1 e.
Proof.
  intros (He & Hs & Hd) Htop.
  pose proof (read_frame s w) as (_ & F2 & _ & _ & F5 & _).
  split_and!.
  - by rewrite F5.
  - intros s'. rewrite read_subscribed. intros [?|(_ & _ & ?)]; [by apply (Hs s')|done].
  - by rewrite F2.
Qed.

Lemma cleanup_detached e' w e : detached w e → detached (cleanup e' w) e.
Proof.
  intros (He & Hs & Hd).
  pose proof (cleanup_frame e' w) as (_ & F2 & _ & _ & F5).
  split_and!.
  - by rewrite F5.
  - intros s'. rewrite cleanup_subscribed. intros [? _]. by apply (Hs s').
  - by rewrite F2.
Qed.

Lemma make_disposer_detached e' w e : detached w e → detached (make_disposer e' w) e.
Proof.
  intros (He & Hs & Hd). split_and!; [|done|done].
  simpl. by rewrite length_alter.
Qed.

Lemma run_detached p : ∀ w e,
  detached w e → last (effectStack w) ≠ Some e → detached (r_world (run p w)) e.
Proof.
  induction p as [| |s k IH|s v k IH|v k IH|body IHb k IH|e' k IH]; intros w e Hdet Htop;
    cbn [run]; try done.
  - pose proof (read_detached s w e Hdet Htop) as Hdet'.
    pose proof (read_frame s w) as (F1 & _).
    destruct (read s w) as [w' [x|]] eqn:Hr; simpl in *; [|done].
    apply IH; [done|by rewrite F1].
  - destruct (signals w !! s); [|done].
    apply IH; [by apply write_detached|by rewrite write_effectStack].
  - apply IH; [|done]. destruct Hdet as (He & Hs & Hd). split_and!; [done| |done].
    intros s. rewrite createSignal_subscribed. apply Hs.
  - set (e0 := length (effects w)).
    set (w1 := add_effect body w).
    assert (detached w1 e) as Hdet1.
    { destruct Hdet as (He & Hs & Hd). split_and!; [|done|done].
      subst w1. simpl. rewrite length_app. lia. }
    assert (detached (r_world (execute_with (run body) e0 w1)) e) as Hdet2.
    { unfold execute_with. simpl.
      change (detached (pop ?x) e) with (detached x e).
      apply IHb.
      - change (detached (push ?y ?x) e) with (detached x e). by apply cleanup_detached.
      - simpl. rewrite last_snoc. intros [= ?]. destruct Hdet as (He & _). subst e0. lia. }
    pose proof (execute_with_is_frame (run body) e0 w1 (run_is_frame body)) as Hf.
    destruct (r_outcome (execute_with (run body) e0 w1)); simpl; [|done|done].
    apply (IH e0 (make_disposer e0 (r_world (execute_with (run body) e0 w1))) e).
    + by apply make_disposer_detached.
    + cbn [make_disposer with_effects effectStack]. by rewrite (fr_stack _ _ Hf).
  - destruct (has_disposer w e'); [|done].
    cbn [r_world]. apply IH; [by apply cleanup_detached|].
    by destruct (cleanup_frame e' w) as (-> & _).
Qed.

Lemma execute_detached e' w e :
  detached w e → e' ≠ e → detached (r_world (execute e' w)) e.
Proof.
  intros Hdet Hne. unfold execute. destruct (effects w !! e') as [eff|]; [|done].
  unfold execute_with. simpl.
  change (detached (pop ?x) e) with (detached x e).
  apply run_detached.
  - change (detached (push ?y ?x) e) with (detached x e). by apply cleanup_detached.
  - simpl. rewrite last_snoc. congruence.
Qed.

Lemma forEach_detached e fuel : ∀ i w ran,
  detached w e → e ∉ ran →
  (e ∉ f_ran (forEach fuel i w ran)) ∧ detached (f_world (forEach fuel i w ran)) e.
Proof.
  induction fuel as [|fuel IH]; intros i w ran Hdet Hran; simpl.
  - by destruct (dirtyEffects w !! i).
  - destruct (dirtyEffects w !! i) as [e'|] eqn:He'; [|done].
    assert (e' ≠ e) as Hne.
    { intros ->. destruct Hdet as (_ & _ & Hd). apply Hd.
      by apply list_elem_of_lookup_2 in He'. }
    pose proof (execute_detached e' w e Hdet Hne) as Hdet'.
    assert (e ∉ ran ++ [e']) as Hran'.
    { rewrite elem_of_app, list_elem_of_singleton. intros [?|?]; [done|congruence]. }
    destruct (r_outcome (execute e' w)); simpl; [by apply IH|done|done].
Qed.

Lemma apply_writes_detached writes e : ∀ w,
  detached w e → detached (apply_writes writes w) e.
Proof.
  induction writes as [|[s v] rest IH]; intros w Hdet; [done|].
  apply IH. by apply write_detached.
Qed.

(** Between two operations of a program no effect is running. *)
Lemma step_stack fuel o w :
  wf w → effectStack (step fuel o w) = effectStack w.
Proof.
  intros Hw. destruct o; simpl; try done.
  - apply (fr_stack _ _ (createEffect_is_frame body w)).
  - by destruct (read_frame s w) as (-> & _).
  - apply write_effectStack.
  - unfold disposer. by destruct (cleanup_frame e w) as (-> & _).
  - unfold run_microtask. destruct (microtasks w) as [|m] eqn:Hm; [done|].
    destruct (wf_pending _ Hw) as [Hle Hb]. assert (m = 0) as -> by lia.
    assert (wf (with_microtasks w 0)) as Hw2.
    { apply with_microtasks_wf; [done|lia|lia]. }
    destruct (forEach_spec fuel 0 (with_microtasks w 0) [] Hw2 eq_refl) as (_ & Hf & _).
    simpl. by rewrite (fr_stack _ _ Hf).
Qed.

Lemma createEffect_detached body w e :
  detached w e → detached (r_world (createEffect body w).1) e.
Proof.
  intros Hdet. unfold createEffect. cbn [fst].
  assert (detached (r_world (execute (length (effects w)) (add_effect body w))) e) as Hd.
  { apply execute_detached.
    - destruct Hdet as (He & Hs & Hd). split_and!; [|done|done].
      simpl. rewrite length_app. lia.
    - destruct Hdet as (He & _). lia. }
  destruct (r_outcome (execute _ _)); [by apply make_disposer_detached|done|done].
Qed.

(** One operation of a program, done while no effect is running, leaves a
    detached effect detached; if it is a flush, the effect is not
    executed. *)
Lemma step_detached fuel o w e :
  effectStack w = [] → detached w e →
  detached (step fuel o w) e
  ∧ e ∉ match o with OpMicrotask => f_ran (run_microtask fuel w) | _ => [] end.
Proof.
  intros Hst Hdet. destruct o; cbn [step].
  - split; [|apply not_elem_of_nil].
    destruct Hdet as (He & Hs & Hd). split_and!; [done| |done].
    intros s. rewrite createSignal_subscribed. apply Hs.
  - split; [by apply createEffect_detached|apply not_elem_of_nil].
  - split; [|apply not_elem_of_nil]. apply read_detached; [done|]. by rewrite Hst.
  - split; [by apply write_detached|apply not_elem_of_nil].
  - split; [by apply cleanup_detached|apply not_elem_of_nil].
  - unfold run_microtask. destruct (microtasks w) as [|m]; simpl.
    { split; [done|apply not_elem_of_nil]. }
    destruct (forEach_detached e fuel 0 (with_microtasks w m) []) as [Hran Hd'];
      [done|apply not_elem_of_nil|].
    split; [|done]. destruct Hd' as (He & Hs & _). split_and!; [done|done|].
    simpl. apply not_elem_of_nil.
Qed.

Lemma run_ops_stack fuel ops : ∀ w,
  wf w → effectStack (run_ops fuel ops w) = effectStack w.
Proof.
  induction ops as [|o ops IH]; intros w Hw; [done|]. simpl.
  change (effectStack (run_ops fuel ops (step fuel o w)) = effectStack w).
  rewrite IH by (by apply step_wf). by apply step_stack.
Qed.

(** A detached effect is executed by no flush of a program, and is
    detached at its end. *)
Lemma flushed_detached fuel ops e : ∀ w,
  wf w → effectStack w = [] → detached w e →
  (e ∉ flushed fuel ops w) ∧ detached (run_ops fuel ops w) e.
Proof.
  induction ops as [|o ops IH]; intros w Hw Hst Hdet.
  { split; [apply not_elem_of_nil|done]. }
  destruct (step_detached fuel o w e Hst Hdet) as [Hdet1 Hran].
  destruct (IH (step fuel o w)) as [I1 I2].
  { by apply step_wf. }
  { by rewrite step_stack. }
  { done. }
  split; [|done]. cbn [flushed]. rewrite elem_of_app. intros [?|?]; done.
Qed.

Lemma disposer_detached w e :
  wf w → e < length (effects w) → e ∉ dirtyEffects w → detached (disposer e w) e.
Proof.
  intros Hw He Hd. unfold disposer.
  pose proof (cleanup_frame e w) as (_ & F2 & _ & _ & F5).
  split_and!.
  - by rewrite F5.
  - intros s. rewrite cleanup_subscribed. intros [Hs Hn]. apply Hn.
    split; [done|]. by apply (wf_symmetric _ Hw).
  - by rewrite F2.
Qed.

(** ** The body of a memo *)

Lemma eval_ext f : ∀ (sigs sigs' : list Signal),
  (∀ s, value <$> sigs !! s = value <$> sigs' !! s) →
  Memo.eval f sigs = Memo.eval f sigs'.
Proof.
  induction f as [v| |s k IH]; intros sigs sigs' Hv; simpl; try done.
  pose proof (Hv s) as Hs.
  destruct (sigs !! s) as [sig|], (sigs' !! s) as [sig'|]; simplify_eq/=; [|done].
  rewrite Hs. by apply IH.
Qed.

Lemma eval_app f (sigs extra : list Signal) v :
  Memo.eval f sigs = Some v → Memo.eval f (sigs ++ extra) = Some v.
Proof.
  induction f as [v'| |s k IH]; simpl; try done.
  destruct (sigs !! s) as [sig|] eqn:Hs; [|done].
  rewrite (lookup_app_l_Some _ _ _ _ Hs). apply IH.
Qed.

(** Running the body of a memo whose function returns [v]: the reads, then
    the write of [v] to the memo. The reads change no value and mark
    nothing. *)
Lemma run_memo_body memo f : ∀ w v,
  Memo.eval f (signals w) = Some v → is_Some (signals w !! memo) →
  ∃ w', r_world (run (Memo.body memo f) w) = write memo v w'
      ∧ r_outcome (run (Memo.body memo f) w) = Returned
      ∧ (∀ s, value <$> signals w' !! s = value <$> signals w !! s)
      ∧ dirtyEffects w' = dirtyEffects w
      ∧ isBatching w' = isBatching w
      ∧ microtasks w' = microtasks w
      ∧ (∀ e s, subscribed w e s → subscribed w' e s).
Proof.
  induction f as [v'| |s k IH]; intros w v Hev Hmemo; cbn [run Memo.body].
  - injection Hev as ->. destruct Hmemo as [sig Hsig]. rewrite Hsig.
    exists w. by split_and!.
  - done.
  - simpl in Hev. destruct (signals w !! s) as [sig|] eqn:Hs; [|done].
    pose proof (read_value s w) as Hrv. rewrite Hs in Hrv. simpl in Hrv.
    pose proof (read_values s w) as Hvals.
    pose proof (read_frame s w) as (_ & F2 & F3 & F4 & _ & _).
    pose proof (λ e s', proj2 (read_subscribed s w e s')) as Hsub.
    destruct (read s w) as [w1 o] eqn:Hr. simpl in *. subst o.
    destruct (IH (value sig) w1 v) as (w' & E1 & E2 & E3 & E4 & E5 & E6 & E7).
    { rewrite <-Hev. by apply eval_ext. }
    { specialize (Hvals memo). destruct Hmemo as [m Hm]. rewrite Hm in Hvals.
      destruct (signals w1 !! memo); [done|discriminate]. }
    exists w'. split_and!; try done.
    + intros s'. by rewrite E3.
    + congruence.
    + congruence.
    + congruence.
    + intros e s' H. apply E7, Hsub. by left.
Qed.

(** Executing the effect of a memo whose function returns [v]: it returns,
    and the memo then holds [v]. *)
Lemma execute_memo_value (w : world) (e memo : nat) (eff : Subscriber) (sig : Signal)
    (f : Memo.expr) (v : jsval) :
  effects w !! e = Some eff → fn eff = Memo.body memo f →
  signals w !! memo = Some sig → Memo.eval f (signals w) = Some v →
  r_outcome (execute e w) = Returned
  ∧ value <$> signals (r_world (execute e w)) !! memo = Some v.
Proof.
  intros He Hfn Hmemo Hev. unfold execute. rewrite He, Hfn. unfold execute_with. simpl.
  set (w2 := push e (cleanup e w)).
  assert (∀ s, value <$> signals w2 !! s = value <$> signals w !! s) as Hvals.
  { intros s. subst w2. unfold cleanup. rewrite He. simpl.
    rewrite lookup_delete_all. destruct (signals w !! s) as [sg|]; [|done]. simpl.
    by case_decide. }
  destruct (run_memo_body memo f w2 v) as (w' & E1 & E2 & E3 & _).
  { rewrite <-Hev. by apply eval_ext. }
  { specialize (Hvals memo). rewrite Hmemo in Hvals.
    destruct (signals w2 !! memo); [done|discriminate]. }
  split; [done|]. rewrite E1.
  change (signals (pop ?x)) with (signals x).
  assert (is_Some (signals w' !! memo)) as [sig' Hsig'].
  { specialize (E3 memo). rewrite Hvals, Hmemo in E3.
    destruct (signals w' !! memo); [done|discriminate]. }
  by apply write_value with sig'.
Qed.

End ReactiveExtraFacts.

Module ReactiveExtra.

Import Reactive ReactiveFacts Disposal ReactiveExtraFacts.

(** X6. [execute] leaves the effect stack as it found it, whether the body
    returns or throws (the [finally] pops what was pushed); so does
    [createEffect]. *)
Theorem execute_restores_stack (e : nat) (body : prog) (w : world) :
  effectStack (r_world (execute e w)) = effectStack w
  ∧ effectStack (r_world (createEffect body w).1) = effectStack w.
Proof.
  split.
  - apply (fr_stack _ _ (execute_is_frame e w)).
  - apply (fr_stack _ _ (createEffect_is_frame body w)).
Qed.

(** X7. A read after a write returns the value written, whether or not the
    write was taken for a change. *)
Theorem write_then_read (w : world) (s : nat) (sig : Signal) (v : jsval) :
  signals w !! s = Some sig → (read s (write s v w)).2 = Some v.
Proof.
  intros Hs. rewrite read_value. by apply write_value with sig.
Qed.

Lemma write_then_read_witness :
  (read 0 (write 0 (VNum 7) counter_world)).2 = Some (VNum 7).
Proof.
  apply (write_then_read counter_world 0 {| value := VNum 0; subscribers := [0] |}).
  reflexivity.
Defined.

(** X8. In a world a program has reached (so that no effect is running),
    once the disposer of an effect that is not dirty has run, the effect is
    executed by no later flush, whatever the program does next: creating
    signals and effects, reading, writing, calling disposers, flushing, in
    any number and order, and whatever the other effects do. It is still in
    no subscriber set at the end. *)
Theorem disposed_effect_never_runs (fuel : nat) (before later : list op) (e : nat) :
  e < length (effects (run_ops fuel before initial)) →
  e ∉ dirtyEffects (run_ops fuel before initial) →
  (e ∉ flushed fuel later (disposer e (run_ops fuel before initial)))
  ∧ ∀ s, ¬ subscribed (run_ops fuel later (disposer e (run_ops fuel before initial))) e s.
Proof.
  intros He Hd.
  pose proof (run_ops_wf fuel before initial initial_wf) as Hw.
  pose proof (run_ops_stack fuel before initial initial_wf) as Hst.
  destruct (flushed_detached fuel later e (disposer e (run_ops fuel before initial)))
    as [Hran Hdet].
  - by apply cleanup_wf.
  - unfold disposer. by destruct (cleanup_frame e (run_ops fuel before initial)) as (-> & _).
  - by apply disposer_detached.
  - split; [done|]. apply Hdet.
Qed.

Lemma disposed_effect_never_runs_witness :
  0 ∉ flushed 2
        [OpWrite 0 (VNum 1); OpMicrotask; OpCreateEffect (Read 0 (λ _, Done));
         OpWrite 0 (VNum 2); OpMicrotask]
        (disposer 0 counter_world).
Proof.
  apply (disposed_effect_never_runs 2
           [OpCreateSignal (VNum 0); OpCreateEffect (Read 0 (λ _, Done))]
           [OpWrite 0 (VNum 1); OpMicrotask; OpCreateEffect (Read 0 (λ _, Done));
            OpWrite 0 (VNum 2); OpMicrotask] 0).
  - vm_compute. lia.
  - vm_compute. apply not_elem_of_nil.
Defined.

(** X9. The disposer leaves the dirty set alone: an effect disposed while a
    flush is pending that it is part of is still executed by that flush. *)
Theorem dispose_keeps_pending_run (w : world) (e : nat) (fuel : nat) :
  wf w → e ∈ dirtyEffects w → microtasks w = 1 →
  dirtyEffects (disposer e w) = dirtyEffects w
  ∧ (f_outcome (run_microtask fuel (disposer e w)) = Returned →
       e ∈ f_ran (run_microtask fuel (disposer e w))).
Proof.
  intros Hw Hd Hm. unfold disposer.
  pose proof (cleanup_frame e w) as (_ & F2 & F3 & F4 & _).
  split; [done|].
  pose proof (cleanup_wf e w Hw) as Hw1.
  unfold run_microtask. rewrite F4, Hm. simpl.
  assert (wf (with_microtasks (cleanup e w) 0)) as Hw2.
  { apply with_microtasks_wf; [done|lia|lia]. }
  destruct (forEach_spec fuel 0 (with_microtasks (cleanup e w) 0) [] Hw2 eq_refl)
    as (_ & Hf & _ & Hall).
  intros Hret. rewrite (Hall Hret).
  destruct (fr_dirty _ _ Hf) as [k ->]. simpl. rewrite F2.
  apply elem_of_app. by left.
Qed.

Lemma dispose_keeps_pending_run_witness :
  dirtyEffects (disposer 0 (write 0 (VNum 1) counter_world))
  = dirtyEffects (write 0 (VNum 1) counter_world)
  ∧ (f_outcome (run_microtask 1 (disposer 0 (write 0 (VNum 1) counter_world))) = Returned →
       0 ∈ f_ran (run_microtask 1 (disposer 0 (write 0 (VNum 1) counter_world)))).
Proof.
  apply (dispose_keeps_pending_run (write 0 (VNum 1) counter_world) 0 1).
  - apply write_wf, (run_ops_wf 0 _ initial initial_wf).
  - vm_compute. apply list_elem_of_here.
  - reflexivity.
Defined.

(** X10. [createMemo(fn)] returns a signal that already holds the value of
    [fn]: the effect has run, and returned. *)
Theorem memo_holds_value (f : Memo.expr) (w : world) (v : jsval) :
  Memo.eval f (signals w) = Some v →
  (Memo.createMemo f w).2 = length (signals w)
  ∧ r_outcome (Memo.createMemo f w).1 = Returned
  ∧ value <$> signals (r_world (Memo.createMemo f w).1) !! (Memo.createMemo f w).2
    = Some v.
Proof.
  intros Hev. unfold Memo.createMemo. cbn [fst snd]. split; [done|].
  set (memo := length (signals w)).
  set (w1 := (createSignal VUndefined w).1).
  destruct (execute_memo_value (add_effect (Memo.body memo f) w1) (length (effects w1)) memo
              {| fn := Memo.body memo f; dependencies := []; disposable := false |}
              {| value := VUndefined; subscribers := [] |} f v) as [Hout Hval].
  { simpl. by rewrite lookup_app_r, Nat.sub_diag by lia. }
  { done. }
  { subst memo. simpl. by rewrite lookup_app_r, Nat.sub_diag by lia. }
  { simpl. by apply eval_app. }
  change (createSignal VUndefined w).2 with memo.
  unfold createEffect. cbn [fst snd]. rewrite Hout. by split.
Qed.

Lemma memo_holds_value_witness :
  value <$> signals Memo.sum_world !! 2 = Some (VNum 3).
Proof.
  apply (memo_holds_value Memo.sum_expr
           (run_ops 0 [OpCreateSignal (VNum 1); OpCreateSignal (VNum 2)] initial)
           (VNum 3)).
  reflexivity.
Defined.

(** X11. When the effect of a memo runs again, the memo takes the new value
    of [fn]. If that is the value it had, nothing is marked dirty and no
    flush is asked for: what reads the memo is not re-run. If it is another
    value, every other effect subscribed to the memo is marked dirty. *)
Theorem memo_recompute (w : world) (e memo : nat) (eff : Subscriber) (sig : Signal)
    (f : Memo.expr) (v : jsval) :
  effects w !! e = Some eff → fn eff = Memo.body memo f →
  signals w !! memo = Some sig → Memo.eval f (signals w) = Some v →
  r_outcome (execute e w) = Returned
  ∧ value <$> signals (r_world (execute e w)) !! memo = Some v
  ∧ (value sig = v →
       dirtyEffects (r_world (execute e w)) = dirtyEffects w
       ∧ microtasks (r_world (execute e w)) = microtasks w
       ∧ isBatching (r_world (execute e w)) = isBatching w)
  ∧ (value sig ≠ v →
       ∀ e', e' ≠ e → subscribed w e' memo → e' ∈ dirtyEffects (r_world (execute e w))).
Proof.
  intros He Hfn Hmemo Hev. unfold execute. rewrite He, Hfn. unfold execute_with. simpl.
  set (w2 := push e (cleanup e w)).
  assert (∀ s, value <$> signals w2 !! s = value <$> signals w !! s) as Hvals.
  { intros s. subst w2. unfold cleanup. rewrite He. simpl.
    rewrite lookup_delete_all. destruct (signals w !! s) as [sg|]; [|done]. simpl.
    by case_decide. }
  pose proof (cleanup_frame e w) as (_ & F2 & F3 & F4 & _).
  destruct (run_memo_body memo f w2 v) as (w' & E1 & E2 & E3 & E4 & E5 & E6 & E7).
  { rewrite <-Hev. by apply eval_ext. }
  { specialize (Hvals memo). rewrite Hmemo in Hvals.
    destruct (signals w2 !! memo); [done|discriminate]. }
  assert (∃ sig', signals w' !! memo = Some sig' ∧ value sig' = value sig)
    as (sig' & Hsig' & Hval').
  { specialize (E3 memo). rewrite Hvals, Hmemo in E3.
    destruct (signals w' !! memo) as [sg|]; [|discriminate].
    exists sg. split; [done|]. by injection E3. }
  rewrite E1. split_and!; [done| | |].
  - change (signals (pop ?x)) with (signals x). by apply write_value with sig'.
  - intros Hsame.
    assert (write memo v w' = w') as ->.
    { unfold write, Object_is. rewrite Hsig', Hval'. by rewrite bool_decide_eq_true_2. }
    simpl. rewrite E4, E5, E6. by subst w2.
  - intros Hdiff e' Hne Hsub.
    change (dirtyEffects (pop ?x)) with (dirtyEffects x).
    apply write_dirty. right. 
    assert (subscribed w' e' memo) as (sg & Hsg & Hin).
    { apply E7. subst w2. change (subscribed (push ?y ?x) e' memo) with (subscribed x e' memo).
      apply cleanup_subscribed. split; [done|]. intros [? _]. done. }
    exists sg. split_and!; [done| |done]. congruence.
Qed.

Lemma memo_recompute_witness :
  value <$> signals (r_world (execute 0 (write 0 (VNum 5) Memo.sum_world))) !! 2
  = Some (VNum 7).
Proof.
  apply (memo_recompute (write 0 (VNum 5) Memo.sum_world) 0 2
           {| fn := Memo.body 2 Memo.sum_expr; dependencies := [0; 1]; disposable := true |}
           {| value := VNum 3; subscribers := [] |}
           Memo.sum_expr (VNum 7)); reflexivity.
Defined.

End ReactiveExtra.

(** ** Contexts: provide and inject *)

Module ContextFacts.

Import Context.

Lemma provide_currentOwner c v w : currentOwner (provide c v w) = currentOwner w.
Proof. unfold provide. by destruct (currentOwner w) eqn:Hc. Qed.

Lemma provide_length c v w : length (owners (provide c v w)) = length (owners w).
Proof. unfold provide. destruct (currentOwner w); [|done]. simpl. by rewrite length_alter. Qed.

Lemma provide_lookup_ne c v w o o' :
  currentOwner w = Some o → o' ≠ o → owners (provide c v w) !! o' = owners w !! o'.
Proof.
  intros Hc Hne. unfold provide. rewrite Hc. simpl.
  by rewrite list_lookup_alter_ne.
Qed.

Lemma provide_parent c v w o :
  parent <$> owners (provide c v w) !! o = parent <$> owners w !! o.
Proof.
  unfold provide. destruct (currentOwner w) as [cur|]; [|done]. simpl.
  rewrite list_lookup_alter. case_decide; [|done]. subst.
  by destruct (owners w !! o).
Qed.

Lemma provide_other_key c v w o k :
  k ≠ id c →
  (λ ow, held ow k) <$> owners (provide c v w) !! o
  = (λ ow, held ow k) <$> owners w !! o.
Proof.
  intros Hk. unfold provide. destruct (currentOwner w) as [cur|]; [|done]. simpl.
  rewrite list_lookup_alter. case_decide; [|done]. subst.
  destruct (owners w !! o) as [ow|]; [|done]. simpl. f_equal.
  unfold held. simpl. rewrite lookup_insert_ne by done.
  destruct (contexts ow); [done|]. simpl. by rewrite lookup_empty.
Qed.

(** Two worlds that agree, on a set of owners closed under [parent], on the
    parents and on the entries for the context give the same answer. *)
Lemma inject_loop_agree c (I : nat → Prop) fuel : ∀ w w' owner,
  (∀ o ow p, I o → owners w !! o = Some ow → parent ow = Some p → I p) →
  (∀ o, I o →
     parent <$> owners w' !! o = parent <$> owners w !! o
     ∧ (λ ow, held ow (id c)) <$> owners w' !! o
       = (λ ow, held ow (id c)) <$> owners w !! o) →
  (∀ o, owner = Some o → I o) →
  inject_loop fuel w' c owner = inject_loop fuel w c owner.
Proof.
  induction fuel as [|fuel IH]; intros w w' owner Hclosed Hagree Hown;
    destruct owner as [o|]; simpl; try done.
  specialize (Hown o eq_refl).
  destruct (Hagree o Hown) as [Hp Hc].
  destruct (owners w' !! o) as [ow'|], (owners w !! o) as [ow|] eqn:How;
    simplify_eq/=; [|done].
  rewrite Hc, Hp.
  destruct (held ow (id c)); [done|].
  apply IH; [done|done|].
  intros p Hpar. by apply (Hclosed o ow p).
Qed.

Lemma enter_lookup w o :
  o < length (owners w) → owners (enter w) !! o = owners w !! o.
Proof. intros Ho. simpl. by rewrite lookup_app_l. Qed.

Lemma wf_closed w :
  wf w → ∀ o ow p, o < length (owners w) → owners w !! o = Some ow →
  parent ow = Some p → p < length (owners w).
Proof. intros Hw o ow p Ho How Hp. pose proof (wf_parent _ Hw o ow p How Hp). lia. Qed.

Lemma context_initial_wf : wf initial.
Proof. split; simpl; intros; [by rewrite lookup_nil in *|done]. Qed.

Lemma enter_wf w : wf w → wf (enter w).
Proof.
  intros Hw. split; simpl.
  - intros o ow p How Hp. apply lookup_snoc_Some in How as [[_ How]|[-> <-]].
    + by apply (wf_parent _ Hw o ow p).
    + simpl in Hp. by apply (wf_current _ Hw).
  - intros o [= <-]. rewrite length_app. simpl. lia.
Qed.

Lemma provide_wf c v w : wf w → wf (provide c v w).
Proof.
  intros Hw. split.
  - intros o ow p How Hp. pose proof (provide_parent c v w o) as Hpar.
    rewrite How in Hpar. simpl in Hpar. rewrite Hp in Hpar.
    destruct (owners w !! o) as [ow0|] eqn:How0; [|done].
    apply (wf_parent _ Hw o ow0 p How0). by injection Hpar.
  - intros o. rewrite provide_currentOwner, provide_length. apply (wf_current _ Hw).
Qed.

Lemma provides_keeps l : ∀ w n,
  currentOwner w = Some n →
  let w' := foldl (λ w cv, provide cv.1 cv.2 w) w l in
  currentOwner w' = Some n
  ∧ ∀ o, o ≠ n → owners w' !! o = owners w !! o.
Proof.
  induction l as [|[c v] rest IH]; intros w n Hc; simpl; [done|].
  destruct (IH (provide c v w) n) as [H1 H2].
  { by rewrite provide_currentOwner. }
  split; [done|]. intros o Ho. rewrite (H2 o Ho). by apply provide_lookup_ne with n.
Qed.

Lemma inject_loop_total c w fuel : ∀ owner,
  wf w → (∀ o, owner = Some o → o < fuel ∧ o < length (owners w)) →
  ∃ v, inject_loop fuel w c owner = Some v ∧ (provided w c v ∨ v = defaultValue c).
Proof.
  induction fuel as [|fuel IH]; intros owner Hw Hown; destruct owner as [o|]; simpl.
  - destruct (Hown o eq_refl). lia.
  - eauto.
  - destruct (Hown o eq_refl) as [Hf Hl].
    destruct (lookup_lt_is_Some_2 _ _ Hl) as [ow How]. rewrite How.
    destruct (held ow (id c)) as [v|] eqn:Hc.
    + exists v. split; [done|]. left. unfold held in Hc.
      destruct (contexts ow) as [m|] eqn:Hm; [|done]. by exists o, ow, m.
    + apply IH; [done|]. intros p Hp.
      pose proof (wf_parent _ Hw o ow p How Hp). lia.
  - eauto.
Qed.

End ContextFacts.

Module ContextExtra.

Import Context ContextFacts.

(** X12. Inside a scope, [inject] returns what [provide] has just stored
    for the context, whatever was provided before and higher up. *)
Theorem provide_then_inject (fuel : nat) (c : Context) (v : Reactive.jsval) (w : world)
    (o : nat) :
  currentOwner w = Some o → o < length (owners w) →
  inject (S fuel) c (provide c v w) = Some v.
Proof.
  intros Hc Ho. unfold inject. rewrite provide_currentOwner, Hc. simpl.
  unfold provide. rewrite Hc. simpl.
  destruct (lookup_lt_is_Some_2 _ _ Ho) as [ow How].
  rewrite list_lookup_alter_eq, How. simpl. unfold held. simpl.
  by rewrite lookup_insert_eq.
Qed.

Lemma provide_then_inject_witness :
  inject 1 {| id := 0; defaultValue := Reactive.VUndefined |}
    (provide {| id := 0; defaultValue := Reactive.VUndefined |} (Reactive.VNum 5)
       (enter initial))
  = Some (Reactive.VNum 5).
Proof.
  apply (provide_then_inject 0 _ _ (enter initial) 0); [reflexivity | simpl; lia].
Defined.

(** X13. Providing a value for one context changes nothing for a context
    with another [id]. *)
Theorem provide_other_context (fuel : nat) (c c' : Context) (v : Reactive.jsval)
    (w : world) :
  id c' ≠ id c → inject fuel c' (provide c v w) = inject fuel c' w.
Proof.
  intros Hid. unfold inject. rewrite provide_currentOwner.
  apply (inject_loop_agree c' (λ _, True)); [done| |done].
  intros o _. split; [apply provide_parent|by apply provide_other_key].
Qed.

Lemma provide_other_context_witness :
  inject 1 {| id := 1; defaultValue := Reactive.VNum 9 |}
    (provide {| id := 0; defaultValue := Reactive.VUndefined |} (Reactive.VNum 5)
       (enter initial))
  = inject 1 {| id := 1; defaultValue := Reactive.VNum 9 |} (enter initial).
Proof.
  apply (provide_other_context 1 {| id := 0; defaultValue := Reactive.VUndefined |}
           {| id := 1; defaultValue := Reactive.VNum 9 |}).
  simpl. lia.
Defined.

(** X14. The function given to [createRoot] runs in the world [enter w], and
    there [inject] finds what it finds in the enclosing scope (one more step
    up the chain): a new root inherits the contexts around it. *)
Theorem child_scope_inherits (fuel : nat) (c : Context) (w : world)
    (fn : nat → world → Lifecycle.result * world) :
  wf w →
  createRoot fn w
  = ((fn (length (owners w)) (enter w)).1,
     with_currentOwner (fn (length (owners w)) (enter w)).2 (currentOwner w),
     length (owners w))
  ∧ inject (S fuel) c (enter w) = inject fuel c w.
Proof.
  intros Hw. split.
  { unfold createRoot. by destruct (fn _ _). }
  unfold inject.
  change (inject_loop (S fuel) (enter w) c (currentOwner (enter w)))
    with (match owners (enter w) !! length (owners w) with
          | None => None
          | Some ow =>
              match held ow (id c) with
              | Some v => Some v
              | None => inject_loop fuel (enter w) c (parent ow)
              end
          end).
  assert (owners (enter w) !! length (owners w)
          = Some {| parent := currentOwner w; cleanups := []; contexts := None |}) as ->.
  { simpl. by rewrite lookup_app_r, Nat.sub_diag by lia. }
  simpl.
  apply (inject_loop_agree c (λ o, o < length (owners w))).
  - by apply wf_closed.
  - intros o Ho. by rewrite enter_lookup.
  - apply (wf_current _ Hw).
Qed.

Lemma child_scope_inherits_witness :
  inject 2 {| id := 0; defaultValue := Reactive.VUndefined |}
    (enter (provide {| id := 0; defaultValue := Reactive.VUndefined |} (Reactive.VNum 5)
              (enter initial)))
  = inject 1 {| id := 0; defaultValue := Reactive.VUndefined |}
      (provide {| id := 0; defaultValue := Reactive.VUndefined |} (Reactive.VNum 5)
         (enter initial)).
Proof.
  apply (child_scope_inherits 1 {| id := 0; defaultValue := Reactive.VUndefined |}
           (provide {| id := 0; defaultValue := Reactive.VUndefined |} (Reactive.VNum 5)
              (enter initial))
           (λ _ w, (Lifecycle.Returned, w))).
  apply provide_wf, enter_wf, context_initial_wf.
Defined.

(** X15. What the body of a root provides stays in that root: once
    [createRoot] has returned, [inject] in the enclosing scope gives what it
    gave before. *)
Theorem child_provides_do_not_leak (fuel : nat) (c : Context)
    (l : list (Context * Reactive.jsval)) (w : world) :
  wf w →
  inject fuel c (createRoot (provides l) w).1.2 = inject fuel c w.
Proof.
  intros Hw. unfold createRoot, provides, inject. simpl.
  destruct (provides_keeps l (enter w) (length (owners w)) eq_refl) as [_ Hothers].
  apply (inject_loop_agree c (λ o, o < length (owners w))).
  - by apply wf_closed.
  - intros o Ho. change (owners (with_currentOwner ?x ?y)) with (owners x).
    rewrite (Hothers o ltac:(lia)). by rewrite enter_lookup.
  - apply (wf_current _ Hw).
Qed.

Lemma child_provides_do_not_leak_witness :
  inject 1 {| id := 0; defaultValue := Reactive.VUndefined |}
    (createRoot (provides [({| id := 0; defaultValue := Reactive.VUndefined |},
                            Reactive.VNum 7)])
       (provide {| id := 0; defaultValue := Reactive.VUndefined |} (Reactive.VNum 5)
          (enter initial))).1.2
  = inject 1 {| id := 0; defaultValue := Reactive.VUndefined |}
      (provide {| id := 0; defaultValue := Reactive.VUndefined |} (Reactive.VNum 5)
         (enter initial)).
Proof.
  apply (child_provides_do_not_leak 1 {| id := 0; defaultValue := Reactive.VUndefined |}).
  apply provide_wf, enter_wf, context_initial_wf.
Defined.

(** X16. With fuel for one step per owner, [inject] returns: a value some
    owner holds for the context, or the default value of the context; the
    default when no owner holds one. *)
Theorem inject_returns (fuel : nat) (c : Context) (w : world) :
  wf w → length (owners w) ≤ fuel →
  (∃ v, inject fuel c w = Some v ∧ (provided w c v ∨ v = defaultValue c))
  ∧ ((∀ v, ¬ provided w c v) → inject fuel c w = Some (defaultValue c)).
Proof.
  intros Hw Hfuel.
  assert (∃ v, inject fuel c w = Some v ∧ (provided w c v ∨ v = defaultValue c))
    as (v & Hv & Hor).
  { apply inject_loop_total; [done|]. intros o Ho.
    pose proof (wf_current _ Hw o Ho). lia. }
  split; [by exists v|].
  intros Hnone. rewrite Hv. destruct Hor as [Hp| ->]; [|done]. by destruct (Hnone v).
Qed.

Lemma inject_returns_witness :
  inject 1 {| id := 0; defaultValue := Reactive.VNum 9 |} (enter initial)
  = Some (Reactive.VNum 9).
Proof.
  apply (inject_returns 1 {| id := 0; defaultValue := Reactive.VNum 9 |} (enter initial)).
  - apply enter_wf, context_initial_wf.
  - simpl. lia.
  - intros v (o & ow & m & How & Hm & _). destruct o as [|o]; simplify_eq/=.
Defined.

End ContextExtra.

(** ** Ownership scopes: where cleanups are registered *)

Module LifecycleExtraFacts.

Import Lifecycle LifecycleFacts.

Lemma cleanups_of_with_cleanups w root cs o :
  cleanups_of (with_cleanups w root cs) o
  = if decide (o = root ∧ root < length (owners w)) then cs else cleanups_of w o.
Proof.
  unfold cleanups_of, with_cleanups. simpl. rewrite list_lookup_alter.
  case_decide as Heq.
  - subst o. destruct (owners w !! root) as [ow|] eqn:How; simpl.
    + apply lookup_lt_Some in How. by rewrite decide_True.
    + apply lookup_ge_None in How. rewrite decide_False by lia. done.
  - rewrite decide_False; [done|]. intros [-> _]. done.
Qed.

Lemma onCleanup_fold fs : ∀ w root,
  currentOwner w = Some root → root < length (owners w) →
  currentOwner (foldl (λ w f, onCleanup f w) w fs) = Some root
  ∧ cleanups_of (foldl (λ w f, onCleanup f w) w fs) root = cleanups_of w root ++ fs
  ∧ ∀ o, o ≠ root → cleanups_of (foldl (λ w f, onCleanup f w) w fs) o = cleanups_of w o.
Proof.
  induction fs as [|f rest IH]; intros w root Hc Hr; simpl.
  - by rewrite app_nil_r.
  - assert (onCleanup f w = with_cleanups w root (cleanups_of w root ++ [f])) as Hon.
    { unfold onCleanup. by rewrite Hc. }
    destruct (IH (onCleanup f w) root) as (I1 & I2 & I3).
    { by rewrite Hon. }
    { rewrite Hon. simpl. by rewrite length_alter. }
    split_and!; [done| |].
    + rewrite I2, Hon, cleanups_of_with_cleanups, decide_True by done.
      by rewrite <-app_assoc.
    + intros o Ho. rewrite (I3 o Ho), Hon, cleanups_of_with_cleanups.
      rewrite decide_False; [done|]. intros [? _]. done.
Qed.

End LifecycleExtraFacts.

Module LifecycleExtra.

Import Lifecycle LifecycleFacts LifecycleExtraFacts.

(** X17. The cleanups registered by [onCleanup] in the body of
    [createRoot] become the cleanup list of the new owner, in the order of
    registration; the list of no other owner changes (the enclosing owner is
    given nothing, not even the disposer of the new root), and the current
    owner is afterwards what it was. *)
Theorem createRoot_collects_cleanups (fs : list nat) (w : world) :
  let r := createRoot (λ _ w1, (Returned, foldl (λ w f, onCleanup f w) w1 fs)) w in
  r.2 = length (owners w)
  ∧ cleanups_of r.1.2 r.2 = fs
  ∧ (∀ o, o ≠ r.2 → cleanups_of r.1.2 o = cleanups_of w o)
  ∧ currentOwner r.1.2 = currentOwner w.
Proof.
  unfold createRoot. simpl.
  set (w1 := {| owners := owners w ++ [{| parent := currentOwner w; cleanups := [] |}];
                currentOwner := Some (length (owners w)) |}).
  destruct (onCleanup_fold fs w1 (length (owners w)) eq_refl) as (I1 & I2 & I3).
  { subst w1. simpl. rewrite length_app. simpl. lia. }
  split_and!; [done| | |done].
  - rewrite cleanups_of_with_currentOwner, I2.
    unfold cleanups_of. subst w1. simpl.
    by rewrite lookup_app_r, Nat.sub_diag by lia.
  - intros o Ho. rewrite cleanups_of_with_currentOwner, (I3 o Ho).
    unfold cleanups_of. subst w1. simpl.
    destruct (decide (o < length (owners w))) as [Hlt|Hge].
    + by rewrite lookup_app_l.
    + rewrite !lookup_ge_None_2; [done|lia|rewrite length_app; simpl; lia].
Qed.

End LifecycleExtra.

(** ** The keyed reconciler, for any list with distinct keys *)

Module KeyedMaps.

Import Reconciler Keyed.

(** *** Maps *)

Lemma map_get_nil {V} (k : string) : map_get (V := V) [] k = None.
Proof. done. Qed.

Lemma map_get_cons {V} (k' : string) (v : V) m k :
  map_get ((k', v) :: m) k = if decide (k' = k) then Some v else map_get m k.
Proof.
  unfold map_get. simpl. case_decide; [done|].
  by destruct (list_find _ m) as [[? [? ?]]|].
Qed.

Lemma map_set_fresh {V} (m : list (string * V)) k v :
  k ∉ fst <$> m → map_set m k v = m ++ [(k, v)].
Proof.
  induction m as [|[k' v'] m IH]; intros Hk; simpl; [done|].
  rewrite fmap_cons, not_elem_of_cons in Hk. destruct Hk as [Hne Hk]. simpl in Hne.
  rewrite decide_False by done. by rewrite IH.
Qed.

Lemma map_get_None {V} (m : list (string * V)) k :
  map_get m k = None ↔ k ∉ fst <$> m.
Proof.
  induction m as [|[k' v'] m IH].
  - split; [intros _; apply not_elem_of_nil|done].
  - rewrite map_get_cons, fmap_cons, not_elem_of_cons. simpl. case_decide.
    + split; [done|]. intros [? _]. done.
    + rewrite IH. split; [by split; [congruence|]|by intros [_ ?]].
Qed.

Lemma map_get_elem {V} (m : list (string * V)) k v :
  map_get m k = Some v → (k, v) ∈ m.
Proof.
  induction m as [|[k' v'] m IH]; [done|].
  rewrite map_get_cons. case_decide.
  - intros [= ->]. subst. apply list_elem_of_here.
  - intros H'. apply list_elem_of_further. by apply IH.
Qed.

Lemma map_get_lookup {V} (m : list (string * V)) i k v :
  NoDup (fst <$> m) → m !! i = Some (k, v) → map_get m k = Some v.
Proof.
  revert i. induction m as [|[k' v'] m IH]; intros i Hnd Hi; [done|].
  rewrite fmap_cons in Hnd. apply NoDup_cons in Hnd as [Hk' Hnd].
  rewrite map_get_cons. destruct i as [|i]; simpl in Hi.
  - injection Hi as -> ->. by rewrite decide_True.
  - rewrite decide_False; [by apply (IH i)|].
    intros ->. apply Hk'. simpl.
    apply list_elem_of_fmap. exists (k, v). split; [done|].
    by apply list_elem_of_lookup_2 in Hi.
Qed.

Lemma map_has_true {V} (m : list (string * V)) k :
  map_has m k = true ↔ k ∈ fst <$> m.
Proof.
  unfold map_has. rewrite bool_decide_eq_true.
  destruct (map_get m k) as [v|] eqn:Hg.
  - split; [|by eauto]. intros _. apply map_get_elem in Hg.
    apply list_elem_of_fmap. by exists (k, v).
  - split; [by intros [? ?]|]. intros Hin. by apply map_get_None in Hg.
Qed.

Lemma map_has_false {V} (m : list (string * V)) k :
  map_has m k = false ↔ k ∉ fst <$> m.
Proof.
  rewrite <-map_has_true. symmetry. apply not_true_iff_false.
Qed.

Lemma map_get_node_elem (m : list (string * MappedItem)) k o :
  map_get m k = Some o → mi_node o ∈ map_nodes m.
Proof.
  intros Hg. apply map_get_elem in Hg. unfold map_nodes.
  apply list_elem_of_fmap. by exists (k, o).
Qed.

Lemma map_get_key_elem (m : list (string * MappedItem)) k o :
  map_get m k = Some o → k ∈ map_keys m.
Proof.
  intros Hg. apply map_get_elem in Hg. unfold map_keys.
  apply list_elem_of_fmap. by exists (k, o).
Qed.

(** Distinct keys of a map with distinct nodes have distinct nodes. *)
Lemma map_get_node_inj (m : list (string * MappedItem)) k k' o o' :
  NoDup (map_nodes m) → map_get m k = Some o → map_get m k' = Some o' →
  mi_node o = mi_node o' → k = k'.
Proof.
  intros Hnd Hk Hk' Heq.
  apply map_get_elem, list_elem_of_lookup in Hk as [i Hi].
  apply map_get_elem, list_elem_of_lookup in Hk' as [i' Hi'].
  assert (i = i') as ->.
  { apply (NoDup_lookup (map_nodes m) i i' (mi_node o)); [done| |].
    - unfold map_nodes. by rewrite list_lookup_fmap, Hi.
    - unfold map_nodes. rewrite list_lookup_fmap, Hi'. simpl. by rewrite Heq. }
  congruence.
Qed.

(** The same for the map from nodes to positions. *)
Lemma node_map_get_cons (n' : node) (v : nat) m n :
  node_map_get ((n', v) :: m) n = if decide (n' = n) then Some v else node_map_get m n.
Proof.
  unfold node_map_get. simpl. case_decide; [done|].
  by destruct (list_find _ m) as [[? [? ?]]|].
Qed.

Lemma node_map_set_fresh (m : list (node * nat)) n v :
  n ∉ fst <$> m → node_map_set m n v = m ++ [(n, v)].
Proof.
  induction m as [|[n' v'] m IH]; intros Hn; simpl; [done|].
  rewrite fmap_cons, not_elem_of_cons in Hn. destruct Hn as [Hne Hn]. simpl in Hne.
  rewrite decide_False by done. by rewrite IH.
Qed.

End KeyedMaps.

Module KeyedPasses.

Import Reconciler Keyed KeyedMaps.

Lemma filter_all {A} (P : A → Prop) `{∀ x, Decision (P x)} (l : list A) :
  (∀ x, x ∈ l → P x) → filter P l = l.
Proof.
  induction l as [|x l IH]; intros Hall; [done|].
  rewrite filter_cons_True by (apply Hall, list_elem_of_here).
  f_equal. apply IH. intros y Hy. by apply Hall, list_elem_of_further.
Qed.

(** *** Pass 1 *)

Lemma keys_from_cons key i d (rest : list string) :
  imap (λ j d, item_key key d (i + j)) (d :: rest)
  = item_key key d i :: imap (λ j d, item_key key d (S i + j)) rest.
Proof.
  rewrite imap_cons, Nat.add_0_r. f_equal. apply imap_ext.
  intros j x _. simpl. f_equal. lia.
Qed.

(** With keys that are distinct (and not yet in the new map) and a prop
    [children] of the usual kind, pass 1 returns, having appended one entry
    for each item, in order: it has the node of the old entry with that
    key, or the node the prop has made for it. *)
Lemma pass1_spec childrenFn key old :
  renders_elements childrenFn →
  NoDup (map_nodes old) →
  (∀ e, e ∈ old → harmless (mi_cleanups (snd e))) →
  ∀ items acc children frags fresh i,
    (∀ n, n ∈ map_nodes old → n < fresh) →
    NoDup (map_keys acc ++ imap (λ j d, item_key key d (i + j)) items) →
    ∃ added fresh',
      pass1 childrenFn key old acc
        {| doc_children := children; doc_fragments := frags; doc_fresh := fresh |} items i
      = Some (acc ++ added,
              {| doc_children := children; doc_fragments := frags; doc_fresh := fresh' |})
      ∧ fresh ≤ fresh'
      ∧ length added = length items
      ∧ (∀ j d, items !! j = Some d →
           ∃ n c, added !! j = Some (item_key key d (i + j),
                                     {| mi_node := n; mi_cleanups := c;
                                        mi_item := d; mi_index := i + j |})
                ∧ harmless c
                ∧ match map_get old (item_key key d (i + j)) with
                  | Some o => n = mi_node o
                  | None => fresh ≤ n < fresh'
                  end)
      ∧ NoDup (map_nodes added).
Proof.
  intros Hre Hold Hclean.
  induction items as [|d rest IH]; intros acc children frags fresh i Hfresh Hnd.
  { exists [], fresh. simpl. rewrite app_nil_r.
    split_and!; [done|lia|done| |apply NoDup_nil_2].
    intros j d Hj. by rewrite lookup_nil in Hj. }
  rewrite keys_from_cons in Hnd.
  set (k := item_key key d i) in *.
  assert (k ∉ map_keys acc) as Hk.
  { apply NoDup_app in Hnd as (_ & Hdisj & _). intros Hin.
    apply (Hdisj k Hin), list_elem_of_here. }
  assert (∀ v, NoDup (map_keys (acc ++ [(k, v)])
                      ++ imap (λ j d, item_key key d (S i + j)) rest)) as Hnd'.
  { intros v. unfold map_keys. rewrite fmap_app, <-app_assoc. done. }
  assert (k ∉ imap (λ j d, item_key key d (S i + j)) rest) as Hkrest.
  { apply NoDup_app in Hnd as (_ & _ & Hnd). by apply NoDup_cons in Hnd as [? _]. }
  cbn [pass1]. fold k.
  (* what we know of a node of the entries added for the rest *)
  assert (∀ added lo hi,
    length added = length rest →
    (∀ j d, rest !! j = Some d →
       ∃ n c, added !! j = Some (item_key key d (S i + j),
                                 {| mi_node := n; mi_cleanups := c;
                                    mi_item := d; mi_index := S i + j |})
            ∧ harmless c
            ∧ match map_get old (item_key key d (S i + j)) with
              | Some o => n = mi_node o
              | None => lo ≤ n < hi
              end) →
    ∀ n, n ∈ map_nodes added →
      ∃ k', k' ≠ k ∧ match map_get old k' with
                     | Some o => n = mi_node o
                     | None => lo ≤ n < hi
                     end) as Hdesc.
  { intros added lo hi Hlen Hlook n Hn.
    apply list_elem_of_fmap in Hn as (e & -> & He).
    apply list_elem_of_lookup in He as [j Hj].
    pose proof (lookup_lt_Some _ _ _ Hj) as Hjlt. rewrite Hlen in Hjlt.
    destruct (lookup_lt_is_Some_2 rest j Hjlt) as [d' Hd'].
    destruct (Hlook j d' Hd') as (n' & c' & Hadd & _ & Hcond).
    rewrite Hj in Hadd. injection Hadd as ->. simpl.
    exists (item_key key d' (S i + j)). split; [|done].
    intros Heq. apply Hkrest. rewrite <-Heq.
    apply list_elem_of_lookup. exists j. by rewrite list_lookup_imap, Hd'. }
  destruct (map_get old k) as [o|] eqn:Hg.
  - rewrite map_set_fresh by done.
    destruct (IH (acc ++ [(k, {| mi_node := mi_node o; mi_cleanups := mi_cleanups o;
                                 mi_item := d; mi_index := i |})])
                children frags fresh (S i) Hfresh (Hnd' _))
      as (added & fresh' & Hp & Hle & Hlen & Hlook & Hnodes).
    exists ((k, {| mi_node := mi_node o; mi_cleanups := mi_cleanups o;
                   mi_item := d; mi_index := i |}) :: added), fresh'.
    split_and!.
    + rewrite Hp. by rewrite <-app_assoc.
    + done.
    + simpl. by rewrite Hlen.
    + intros [|j] d' Hj; simpl in Hj.
      * injection Hj as <-. exists (mi_node o), (mi_cleanups o).
        rewrite Nat.add_0_r. fold k. rewrite Hg. split_and!; [done| |done].
        apply (Hclean (k, o)). by apply map_get_elem.
      * destruct (Hlook j d' Hj) as (n & c & Hadd & Hc & Hcond).
        exists n, c. replace (i + S j) with (S i + j) by lia. done.
    + unfold map_nodes. rewrite fmap_cons. apply NoDup_cons. split; [|done].
      simpl. intros Hin.
      destruct (Hdesc added fresh fresh' Hlen Hlook _ Hin) as (k' & Hne & Hcond).
      destruct (map_get old k') as [o'|] eqn:Hg'.
      * apply Hne. symmetry. by apply (map_get_node_inj old k k' o o').
      * pose proof (Hfresh _ (map_get_node_elem _ _ _ Hg)). lia.
  - destruct (re_returns _ Hre d i
                {| doc_children := children; doc_fragments := frags; doc_fresh := fresh |})
      as (n0 & c0 & fresh1 & Hrender & Hn0 & Hc0).
    cbn [doc_children doc_fragments doc_fresh] in Hrender, Hn0.
    rewrite Hrender. cbn [mbind option_bind].
    rewrite map_set_fresh by done.
    destruct (IH (acc ++ [(k, {| mi_node := n0; mi_cleanups := c0;
                                 mi_item := d; mi_index := i |})])
                children frags fresh1 (S i))
      as (added & fresh' & Hp & Hle & Hlen & Hlook & Hnodes).
    { intros n Hn. pose proof (Hfresh n Hn). lia. }
    { apply Hnd'. }
    exists ((k, {| mi_node := n0; mi_cleanups := c0;
                   mi_item := d; mi_index := i |}) :: added), fresh'.
    split_and!.
    + rewrite Hp. by rewrite <-app_assoc.
    + lia.
    + simpl. by rewrite Hlen.
    + intros [|j] d' Hj; simpl in Hj.
      * injection Hj as <-. exists n0, c0. rewrite Nat.add_0_r. fold k.
        rewrite Hg. split; [done|]. split; [done|lia].
      * destruct (Hlook j d' Hj) as (n & c & Hadd & Hc & Hcond).
        exists n, c. replace (i + S j) with (S i + j) by lia. split_and!; [done|done|].
        destruct (map_get old (item_key key d' (S i + j))); [done|lia].
    + unfold map_nodes. rewrite fmap_cons. apply NoDup_cons. split; [|done].
      simpl. intros Hin.
      destruct (Hdesc added fresh1 fresh' Hlen Hlook _ Hin) as (k' & Hne & Hcond).
      destruct (map_get old k') as [o'|] eqn:Hg'.
      * pose proof (Hfresh _ (map_get_node_elem _ _ _ Hg')). lia.
      * lia.
Qed.

(** *** Pass 2 *)

Lemma dropped_cons nm k item rest :
  dropped nm ((k, item) :: rest)
  = if map_has nm k then dropped nm rest else mi_node item :: dropped nm rest.
Proof.
  unfold dropped. destruct (map_has nm k) eqn:Hhas.
  - rewrite filter_cons_False; [done|]. simpl. by rewrite Hhas.
  - by rewrite filter_cons_True.
Qed.

(** Without fragments and with harmless cleanups, disposing an item removes
    its node from the container, and that is all. *)
Lemma disposer_plain item children fresh :
  harmless (mi_cleanups item) →
  disposer item (plain children fresh) = Some (plain (remove children (mi_node item)) fresh).
Proof. intros Hc. unfold disposer, root_disposer, remove_node. simpl. by rewrite Hc. Qed.

Lemma pass2_spec nm : ∀ entries children fresh log,
  (∀ e, e ∈ entries → harmless (mi_cleanups (snd e))) →
  pass2 entries nm (plain children fresh) log
  = Some (plain (filter (λ n, n ∉ dropped nm entries) children) fresh,
          log ++ (Remove <$> dropped nm entries)).
Proof.
  induction entries as [|[k item] rest IH]; intros children fresh log Hclean.
  - simpl. rewrite app_nil_r. do 2 f_equal. unfold plain. f_equal.
    symmetry. apply filter_all. intros x _. apply not_elem_of_nil.
  - cbn [pass2]. rewrite dropped_cons. destruct (map_has nm k) eqn:Hhas; cbn [negb].
    + rewrite IH; [done|]. intros e He. by apply Hclean, list_elem_of_further.
    + rewrite disposer_plain by apply (Hclean (k, item)), list_elem_of_here.
      cbn [mbind option_bind].
      rewrite IH by (intros e He; by apply Hclean, list_elem_of_further).
      rewrite fmap_cons, <-app_assoc. simpl. do 2 f_equal. unfold plain. f_equal.
      unfold remove. rewrite list_filter_filter. apply list_filter_iff.
      intros x. rewrite not_elem_of_cons. tauto.
Qed.

(** *** The position map and the new nodes *)

Lemma node_map_get_None m n : n ∉ fst <$> m → node_map_get m n = None.
Proof.
  induction m as [|[n' v] m IH]; intros Hn; [done|].
  rewrite fmap_cons, not_elem_of_cons in Hn. destruct Hn as [Hne Hn]. simpl in Hne.
  rewrite node_map_get_cons, decide_False by done. by apply IH.
Qed.

Lemma node_map_get_lookup m i n v :
  NoDup (fst <$> m) → m !! i = Some (n, v) → node_map_get m n = Some v.
Proof.
  revert i. induction m as [|[n' v'] m IH]; intros i Hnd Hi; [done|].
  rewrite fmap_cons in Hnd. apply NoDup_cons in Hnd as [Hn' Hnd].
  rewrite node_map_get_cons. destruct i as [|i]; simpl in Hi.
  - injection Hi as -> ->. by rewrite decide_True.
  - rewrite decide_False; [by apply (IH i)|].
    intros ->. apply Hn'. simpl.
    apply list_elem_of_fmap. exists (n, v). split; [done|].
    by apply list_elem_of_lookup_2 in Hi.
Qed.

Lemma oldMap_fold : ∀ (l : list (string * MappedItem)) (acc : list (node * nat)) off,
  NoDup ((fst <$> acc) ++ map_nodes l) →
  foldl (λ m e, node_map_set m (fst e) (snd e)) acc
    (imap (λ i e, (mi_node (snd e), off + i)) l)
  = acc ++ imap (λ i e, (mi_node (snd e), off + i)) l.
Proof.
  induction l as [|e rest IH]; intros acc off Hnd.
  - simpl. by rewrite app_nil_r.
  - rewrite imap_cons. cbn [foldl fst snd].
    assert (mi_node (snd e) ∉ fst <$> acc) as Hn.
    { apply NoDup_app in Hnd as (_ & Hdisj & _). intros Hin.
      apply (Hdisj _ Hin). unfold map_nodes. rewrite fmap_cons. apply list_elem_of_here. }
    rewrite node_map_set_fresh by done.
    rewrite (imap_ext _ (λ i e, (mi_node (snd e), S off + i))).
    2:{ intros j x _. simpl. f_equal. lia. }
    rewrite IH.
    + by rewrite <-app_assoc.
    + rewrite fmap_app, <-app_assoc. simpl. unfold map_nodes in Hnd.
      by rewrite fmap_cons in Hnd.
Qed.

Lemma build_oldMap_spec old :
  NoDup (map_nodes old) →
  build_oldMap old = imap (λ i e, (mi_node (snd e), i)) old.
Proof.
  intros Hnd. unfold build_oldMap. apply (oldMap_fold old [] 0). done.
Qed.

Lemma oldMap_nodes old :
  fst <$> imap (λ i (e : string * MappedItem), (mi_node (snd e), i)) old = map_nodes old.
Proof.
  apply list_eq. intros i. unfold map_nodes.
  rewrite !list_lookup_fmap, list_lookup_imap. by destruct (old !! i).
Qed.

Lemma oldMap_get_Some old i n :
  NoDup (map_nodes old) → map_nodes old !! i = Some n →
  node_map_get (build_oldMap old) n = Some i.
Proof.
  intros Hnd Hi. rewrite build_oldMap_spec by done.
  apply node_map_get_lookup with i.
  - by rewrite oldMap_nodes.
  - rewrite list_lookup_imap. unfold map_nodes in Hi. rewrite list_lookup_fmap in Hi.
    destruct (old !! i); simplify_eq/=. done.
Qed.

Lemma oldMap_get_None old n :
  NoDup (map_nodes old) → n ∉ map_nodes old →
  node_map_get (build_oldMap old) n = None.
Proof.
  intros Hnd Hn. rewrite build_oldMap_spec by done.
  apply node_map_get_None. by rewrite oldMap_nodes.
Qed.

Lemma build_newNodes_spec key nm items :
  NoDup (map_keys nm) → map_keys nm = keys key items →
  build_newNodes key nm items = Some (map_nodes nm).
Proof.
  intros Hnd Hkeys. unfold build_newNodes. apply mapM_Some.
  assert (length nm = length items) as Hlen.
  { rewrite <-(length_fmap fst nm). fold (map_keys nm). rewrite Hkeys.
    unfold keys. by rewrite length_imap. }
  apply Forall2_same_length_lookup_2.
  { unfold map_nodes. by rewrite length_imap, length_fmap. }
  intros i [i' d] n Hi Hn. rewrite list_lookup_imap in Hi.
  destruct (items !! i) as [d'|] eqn:Hd; [|done]. simpl in Hi. injection Hi as <- <-.
  unfold map_nodes in Hn. rewrite list_lookup_fmap in Hn.
  destruct (nm !! i) as [[k mi]|] eqn:Hnm; [|done]. simpl in Hn. injection Hn as <-.
  assert (k = item_key key d' i) as ->.
  { assert (map_keys nm !! i = Some k) as Hk.
    { unfold map_keys. by rewrite list_lookup_fmap, Hnm. }
    rewrite Hkeys in Hk. unfold keys in Hk. rewrite list_lookup_imap, Hd in Hk.
    by injection Hk. }
  simpl. by rewrite (map_get_lookup nm i _ mi Hnd Hnm).
Qed.

End KeyedPasses.

Module KeyedWalk.

Import Reconciler Keyed KeyedMaps KeyedPasses.

(** *** insertBefore *)

Lemma insert_in_front_split (pre post : list node) x next :
  next ∉ pre →
  insert_in_front (pre ++ next :: post) x next = Some (pre ++ x :: next :: post).
Proof.
  unfold insert_in_front. induction pre as [|y pre IH]; intros Hn; simpl.
  - by rewrite decide_True.
  - apply not_elem_of_cons in Hn as [Hne Hn].
    rewrite decide_False by done. by rewrite IH.
Qed.

(** Without fragments, [insertBefore] of a node in front of another one
    that is a child is the move. *)
Lemma insertBefore_plain children fresh x next children' :
  x ≠ next → next ∈ children →
  move_before children x next = Some children' →
  insertBefore (plain children fresh) x next = Some (plain children' fresh).
Proof.
  intros Hne Hin Hmove. unfold insertBefore. simpl.
  rewrite decide_True by done. rewrite decide_False by done.
  by rewrite Hmove.
Qed.

Lemma NoDup_split_unique {A} (x : A) : ∀ l1 l2 k1 k2,
  NoDup (l1 ++ x :: l2) → l1 ++ x :: l2 = k1 ++ x :: k2 → l1 = k1 ∧ l2 = k2.
Proof.
  induction l1 as [|a l1 IH]; intros l2 k1 k2 Hnd Heq.
  - destruct k1 as [|b k1]; simpl in *.
    + by injection Heq.
    + injection Heq as <- ->. apply NoDup_cons in Hnd as [Hx _].
      destruct Hx. apply elem_of_app. right. apply list_elem_of_here.
  - destruct k1 as [|b k1]; simpl in *.
    + injection Heq as -> <-. apply NoDup_cons in Hnd as [Hx _].
      destruct Hx. apply elem_of_app. right. apply list_elem_of_here.
    + injection Heq as <- Heq. apply NoDup_cons in Hnd as [_ Hnd].
      destruct (IH l2 k1 k2 Hnd Heq) as [-> ->]. done.
Qed.

(** Moving [x] in front of [next], seen through a filter that keeps [next]
    and not [x]: [x] appears just before [next], nothing else changes. *)
Lemma insertBefore_filter (T : list node) (children : list node) x next A B :
  NoDup children → x ∉ T → next ∈ T →
  filter (λ y, y ∈ T) children = A ++ next :: B →
  ∃ children',
    move_before children x next = Some children'
    ∧ NoDup children'
    ∧ (∀ y, y ∈ children' ↔ y = x ∨ y ∈ children)
    ∧ filter (λ y, y ∈ x :: T) children' = A ++ x :: next :: B.
Proof.
  intros Hnd Hx Hnext Hfilter.
  assert (next ≠ x) as Hne by (intros ->; done).
  assert (next ∈ children) as Hin.
  { assert (next ∈ filter (λ y, y ∈ T) children) as H'.
    { rewrite Hfilter. apply elem_of_app. right. apply list_elem_of_here. }
    by apply list_elem_of_filter in H' as [_ ?]. }
  set (c0 := filter (λ y, y ≠ x) children).
  assert (NoDup c0) as Hnd0 by (by apply NoDup_filter).
  assert (next ∈ c0) as Hin0 by (by apply list_elem_of_filter).
  destruct (list_elem_of_split _ _ Hin0) as (pre & post & Hc0).
  assert ((next ∉ pre) ∧ (next ∉ post) ∧ NoDup pre ∧ NoDup post ∧ ∀ y, y ∈ pre → y ∉ post)
    as (Hpre & Hpost & Hndpre & Hndpost & Hdisj).
  { rewrite Hc0 in Hnd0. apply NoDup_app in Hnd0 as (H1 & H2 & H3).
    apply NoDup_cons in H3 as [H3 H4]. split_and!; try done.
    - intros Hp. apply (H2 _ Hp), list_elem_of_here.
    - intros y Hy Hy'. apply (H2 _ Hy). by apply list_elem_of_further. }
  assert (x ∉ c0) as Hx0.
  { intros H'. apply list_elem_of_filter in H' as [? _]. done. }
  assert ((x ∉ pre) ∧ (x ∉ post)) as [Hxpre Hxpost].
  { rewrite Hc0 in Hx0. rewrite elem_of_app, elem_of_cons in Hx0. tauto. }
  exists (pre ++ x :: next :: post). split_and!.
  - unfold move_before, remove. fold c0. rewrite Hc0. by apply insert_in_front_split.
  - apply NoDup_app. split_and!; [done| |].
    + intros y Hy. rewrite !elem_of_cons. intros [->|[->|Hy']]; [done|done|].
      by apply (Hdisj y).
    + apply NoDup_cons. split.
      * rewrite elem_of_cons. intros [?|?]; [congruence|done].
      * by apply NoDup_cons.
  - intros y.
    pose proof (list_elem_of_filter (λ y, y ≠ x) children y) as Hc0in. fold c0 in Hc0in.
    rewrite Hc0 in Hc0in. rewrite elem_of_app, elem_of_cons in Hc0in.
    rewrite elem_of_app, !elem_of_cons.
    destruct (decide (y = x)) as [->|Hyx]; tauto.
  - assert (filter (λ y, y ∈ T) children = filter (λ y, y ∈ T) c0) as Hf0.
    { subst c0. rewrite list_filter_filter. apply list_filter_iff.
      intros y. split; [|tauto]. intros Hy. split; [done|]. intros ->. done. }
    rewrite Hf0, Hc0, filter_app, filter_cons_True in Hfilter by done.
    destruct (NoDup_split_unique next (filter (λ y, y ∈ T) pre)
                (filter (λ y, y ∈ T) post) A B) as [HA HB]; [|done|].
    { rewrite <-(filter_cons_True (λ y, y ∈ T)), <-filter_app by done.
      apply NoDup_filter. by rewrite <-Hc0. }
    assert (∀ l : list node, x ∉ l →
              filter (λ y, y ∈ x :: T) l = filter (λ y, y ∈ T) l) as Hext.
    { intros l Hl. induction l as [|z l IHl]; [done|].
      apply not_elem_of_cons in Hl as [Hzx Hl].
      rewrite !filter_cons. rewrite IHl by done.
      destruct (decide (z ∈ x :: T)) as [Hz|Hz], (decide (z ∈ T)) as [Hz'|Hz']; try done.
      - apply elem_of_cons in Hz as [?|?]; [congruence|done].
      - destruct Hz. by apply list_elem_of_further. }
    rewrite filter_app, filter_cons_True by apply list_elem_of_here.
    rewrite filter_cons_True by (by apply list_elem_of_further).
    rewrite !Hext by done. by rewrite HA, HB.
Qed.

(** *** The backward walk *)

Lemma nodes_at_elem (N : list node) (l : list nat) y :
  y ∈ nodes_at N l ↔ ∃ p, p ∈ l ∧ N !! p = Some y.
Proof. unfold nodes_at. apply list_elem_of_omap. Qed.

Lemma walk_ops_S (N : list node) l p x next :
  N !! p = Some x → (N ++ [endMarker]) !! S p = Some next →
  walk_ops N l (S p)
  = (if decide (p ∈ l) then [] else [InsertBefore x next]) ++ walk_ops N l p.
Proof.
  intros Hx Hnext. unfold walk_ops.
  rewrite seq_S, reverse_snoc. simpl. rewrite Hx, Hnext. simpl.
  by case_decide.
Qed.

Lemma index_array_get (l : list nat) (j a : nat) :
  l !! j = Some a →
  Js.array_get (LisSpec.index_array l) (Z.of_nat j) = Some (Z.of_nat a).
Proof.
  intros Hj. unfold Js.array_get, LisSpec.index_array.
  by rewrite LisInvFacts.get_of_nat, list_lookup_fmap, Hj.
Qed.

Section walk.

Context (N : list node) (sq : list (option nat)) (l : list nat) (fresh : node).
Context (HN : NoDup (N ++ [endMarker])).
Context (Hlen : length sq = length N).
Context (Hsorted : ∀ j1 j2 a b, j1 < j2 → l !! j1 = Some a → l !! j2 = Some b → a < b).
Context (Hlive : ∀ p, p ∈ l → ∃ v, sq !! p = Some (Some v)).

Lemma N_inj p q x : N !! p = Some x → N !! q = Some x → p = q.
Proof.
  intros Hp Hq. apply NoDup_app in HN as (HN' & _ & _).
  by apply (NoDup_lookup N p q x).
Qed.

Lemma N_not_endMarker p x : N !! p = Some x → x ≠ endMarker.
Proof.
  intros Hp ->. apply NoDup_app in HN as (_ & Hdisj & _).
  apply (Hdisj endMarker); [by apply list_elem_of_lookup_2 in Hp|apply list_elem_of_here].
Qed.

Lemma walk_spec : ∀ i c children log next,
  i ≤ length N →
  (N ++ [endMarker]) !! i = Some next →
  c ≤ length l →
  (∀ a, a ∈ take c l → a < i) →
  (∀ j a, c ≤ j → l !! j = Some a → i ≤ a) →
  NoDup children →
  filter (λ x, x ∈ nodes_at N (take c l) ++ drop i N ++ [endMarker]) children
    = nodes_at N (take c l) ++ drop i N ++ [endMarker] →
  ∃ children',
    walk (reverse (take i (imap (λ i ns, (i, fst ns, snd ns)) (zip N sq))))
      (LisSpec.index_array l) (Z.of_nat c - 1) next (plain children fresh) log
    = Some (plain children' fresh, log ++ walk_ops N l i)
    ∧ NoDup children'
    ∧ (∀ x, x ∈ children' → x ∈ children ∨ x ∈ N)
    ∧ filter (λ x, x ∈ N ++ [endMarker]) children' = N ++ [endMarker].
Proof.
  induction i as [|p IH]; intros c children log next Hi Hnext Hc Hbelow Habove Hnd Hfilter.
  { exists children. simpl. unfold walk_ops. simpl. rewrite app_nil_r.
    split_and!; [done|done|by left|].
    assert (take c l = []) as Htake.
    { destruct (take c l) as [|a ?] eqn:Ht; [done|].
      pose proof (Hbelow a ltac:(apply list_elem_of_here)). lia. }
    rewrite Htake in Hfilter. by rewrite drop_0 in Hfilter. }
  destruct (lookup_lt_is_Some_2 N p) as [x Hx]; [lia|].
  destruct (lookup_lt_is_Some_2 sq p) as [s Hs]; [lia|].
  assert (imap (λ i ns, (i, fst ns, snd ns)) (zip N sq) !! p = Some (p, x, s)) as Hall.
  { rewrite list_lookup_imap.
    by rewrite (proj2 (lookup_zip_Some N sq p x s) (conj Hx Hs)). }
  rewrite (take_S_r _ _ _ Hall), reverse_snoc. cbn [walk].
  rewrite (walk_ops_S N l p x next Hx Hnext).
  assert ((N ++ [endMarker]) !! p = Some x) as Hnext'.
  { by apply lookup_app_l_Some. }
  assert (drop p N = x :: drop (S p) N) as Hdrop by (by apply drop_S).
  assert (∃ B, drop (S p) N ++ [endMarker] = next :: B) as [B HB].
  { exists (drop (S (S p)) (N ++ [endMarker])).
    rewrite <-drop_app_le by lia. by apply drop_S. }
  destruct (decide (p ∈ l)) as [Hpl|Hpl].
  - (* a stable node *)
    destruct (Hlive p Hpl) as [v Hv]. rewrite Hs in Hv. injection Hv as ->.
    apply list_elem_of_lookup in Hpl as [j Hj].
    assert (j < c) as Hjc.
    { destruct (decide (j < c)); [done|]. pose proof (Habove j p ltac:(lia) Hj). lia. }
    assert (j = c - 1) as ->.
    { destruct (decide (j = c - 1)); [done|].
      destruct (lookup_lt_is_Some_2 l (c - 1)) as [b Hb]; [lia|].
      pose proof (Hsorted j (c - 1) p b ltac:(lia) Hj Hb).
      assert (b < S p); [|lia].
      apply Hbelow, elem_of_take. exists (c - 1). split; [done|lia]. }
    replace (Z.of_nat c - 1)%Z with (Z.of_nat (c - 1)) by lia.
    rewrite (index_array_get l (c - 1) p Hj).
    assert ((Z.of_nat (c - 1) <? 0)%Z = false) as -> by (apply Z.ltb_ge; lia).
    unfold Js.strict_eq. rewrite bool_decide_eq_true_2 by done. simpl.
    replace (Z.of_nat (c - 1) - 1)%Z with (Z.of_nat (c - 1) - 1)%Z by done.
    destruct (IH (c - 1) children log x) as (children' & Hw & H1 & H2 & H3);
      [lia|done|lia| | |done| |].
    + intros a Ha. apply elem_of_take in Ha as (j' & Hj' & Hlt).
      apply (Hsorted j' (c - 1) a p); [lia|done|done].
    + intros j' a Hj' Ha. destruct (decide (j' = c - 1)) as [->|Hne].
      * rewrite Hj in Ha. injection Ha as <-. lia.
      * pose proof (Habove j' a ltac:(lia) Ha). lia.
    + assert (nodes_at N (take c l) = nodes_at N (take (c - 1) l) ++ [x]) as Hna.
      { replace c with (S (c - 1)) at 1 by lia.
        rewrite (take_S_r _ _ _ Hj). unfold nodes_at. rewrite omap_app. simpl.
        by rewrite Hx. }
      rewrite Hna, <-app_assoc in Hfilter. simpl in Hfilter.
      by rewrite Hdrop.
    + exists children'. by split_and!.
  - (* a new or moved node *)
    set (T := nodes_at N (take c l) ++ drop (S p) N ++ [endMarker]) in *.
    assert (x ∉ T) as HxT.
    { subst T. rewrite !elem_of_app, list_elem_of_singleton.
      intros [Hin|[Hin|Hin]].
      - apply nodes_at_elem in Hin as (q & Hq & HNq).
        assert (q = p) as -> by (by apply (N_inj q p x)).
        apply Hpl. apply elem_of_take in Hq as (j & Hj & _).
        by apply list_elem_of_lookup_2 in Hj.
      - apply list_elem_of_lookup in Hin as [q Hq]. rewrite lookup_drop in Hq.
        pose proof (N_inj _ _ _ Hq Hx). lia.
      - by apply (N_not_endMarker p x). }
    assert (next ∈ T) as HnextT.
    { subst T. apply elem_of_app. right. rewrite HB. apply list_elem_of_here. }
    assert (filter (λ y, y ∈ T) children = nodes_at N (take c l) ++ next :: B) as Hf.
    { rewrite Hfilter. subst T. by rewrite HB. }
    destruct (insertBefore_filter T children x next _ _ Hnd HxT HnextT Hf)
      as (children1 & Hmove & Hnd1 & Hmem1 & Hf1).
    assert (insertBefore (plain children fresh) x next = Some (plain children1 fresh))
      as Hins.
    { apply insertBefore_plain; [by intros ->| |done].
      assert (next ∈ filter (λ y, y ∈ T) children) as Hin'.
      { rewrite Hf. apply elem_of_app. right. apply list_elem_of_here. }
      by apply list_elem_of_filter in Hin' as [_ ?]. }
    assert (∃ children',
      walk (reverse (take p (imap (λ i ns, (i, fst ns, snd ns)) (zip N sq))))
        (LisSpec.index_array l) (Z.of_nat c - 1) x (plain children1 fresh)
        (log ++ [InsertBefore x next])
      = Some (plain children' fresh, (log ++ [InsertBefore x next]) ++ walk_ops N l p)
      ∧ NoDup children'
      ∧ (∀ y, y ∈ children' → y ∈ children1 ∨ y ∈ N)
      ∧ filter (λ y, y ∈ N ++ [endMarker]) children' = N ++ [endMarker])
      as (children' & Hw & H1 & H2 & H3).
    { apply IH; [lia|done|done| | |done|].
      - intros a Ha. pose proof (Hbelow a Ha).
        assert (a ≠ p); [|lia]. intros ->. apply Hpl.
        apply elem_of_take in Ha as (j & Hj & _). by apply list_elem_of_lookup_2 in Hj.
      - intros j a Hj Ha. pose proof (Habove j a Hj Ha). lia.
      - transitivity (filter (λ y, y ∈ x :: T) children1).
        + apply list_filter_iff. intros y. rewrite Hdrop. subst T.
          repeat (rewrite elem_of_app || rewrite elem_of_cons || rewrite elem_of_nil).
          tauto.
        + rewrite Hf1, Hdrop. simpl. by rewrite HB. }
    assert (walk (reverse (take p (imap (λ i ns, (i, fst ns, snd ns)) (zip N sq))))
              (LisSpec.index_array l) (Z.of_nat c - 1) x (plain children1 fresh)
              (log ++ [InsertBefore x next])
            = Some (plain children' fresh, log ++ [InsertBefore x next] ++ walk_ops N l p)) as Hw'.
    { rewrite Hw. by rewrite <-app_assoc. }
    assert (∀ y, y ∈ children' → y ∈ children ∨ y ∈ N) as H2'.
    { intros y Hy. destruct (H2 y Hy) as [Hy1|?]; [|by right].
      apply Hmem1 in Hy1 as [->|?]; [|by left].
      right. by apply list_elem_of_lookup_2 in Hx. }
    exists children'. split_and!; [|done|done|done].
    destruct s as [v|].
    + assert (((Z.of_nat c - 1 <? 0)%Z
               || negb (Js.strict_eq (Some (Z.of_nat p))
                          (Js.array_get (LisSpec.index_array l) (Z.of_nat c - 1))))
              = true) as ->.
      { destruct (decide (c = 0)) as [->|Hc0]; [done|].
        destruct (lookup_lt_is_Some_2 l (c - 1)) as [b Hb]; [lia|].
        replace (Z.of_nat c - 1)%Z with (Z.of_nat (c - 1)) by lia.
        rewrite (index_array_get l (c - 1) b Hb).
        unfold Js.strict_eq. rewrite bool_decide_eq_false_2.
        - by rewrite orb_true_r.
        - intros [= Heq]. apply Hpl. assert (p = b) as -> by lia.
          by apply list_elem_of_lookup_2 in Hb. }
      rewrite Hins. simpl. done.
    + rewrite Hins. simpl. done.
Qed.

End walk.

End KeyedWalk.

Module KeyedMain.

Import Reconciler Keyed KeyedMaps KeyedPasses KeyedWalk.

(** *** Lists *)

Lemma adjacent_lt (f : nat → Z) (l : list nat) :
  (∀ j a b, l !! j = Some a → l !! S j = Some b → (f a < f b)%Z) →
  ∀ j1 j2 a b, j1 < j2 → l !! j1 = Some a → l !! j2 = Some b → (f a < f b)%Z.
Proof.
  intros Hadj j1 j2. induction j2 as [|j2 IH]; intros a b Hlt Ha Hb; [lia|].
  destruct (lookup_lt_is_Some_2 l j2) as [c Hc].
  { apply lookup_lt_Some in Hb. lia. }
  pose proof (Hadj j2 c b Hc Hb).
  destruct (decide (j1 = j2)) as [->|Hne].
  - rewrite Ha in Hc. injection Hc as ->. done.
  - pose proof (IH a c ltac:(lia) Ha Hc). lia.
Qed.

(** A list whose elements occur in [L] at increasing positions is a
    sublist of [L]. *)
Lemma increasing_sublist {A} : ∀ (S L : list A),
  (∀ x, x ∈ S → x ∈ L) →
  (∀ j1 j2 x1 x2 k1 k2, j1 < j2 → S !! j1 = Some x1 → S !! j2 = Some x2 →
     L !! k1 = Some x1 → L !! k2 = Some x2 → k1 < k2) →
  S `sublist_of` L.
Proof.
  induction S as [|x S IH] using rev_ind; intros L Hin Hmono.
  { apply sublist_nil_l. }
  assert (x ∈ L) as Hx by (apply Hin, elem_of_app; right; apply list_elem_of_here).
  apply list_elem_of_lookup in Hx as [k Hk].
  rewrite <-(take_drop_middle L k x Hk).
  apply sublist_app; [|by apply sublist_skip, sublist_nil_l].
  assert (∀ j y, S !! j = Some y → ∃ k', k' < k ∧ L !! k' = Some y) as Hpos.
  { intros j y Hj.
    assert (y ∈ L) as Hy.
    { apply Hin, elem_of_app. left. by apply list_elem_of_lookup_2 in Hj. }
    apply list_elem_of_lookup in Hy as [k' Hk']. exists k'. split; [|done].
    apply (Hmono j (length S) y x k' k); [by apply lookup_lt_Some in Hj| | |done|done].
    - by apply lookup_app_l_Some.
    - by rewrite lookup_app_r, Nat.sub_diag by lia. }
  apply IH.
  - intros y Hy. apply list_elem_of_lookup in Hy as [j Hj].
    destruct (Hpos j y Hj) as (k' & Hlt & Hk').
    apply list_elem_of_lookup. exists k'. rewrite lookup_take. by rewrite decide_True.
  - intros j1 j2 x1 x2 k1 k2 Hlt H1 H2 Hk1 Hk2.
    rewrite lookup_take in Hk1, Hk2.
    case_decide; [|done]. case_decide; [|done].
    apply (Hmono j1 j2 x1 x2 k1 k2 Hlt); [by apply lookup_app_l_Some|by apply lookup_app_l_Some|done|done].
Qed.

Lemma filter_ext_in {A} (P Q : A → Prop) `{∀ x, Decision (P x)} `{∀ x, Decision (Q x)}
    (l : list A) :
  (∀ x, x ∈ l → P x ↔ Q x) → filter P l = filter Q l.
Proof.
  induction l as [|x l IH]; intros Hext; [done|].
  rewrite !filter_cons.
  rewrite IH by (intros y Hy; by apply Hext, list_elem_of_further).
  pose proof (Hext x (list_elem_of_here _ _)).
  destruct (decide (P x)), (decide (Q x)); tauto || done.
Qed.

Lemma sublist_filter_id (S L : list node) :
  S `sublist_of` L → NoDup L → filter (λ x, x ∈ S) L = S.
Proof.
  induction 1 as [|x S L Hsub IH|x S L Hsub IH]; intros Hnd.
  - done.
  - apply NoDup_cons in Hnd as [Hx Hnd].
    rewrite filter_cons_True by apply list_elem_of_here. f_equal.
    rewrite (filter_ext_in _ (λ y, y ∈ S)); [by apply IH|].
    intros y Hy. rewrite elem_of_cons. split; [|by right].
    intros [->|?]; done.
  - apply NoDup_cons in Hnd as [Hx Hnd].
    rewrite filter_cons_False; [by apply IH|].
    intros Hin. apply Hx. by apply (elem_of_sublist S L).
Qed.

Lemma nodes_at_lookup (N : list node) (l : list nat) :
  (∀ p, p ∈ l → p < length N) →
  ∀ j, nodes_at N l !! j = l !! j ≫= (λ p, N !! p).
Proof.
  induction l as [|p l IH]; intros Hlt j; [done|].
  destruct (lookup_lt_is_Some_2 N p) as [x Hx].
  { apply Hlt, list_elem_of_here. }
  unfold nodes_at. simpl. rewrite Hx. simpl.
  destruct j as [|j]; simpl; [done|].
  apply IH. intros q Hq. by apply Hlt, list_elem_of_further.
Qed.

Lemma oldMap_get_inv old n k :
  NoDup (map_nodes old) →
  node_map_get (build_oldMap old) n = Some k → map_nodes old !! k = Some n.
Proof.
  intros Hnd Hget.
  destruct (decide (n ∈ map_nodes old)) as [Hin|Hnin].
  - apply list_elem_of_lookup in Hin as [k' Hk'].
    rewrite (oldMap_get_Some old k' n Hnd Hk') in Hget. by injection Hget as <-.
  - by rewrite (oldMap_get_None old n Hnd Hnin) in Hget.
Qed.

(** *** What pass 1 and pass 2 leave *)

Section run.

Context (key : option (string → nat → string)) (st : for_state) (items : list string).
Context (Hok : ok st) (Hkeys : NoDup (keys key items)).

Lemma pass1_assigned childrenFn :
  renders_elements childrenFn →
  ∃ nm fresh',
    pass1 childrenFn key (mappedItems st) [] (document_of st) items 0
    = Some (nm, plain (children st) fresh')
    ∧ assigned key st items nm fresh'.
Proof.
  intros Hre.
  destruct (pass1_spec childrenFn key (mappedItems st) Hre (ok_nodes _ Hok)
              (ok_cleanups _ Hok) items [] (children st) [] (fresh st) 0)
    as (nm & fresh' & Hp & Hle & Hlen & Hlook & Hnd).
  { intros n Hn. pose proof (ok_fresh _ Hok n Hn). lia. }
  { exact Hkeys. }
  exists nm, fresh'. split; [|by split].
  unfold document_of. by rewrite (ok_fragments _ Hok).
Qed.

Context (nm : list (string * MappedItem)) (fresh' : node).
Context (Has : assigned key st items nm fresh').

Lemma assigned_keys : map_keys nm = keys key items.
Proof.
  apply list_eq. intros j. unfold map_keys, keys.
  rewrite list_lookup_fmap, list_lookup_imap.
  destruct (items !! j) as [d|] eqn:Hd; simpl.
  - destruct (as_entries _ _ _ _ _ Has j d Hd) as (n & c & -> & _). done.
  - rewrite lookup_ge_None_2; [done|].
    rewrite (as_len _ _ _ _ _ Has). by apply lookup_ge_None.
Qed.

Lemma assigned_node n :
  n ∈ map_nodes nm →
  ∃ j d, items !! j = Some d
       ∧ map_nodes nm !! j = Some n
       ∧ item_key key d j ∈ keys key items
       ∧ match map_get (mappedItems st) (item_key key d j) with
         | Some o => n = mi_node o
         | None => fresh st ≤ n < fresh'
         end.
Proof.
  intros Hn. apply list_elem_of_lookup in Hn as [j Hj].
  assert (j < length items) as Hlt.
  { apply lookup_lt_Some in Hj. unfold map_nodes in Hj.
    rewrite length_fmap, (as_len _ _ _ _ _ Has) in Hj. done. }
  destruct (lookup_lt_is_Some_2 items j Hlt) as [d Hd].
  destruct (as_entries _ _ _ _ _ Has j d Hd) as (n' & c' & Hnm & _ & Hcond).
  assert (n' = n) as ->.
  { unfold map_nodes in Hj. rewrite list_lookup_fmap, Hnm in Hj. by injection Hj. }
  exists j, d. split_and!; [done|done| |done].
  apply list_elem_of_lookup. exists j. unfold keys. by rewrite list_lookup_imap, Hd.
Qed.

Lemma assigned_bounds n : n ∈ map_nodes nm → 0 < n < fresh'.
Proof.
  intros Hn. destruct (assigned_node n Hn) as (j & d & _ & _ & _ & Hcond).
  pose proof (as_fresh _ _ _ _ _ Has). pose proof (ok_fresh_pos _ Hok).
  destruct (map_get (mappedItems st) (item_key key d j)) as [o|] eqn:Hg.
  - subst n. pose proof (ok_fresh _ Hok _ (map_get_node_elem _ _ _ Hg)). lia.
  - lia.
Qed.

Lemma dropped_elem n :
  n ∈ dropped nm (mappedItems st) ↔
  ∃ k o, (k, o) ∈ mappedItems st ∧ (k ∉ map_keys nm) ∧ n = mi_node o.
Proof.
  unfold dropped, map_nodes. rewrite list_elem_of_fmap. split.
  - intros ([k o] & -> & Hin). apply list_elem_of_filter in Hin as [Hhas Hin].
    exists k, o. split_and!; [done| |done]. by apply map_has_false.
  - intros (k & o & Hin & Hk & ->). exists (k, o). split; [done|].
    apply list_elem_of_filter. split; [|done]. by apply map_has_false.
Qed.

Lemma old_entry_get k o :
  (k, o) ∈ mappedItems st → map_get (mappedItems st) k = Some o.
Proof.
  intros Hin. apply list_elem_of_lookup in Hin as [i Hi].
  by apply (map_get_lookup _ i k o (ok_keys _ Hok)).
Qed.

Lemma new_not_dropped n : n ∈ map_nodes nm → n ∉ dropped nm (mappedItems st).
Proof.
  intros Hn Hd. apply dropped_elem in Hd as (k & o & Hin & Hk & ->).
  destruct (assigned_node _ Hn) as (j & d & _ & _ & Hkj & Hcond).
  pose proof (old_entry_get k o Hin) as Hg.
  destruct (map_get (mappedItems st) (item_key key d j)) as [o'|] eqn:Hg'.
  - apply Hk. rewrite assigned_keys.
    by rewrite (map_get_node_inj _ k (item_key key d j) o o' (ok_nodes _ Hok) Hg Hg' Hcond).
  - pose proof (ok_fresh _ Hok _ (map_get_node_elem _ _ _ Hg)). lia.
Qed.

Lemma kept_is_new x :
  x ∈ map_nodes (mappedItems st) → x ∉ dropped nm (mappedItems st) → x ∈ map_nodes nm.
Proof.
  intros Hx Hnd. unfold map_nodes in Hx.
  apply list_elem_of_fmap in Hx as ([k o] & -> & Hin). simpl in *.
  destruct (decide (k ∈ map_keys nm)) as [Hk|Hk].
  2:{ destruct Hnd. apply dropped_elem. by exists k, o. }
  rewrite assigned_keys in Hk. apply list_elem_of_lookup in Hk as [j Hj].
  unfold keys in Hj. rewrite list_lookup_imap in Hj.
  destruct (items !! j) as [d|] eqn:Hd; [|done]. simpl in Hj. injection Hj as <-.
  destruct (as_entries _ _ _ _ _ Has j d Hd) as (n & c & Hnm & _ & Hcond).
  rewrite (old_entry_get _ o Hin) in Hcond. subst n.
  apply list_elem_of_lookup. exists j. unfold map_nodes.
  by rewrite list_lookup_fmap, Hnm.
Qed.

Lemma endMarker_not_old : endMarker ∉ map_nodes (mappedItems st).
Proof. intros Hin. pose proof (ok_fresh _ Hok _ Hin). unfold endMarker in *. lia. Qed.

Lemma endMarker_not_new : endMarker ∉ map_nodes nm.
Proof. intros Hin. pose proof (assigned_bounds _ Hin). unfold endMarker in *. lia. Qed.

Lemma endMarker_not_dropped : endMarker ∉ dropped nm (mappedItems st).
Proof.
  intros Hin. apply dropped_elem in Hin as (k & o & Hin & _ & Heq).
  apply endMarker_not_old. rewrite Heq. unfold map_nodes.
  apply list_elem_of_fmap. by exists (k, o).
Qed.

Lemma new_nodes_NoDup : NoDup (map_nodes nm ++ [endMarker]).
Proof.
  apply NoDup_app. split_and!; [apply (as_nodup _ _ _ _ _ Has)| |apply NoDup_singleton].
  intros x Hx. rewrite list_elem_of_singleton. intros ->. by apply endMarker_not_new.
Qed.

Lemma old_children_NoDup : NoDup (children st).
Proof.
  rewrite (ok_children _ Hok). apply NoDup_app.
  split_and!; [apply (ok_nodes _ Hok)| |apply NoDup_singleton].
  intros x Hx. rewrite list_elem_of_singleton. intros ->. by apply endMarker_not_old.
Qed.

(** The children after pass 2 are new nodes or the end marker. *)
Lemma children1_elem x :
  x ∈ filter (λ n, n ∉ dropped nm (mappedItems st)) (children st) →
  x ∈ map_nodes nm ++ [endMarker].
Proof.
  intros Hx. apply list_elem_of_filter in Hx as [Hnd Hx].
  rewrite (ok_children _ Hok) in Hx. apply elem_of_app in Hx as [Hx|Hx].
  - apply elem_of_app. left. by apply kept_is_new.
  - apply elem_of_app. by right.
Qed.

End run.

(** *** The stable nodes are in place after pass 2 *)

Section stable.

Import LisSpec.

Context (key : option (string → nat → string)) (st : for_state) (items : list string).
Context (Hok : ok st) (Hkeys : NoDup (keys key items)).
Context (nm : list (string * MappedItem)) (fresh' : node).
Context (Has : assigned key st items nm fresh').
Context (l : list nat).
Context (Hinc : increasing_subsequence (positions (mappedItems st) (map_nodes nm)) l).

Lemma positions_lookup old (N : list node) p :
  positions old N !! p
  = (λ n, match node_map_get (build_oldMap old) n with
          | Some k => Z.of_nat k
          | None => (-1)%Z
          end) <$> N !! p.
Proof.
  unfold positions. rewrite !list_lookup_fmap. by destruct (N !! p).
Qed.

Lemma l_live p :
  p ∈ l →
  ∃ n k, map_nodes nm !! p = Some n
       ∧ node_map_get (build_oldMap (mappedItems st)) n = Some k
       ∧ map_nodes (mappedItems st) !! k = Some n
       ∧ val (positions (mappedItems st) (map_nodes nm)) p = Z.of_nat k.
Proof.
  intros Hp. apply list_elem_of_lookup in Hp as [j Hj].
  destruct (proj1 Hinc j p Hj) as (v & Hv & Hne).
  unfold val. rewrite Hv. rewrite positions_lookup in Hv.
  destruct (map_nodes nm !! p) as [n|] eqn:Hn; [|done]. simpl in Hv.
  destruct (node_map_get (build_oldMap (mappedItems st)) n) as [k|] eqn:Hget.
  2:{ injection Hv as <-. done. }
  injection Hv as <-. exists n, k. split_and!; try done.
  by apply oldMap_get_inv; [apply (ok_nodes _ Hok)|].
Qed.

Lemma l_bound p : p ∈ l → p < length (map_nodes nm).
Proof.
  intros Hp. destruct (l_live p Hp) as (n & k & Hn & _). by apply lookup_lt_Some in Hn.
Qed.

Lemma l_sorted j1 j2 a b : j1 < j2 → l !! j1 = Some a → l !! j2 = Some b → a < b.
Proof.
  intros Hlt Ha Hb.
  pose proof (adjacent_lt Z.of_nat l) as Hadj.
  assert (Z.of_nat a < Z.of_nat b)%Z; [|lia].
  apply (Hadj) with j1 j2; try done.
  intros j x y Hx Hy. destruct (proj2 Hinc j x y Hx Hy). lia.
Qed.

Lemma stable_sublist :
  nodes_at (map_nodes nm) l `sublist_of` map_nodes (mappedItems st).
Proof.
  apply increasing_sublist.
  - intros x Hx. apply nodes_at_elem in Hx as (p & Hp & Hx).
    destruct (l_live p Hp) as (n & k & Hn & _ & Hk & _).
    rewrite Hx in Hn. injection Hn as <-. by apply list_elem_of_lookup_2 in Hk.
  - intros j1 j2 x1 x2 k1 k2 Hlt H1 H2 Hk1 Hk2.
    rewrite (nodes_at_lookup _ _ l_bound) in H1, H2.
    destruct (l !! j1) as [p1|] eqn:Hp1; [|done].
    destruct (l !! j2) as [p2|] eqn:Hp2; [|done]. simpl in H1, H2.
    destruct (l_live p1 (list_elem_of_lookup_2 _ _ _ Hp1)) as (n1 & k1' & Hn1 & _ & Hk1' & Hv1).
    destruct (l_live p2 (list_elem_of_lookup_2 _ _ _ Hp2)) as (n2 & k2' & Hn2 & _ & Hk2' & Hv2).
    rewrite H1 in Hn1. injection Hn1 as <-. rewrite H2 in Hn2. injection Hn2 as <-.
    assert (k1' = k1) as -> by (by apply (NoDup_lookup _ _ _ x1 (ok_nodes _ Hok))).
    assert (k2' = k2) as -> by (by apply (NoDup_lookup _ _ _ x2 (ok_nodes _ Hok))).
    pose proof (adjacent_lt (val (positions (mappedItems st) (map_nodes nm))) l) as Hadj.
    assert (val (positions (mappedItems st) (map_nodes nm)) p1
            < val (positions (mappedItems st) (map_nodes nm)) p2)%Z; [|lia].
    apply Hadj with j1 j2; try done.
    intros j x y Hx Hy. by destruct (proj2 Hinc j x y Hx Hy).
Qed.

Lemma stable_filter :
  filter (λ x, x ∈ nodes_at (map_nodes nm) l ++ [endMarker])
    (filter (λ n, n ∉ dropped nm (mappedItems st)) (children st))
  = nodes_at (map_nodes nm) l ++ [endMarker].
Proof.
  rewrite list_filter_filter.
  rewrite (list_filter_iff _ (λ x, x ∈ nodes_at (map_nodes nm) l ++ [endMarker])).
  2:{ intros x. split; [tauto|]. intros Hx. split; [done|].
      apply elem_of_app in Hx as [Hx|Hx].
      - apply (new_not_dropped key st items Hok nm fresh' Has).
        apply nodes_at_elem in Hx as (p & _ & Hx). by apply list_elem_of_lookup_2 in Hx.
      - apply list_elem_of_singleton in Hx as ->.
        by apply (endMarker_not_dropped st Hok nm). }
  rewrite (ok_children _ Hok).
  apply sublist_filter_id.
  - apply sublist_app; [apply stable_sublist|done].
  - rewrite <-(ok_children _ Hok). by apply old_children_NoDup.
Qed.

End stable.

(** *** One run *)

(** A run on items with distinct keys, from a state of the component:
    what it returns, in full. *)
Lemma reconcile_keyed childrenFn config fuel key (st : for_state) (items : list string) :
  renders_elements childrenFn →
  ok st → NoDup (keys key items) →
  length items ≤ fuel → (Z.of_nat (length items) ≤ 2 ^ 31)%Z →
  ∃ nm fresh' l,
    reconcile childrenFn config fuel key st items
    = Some {| r_state := showing nm fresh';
              r_seq := positions (mappedItems st) (map_nodes nm);
              r_lis := LisSpec.index_array l;
              r_log := (Remove <$> dropped nm (mappedItems st))
                       ++ walk_ops (map_nodes nm) l (length items) |}
    ∧ assigned key st items nm fresh'
    ∧ LisSpec.lis_result (positions (mappedItems st) (map_nodes nm))
        (LisSpec.index_array l)
    ∧ LisSpec.increasing_subsequence (positions (mappedItems st) (map_nodes nm)) l.
Proof.
  intros Hre Hok Hkeys Hfuel Hsize.
  destruct (pass1_assigned key st items Hok Hkeys childrenFn Hre)
    as (nm & fresh' & Hp & Has).
  pose proof (assigned_keys _ _ _ _ _ Has) as Hnmkeys.
  pose proof (as_len _ _ _ _ _ Has) as Hnmlen.
  assert (length (map_nodes nm) = length items) as HNlen.
  { unfold map_nodes. by rewrite length_fmap. }
  exists nm, fresh'.
  unfold reconcile. rewrite Hp. cbn [mbind option_bind].
  rewrite pass2_spec by apply (ok_cleanups _ Hok). cbn [mbind option_bind app].
  set (children1 := filter (λ n, n ∉ dropped nm (mappedItems st)) (children st)).
  assert (∀ children', 
            (∀ x, x ∈ children' → x ∈ children1 ∨ x ∈ map_nodes nm) →
            filter (λ x, x ∈ map_nodes nm ++ [endMarker]) children'
              = map_nodes nm ++ [endMarker] →
            children' = map_nodes nm ++ [endMarker]) as Hfinal.
  { intros children' Hel Hf. rewrite <-Hf. symmetry. apply filter_all.
    intros x Hx. destruct (Hel x Hx) as [Hx1|Hx1].
    - by apply (children1_elem key st items Hok nm fresh' Has).
    - apply elem_of_app. by left. }
  destruct (Nat.ltb_spec 0 (length items)) as [Hpos|Hzero].
  - rewrite (build_newNodes_spec key nm items) by (by rewrite ?Hnmkeys).
    cbn [mbind option_bind].
    change ((λ i, match i with None => (-1)%Z | Some i => Z.of_nat i end)
              <$> (node_map_get (build_oldMap (mappedItems st)) <$> map_nodes nm))
      with (positions (mappedItems st) (map_nodes nm)).
    assert (length (positions (mappedItems st) (map_nodes nm)) = length items) as Hplen.
    { unfold positions. by rewrite !length_fmap. }
    destruct (LisCorrect.dispatcher_spec config fuel
                (positions (mappedItems st) (map_nodes nm)) None)
      as (lis & Hlis & Hres); [by rewrite Hplen|by rewrite Hplen|].
    rewrite Hlis. cbn [mbind option_bind].
    pose proof Hres as (l & -> & Hinc & Hmax).
    exists l.
    destruct (walk_spec (map_nodes nm)
                (node_map_get (build_oldMap (mappedItems st)) <$> map_nodes nm) l fresh'
                (new_nodes_NoDup key st items Hok nm fresh' Has)
                ltac:(by rewrite length_fmap)
                (l_sorted st nm l Hinc))
      with (i := length (map_nodes nm)) (c := length l) (children := children1)
           (log := Remove <$> dropped nm (mappedItems st)) (next := endMarker)
      as (children' & Hw & Hnd' & Hel & Hf).
    { intros p Hp'. destruct (l_live st Hok nm l Hinc p Hp') as (n & k & Hn & Hget & _).
      exists k. by rewrite list_lookup_fmap, Hn; simpl; rewrite Hget. }
    { done. }
    { by rewrite lookup_app_r, Nat.sub_diag by lia. }
    { done. }
    { intros a Ha. rewrite firstn_all in Ha. by apply (l_bound st Hok nm l Hinc). }
    { intros j a Hj Ha. apply lookup_lt_Some in Ha. lia. }
    { apply NoDup_filter. by apply old_children_NoDup. }
    { rewrite firstn_all, drop_all. simpl.
      apply (stable_filter key st items Hok nm fresh' Has l Hinc). }
    rewrite take_ge in Hw.
    2:{ rewrite length_imap, length_zip, length_fmap. lia. }
    rewrite LisCorrect.index_array_length, Hw. cbn [mbind option_bind].
    rewrite (Hfinal children' Hel Hf), HNlen.
    by split_and!.
  - assert (items = []) as -> by (destruct items; [done|simpl in Hzero; lia]).
    assert (nm = []) as -> by (destruct nm; [done|simpl in Hnmlen; lia]).
    exists [].
    assert (children1 = [endMarker]) as ->.
    { apply (Hfinal children1); [by left|].
      apply (stable_filter key st [] Hok [] fresh' Has []).
      apply LisInvFacts.increasing_nil. }
    unfold walk_ops. simpl. rewrite app_nil_r.
    split_and!; [done|done| |apply LisInvFacts.increasing_nil].
    by apply LisInvFacts.lis_result_empty.
Qed.

End KeyedMain.




Module KeyedFacts.

Import Reconciler Keyed KeyedMaps KeyedPasses KeyedWalk KeyedMain.

Lemma ok_initial : ok initial.
Proof.
  split; simpl.
  - apply NoDup_nil_2.
  - apply NoDup_nil_2.
  - intros n Hn. by apply elem_of_nil in Hn.
  - lia.
  - done.
  - done.
  - intros e He. by apply elem_of_nil in He.
Qed.

Lemma new_element_renders : renders_elements new_element.
Proof.
  split. intros d i doc. exists (doc_fresh doc), no_cleanups, (S (doc_fresh doc)).
  split_and!; [done|lia|lia|done].
Qed.

(** The state after a run is again a state of the component. *)
Lemma assigned_ok key st items nm fresh' :
  ok st → NoDup (keys key items) → assigned key st items nm fresh' →
  ok (showing nm fresh').
Proof.
  intros Hok Hkeys Has. split; simpl.
  - by rewrite (assigned_keys _ _ _ _ _ Has).
  - apply (as_nodup _ _ _ _ _ Has).
  - apply (assigned_bounds key st items Hok nm fresh' Has).
  - pose proof (as_fresh _ _ _ _ _ Has). pose proof (ok_fresh_pos _ Hok). lia.
  - done.
  - done.
  - intros e He. apply list_elem_of_lookup in He as [j Hj].
    pose proof (lookup_lt_Some _ _ _ Hj) as Hlt. rewrite (as_len _ _ _ _ _ Has) in Hlt.
    destruct (lookup_lt_is_Some_2 items j Hlt) as [d Hd].
    destruct (as_entries _ _ _ _ _ Has j d Hd) as (n & c & Hnm & Hc & _).
    rewrite Hj in Hnm. by injection Hnm as ->.
Qed.

(** When every key is in the old map, pass 1 does not call the prop
    [children]. *)
Lemma pass1_no_call (c1 c2 : renderer) key old : ∀ items acc doc i,
  (∀ j d, items !! j = Some d → is_Some (map_get old (item_key key d (i + j)))) →
  pass1 c1 key old acc doc items i = pass1 c2 key old acc doc items i.
Proof.
  induction items as [|d rest IH]; intros acc doc i Hall; [done|].
  cbn [pass1]. destruct (Hall 0 d eq_refl) as [o Ho].
  rewrite Nat.add_0_r in Ho. rewrite Ho. apply IH.
  intros j d' Hj. replace (S i + j) with (i + S j) by lia. by apply Hall.
Qed.

Lemma reconcile_no_call (c1 c2 : renderer) config fuel key st items :
  keys key items = map_keys (mappedItems st) →
  NoDup (map_keys (mappedItems st)) →
  reconcile c1 config fuel key st items = reconcile c2 config fuel key st items.
Proof.
  intros Hsame Hnd. unfold reconcile.
  rewrite (pass1_no_call c1 c2); [done|].
  intros j d Hd. simpl.
  assert (map_keys (mappedItems st) !! j = Some (item_key key d j)) as Hk.
  { rewrite <-Hsame. unfold keys. by rewrite list_lookup_imap, Hd. }
  unfold map_keys in Hk. rewrite list_lookup_fmap in Hk.
  destruct (mappedItems st !! j) as [[k o]|] eqn:Ho; [|done].
  simpl in Hk. injection Hk as ->. exists o.
  by apply (map_get_lookup _ j _ o Hnd Ho).
Qed.

Lemma item_nodes_ok st : ok st → item_nodes st = map_nodes (mappedItems st).
Proof.
  intros Hok. unfold item_nodes. rewrite (ok_children _ Hok), filter_app.
  rewrite filter_cons_False by (intros H; by apply H). rewrite filter_nil, app_nil_r.
  apply filter_all. intros x Hx ->. by apply (endMarker_not_old st Hok).
Qed.

Lemma node_of_lookup st j k mi :
  NoDup (map_keys (mappedItems st)) → mappedItems st !! j = Some (k, mi) →
  node_of st k = Some (mi_node mi).
Proof.
  intros Hnd Hj. unfold node_of. by rewrite (map_get_lookup _ j k mi Hnd Hj).
Qed.

Lemma omap_none {A B} (f : A → option B) (l : list A) :
  (∀ x, x ∈ l → f x = None) → omap f l = [].
Proof.
  induction l as [|x l IH]; intros Hall; [done|]. simpl.
  rewrite (Hall x) by apply list_elem_of_here.
  apply IH. intros y Hy. by apply Hall, list_elem_of_further.
Qed.

Lemma filter_none {A} (P : A → Prop) `{∀ x, Decision (P x)} (l : list A) :
  (∀ x, x ∈ l → ¬ P x) → filter P l = [].
Proof.
  induction l as [|x l IH]; intros Hall; [done|].
  rewrite filter_cons_False by apply Hall, list_elem_of_here.
  apply IH. intros y Hy. by apply Hall, list_elem_of_further.
Qed.

Lemma inserted_nodes_app log1 log2 :
  inserted_nodes (log1 ++ log2) = inserted_nodes log1 ++ inserted_nodes log2.
Proof. unfold inserted_nodes. apply omap_app. Qed.

Lemma inserted_nodes_removes (ns : list node) : inserted_nodes (Remove <$> ns) = [].
Proof.
  unfold inserted_nodes. apply omap_none.
  intros op Hop. by apply list_elem_of_fmap in Hop as (n & -> & _).
Qed.

(** The nodes the walk inserts are those at the positions off [l]. *)
Lemma inserted_walk_ops (N : list node) (l : list nat) n :
  n ∈ inserted_nodes (walk_ops N l (length N)) ↔ ∃ p, (p ∉ l) ∧ N !! p = Some n.
Proof.
  unfold inserted_nodes, walk_ops. rewrite list_elem_of_omap. split.
  - intros (op & Hop & Hn). apply list_elem_of_omap in Hop as (p & _ & Hp).
    case_decide as Hpl; [done|].
    destruct (N !! p) as [x|] eqn:Hx; [|done]. simpl in Hp.
    destruct ((N ++ [endMarker]) !! S p) as [next|]; [|done]. simpl in Hp.
    injection Hp as <-. injection Hn as <-. by exists p.
  - intros (p & Hpl & Hx).
    pose proof (lookup_lt_Some _ _ _ Hx) as Hlt.
    destruct (lookup_lt_is_Some_2 (N ++ [endMarker]) (S p)) as [next Hnext].
    { rewrite length_app. simpl. lia. }
    exists (InsertBefore n next). split; [|done].
    apply list_elem_of_omap. exists p. split.
    + apply elem_of_reverse, elem_of_seq. lia.
    + rewrite decide_False by done. rewrite Hx, Hnext. done.
Qed.

Lemma on_lis_index_array (l : list nat) p :
  on_lis (LisSpec.index_array l) p = true ↔ p ∈ l.
Proof.
  unfold on_lis, LisSpec.index_array. rewrite bool_decide_eq_true, list_elem_of_fmap.
  split.
  - intros (q & [= Hq] & Hin). by replace p with q by lia.
  - intros Hp. by exists p.
Qed.

Lemma index_array_inj (l1 l2 : list nat) :
  LisSpec.index_array l1 = LisSpec.index_array l2 → l1 = l2.
Proof.
  unfold LisSpec.index_array.
  revert l2. induction l1 as [|a l1 IH]; intros [|b l2] Heq; try done.
  rewrite !fmap_cons in Heq. injection Heq as Hab Hrest.
  f_equal; [lia|by apply IH].
Qed.

(** Re-running on the keys the state already has: every node is reused at
    its own position. *)
Lemma assigned_same key st items nm fresh' :
  ok st → keys key items = map_keys (mappedItems st) →
  assigned key st items nm fresh' →
  map_nodes nm = map_nodes (mappedItems st)
  ∧ dropped nm (mappedItems st) = []
  ∧ positions (mappedItems st) (map_nodes nm)
    = Z.of_nat <$> seq 0 (length items).
Proof.
  intros Hok Hsame Has.
  assert (length (mappedItems st) = length items) as Hlen.
  { rewrite <-(length_fmap fst (mappedItems st)). fold (map_keys (mappedItems st)).
    rewrite <-Hsame. unfold keys. by rewrite length_imap. }
  assert (map_nodes nm = map_nodes (mappedItems st)) as HN.
  { apply list_eq. intros j. unfold map_nodes. rewrite !list_lookup_fmap.
    destruct (items !! j) as [d|] eqn:Hd.
    - destruct (as_entries _ _ _ _ _ Has j d Hd) as (n & c & Hnm & _ & Hcond).
      rewrite Hnm. simpl.
      destruct (lookup_lt_is_Some_2 (mappedItems st) j) as [[k o] Ho].
      { rewrite Hlen. by apply lookup_lt_Some in Hd. }
      assert (k = item_key key d j) as ->.
      { assert (map_keys (mappedItems st) !! j = Some k) as Hk.
        { unfold map_keys. by rewrite list_lookup_fmap, Ho. }
        rewrite <-Hsame in Hk. unfold keys in Hk. rewrite list_lookup_imap, Hd in Hk.
        by injection Hk. }
      rewrite (map_get_lookup _ j _ o (ok_keys _ Hok) Ho) in Hcond.
      rewrite Ho. simpl. by rewrite Hcond.
    - apply lookup_ge_None in Hd.
      rewrite !lookup_ge_None_2; [done|lia|].
      rewrite (as_len _ _ _ _ _ Has). lia. }
  split_and!; [done| |].
  - unfold dropped. rewrite filter_none; [done|].
    intros [k o] Hin. simpl. intros Hhas.
    apply map_has_false in Hhas. apply Hhas.
    fold (map_keys nm). rewrite (assigned_keys _ _ _ _ _ Has), Hsame.
    unfold map_keys. apply list_elem_of_fmap. by exists (k, o).
  - rewrite HN. apply list_eq. intros j.
    rewrite positions_lookup, list_lookup_fmap.
    destruct (map_nodes (mappedItems st) !! j) as [n|] eqn:Hn; simpl.
    + rewrite (oldMap_get_Some _ j n (ok_nodes _ Hok) Hn).
      rewrite lookup_seq_lt; [done|].
      apply lookup_lt_Some in Hn. unfold map_nodes in Hn. rewrite length_fmap in Hn. lia.
    + rewrite lookup_seq_ge; [done|].
      apply lookup_ge_None in Hn. unfold map_nodes in Hn. rewrite length_fmap in Hn. lia.
Qed.

End KeyedFacts.

Module KeyedExtra.

Import Reconciler Keyed KeyedMaps KeyedPasses KeyedWalk KeyedMain KeyedFacts.

Lemma ok_two_items : ok two_items.
Proof.
  split; simpl.
  - apply (bool_decide_unpack _). by vm_compute.
  - apply (bool_decide_unpack _). by vm_compute.
  - intros n Hn. unfold map_nodes in Hn. simpl in Hn.
    repeat (apply elem_of_cons in Hn as [->|Hn]; [lia|]). by apply elem_of_nil in Hn.
  - lia.
  - done.
  - done.
  - intros e He.
    repeat (apply elem_of_cons in He as [->|He]; [done|]). by apply elem_of_nil in He.
Qed.

Lemma keys_b_c : NoDup (keys None ["b"; "c"]).
Proof. apply (bool_decide_unpack _). by vm_compute. Qed.

(** X18. When the prop [children] is of the usual kind (each call returns
    a node it has just made, no fragment, and touches neither the container
    nor, with its cleanups, the document), one run of the effect of [For]
    on items with distinct keys, from any state the component can be in,
    returns (the LIS engine has fuel for the list) and leaves a state of
    the same kind: the map has the keys of the new items in their order,
    each entry holding its item and its index, and the document shows
    exactly the nodes of the map, in that order, followed by the end
    marker. *)
Theorem reconcile_orders_nodes childrenFn config fuel key (st : for_state)
    (items : list string) :
  renders_elements childrenFn →
  ok st → NoDup (keys key items) →
  length items ≤ fuel → (Z.of_nat (length items) ≤ 2 ^ 31)%Z →
  ∃ r, reconcile childrenFn config fuel key st items = Some r
     ∧ ok (r_state r)
     ∧ map_keys (mappedItems (r_state r)) = keys key items
     ∧ item_nodes (r_state r) = map_nodes (mappedItems (r_state r))
     ∧ children (r_state r) = item_nodes (r_state r) ++ [endMarker]
     ∧ ∀ j d, items !! j = Some d →
         ∃ n c, mappedItems (r_state r) !! j
                = Some (item_key key d j,
                        {| mi_node := n; mi_cleanups := c; mi_item := d; mi_index := j |}).
Proof.
  intros Hre Hok Hkeys Hfuel Hsize.
  destruct (reconcile_keyed childrenFn config fuel key st items Hre Hok Hkeys Hfuel Hsize)
    as (nm & fresh' & l & Hr & Has & _).
  pose proof (assigned_ok key st items nm fresh' Hok Hkeys Has) as Hok'.
  eexists. split; [exact Hr|]. cbn [r_state].
  split_and!.
  - done.
  - apply (assigned_keys _ _ _ _ _ Has).
  - by apply item_nodes_ok.
  - by rewrite (item_nodes_ok _ Hok').
  - intros j d Hd. destruct (as_entries _ _ _ _ _ Has j d Hd) as (n & c & Hn & _).
    by exists n, c.
Qed.

Lemma reconcile_orders_nodes_witness :
  ∃ r, reconcile new_element Lis.default_config 2 None two_items ["b"; "c"] = Some r
     ∧ ok (r_state r)
     ∧ map_keys (mappedItems (r_state r)) = keys None ["b"; "c"]
     ∧ item_nodes (r_state r) = map_nodes (mappedItems (r_state r))
     ∧ children (r_state r) = item_nodes (r_state r) ++ [endMarker]
     ∧ ∀ j d, ["b"; "c"] !! j = Some d →
         ∃ n c, mappedItems (r_state r) !! j
                = Some (item_key None d j,
                        {| mi_node := n; mi_cleanups := c; mi_item := d; mi_index := j |}).
Proof.
  apply (reconcile_orders_nodes new_element Lis.default_config 2 None two_items ["b"; "c"]).
  - apply new_element_renders.
  - apply ok_two_items.
  - apply keys_b_c.
  - simpl. lia.
  - vm_compute. discriminate.
Defined.

(** X19. In such a run (the prop [children] of the usual kind, distinct
    keys) a key that stays keeps its node, a key that is new gets the node
    the prop has made for it, which did not exist before, and the node of a
    key that is gone is removed from the document (and its entry from the
    map). *)
Theorem reconcile_reuses_nodes childrenFn config fuel key (st : for_state)
    (items : list string) :
  renders_elements childrenFn →
  ok st → NoDup (keys key items) →
  length items ≤ fuel → (Z.of_nat (length items) ≤ 2 ^ 31)%Z →
  ∃ r, reconcile childrenFn config fuel key st items = Some r
     ∧ (∀ k n, k ∈ keys key items → node_of st k = Some n →
          node_of (r_state r) k = Some n)
     ∧ (∀ k, k ∈ keys key items → node_of st k = None →
          ∃ n, node_of (r_state r) k = Some n ∧ fresh st ≤ n ∧ n ∉ children st)
     ∧ (∀ k n, k ∉ keys key items → node_of st k = Some n →
          (n ∉ children (r_state r)) ∧ Remove n ∈ r_log r
          ∧ node_of (r_state r) k = None).
Proof.
  intros Hre Hok Hkeys Hfuel Hsize.
  destruct (reconcile_keyed childrenFn config fuel key st items Hre Hok Hkeys Hfuel Hsize)
    as (nm & fresh' & l & Hr & Has & _).
  pose proof (assigned_ok key st items nm fresh' Hok Hkeys Has) as Hok'.
  pose proof (assigned_keys _ _ _ _ _ Has) as Hnmkeys.
  eexists. split; [exact Hr|]. cbn [r_state r_log].
  assert (∀ k, k ∈ keys key items →
            ∃ j d n, items !! j = Some d ∧ k = item_key key d j
                     ∧ node_of (showing nm fresh') k = Some n
                     ∧ match map_get (mappedItems st) k with
                       | Some o => n = mi_node o
                       | None => fresh st ≤ n < fresh'
                       end) as Hkey.
  { intros k Hk. apply list_elem_of_lookup in Hk as [j Hj].
    unfold keys in Hj. rewrite list_lookup_imap in Hj.
    destruct (items !! j) as [d|] eqn:Hd; [|done]. simpl in Hj. injection Hj as <-.
    destruct (as_entries _ _ _ _ _ Has j d Hd) as (n & c & Hnm & _ & Hcond).
    exists j, d, n. split_and!; [done|done| |done].
    by apply (node_of_lookup (showing nm fresh') j _ _ (ok_keys _ Hok') Hnm). }
  unfold showing in *. cbn [children].
  split_and!.
  - intros k n Hk Hn. destruct (Hkey k Hk) as (j & d & n' & _ & _ & Hnode & Hcond).
    unfold node_of in Hn. destruct (map_get (mappedItems st) k) as [o|]; [|done].
    simpl in Hn. injection Hn as <-. by rewrite Hnode, Hcond.
  - intros k Hk Hn. destruct (Hkey k Hk) as (j & d & n' & _ & _ & Hnode & Hcond).
    unfold node_of in Hn. destruct (map_get (mappedItems st) k) as [o|]; [done|].
    exists n'. split_and!; [done|lia|].
    rewrite (ok_children _ Hok), elem_of_app, list_elem_of_singleton.
    intros [Hin| ->].
    + pose proof (ok_fresh _ Hok _ Hin). lia.
    + pose proof (ok_fresh_pos _ Hok). unfold endMarker in *. lia.
  - intros k n Hk Hn. unfold node_of in Hn.
    destruct (map_get (mappedItems st) k) as [o|] eqn:Hg; [|done].
    simpl in Hn. injection Hn as <-.
    assert (mi_node o ∈ dropped nm (mappedItems st)) as Hdrop.
    { apply (dropped_elem st nm). exists k, o. split_and!; [|by rewrite Hnmkeys|done].
      by apply map_get_elem. }
    split_and!.
    + rewrite elem_of_app, list_elem_of_singleton. intros [Hin|Heq].
      * by apply (new_not_dropped key st items Hok nm fresh' Has _ Hin).
      * apply (endMarker_not_dropped st Hok nm). by rewrite <-Heq.
    + apply elem_of_app. left. apply list_elem_of_fmap. by exists (mi_node o).
    + unfold node_of. simpl.
      rewrite (proj2 (map_get_None nm k)); [done|]. fold (map_keys nm).
      by rewrite Hnmkeys.
Qed.

Lemma reconcile_reuses_nodes_witness :
  ∃ r, reconcile new_element Lis.default_config 2 None two_items ["b"; "c"] = Some r
     ∧ (∀ k n, k ∈ keys None ["b"; "c"] → node_of two_items k = Some n →
          node_of (r_state r) k = Some n)
     ∧ (∀ k, k ∈ keys None ["b"; "c"] → node_of two_items k = None →
          ∃ n, node_of (r_state r) k = Some n ∧ fresh two_items ≤ n
               ∧ n ∉ children two_items)
     ∧ (∀ k n, k ∉ keys None ["b"; "c"] → node_of two_items k = Some n →
          (n ∉ children (r_state r)) ∧ Remove n ∈ r_log r
          ∧ node_of (r_state r) k = None).
Proof.
  apply (reconcile_reuses_nodes new_element Lis.default_config 2 None two_items
           ["b"; "c"]).
  - apply new_element_renders.
  - apply ok_two_items.
  - apply keys_b_c.
  - simpl. lia.
  - vm_compute. discriminate.
Defined.

(** X20. In such a run (the prop [children] of the usual kind, distinct
    keys) the array handed to the LIS engine lists the old
    positions of the new nodes, the engine returns a longest increasing
    subsequence of it, and the nodes on which [insertBefore] is called are
    exactly those at the positions off that subsequence: the others are
    never touched. *)
Theorem moved_iff_off_lis childrenFn config fuel key (st : for_state)
    (items : list string) :
  renders_elements childrenFn →
  ok st → NoDup (keys key items) →
  length items ≤ fuel → (Z.of_nat (length items) ≤ 2 ^ 31)%Z →
  ∃ r, reconcile childrenFn config fuel key st items = Some r
     ∧ r_seq r = positions (mappedItems st) (map_nodes (mappedItems (r_state r)))
     ∧ LisSpec.lis_result (r_seq r) (r_lis r)
     ∧ ∀ p n, map_nodes (mappedItems (r_state r)) !! p = Some n →
         (moved (r_log r) n = true ↔ on_lis (r_lis r) p = false).
Proof.
  intros Hre Hok Hkeys Hfuel Hsize.
  destruct (reconcile_keyed childrenFn config fuel key st items Hre Hok Hkeys Hfuel Hsize)
    as (nm & fresh' & l & Hr & Has & Hres & _).
  eexists. split; [exact Hr|]. cbn [r_state r_log r_lis r_seq showing mappedItems].
  split_and!; [done|done|].
  intros p n Hn. unfold moved. rewrite bool_decide_eq_true.
  rewrite inserted_nodes_app, inserted_nodes_removes. simpl.
  replace (length items) with (length (map_nodes nm)).
  2:{ unfold map_nodes. by rewrite length_fmap, (as_len _ _ _ _ _ Has). }
  rewrite inserted_walk_ops.
  rewrite <-not_true_iff_false, on_lis_index_array.
  split.
  - intros (q & Hq & Hnq).
    by rewrite (NoDup_lookup _ p q n (as_nodup _ _ _ _ _ Has) Hn Hnq).
  - intros Hp. by exists p.
Qed.

Lemma moved_iff_off_lis_witness :
  ∃ r, reconcile new_element Lis.default_config 2 None two_items ["b"; "a"] = Some r
     ∧ r_seq r = positions (mappedItems two_items) (map_nodes (mappedItems (r_state r)))
     ∧ LisSpec.lis_result (r_seq r) (r_lis r)
     ∧ ∀ p n, map_nodes (mappedItems (r_state r)) !! p = Some n →
         (moved (r_log r) n = true ↔ on_lis (r_lis r) p = false).
Proof.
  apply (moved_iff_off_lis new_element Lis.default_config 2 None two_items ["b"; "a"]).
  - apply new_element_renders.
  - apply ok_two_items.
  - apply (bool_decide_unpack _). by vm_compute.
  - simpl. lia.
  - vm_compute. discriminate.
Defined.

(** X21. A run on a list with the keys the component already shows, in the
    same order, calls neither [insertBefore] nor [remove], whatever the
    prop [children] is (it is not called): every position is on the
    subsequence the engine returns, and the document is left as it is. *)
Theorem unchanged_list_no_ops childrenFn config fuel key (st : for_state)
    (items : list string) :
  ok st → keys key items = map_keys (mappedItems st) →
  length items ≤ fuel → (Z.of_nat (length items) ≤ 2 ^ 31)%Z →
  ∃ r, reconcile childrenFn config fuel key st items = Some r
     ∧ r_log r = []
     ∧ r_lis r = LisSpec.index_array (seq 0 (length items))
     ∧ children (r_state r) = children st
     ∧ map_nodes (mappedItems (r_state r)) = map_nodes (mappedItems st).
Proof.
  intros Hok Hsame Hfuel Hsize.
  assert (NoDup (keys key items)) as Hkeys by (rewrite Hsame; apply (ok_keys _ Hok)).
  rewrite (reconcile_no_call childrenFn new_element) by (done || apply (ok_keys _ Hok)).
  destruct (reconcile_keyed new_element config fuel key st items new_element_renders
              Hok Hkeys Hfuel Hsize)
    as (nm & fresh' & l & Hr & Has & Hres & _).
  destruct (assigned_same key st items nm fresh' Hok Hsame Has) as (HN & Hdrop & Hpos).
  eexists. split; [exact Hr|]. cbn [r_state r_log r_lis showing children mappedItems].
  assert (Patience.no_skip (Z.of_nat <$> seq 0 (length items))) as Hns.
  { intros i. rewrite list_lookup_fmap.
    destruct (seq 0 (length items) !! i); simpl; [|done]. intros [= ?]. lia. }
  assert (Patience.strictly_increasing (Z.of_nat <$> seq 0 (length items))) as Hinc.
  { intros i a b Ha Hb. rewrite list_lookup_fmap in Ha, Hb.
    destruct (seq 0 (length items) !! i) as [x|] eqn:Hx; [|done].
    destruct (seq 0 (length items) !! S i) as [y|] eqn:Hy; [|done].
    apply lookup_seq in Hx as [-> _]. apply lookup_seq in Hy as [-> _].
    simpl in Ha, Hb. injection Ha as <-. injection Hb as <-. lia. }
  assert (l = seq 0 (length items)) as ->.
  { apply index_array_inj. rewrite Hpos in Hres.
    rewrite (LisExtraFacts.lis_result_all _ _ Hns Hinc Hres).
    by rewrite length_fmap, length_seq. }
  split_and!; [|done|by rewrite (ok_children _ Hok), HN|done].
  rewrite Hdrop. simpl. unfold walk_ops. apply omap_none.
  intros p Hp. rewrite elem_of_reverse in Hp. by rewrite decide_True.
Qed.

Lemma unchanged_list_no_ops_witness :
  ∃ r, reconcile new_fragment Lis.default_config 2 None two_items ["a"; "b"] = Some r
     ∧ r_log r = []
     ∧ r_lis r = LisSpec.index_array (seq 0 (length ["a"; "b"]))
     ∧ children (r_state r) = children two_items
     ∧ map_nodes (mappedItems (r_state r)) = map_nodes (mappedItems two_items).
Proof.
  apply (unchanged_list_no_ops new_fragment Lis.default_config 2 None two_items
           ["a"; "b"]).
  - apply ok_two_items.
  - by vm_compute.
  - simpl. lia.
  - vm_compute. discriminate.
Defined.

(** X22. When the prop [children] is of the usual kind, then whatever
    lists with distinct keys the component is given one after the other,
    from its first render on, every run returns and the document ends up
    showing one node for each item of the last list, in the order of that
    list, before the end marker. *)
Theorem updates_show_last childrenFn config fuel key (lists : list (list string)) :
  renders_elements childrenFn →
  (∀ items, items ∈ lists →
     NoDup (keys key items) ∧ length items ≤ fuel
     ∧ (Z.of_nat (length items) ≤ 2 ^ 31)%Z) →
  ∃ st, updates childrenFn config fuel key initial lists = Some st
      ∧ ok st
      ∧ map_keys (mappedItems st) = keys key (default [] (last lists))
      ∧ children st = map_nodes (mappedItems st) ++ [endMarker].
Proof.
  intros Hre.
  assert (∀ ls st0 shown,
            ok st0 → map_keys (mappedItems st0) = keys key shown →
            (∀ items, items ∈ ls →
               NoDup (keys key items) ∧ length items ≤ fuel
               ∧ (Z.of_nat (length items) ≤ 2 ^ 31)%Z) →
            ∃ st, updates childrenFn config fuel key st0 ls = Some st
                ∧ ok st
                ∧ map_keys (mappedItems st) = keys key (default shown (last ls))
                ∧ children st = map_nodes (mappedItems st) ++ [endMarker]) as Hgen.
  { induction ls as [|items rest IH]; intros st0 shown Hok Hshown Hall.
    - exists st0. split_and!; [done|done|done|apply (ok_children _ Hok)].
    - destruct (Hall items (list_elem_of_here _ _)) as (Hkeys & Hfuel & Hsize).
      destruct (reconcile_keyed childrenFn config fuel key st0 items Hre Hok Hkeys
                  Hfuel Hsize)
        as (nm & fresh' & l & Hr & Has & _).
      cbn [updates]. rewrite Hr. cbn [mbind option_bind r_state].
      destruct (IH (showing nm fresh') items)
        as (st & Hu & Hok' & Hk & Hc).
      { by apply (assigned_ok key st0 items). }
      { apply (assigned_keys _ _ _ _ _ Has). }
      { intros items' Hin. by apply Hall, list_elem_of_further. }
      exists st. split_and!; [done|done| |done].
      rewrite Hk, last_cons. by destruct (last rest). }
  intros Hall. apply (Hgen lists initial []); [apply ok_initial|done|done].
Qed.

Lemma updates_show_last_witness :
  ∃ st, updates new_element Lis.default_config 3 None initial
          [["a"; "b"; "c"]; ["c"; "b"; "a"]]
        = Some st
      ∧ ok st
      ∧ map_keys (mappedItems st)
        = keys None (default [] (last [["a"; "b"; "c"]; ["c"; "b"; "a"]]))
      ∧ children st = map_nodes (mappedItems st) ++ [endMarker].
Proof.
  apply (updates_show_last new_element Lis.default_config 3 None
           [["a"; "b"; "c"]; ["c"; "b"; "a"]]).
  { apply new_element_renders. }
  intros items Hin.
  repeat (apply elem_of_cons in Hin as [->|Hin];
          [split_and!; [apply (bool_decide_unpack _); by vm_compute
                       |simpl; lia|vm_compute; discriminate]|]).
  by apply elem_of_nil in Hin.
Defined.

(** X30. The hypothesis on the prop [children] is needed. When the prop
    returns a [DocumentFragment] holding two nodes, [insertBefore] moves
    these into the container and the component keeps the emptied fragment
    as the node of the item: the document does not show the node of the
    map; removing the item calls the cleanup, which finds a node without
    parent and leaves the two nodes in the document; and a run that has to
    put a new item in front of that item raises, the fragment being no
    child of the container. *)
Theorem fragment_items_are_lost :
  ∃ r, reconcile new_fragment Lis.default_config 1 None initial ["a"] = Some r
     ∧ node_of (r_state r) "a" = Some 1
     ∧ frag_get (fragments (r_state r)) 1 = Some []
     ∧ children (r_state r) = [2; 3; endMarker]
     ∧ (∃ r', reconcile new_fragment Lis.default_config 0 None (r_state r) [] = Some r'
            ∧ r_log r' = [Remove 1]
            ∧ mappedItems (r_state r') = []
            ∧ children (r_state r') = [2; 3; endMarker])
     ∧ reconcile new_fragment Lis.default_config 2 None (r_state r) ["b"; "a"] = None.
Proof.
  eexists. split; [by vm_compute|]. cbn [r_state].
  split_and!; [by vm_compute|by vm_compute|by vm_compute| |by vm_compute].
  eexists. split; [by vm_compute|]. by vm_compute.
Qed.

(** A run in which the prop [children] throws raises: the first item that
    needs a node decides. *)
Lemma renderer_throw_propagates childrenFn config fuel key (st : for_state)
    (d : string) (rest : list string) :
  map_get (mappedItems st) (item_key key d 0) = None →
  render childrenFn d 0 (document_of st) = None →
  reconcile childrenFn config fuel key st (d :: rest) = None.
Proof. intros Hnew Hthrow. unfold reconcile. cbn [pass1]. by rewrite Hnew, Hthrow. Qed.

Lemma throws_on_x_raises :
  reconcile throws_on_x Lis.default_config 2 None two_items ["x"; "a"] = None.
Proof. by apply renderer_throw_propagates. Qed.

End KeyedExtra.

(** ** The virtualizer: the visible window and the array that holds it *)

Module VirtualizerFacts.

Import Virtualizer.

Lemma floor_le (a b q : Z) : (0 < b)%Z → (a < (q + 1) * b)%Z → (a / b ≤ q)%Z.
Proof.
  intros Hb Ha. assert (a / b < q + 1)%Z; [|lia].
  apply Z.div_lt_upper_bound; lia.
Qed.

Lemma ceil_ge (a b q : Z) : (0 < b)%Z → (q * b < a)%Z → (q ≤ ceil_div a b)%Z.
Proof.
  intros Hb Ha. unfold ceil_div.
  assert (- a / b < - q + 1)%Z; [|lia].
  apply Z.div_lt_upper_bound; lia.
Qed.

Lemma window_length lst h vs :
  length (window lst h vs) = Z.to_nat (endIndex vs - startIndex vs + 1).
Proof. unfold window. by rewrite length_fmap, length_seq. Qed.

Lemma set_item_in (arr : list (option VirtualItem)) i x :
  i < length arr → set_item arr i x = <[i := Some x]> arr.
Proof.
  intros Hi. unfold set_item. by destruct (Nat.ltb_spec i (length arr)); [|lia].
Qed.

Lemma fill_spec lst h vs (arr : list (option VirtualItem)) : ∀ count,
  count ≤ length arr →
  fill lst h vs count arr
  = ((λ i, Some (item_at lst h vs i)) <$> seq 0 count) ++ drop count arr.
Proof.
  induction count as [|k IH]; intros Hk.
  - by rewrite drop_0.
  - unfold fill in *. rewrite seq_S, foldl_app. simpl. rewrite IH by lia.
    destruct (lookup_lt_is_Some_2 arr k) as [y Hy]; [lia|].
    rewrite set_item_in.
    2:{ rewrite length_app, length_fmap, length_seq, length_drop. lia. }
    rewrite insert_app_r_alt by (rewrite length_fmap, length_seq; lia).
    rewrite length_fmap, length_seq, Nat.sub_diag.
    rewrite (drop_S arr y k Hy). simpl.
    rewrite fmap_app. simpl. by rewrite <-app_assoc.
Qed.

Lemma reused_array_alloc arr c : reused_array (alloc arr c) = arr.
Proof.
  unfold reused_array, alloc. simpl.
  by rewrite lookup_app_r, Nat.sub_diag by lia.
Qed.

(** What a call of the function of [visibleItems] leaves. *)
Lemma visibleItems_spec lst h vs c :
  closure_ok c →
  closure_ok (visibleItems lst h vs c).2
  ∧ (visibleItems lst h vs c).1 = reused (visibleItems lst h vs c).2
  ∧ reused_array (visibleItems lst h vs c).2
    = (if (endIndex vs <? startIndex vs)%Z then [] else window lst h vs)
  ∧ ((endIndex vs - startIndex vs + 1 = lastCount c)%Z →
     (endIndex vs <? startIndex vs)%Z = false →
     (visibleItems lst h vs c).1 = reused c).
Proof.
  intros [Hr Hc]. unfold visibleItems.
  destruct (Z.ltb_spec (endIndex vs) (startIndex vs)) as [Hempty|Hwin].
  - destruct (Nat.eqb_spec (length (reused_array c)) 0) as [Hz|Hnz]; simpl.
    + split_and!; [|done| |done].
      * split; simpl; [done|]. unfold reused_array in *. simpl. by rewrite Hz.
      * unfold reused_array in *. simpl. by destruct (heap c !! reused c) as [[|]|].
    + split_and!; [|done| |done].
      * split; simpl; [rewrite length_app; simpl; lia|].
        change (reused_array (with_lastCount (alloc [] c) 0))
          with (reused_array (alloc [] c)). by rewrite reused_array_alloc.
      * change (reused_array (with_lastCount (alloc [] c) 0))
          with (reused_array (alloc [] c)). by rewrite reused_array_alloc.
  - set (count := (endIndex vs - startIndex vs + 1)%Z).
    set (c1 := if negb (count =? lastCount c)%Z
               then with_lastCount (alloc (replicate (Z.to_nat count) None) c) count
               else c).
    assert ((reused c1 < length (heap c1))%nat
            ∧ length (reused_array c1) = Z.to_nat count
            ∧ lastCount c1 = count
            ∧ (count = lastCount c → c1 = c)) as (Hr1 & Hl1 & Hc1 & Hsame).
    { subst c1. destruct (Z.eqb_spec count (lastCount c)) as [Heq|Hne]; simpl.
      - split_and!; [done|lia|done|done].
      - split_and!; [rewrite length_app; simpl; lia| |done|done].
        change (reused_array (with_lastCount ?x ?n)) with (reused_array x).
        by rewrite reused_array_alloc, length_replicate. }
    assert ((if (Z.of_nat (length lst) <? 64)%Z
             then fill lst h vs (Z.to_nat count) (reused_array c1)
             else fill lst h vs (Z.to_nat count) (reused_array c1))
            = window lst h vs) as ->.
    { assert (fill lst h vs (Z.to_nat count) (reused_array c1) = window lst h vs) as ->.
      { rewrite fill_spec by lia. rewrite drop_ge by lia. by rewrite app_nil_r. }
      by destruct (Z.of_nat (length lst) <? 64)%Z. }
    cbn [fst snd reused].
    assert (reused_array {| heap := <[reused c1 := window lst h vs]> (heap c1);
                            reused := reused c1; lastCount := lastCount c1 |}
            = window lst h vs) as Harr.
    { unfold reused_array. simpl. by rewrite list_lookup_insert_eq. }
    split_and!.
    + split; simpl; [by rewrite length_insert|].
      rewrite Harr, window_length. fold count. lia.
    + done.
    + done.
    + intros Heq _. by rewrite (Hsame Heq).
Qed.

Lemma initial_ok : closure_ok initial.
Proof. split; [simpl; lia|done]. Qed.

End VirtualizerFacts.

Module VirtualizerExtra.

Import Virtualizer VirtualizerFacts.

(** X23. For a list shorter than 2^32 and integer values of the scroll
    position, the container height, the item height and the overscan that
    are small enough for the double arithmetic of the code to be exact
    (the sum of their magnitudes and of the product of overscan and item
    height is below 2^53), with a positive container height and item
    height and a non-negative overscan: the window of [visibleState] lies within the
    list, its offset is that of its first item, and every item of the list
    that intersects the viewport [scroll, scroll + height) is in it. *)
Theorem window_covers_viewport (listLen height itemHeight overscan scroll i : Z) :
  exact_range listLen height itemHeight overscan scroll →
  (0 < height)%Z → (0 < itemHeight)%Z → (0 ≤ overscan)%Z →
  (0 ≤ i < listLen)%Z →
  (i * itemHeight < scroll + height)%Z → (scroll < (i + 1) * itemHeight)%Z →
  (0 ≤ startIndex (visibleState listLen height itemHeight overscan scroll)
   ∧ startIndex (visibleState listLen height itemHeight overscan scroll) ≤ i
   ∧ i ≤ endIndex (visibleState listLen height itemHeight overscan scroll)
   ∧ endIndex (visibleState listLen height itemHeight overscan scroll) ≤ listLen - 1
   ∧ scrollOffset (visibleState listLen height itemHeight overscan scroll)
     = startIndex (visibleState listLen height itemHeight overscan scroll) * itemHeight)%Z.
Proof.
  intros _ Hh Hi Ho Hrange Htop Hbottom. unfold visibleState.
  destruct (Z.leb_spec height 0); [lia|].
  destruct (Z.eqb_spec listLen 0); [lia|].
  destruct (Z.leb_spec itemHeight 0); [lia|]. simpl.
  pose proof (floor_le scroll itemHeight i Hi Hbottom).
  pose proof (ceil_ge (scroll + height) itemHeight i Hi Htop).
  lia.
Qed.

Lemma window_covers_viewport_witness :
  (0 ≤ startIndex (visibleState 1000 300 20 5 4010)
   ∧ startIndex (visibleState 1000 300 20 5 4010) ≤ 200
   ∧ 200 ≤ endIndex (visibleState 1000 300 20 5 4010)
   ∧ endIndex (visibleState 1000 300 20 5 4010) ≤ 1000 - 1
   ∧ scrollOffset (visibleState 1000 300 20 5 4010)
     = startIndex (visibleState 1000 300 20 5 4010) * 20)%Z.
Proof.
  apply (window_covers_viewport 1000 300 20 5 4010 200); unfold exact_range; lia.
Defined.

(** X24. The function of [visibleItems] returns the array [reused], which
    then holds the items of the window in order, each with its index, its
    datum and its offset (and nothing when the window is empty); [reused]
    has [lastCount] elements before and after. *)
Theorem visibleItems_returns_window (lst : list Reactive.jsval) (itemHeight : Z)
    (vs : VisibleState) (c : closure) :
  closure_ok c →
  closure_ok (visibleItems lst itemHeight vs c).2
  ∧ (visibleItems lst itemHeight vs c).1 = reused (visibleItems lst itemHeight vs c).2
  ∧ reused_array (visibleItems lst itemHeight vs c).2
    = (if (endIndex vs <? startIndex vs)%Z then [] else window lst itemHeight vs).
Proof.
  intros Hc. destruct (visibleItems_spec lst itemHeight vs c Hc) as (H1 & H2 & H3 & _).
  done.
Qed.

Lemma visibleItems_returns_window_witness :
  reused_array (visibleItems [Reactive.VNum 10; Reactive.VNum 11; Reactive.VNum 12] 20
                  {| startIndex := 1; endIndex := 2; scrollOffset := 20 |} initial).2
  = [Some {| index := 1; data := Some (Reactive.VNum 11); offsetTop := 20 |};
     Some {| index := 2; data := Some (Reactive.VNum 12); offsetTop := 40 |}].
Proof.
  apply (visibleItems_returns_window
           [Reactive.VNum 10; Reactive.VNum 11; Reactive.VNum 12] 20
           {| startIndex := 1; endIndex := 2; scrollOffset := 20 |} initial).
  apply initial_ok.
Defined.

(** X25. When the window moves without changing its size, the function of
    [visibleItems] fills and returns the very array it returned before; the
    memo then writes to its signal a value that is [Object.is]-identical to
    the one it holds, and that write changes nothing: no subscriber of
    [visibleItems] is marked dirty, although the array now holds other
    items. *)
Theorem sliding_window_keeps_array (lst : list Reactive.jsval) (itemHeight : Z)
    (vs : VisibleState) (c : closure) (w : Reactive.world) (memo : nat)
    (sig : Reactive.Signal) :
  closure_ok c →
  (endIndex vs <? startIndex vs)%Z = false →
  (endIndex vs - startIndex vs + 1 = lastCount c)%Z →
  Reactive.signals w !! memo = Some sig →
  Reactive.value sig = Reactive.VRef (reused c) →
  (visibleItems lst itemHeight vs c).1 = reused c
  ∧ reused_array (visibleItems lst itemHeight vs c).2 = window lst itemHeight vs
  ∧ Reactive.write memo (Reactive.VRef (visibleItems lst itemHeight vs c).1) w = w.
Proof.
  intros Hc Hwin Hcount Hsig Hval.
  destruct (visibleItems_spec lst itemHeight vs c Hc) as (_ & _ & H3 & H4).
  rewrite Hwin in H3. specialize (H4 Hcount Hwin).
  split_and!; [done|done|].
  rewrite H4. unfold Reactive.write, Reactive.Object_is. rewrite Hsig, Hval.
  by rewrite bool_decide_eq_true_2.
Qed.

Lemma sliding_window_keeps_array_witness :
  (visibleItems five 20 {| startIndex := 1; endIndex := 2; scrollOffset := 20 |}
     after_first_window).1 = reused after_first_window
  ∧ reused_array
      (visibleItems five 20 {| startIndex := 1; endIndex := 2; scrollOffset := 20 |}
         after_first_window).2
    = window five 20 {| startIndex := 1; endIndex := 2; scrollOffset := 20 |}
  ∧ Reactive.write 0
      (Reactive.VRef
         (visibleItems five 20 {| startIndex := 1; endIndex := 2; scrollOffset := 20 |}
            after_first_window).1)
      (Reactive.createSignal (Reactive.VRef 1) Reactive.initial).1
    = (Reactive.createSignal (Reactive.VRef 1) Reactive.initial).1.
Proof.
  apply (sliding_window_keeps_array five 20
           {| startIndex := 1; endIndex := 2; scrollOffset := 20 |}
           after_first_window
           (Reactive.createSignal (Reactive.VRef 1) Reactive.initial).1 0
           {| Reactive.value := Reactive.VRef 1; Reactive.subscribers := [] |}).
  - apply (visibleItems_spec five 20 _ initial initial_ok).
  - reflexivity.
  - reflexivity.
  - reflexivity.
  - reflexivity.
Defined.

End VirtualizerExtra.

(** ** Show: one branch at a time *)

Module ShowFacts.

Import Reconciler ShowComponent.

Lemma new_element_renders_element : renders_element new_element.
Proof.
  intros d. exists (doc_fresh d), no_cleanups, (S (doc_fresh d)).
  split_and!; [done|lia|lia|done].
Qed.

Lemma usual_new_element (with_fallback : bool) :
  usual {| children := new_element;
           fallback := if with_fallback then Some new_element else None |}.
Proof.
  split; simpl; [apply new_element_renders_element|].
  intros f Hf. destruct with_fallback; [|done]. injection Hf as <-.
  apply new_element_renders_element.
Qed.

(** Putting a new node in front of the end marker of an empty container. *)
Lemma insert_first n fresh :
  1 ≤ n →
  insertBefore {| doc_children := [endMarker]; doc_fragments := []; doc_fresh := fresh |}
    n endMarker
  = Some {| doc_children := [n; endMarker]; doc_fragments := []; doc_fresh := fresh |}.
Proof.
  intros Hn. unfold insertBefore, endMarker. simpl.
  destruct (decide (0 ∈ [0])) as [_|Hnot]; [|destruct Hnot; apply list_elem_of_here].
  destruct (decide (n = 0)) as [->|Hne]; [lia|].
  unfold move_before, remove, insert_in_front.
  rewrite filter_cons_True by lia. rewrite filter_nil. simpl.
  case_decide; [lia|done].
Qed.

(** The disposer of a state of the component empties the container. *)
Lemma dispose_current s :
  ok s →
  match currentDisposer s with
  | Some dispose => dispose (doc s)
  | None => Some (doc s)
  end
  = Some {| doc_children := [endMarker]; doc_fragments := [];
            doc_fresh := doc_fresh (doc s) |}.
Proof.
  intros Hok. pose proof (ok_dom _ Hok) as Hdom.
  pose proof (ok_fragments _ Hok) as Hfr. pose proof (ok_disposer _ Hok) as Hd.
  destruct (doc s) as [ch fr f] eqn:Hdoc. simpl in *. subst fr.
  destruct (currentDisposer s) as [dispose|].
  - destruct Hd as (n & Hn & Hdisp). rewrite Hdisp. rewrite Hn in Hdom. subst ch.
    pose proof (ok_node _ Hok n Hn) as Hbound.
    unfold remove_node, remove, endMarker. simpl.
    rewrite filter_cons_False by (intros H; by apply H).
    rewrite filter_cons_True by lia. done.
  - rewrite Hd in Hdom. by subst ch.
Qed.

(** One run, from a state of the component. *)
Lemma run_ok props condition s :
  usual props → ok s →
  ∃ s', run props condition s = Some s'
      ∧ ok s'
      ∧ branch s'
        = (if condition then Some true
           else match fallback props with Some _ => Some false | None => None end)
      ∧ ∀ n, branchElement s' = Some n → doc_fresh (doc s) ≤ n.
Proof.
  intros Hprops Hok. unfold run. rewrite (dispose_current s Hok).
  cbn [mbind option_bind].
  pose proof (ok_fresh _ Hok) as Hfresh.
  assert (∀ f, renders_element f →
    ∃ s',
      ('(element, c, doc2) ← f {| doc_children := [endMarker]; doc_fragments := [];
                                  doc_fresh := doc_fresh (doc s) |};
       doc3 ← insertBefore doc2 element endMarker;
       Some {| doc := doc3; currentDisposer := Some (root_disposer element c);
               branch := Some condition; branchElement := Some element |}) = Some s'
      ∧ ok s' ∧ branch s' = Some condition
      ∧ ∀ n, branchElement s' = Some n → doc_fresh (doc s) ≤ n) as Hrender.
  { intros f Hf.
    destruct (Hf {| doc_children := [endMarker]; doc_fragments := [];
                    doc_fresh := doc_fresh (doc s) |})
      as (n & c & fresh' & -> & Hn & Hc).
    cbn [doc_children doc_fragments doc_fresh mbind option_bind] in *.
    rewrite insert_first by lia. cbn [mbind option_bind].
    eexists. split; [done|]. split_and!; [|done|].
    - split; simpl.
      + done.
      + done.
      + intros n' [= <-]. lia.
      + lia.
      + split; intros _; by eexists.
      + exists n. split; [done|]. intros d. unfold root_disposer. by rewrite Hc.
    - simpl. intros n' [= <-]. lia. }
  destruct condition.
  - destruct (Hrender _ (usual_children _ Hprops)) as (s' & -> & Hok' & Hb & Hn).
    by exists s'.
  - destruct (fallback props) as [f|] eqn:Hfb.
    + destruct (Hrender f (usual_fallback _ Hprops f Hfb)) as (s' & -> & Hok' & Hb & Hn).
      by exists s'.
    + eexists. split; [done|]. split_and!; [|done|done].
      split; simpl; try done; split; intros [? ?]; done.
Qed.

Lemma ok_initial_show : ok initial.
Proof. split; simpl; try done; split; intros [? ?]; done. Qed.

End ShowFacts.

Module ShowExtra.

Import Reconciler ShowComponent ShowFacts.

(** X26. When the props [children] and [fallback] are of the usual kind
    (each call returns a node it has just made, no fragment, and touches
    neither the container nor, with its cleanups, the document), then
    whatever values the condition takes one after the other, every run of
    the effect of [Show] returns, and afterwards the document shows, before
    the end marker, the node that the last run got from the prop the last
    value calls for ([children] when it is truthy, [fallback] when it is
    not and a fallback was given) and nothing else; the disposer of the
    root of that branch removes that node and does nothing else to the
    document. *)
Theorem show_displays_current_branch (props : ShowProps) (conditions : list bool) :
  usual props →
  ∃ s, runs props conditions initial = Some s
     ∧ branch s = match last conditions with
                  | Some c => if c then Some true
                              else match fallback props with
                                   | Some _ => Some false
                                   | None => None
                                   end
                  | None => None
                  end
     ∧ (is_Some (branch s) ↔ is_Some (branchElement s))
     ∧ doc_children (doc s) = match branchElement s with
                              | Some n => [n; endMarker]
                              | None => [endMarker]
                              end
     ∧ match currentDisposer s with
       | Some dispose =>
           ∃ n, branchElement s = Some n
                ∧ ∀ d, dispose d = Some (remove_node d n)
       | None => branchElement s = None
       end.
Proof.
  intros Hprops.
  assert (∀ cs s0, ok s0 →
            ∃ s, runs props cs s0 = Some s ∧ ok s
               ∧ branch s = match last cs with
                            | Some c => if c then Some true
                                        else match fallback props with
                                             | Some _ => Some false
                                             | None => None
                                             end
                            | None => branch s0
                            end) as Hgen.
  { induction cs as [|c rest IH]; intros s0 Hok.
    - exists s0. by split_and!.
    - destruct (run_ok props c s0 Hprops Hok) as (s1 & Hrun & Hok1 & Hb1 & _).
      destruct (IH s1 Hok1) as (s & Hruns & Hoks & Hbs).
      exists s. cbn [runs]. rewrite Hrun. simpl. split_and!; [done|done|].
      rewrite Hbs, last_cons. destruct (last rest); [done|]. by rewrite Hb1. }
  destruct (Hgen conditions initial ok_initial_show) as (s & Hruns & Hok & Hb).
  exists s. split_and!.
  - done.
  - rewrite Hb. by destruct (last conditions).
  - apply (ok_branch _ Hok).
  - apply (ok_dom _ Hok).
  - apply (ok_disposer _ Hok).
Qed.

Lemma show_displays_current_branch_witness :
  ∃ s, runs {| children := new_element; fallback := None |} [true; false; true] initial
       = Some s
     ∧ branch s = Some true
     ∧ (is_Some (branch s) ↔ is_Some (branchElement s))
     ∧ doc_children (doc s) = match branchElement s with
                              | Some n => [n; endMarker]
                              | None => [endMarker]
                              end
     ∧ match currentDisposer s with
       | Some dispose =>
           ∃ n, branchElement s = Some n
                ∧ ∀ d, dispose d = Some (remove_node d n)
       | None => branchElement s = None
       end.
Proof.
  apply (show_displays_current_branch {| children := new_element; fallback := None |}
           [true; false; true]).
  apply (usual_new_element false).
Defined.

(** X27. A run of the effect of [Show] that has a prop to call (of the
    usual kind) calls it and shows the node it returns, a node that did not
    exist before, in place of the one on display, also when the condition
    is as truthy as it was: the branch is rendered again at every run. *)
Theorem show_renders_anew (props : ShowProps) (condition : bool) (s : state) :
  usual props → ok s → (condition = true ∨ is_Some (fallback props)) →
  ∃ s' n, run props condition s = Some s'
        ∧ branchElement s' = Some n
        ∧ doc_fresh (doc s) ≤ n
        ∧ (n ∉ doc_children (doc s))
        ∧ doc_children (doc s') = [n; endMarker].
Proof.
  intros Hprops Hok Hrend.
  destruct (run_ok props condition s Hprops Hok) as (s' & Hrun & Hok' & Hb & Hnew).
  assert (is_Some (branchElement s')) as [n Hn].
  { apply (ok_branch _ Hok'). rewrite Hb. destruct condition; [by eexists|].
    destruct Hrend as [?|[f Hf]]; [done|]. rewrite Hf. by eexists. }
  exists s', n. split_and!; [done|done|by apply Hnew| |].
  - pose proof (Hnew n Hn) as Hle. rewrite (ok_dom _ Hok).
    pose proof (ok_fresh _ Hok). unfold endMarker.
    destruct (branchElement s) as [m|] eqn:Hm.
    + pose proof (ok_node _ Hok m Hm).
      rewrite !elem_of_cons, elem_of_nil. lia.
    + rewrite elem_of_cons, elem_of_nil. lia.
  - by rewrite (ok_dom _ Hok'), Hn.
Qed.

Lemma show_renders_anew_witness :
  ∃ s' n, run {| children := new_element; fallback := None |} true initial = Some s'
        ∧ branchElement s' = Some n
        ∧ doc_fresh (doc initial) ≤ n
        ∧ (n ∉ doc_children (doc initial))
        ∧ doc_children (doc s') = [n; endMarker].
Proof.
  apply (show_renders_anew {| children := new_element; fallback := None |} true initial);
    [apply (usual_new_element false)|apply ok_initial_show|by left].
Defined.

(** The hypothesis on the props is needed. When [children] returns a
    [DocumentFragment] holding two nodes, these are moved into the
    container; when the condition turns falsy the cleanup finds a fragment
    without parent, and the two nodes stay on display. *)
Lemma fragment_branch_stays :
  ∃ s, runs {| children := new_fragment; fallback := None |} [true; false] initial
       = Some s
     ∧ branch s = None
     ∧ branchElement s = None
     ∧ doc_children (doc s) = [2; 3; endMarker].
Proof. eexists. split; [by vm_compute|]. by vm_compute. Qed.

End ShowExtra.

(** ** Effects that belong to an owner *)

Module OwnedFacts.

Import Reactive ReactiveFacts Disposal ReactiveExtraFacts.


Lemma createEffect_effects body (w : Reactive.world) :
  (createEffect body w).2 = length (effects w)
  ∧ length (effects w) < length (effects (r_world (createEffect body w).1))
  ∧ (flat body →
       length (effects (r_world (createEffect body w).1)) = S (length (effects w))).
Proof.
  split; [done|]. unfold createEffect. cbn [fst].
  pose proof (fr_effects _ _ (execute_is_frame (length (effects w)) (add_effect body w)))
    as Hle.
  simpl in Hle. rewrite length_app in Hle. simpl in Hle.
  assert (flat body →
          length (effects (r_world (execute (length (effects w)) (add_effect body w))))
          = S (length (effects w))) as Hflat.
  { intros Hb. unfold execute. simpl. rewrite lookup_app_r, Nat.sub_diag by lia. simpl.
    rewrite run_flat by done. simpl.
    destruct (cleanup_frame (length (effects w)) (add_effect body w))
      as (_ & _ & _ & _ & ->). simpl. rewrite length_app. simpl. lia. }
  destruct (r_outcome (execute _ _)); cbn [r_world make_disposer with_effects effects];
    rewrite ?length_alter; split; first [lia | done].
Qed.

(** The disposers of a list of effects, one after the other. *)
Lemma disposers_keep l : ∀ (w : Reactive.world),
  wf w →
  wf (foldl (λ rw e, disposer e rw) w l)
  ∧ length (effects (foldl (λ rw e, disposer e rw) w l)) = length (effects w)
  ∧ dirtyEffects (foldl (λ rw e, disposer e rw) w l) = dirtyEffects w
  ∧ (∀ e, detached w e → detached (foldl (λ rw e, disposer e rw) w l) e)
  ∧ effectStack (foldl (λ rw e, disposer e rw) w l) = effectStack w.
Proof.
  induction l as [|e0 rest IH]; intros w Hw; [done|]. simpl.
  destruct (IH (disposer e0 w)) as (I1 & I2 & I3 & I4 & I5).
  { by apply cleanup_wf. }
  pose proof (cleanup_frame e0 w) as (F1 & F2 & _ & _ & F5).
  unfold disposer in *. split_and!; [done|congruence|congruence| |congruence].
  intros e Hdet. by apply I4, cleanup_detached.
Qed.

Lemma disposers_detach l : ∀ (w : Reactive.world) e,
  wf w → e ∈ l → e < length (effects w) → e ∉ dirtyEffects w →
  detached (foldl (λ rw e, disposer e rw) w l) e.
Proof.
  induction l as [|e0 rest IH]; intros w e Hw Hin He Hd.
  { by apply elem_of_nil in Hin. }
  simpl. destruct (decide (e = e0)) as [->|Hne].
  - apply (disposers_keep rest (disposer e0 w)); [by apply cleanup_wf|].
    by apply disposer_detached.
  - apply elem_of_cons in Hin as [?|Hin]; [done|].
    pose proof (cleanup_frame e0 w) as (_ & F2 & _ & _ & F5).
    apply IH; [by apply cleanup_wf|done|unfold disposer; lia|unfold disposer; congruence].
Qed.

Lemma dispose_rw root (w : Owned.world) :
  Owned.rw (Owned.dispose root w).2
  = foldl (λ rw e, disposer e rw) (Owned.rw w)
      (reverse (Lifecycle.cleanups_of (Owned.lw w) root)).
Proof.
  unfold Owned.dispose, Lifecycle.dispose.
  set (w1 := Lifecycle.with_currentOwner (Owned.lw w) (Some root)).
  destruct (LifecycleFacts.run_cleanups_ok Owned.call root
              (Lifecycle.cleanups_of w1 root))
    with (count := length (Lifecycle.cleanups_of w1 root)) (w := w1) (ran := @nil nat)
    as (w' & extra & Hrun & _).
  { intros f _ w0. split; [done|]. exists []. by rewrite app_nil_r. }
  { done. }
  { exists []. by rewrite app_nil_r. }
  rewrite Hrun. simpl. by rewrite firstn_all.
Qed.

(** Creating effects inside an owner: each registers its disposer. *)
Lemma create_all_spec bodies : ∀ (w : Owned.world) root,
  wf (Owned.rw w) →
  (∀ body, body ∈ bodies → flat body) →
  Lifecycle.currentOwner (Owned.lw w) = Some root →
  root < length (Lifecycle.owners (Owned.lw w)) →
  wf (Owned.rw (Owned.create_all bodies w).2)
  ∧ effectStack (Owned.rw (Owned.create_all bodies w).2) = effectStack (Owned.rw w)
  ∧ ((Owned.create_all bodies w).1 = Lifecycle.Returned →
       Lifecycle.cleanups_of (Owned.lw (Owned.create_all bodies w).2) root
       = Lifecycle.cleanups_of (Owned.lw w) root
         ++ seq (length (effects (Owned.rw w))) (length bodies)
       ∧ length (effects (Owned.rw (Owned.create_all bodies w).2))
         = length (effects (Owned.rw w)) + length bodies).
Proof.
  induction bodies as [|body rest IH]; intros w root Hw Hflat Hcur Hroot.
  { simpl. split_and!; [done|done|]. intros _. split; [by rewrite app_nil_r|lia]. }
  cbn [Owned.create_all]. unfold Owned.createEffect.
  pose proof (createEffect_wf body (Owned.rw w) Hw) as Hw'.
  pose proof (fr_stack _ _ (createEffect_is_frame body (Owned.rw w))) as Hst.
  pose proof (createEffect_effects body (Owned.rw w)) as (He & Hlt & Hlen).
  specialize (Hlen (Hflat body ltac:(left))).
  destruct (createEffect body (Owned.rw w)) as [r e] eqn:Hce. simpl in *. subst e.
  destruct (r_outcome r) eqn:Hout; simpl.
  - assert (Lifecycle.onCleanup (length (effects (Owned.rw w))) (Owned.lw w)
            = Lifecycle.with_cleanups (Owned.lw w) root
                (Lifecycle.cleanups_of (Owned.lw w) root
                 ++ [length (effects (Owned.rw w))])) as Hon.
    { unfold Lifecycle.onCleanup. by rewrite Hcur. }
    rewrite Hon.
    set (w' := {| Owned.rw := r_world r;
                  Owned.lw := Lifecycle.with_cleanups (Owned.lw w) root
                    (Lifecycle.cleanups_of (Owned.lw w) root
                     ++ [length (effects (Owned.rw w))]) |}).
    assert (Lifecycle.cleanups_of (Owned.lw w') root
            = Lifecycle.cleanups_of (Owned.lw w) root
              ++ [length (effects (Owned.rw w))]) as Hcl'.
    { subst w'. simpl.
      by rewrite LifecycleExtraFacts.cleanups_of_with_cleanups, decide_True. }
    destruct (IH w' root) as (I1 & I2 & I3).
    + done.
    + intros b Hb. apply Hflat. by right.
    + done.
    + subst w'. simpl. by rewrite length_alter.
    + split_and!; [done|by rewrite I2|]. intros Hret.
      destruct (I3 Hret) as [I4 I5]. rewrite I4, I5, Hcl'. subst w'. simpl.
      rewrite Hlen, <-app_assoc. split; [done|lia].
  - split_and!; done.
  - split_and!; done.
Qed.

End OwnedFacts.

Module OwnedExtra.

Import Reactive ReactiveFacts Disposal ReactiveExtraFacts OwnedFacts.

(** X28. Effects created one after the other by the body of [createRoot],
    all returning, with bodies that read and write signals, create signals
    and call disposers but create no effect and register no cleanup of their
    own: the cleanups of the new owner are then exactly the disposers of
    these effects, in the order of creation; and once the disposer of the
    owner has run, each of these effects that was not dirty is in no
    subscriber set and is executed by no later flush, whatever the program
    does next (creating signals and effects, reading, writing, calling
    disposers, flushing, in any number and order). *)
Theorem owned_effects_stop (bodies : list prog) (w w1 : Owned.world) (root : nat) :
  wf (Owned.rw w) → effectStack (Owned.rw w) = [] →
  (∀ body, body ∈ bodies → flat body) →
  Owned.createRoot (λ _, Owned.create_all bodies) w = (Lifecycle.Returned, w1, root) →
  Lifecycle.cleanups_of (Owned.lw w1) root
  = seq (length (effects (Owned.rw w))) (length bodies)
  ∧ ∀ e, e ∈ Lifecycle.cleanups_of (Owned.lw w1) root →
      e ∉ dirtyEffects (Owned.rw w1) →
      (∀ s, ¬ subscribed (Owned.rw (Owned.dispose root w1).2) e s)
      ∧ ∀ fuel later,
          (e ∉ flushed fuel later (Owned.rw (Owned.dispose root w1).2))
          ∧ ∀ s, ¬ subscribed
                     (run_ops fuel later (Owned.rw (Owned.dispose root w1).2)) e s.
Proof.
  intros Hw Hstack Hflat Hcr. unfold Owned.createRoot in Hcr.
  set (inside := {| Owned.rw := Owned.rw w;
                    Owned.lw := {| Lifecycle.owners :=
                                     Lifecycle.owners (Owned.lw w)
                                     ++ [{| Lifecycle.parent :=
                                              Lifecycle.currentOwner (Owned.lw w);
                                            Lifecycle.cleanups := [] |}];
                                   Lifecycle.currentOwner :=
                                     Some (length (Lifecycle.owners (Owned.lw w))) |} |})
    in *.
  assert (Lifecycle.cleanups_of (Owned.lw inside) (length (Lifecycle.owners (Owned.lw w)))
          = []) as Hnil.
  { unfold Lifecycle.cleanups_of. subst inside. simpl.
    by rewrite lookup_app_r, Nat.sub_diag by lia. }
  destruct (create_all_spec bodies inside (length (Lifecycle.owners (Owned.lw w))))
    as (H1 & H2 & H3).
  { done. }
  { done. }
  { done. }
  { subst inside. simpl. rewrite length_app. simpl. lia. }
  destruct (Owned.create_all bodies inside) as [res w2] eqn:Hall.
  injection Hcr as -> <- <-. simpl in *.
  rewrite LifecycleFacts.cleanups_of_with_currentOwner.
  destruct (H3 eq_refl) as [Hcl Hlen]. rewrite Hnil in Hcl. simpl in Hcl.
  split; [done|].
  intros e Hin Hd.
  set (after := Owned.rw (Owned.dispose (length (Lifecycle.owners (Owned.lw w)))
                            {| Owned.rw := Owned.rw w2;
                               Owned.lw := Lifecycle.with_currentOwner (Owned.lw w2)
                                             (Lifecycle.currentOwner (Owned.lw w)) |}).2).
  assert (after = foldl (λ rw e, disposer e rw) (Owned.rw w2)
                    (reverse (Lifecycle.cleanups_of (Owned.lw w2)
                                (length (Lifecycle.owners (Owned.lw w)))))) as Hafter.
  { subst after. rewrite dispose_rw. simpl.
    by rewrite LifecycleFacts.cleanups_of_with_currentOwner. }
  assert (e < length (effects (Owned.rw w2))) as He.
  { rewrite Hcl in Hin. apply elem_of_seq in Hin. lia. }
  assert (detached after e) as Hdet.
  { rewrite Hafter. apply disposers_detach; [done|by apply elem_of_reverse|done|done]. }
  destruct (disposers_keep
              (reverse (Lifecycle.cleanups_of (Owned.lw w2)
                          (length (Lifecycle.owners (Owned.lw w)))))
              (Owned.rw w2) H1) as (Hwf & _ & _ & _ & Hst).
  rewrite <-Hafter in Hwf, Hst.
  split; [apply Hdet|].
  intros fuel later.
  destruct (flushed_detached fuel later e after Hwf) as [Hran Hdet'].
  { rewrite Hst, H2. done. }
  { done. }
  split; [done|apply Hdet'].
Qed.

Lemma owned_effects_stop_witness :
  Lifecycle.cleanups_of (Owned.lw Owned.counter_root.1.2) 0 = [0]
  ∧ 0 ∉ flushed 1 [OpWrite 0 (VNum 5); OpMicrotask; OpWrite 0 (VNum 6); OpMicrotask]
          (Owned.rw (Owned.dispose 0 Owned.counter_root.1.2).2).
Proof.
  destruct (owned_effects_stop [Read 0 (λ _, Done)] Owned.one_signal
              Owned.counter_root.1.2 0) as [Hcl Hstop].
  - apply createSignal_wf, initial_wf.
  - reflexivity.
  - intros body Hin. apply list_elem_of_singleton in Hin as ->. by simpl.
  - reflexivity.
  - split; [exact Hcl|].
    apply (Hstop 0); [vm_compute; apply list_elem_of_here|vm_compute; apply not_elem_of_nil].
Defined.



End OwnedExtra.
